(** * A directed weighted graph with a lazy Dijkstra traversal

    Shallow embedding of the C++ header (graph, graph_node, graph_edge,
    dijkstra_iteration_step, dijkstra_traversal_iterator,
    dijkstra_traversal) and of its Kotlin sibling (Graph.insertEdge,
    Graph.shortestPath).

    Modelling conventions.
    - The template parameter [T] is a section variable with decidable
      equality.
    - Nodes live on the heap and are reached through shared or weak
      pointers.  Names are unique keys of [graph::nodes], so a pointer
      to a node is modelled by the node's name and the map [nodes] is
      the store the pointer is looked up in.
    - [std::unordered_map] and [std::unordered_set] are association
      lists; the order of the list is the iteration order of the
      container, which the C++ standard leaves unspecified.  Erasing
      keeps the order of the remaining entries, as the standard
      guarantees.
    - A [double] is an exact rational or [HUGE_VAL]; rounding, overflow
      and NaN are outside the model.  Edge weights are rationals.
    - The step objects of a traversal are shared between the working
      set, the iterator and its consumer: they live in a store keyed by
      the node they are made for, and every write goes to the store.
    - The [sequence] of Kotlin is the state of its coroutine, and a
      pull runs it to the next [yield] or to its end.
    - The destruction of a graph is run on a heap of use counts, one
      for the [shared_ptr] owners of each node and edge; a [weak_ptr]
      does not count. *)

From Stdlib Require Import List Bool Arith Lia String QArith Lqa Permutation.
From Stdlib Require Import SpecFloat.
Import ListNotations.
Close Scope Q_scope.

Set Implicit Arguments.

(** ** Doubles *)

Inductive double : Type :=
| Finite (q : Q)
| HUGE_VAL.

Definition Qltb (x y : Q) : bool := negb (Qle_bool y x).

(** [a < b] on doubles. *)
Definition dlt (a b : double) : bool :=
  match a, b with
  | Finite x, Finite y => Qltb x y
  | Finite _, HUGE_VAL => true
  | HUGE_VAL, _ => false
  end.

(** [a <= b] on doubles. *)
Definition dle (a b : double) : bool :=
  match a, b with
  | Finite x, Finite y => Qle_bool x y
  | _, HUGE_VAL => true
  | HUGE_VAL, Finite _ => false
  end.

(** [a + w] for a double [a] and a weight [w]. *)
Definition dadd (a : double) (w : Q) : double :=
  match a with
  | Finite x => Finite (x + w)%Q
  | HUGE_VAL => HUGE_VAL
  end.

(** [a == HUGE_VAL]. *)
Definition is_huge (a : double) : bool :=
  match a with
  | HUGE_VAL => true
  | Finite _ => false
  end.

(** ** Exceptions and the computation monad

    A computation reads and writes a state of type [S] and either
    returns normally or throws; the state at the throw is kept, so
    that what a failing call did before failing is visible. *)

Inductive exception : Type :=
| domain_error (what : string)      (* std::domain_error *)
| logic_error (what : string)       (* std::logic_error *)
| GraphKeyError (message : string)  (* Kotlin *)
| GraphEdgeError (message : string) (* Kotlin *).

Inductive outcome (A : Type) : Type :=
| Normal (a : A)
| Thrown (e : exception).
Arguments Thrown {A} e.

Definition M (S A : Type) : Type := S -> outcome A * S.

Definition ret {S A} (a : A) : M S A := fun s => (Normal a, s).

Definition throw {S A} (e : exception) : M S A := fun s => (Thrown e, s).

Definition bind {S A B} (c : M S A) (k : A -> M S B) : M S B :=
  fun s =>
    match c s with
    | (Normal a, s') => k a s'
    | (Thrown e, s') => (Thrown e, s')
    end.

Definition get {S} : M S S := fun s => (Normal s, s).

Definition modify {S} (f : S -> S) : M S unit := fun s => (Normal tt, f s).

Declare Scope comp_scope.
Delimit Scope comp_scope with comp.
Notation "x <- c ;; k" := (bind c (fun x => k))
  (at level 61, c at next level, right associativity) : comp_scope.
Notation "c ;;; k" := (bind c (fun _ => k))
  (at level 61, right associativity) : comp_scope.

(** [for (x : l) body]: the loop is left at the first throw. *)
Fixpoint for_each {S A} (body : A -> M S unit) (l : list A) : M S unit :=
  match l with
  | [] => ret tt
  | x :: l' => bind (body x) (fun _ => for_each body l')
  end.

(** The error kinds of the design, by the throw site that raises them. *)
Inductive error_kind : Type :=
| DuplicateKey
| UnknownNode
| InvalidWeight
| DuplicateEdge.

(** What the containers ask of the template parameter: keys can be
    compared. *)
Class EqDec (T : Type) : Type :=
  eq_dec : forall x y : T, {x = y} + {x <> y}.

#[export] Instance nat_EqDec : EqDec nat := Nat.eq_dec.
#[export] Instance Z_EqDec : EqDec Z := Z.eq_dec.
#[export] Instance string_EqDec : EqDec string := string_dec.

Section Graph.

Context {T : Type} {T_eq_dec : EqDec T}.

Definition keq (x y : T) : bool := if eq_dec x y then true else false.

(** ** Unordered maps keyed by [T] *)

Section UnorderedMap.
Variable V : Type.

(** [m.contains(k)] *)
Definition um_contains (m : list (T * V)) (k : T) : bool :=
  existsb (fun kv => keq k (fst kv)) m.

(** [m.find(k)], the mapped value when there is one *)
Fixpoint um_find (m : list (T * V)) (k : T) : option V :=
  match m with
  | [] => None
  | (k', v) :: m' => if eq_dec k k' then Some v else um_find m' k
  end.

(** [m[k] = v]: overwrite the entry of [k], or add one.  Where the new
    entry lands in the iteration order is unspecified; the model puts
    it last. *)
Fixpoint um_assign (m : list (T * V)) (k : T) (v : V) : list (T * V) :=
  match m with
  | [] => [(k, v)]
  | (k', v') :: m' =>
      if eq_dec k k' then (k, v) :: m' else (k', v') :: um_assign m' k v
  end.

(** Update in place of the object the entry of [k] points to. *)
Fixpoint um_update (m : list (T * V)) (k : T) (f : V -> V) : list (T * V) :=
  match m with
  | [] => []
  | (k', v') :: m' =>
      if eq_dec k k' then (k', f v') :: m' else (k', v') :: um_update m' k f
  end.

End UnorderedMap.

(** ** The C++ graph *)

Record graph_edge : Type := {
  weight : Q;
  start : T;   (* weak_ptr to the start node *)
  end_ : T     (* weak_ptr to the end node *)
}.

Record graph_node : Type := {
  name : T;
  out_edges : list graph_edge;
  in_edges : list graph_edge
}.

Record graph : Type := {
  nodes : list (T * graph_node)
}.

(** [graph_node(nameIn)] *)
Definition new_graph_node (nameIn : T) : graph_node :=
  {| name := nameIn; out_edges := []; in_edges := [] |}.

(** The graph a default-constructed [graph<T>] holds. *)
Definition empty_graph : graph := {| nodes := [] |}.

(** [p->out_edges] for the node pointer [p] *)
Definition out_edges_of (g : graph) (p : T) : list graph_edge :=
  match um_find (nodes g) p with
  | Some nd => out_edges nd
  | None => []
  end.

(** [p->in_edges] for the node pointer [p] *)
Definition in_edges_of (g : graph) (p : T) : list graph_edge :=
  match um_find (nodes g) p with
  | Some nd => in_edges nd
  | None => []
  end.

Local Open Scope comp_scope.

(** [graph::create_node] *)
Definition create_node (nameIn : T) : M graph unit :=
  g <- get ;;
  if um_contains (nodes g) nameIn
  then throw (domain_error "Node already exists")
  else modify (fun g =>
         {| nodes := um_assign (nodes g) nameIn (new_graph_node nameIn) |}).

(** The loop of the [graph_edge] constructor over [start.lock()->out_edges]:
    it throws at the first edge with the same end. *)
Fixpoint edge_exists_check (es : list graph_edge) (e : T) : M graph unit :=
  match es with
  | [] => ret tt
  | itr :: es' =>
      if keq (end_ itr) e
      then throw (domain_error "Edge asready exists")
      else edge_exists_check es' e
  end.

(** [graph_edge::graph_edge(startIn, endIn, weightIn)] *)
Definition new_graph_edge (startIn endIn : T) (weightIn : Q) : M graph graph_edge :=
  let this := {| weight := weightIn; start := startIn; end_ := endIn |} in
  if Qle_bool (weight this) 0%Q
  then throw (domain_error "Weights must be positive")
  else
    g <- get ;;
    edge_exists_check (out_edges_of g (start this)) (end_ this) ;;;
    ret this.

(** [p->out_edges.insert(edge)]: the set is keyed by the edge pointer
    and [edge] is freshly allocated, so the insertion always adds. *)
Definition insert_out_edge (p : T) (edge : graph_edge) (g : graph) : graph :=
  {| nodes := um_update (nodes g) p
       (fun nd => {| name := name nd;
                     out_edges := out_edges nd ++ [edge];
                     in_edges := in_edges nd |}) |}.

(** [p->in_edges.insert(edge)] *)
Definition insert_in_edge (p : T) (edge : graph_edge) (g : graph) : graph :=
  {| nodes := um_update (nodes g) p
       (fun nd => {| name := name nd;
                     out_edges := out_edges nd;
                     in_edges := in_edges nd ++ [edge] |}) |}.

(** [graph::create_link] *)
Definition create_link (s e : T) (w : Q) : M graph unit :=
  g <- get ;;
  if negb (um_contains (nodes g) s) || negb (um_contains (nodes g) e)
  then throw (domain_error "Node does not exist")
  else
    edge <- new_graph_edge s e w ;;
    modify (insert_out_edge s edge) ;;;
    modify (insert_in_edge e edge).

(** ** The traversal *)

Record dijkstra_iteration_step : Type := {
  current : T;            (* shared_ptr to the node *)
  distance : double;
  previous : option T     (* shared_ptr to the previous node, or nullptr *)
}.

(** [dijkstra_iteration_step(node)] *)
Definition new_dijkstra_iteration_step (node : T) : dijkstra_iteration_step :=
  {| current := node; distance := HUGE_VAL; previous := None |}.

(** The step objects are allocated once per node by the constructor of
    the iterator and are then shared: the working set, [current_node]
    and every pointer handed to the consumer refer to the same object.
    [steps] is the store of these objects; the object allocated for the
    node [n] is kept at [n], and a pointer to it is modelled by [n].
    [working_set] lists, in iteration order, the nodes whose entry is
    still in the map; the entry of [n] points to the object at [n].
    [iter_calls] is ghost state: it counts the executions of [iter]. *)
Record dijkstra_traversal_iterator : Type := {
  working_set : list T;
  steps : T -> dijkstra_iteration_step;
  current_node : option T;
  working_graph : graph;
  iter_calls : nat
}.

(** Write to the object at [p]. *)
Definition store (st : T -> dijkstra_iteration_step) (p : T)
    (v : dijkstra_iteration_step) : T -> dijkstra_iteration_step :=
  fun n => if eq_dec n p then v else st n.

(** [working_set.contains(n)] *)
Definition ws_contains (ws : list T) (n : T) : bool :=
  existsb (keq n) ws.

(** [working_set.erase(n)] *)
Definition ws_erase (ws : list T) (n : T) : list T :=
  filter (fun k => negb (keq n k)) ws.

(** One turn of the selection loop of [iter]: [cur] is [current_node]
    and [itr] the entry the loop is at. *)
Definition scan_step (st : T -> dijkstra_iteration_step)
    (cur : option T) (itr : T) : option T :=
  let c := match cur with None => itr | Some c => c end in
  if dlt (distance (st itr)) (distance (st c)) then Some itr else Some c.

(** The selection loop of [iter]. *)
Definition select_closest (st : T -> dijkstra_iteration_step)
    (ws : list T) : option T :=
  fold_left (scan_step st) ws None.

(** One turn of the relaxation loop of [iter] for the edge [itr];
    [c] is [current_node]. *)
Definition relax_edge (ws : list T) (c : T)
    (st : T -> dijkstra_iteration_step) (itr : graph_edge)
    : T -> dijkstra_iteration_step :=
  let e := end_ itr in
  if ws_contains ws e then
    let d := dadd (distance (st c)) (weight itr) in
    if dlt d (distance (st e)) then
      let st1 := store st e {| current := current (st e);
                               distance := d;
                               previous := previous (st e) |} in
      store st1 e {| current := current (st1 e);
                     distance := distance (st1 e);
                     previous := Some (current (st1 c)) |}
    else st
  else st.

(** [dijkstra_traversal_iterator::iter].  The [assert(end)] of its
    relaxation loop holds by ownership: the iterator holds the graph,
    the graph holds every node, and no operation removes a node. *)
Definition iter (it : dijkstra_traversal_iterator) : dijkstra_traversal_iterator :=
  let calls := S (iter_calls it) in
  match working_set it with
  | [] =>
      {| working_set := working_set it; steps := steps it;
         current_node := None; working_graph := working_graph it;
         iter_calls := calls |}
  | _ :: _ =>
      match select_closest (steps it) (working_set it) with
      | None =>
          {| working_set := working_set it; steps := steps it;
             current_node := None; working_graph := working_graph it;
             iter_calls := calls |}
      | Some c =>
          let ws := ws_erase (working_set it) (current (steps it c)) in
          if is_huge (distance (steps it c)) then
            {| working_set := ws; steps := steps it;
               current_node := None; working_graph := working_graph it;
               iter_calls := calls |}
          else
            {| working_set := ws;
               steps := fold_left (relax_edge ws c)
                          (out_edges_of (working_graph it) (current (steps it c)))
                          (steps it);
               current_node := Some c; working_graph := working_graph it;
               iter_calls := calls |}
      end
  end.

(** The loop of the constructor over [working_graph->nodes]. *)
Definition init_entry (s : T)
    (acc : list T * (T -> dijkstra_iteration_step)) (itr : T * graph_node)
    : list T * (T -> dijkstra_iteration_step) :=
  let element := new_dijkstra_iteration_step (fst itr) in
  let element :=
    if keq (fst itr) s
    then {| current := current element; distance := Finite 0%Q;
            previous := previous element |}
    else element in
  (fst acc ++ [fst itr], store (snd acc) (fst itr) element).

(** [dijkstra_traversal_iterator(graph_ptr, start, is_beginning)].  A
    cell of the store that no allocation wrote reads as a fresh step. *)
Definition new_dijkstra_traversal_iterator (graph_ptr : graph) (s : T)
    (is_beginning : bool) : outcome dijkstra_traversal_iterator :=
  let this := {| working_set := []; steps := new_dijkstra_iteration_step;
                 current_node := None; working_graph := graph_ptr;
                 iter_calls := 0 |} in
  if is_beginning then
    if negb (um_contains (nodes graph_ptr) s)
    then Thrown (logic_error "Unable to find the node")
    else
      let '(ws, st) :=
        fold_left (init_entry s) (nodes graph_ptr)
                  (working_set this, steps this) in
      Normal (iter {| working_set := ws; steps := st;
                      current_node := None; working_graph := graph_ptr;
                      iter_calls := 0 |})
  else Normal this.

(** [operator++] *)
Definition incr (it : dijkstra_traversal_iterator) : dijkstra_traversal_iterator :=
  iter it.

(** [operator*]: the pointer to the current step. *)
Definition deref (it : dijkstra_traversal_iterator) : option T :=
  current_node it.

(** [operator!=] *)
Definition not_at_end (it : dijkstra_traversal_iterator) : bool :=
  match current_node it with
  | Some _ => true
  | None => false
  end.

Record dijkstra_traversal : Type := {
  traversal_graph : graph;   (* working_graph *)
  traversal_start : T        (* start *)
}.

(** [dijkstra_traversal(g, s)] *)
Definition new_dijkstra_traversal (g : graph) (s : T) : outcome dijkstra_traversal :=
  Normal {| traversal_graph := g; traversal_start := s |}.

(** [dijkstra_traversal::begin] *)
Definition begin (t : dijkstra_traversal) : outcome dijkstra_traversal_iterator :=
  new_dijkstra_traversal_iterator (traversal_graph t) (traversal_start t) true.

(** [dijkstra_traversal::end] *)
Definition end_iterator (t : dijkstra_traversal) : outcome dijkstra_traversal_iterator :=
  new_dijkstra_traversal_iterator (traversal_graph t) (traversal_start t) false.

(** The body of [for (auto step : traversal)] run from the iterator
    [it]: while [it != end], read [*it], then [++it].  The result lists
    what the consumer reads through each pointer when it is handed
    over.  [fuel] bounds the number of turns. *)
Fixpoint range_for (fuel : nat) (it : dijkstra_traversal_iterator)
    : list dijkstra_iteration_step :=
  match fuel with
  | 0 => []
  | S fuel' =>
      match deref it with
      | None => []
      | Some p => steps it p :: range_for fuel' (incr it)
      end
  end.

(** A consumer that leaves the loop in the body of its [k]-th turn:
    the steps it read and the iterator it leaves behind. *)
Fixpoint range_for_break (k : nat) (it : dijkstra_traversal_iterator)
    : list dijkstra_iteration_step * dijkstra_traversal_iterator :=
  match k with
  | 0 => ([], it)
  | S k' =>
      match deref it with
      | None => ([], it)
      | Some p =>
          match k' with
          | 0 => ([steps it p], it)
          | S _ =>
              let '(l, it') := range_for_break k' (incr it) in
              (steps it p :: l, it')
          end
      end
  end.

(** A traversal run to exhaustion: [for (auto step : dijkstra_traversal<T>(g, s))]. *)
Definition traverse (g : graph) (s : T) : outcome (list dijkstra_iteration_step) :=
  match new_dijkstra_traversal g s with
  | Thrown e => Thrown e
  | Normal t =>
      match begin t with
      | Thrown e => Thrown e
      | Normal it => Normal (range_for (S (List.length (nodes g))) it)
      end
  end.

End Graph.

Arguments graph_edge : clear implicits.
Arguments graph_node : clear implicits.
Arguments graph : clear implicits.
Arguments dijkstra_iteration_step : clear implicits.
Arguments dijkstra_traversal_iterator : clear implicits.
Arguments dijkstra_traversal : clear implicits.

(** ** The Kotlin sibling *)

Module Kotlin.
Section Graph.

Context {T : Type} {T_eq_dec : EqDec T}.

Record GraphEdge : Type := {
  start : T;     (* the start GraphNode *)
  end_ : T;      (* the end GraphNode *)
  weight : Q
}.

Record GraphNode : Type := {
  name : T;
  outEdges : list GraphEdge;   (* mutableSetOf: insertion order *)
  inEdges : list GraphEdge
}.

Record Graph : Type := {
  nodes : list (T * GraphNode)  (* mutableMapOf: insertion order *)
}.

Local Open Scope comp_scope.

(** [GraphEdge(start, end, weight)] with its [init] block *)
Definition newGraphEdge (s e : T) (w : Q) : M Graph GraphEdge :=
  if Qle_bool w 0%Q
  then throw (GraphEdgeError "Edge weights must be positive values")
  else ret {| start := s; end_ := e; weight := w |}.

(** [Graph.insertNode] *)
Definition insertNode (nameIn : T) : M Graph unit :=
  g <- get ;;
  if um_contains (nodes g) nameIn
  then throw (GraphKeyError "No duplicate keys allowed")
  else modify (fun g =>
         {| nodes := um_assign (nodes g) nameIn
                       {| name := nameIn; outEdges := []; inEdges := [] |} |}).

Definition outEdgesOf (g : Graph) (p : T) : list GraphEdge :=
  match um_find (nodes g) p with
  | Some nd => outEdges nd
  | None => []
  end.

Definition inEdgesOf (g : Graph) (p : T) : list GraphEdge :=
  match um_find (nodes g) p with
  | Some nd => inEdges nd
  | None => []
  end.

(** The loop of [insertEdge] over [nodes[start]!!.outEdges]. *)
Fixpoint edgeExistsCheck (es : list GraphEdge) (e : T) : M Graph unit :=
  match es with
  | [] => ret tt
  | other :: es' =>
      if keq (end_ other) e
      then throw (GraphEdgeError "An edge already exists")
      else edgeExistsCheck es' e
  end.

(** [Graph.insertEdge] *)
Definition insertEdge (s e : T) (w : Q) : M Graph unit :=
  g <- get ;;
  if negb (um_contains (nodes g) s) || negb (um_contains (nodes g) e)
  then throw (GraphKeyError "Failed to find node")
  else
    edgeExistsCheck (outEdgesOf g s) e ;;;
    edge <- newGraphEdge s e w ;;
    modify (fun g =>
      {| nodes := um_update (nodes g) s
           (fun nd => {| name := name nd;
                         outEdges := outEdges nd ++ [edge];
                         inEdges := inEdges nd |}) |}) ;;;
    modify (fun g =>
      {| nodes := um_update (nodes g) e
           (fun nd => {| name := name nd;
                         outEdges := outEdges nd;
                         inEdges := inEdges nd ++ [edge] |}) |}).

Record PathEntry : Type := {
  node : T;
  distance : double;
  priorNode : option T
}.

(** The coroutine behind the sequence [shortestPath] returns.
    [entries] is the store of the [PathEntry] objects, the object made
    for the node [n] kept at [n]; [workingSet] lists the keys still in
    the map, in insertion order; [suspended] is the entry handed over
    by the [yield] the coroutine is suspended at, if it is suspended
    there; [selections] is ghost state counting the executions of the
    selection loop. *)
Record PathSequence : Type := {
  workingSet : list T;
  entries : T -> PathEntry;
  suspended : option T;
  graphOf : Graph;
  selections : nat
}.

Definition storeEntry (st : T -> PathEntry) (p : T) (v : PathEntry) : T -> PathEntry :=
  fun n => if eq_dec n p then v else st n.

(** One turn of the selection loop. *)
Definition scanStep (st : T -> PathEntry) (nextEntry : option T) (entry : T)
    : option T :=
  if dle (distance (st entry))
         (match nextEntry with
          | Some n => distance (st n)
          | None => HUGE_VAL
          end)
  then Some entry
  else nextEntry.

(** The selection loop. *)
Definition selectNext (st : T -> PathEntry) (ws : list T) : option T :=
  fold_left (scanStep st) ws None.

(** One turn of the loop over [nextEntry.node.outEdges]. *)
Definition relaxEdge (ws : list T) (nextEntry : T)
    (st : T -> PathEntry) (edge : GraphEdge) : T -> PathEntry :=
  let d := dadd (distance (st nextEntry)) (weight edge) in
  if ws_contains ws (end_ edge) && dlt d (distance (st (end_ edge))) then
    let st1 := storeEntry st (end_ edge)
                 {| node := node (st (end_ edge)); distance := d;
                    priorNode := priorNode (st (end_ edge)) |} in
    storeEntry st1 (end_ edge)
      {| node := node (st1 (end_ edge)); distance := distance (st1 (end_ edge));
         priorNode := Some (node (st1 nextEntry)) |}
  else st.

(** The coroutine resumed after a [yield]: the loop over the edges of
    the entry it had handed over. *)
Definition resume (sq : PathSequence) : PathSequence :=
  match suspended sq with
  | None => sq
  | Some c =>
      {| workingSet := workingSet sq;
         entries := fold_left (relaxEdge (workingSet sq) c)
                      (outEdgesOf (graphOf sq) (node (entries sq c)))
                      (entries sq);
         suspended := None; graphOf := graphOf sq;
         selections := selections sq |}
  end.

(** One pull of the sequence: run the coroutine to its next [yield],
    or to its end. *)
Definition next (sq : PathSequence) : option T * PathSequence :=
  let sq := resume sq in
  match workingSet sq with
  | [] => (None, sq)
  | _ :: _ =>
      match selectNext (entries sq) (workingSet sq) with
      | None => (None, sq)
      | Some c =>
          let ws := ws_erase (workingSet sq) (node (entries sq c)) in
          if is_huge (distance (entries sq c)) then
            (None, {| workingSet := ws; entries := entries sq;
                      suspended := None; graphOf := graphOf sq;
                      selections := S (selections sq) |})
          else
            (Some c, {| workingSet := ws; entries := entries sq;
                        suspended := Some c; graphOf := graphOf sq;
                        selections := S (selections sq) |})
      end
  end.

(** The loop of [shortestPath] that fills the working set. *)
Definition initEntry (acc : list T * (T -> PathEntry)) (itr : T * GraphNode)
    : list T * (T -> PathEntry) :=
  (fst acc ++ [fst itr],
   storeEntry (snd acc) (fst itr)
     {| node := fst itr; distance := HUGE_VAL; priorNode := None |}).

(** [Graph.shortestPath], up to the [sequence] it returns. *)
Definition shortestPath (g : Graph) (s : T) : outcome PathSequence :=
  if negb (um_contains (nodes g) s)
  then Thrown (GraphKeyError "Need to specify a node in the graph")
  else
    let '(ws, st) :=
      fold_left initEntry (nodes g)
        ([], fun n => {| node := n; distance := HUGE_VAL; priorNode := None |}) in
    let st :=
      if ws_contains ws s
      then storeEntry st s {| node := node (st s); distance := Finite 0%Q;
                              priorNode := priorNode (st s) |}
      else st in
    Normal {| workingSet := ws; entries := st; suspended := None;
              graphOf := g; selections := 0 |}.

(** The sequence consumed to its end; [fuel] bounds the pulls. *)
Fixpoint toList (fuel : nat) (sq : PathSequence) : list PathEntry :=
  match fuel with
  | 0 => []
  | S fuel' =>
      match next sq with
      | (None, _) => []
      | (Some p, sq') => entries sq' p :: toList fuel' sq'
      end
  end.

(** [Graph.iterator]: the values of the map [nodes], in its order. *)
Definition iterator (g : Graph) : list GraphNode := map snd (nodes g).

(** [makeGraphNodes(vararg nodes)] *)
Definition makeGraphNodes (items : list T) : outcome Graph :=
  let graph := {| nodes := [] |} in
  match for_each insertNode items graph with
  | (Normal _, graph) => Normal graph
  | (Thrown e, _) => Thrown e
  end.

(** [shortestPath(s).toList()]: a pull takes an entry out of the
    working set or is the last one, so one pull more than there are
    nodes consumes the sequence to its end. *)
Definition traversal (g : Graph) (s : T) : outcome (list PathEntry) :=
  match shortestPath g s with
  | Normal sq => Normal (toList (S (List.length (nodes g))) sq)
  | Thrown e => Thrown e
  end.

End Graph.

Arguments GraphEdge : clear implicits.
Arguments GraphNode : clear implicits.
Arguments Graph : clear implicits.
Arguments PathEntry : clear implicits.
Arguments PathSequence : clear implicits.

End Kotlin.

(** ** The C++ program on IEEE doubles

    The embedding above takes a [double] for an exact rational or
    [HUGE_VAL]: it is the program where no sum is rounded, none
    overflows and no weight is a NaN or an infinity.  For the
    statements that do not outlive rounding, overflow or NaN the same
    code is embedded once more, over the binary64 numbers of
    IEEE 754 as the Standard Library specifies them: [+] rounds to
    nearest, ties to even, and overflows to an infinity; [<], [<=]
    and [==] are false when an operand is a NaN; [HUGE_VAL] is the
    positive infinity. *)

Module Binary64.

Definition double : Type := spec_float.

(** [a + b] *)
Definition add (a b : double) : double := SFadd 53 1024 a b.

(** [a < b], [a <= b] and [a == b] *)
Definition lt (a b : double) : bool := SFltb a b.
Definition le (a b : double) : bool := SFleb a b.
Definition eqb (a b : double) : bool := SFeqb a b.

Definition HUGE_VAL : double := S754_infinity false.

(** The literal [0] *)
Definition zero : double := S754_zero false.

(** The number a double stands for, when it is one. *)
Definition value (a : double) : option Q :=
  match a with
  | S754_zero _ => Some 0%Q
  | S754_finite s m e =>
      Some (inject_Z (if s then Z.neg m else Z.pos m) * 2 ^ e)%Q
  | S754_infinity _ => None
  | S754_nan => None
  end.

Section Graph.

Context {T : Type} {T_eq_dec : EqDec T}.

Record graph_edge : Type := {
  weight : double;
  start : T;
  end_ : T
}.

Record graph_node : Type := {
  name : T;
  out_edges : list graph_edge;
  in_edges : list graph_edge
}.

Record graph : Type := {
  nodes : list (T * graph_node)
}.

Definition new_graph_node (nameIn : T) : graph_node :=
  {| name := nameIn; out_edges := []; in_edges := [] |}.

Definition empty_graph : graph := {| nodes := [] |}.

Definition out_edges_of (g : graph) (p : T) : list graph_edge :=
  match um_find (nodes g) p with
  | Some nd => out_edges nd
  | None => []
  end.

Local Open Scope comp_scope.

(** [graph::create_node] *)
Definition create_node (nameIn : T) : M graph unit :=
  g <- get ;;
  if um_contains (nodes g) nameIn
  then throw (domain_error "Node already exists")
  else modify (fun g =>
         {| nodes := um_assign (nodes g) nameIn (new_graph_node nameIn) |}).

Fixpoint edge_exists_check (es : list graph_edge) (e : T) : M graph unit :=
  match es with
  | [] => ret tt
  | itr :: es' =>
      if keq (end_ itr) e
      then throw (domain_error "Edge asready exists")
      else edge_exists_check es' e
  end.

(** [graph_edge::graph_edge(startIn, endIn, weightIn)] *)
Definition new_graph_edge (startIn endIn : T) (weightIn : double)
    : M graph graph_edge :=
  let this := {| weight := weightIn; start := startIn; end_ := endIn |} in
  if le (weight this) zero
  then throw (domain_error "Weights must be positive")
  else
    g <- get ;;
    edge_exists_check (out_edges_of g (start this)) (end_ this) ;;;
    ret this.

Definition insert_out_edge (p : T) (edge : graph_edge) (g : graph) : graph :=
  {| nodes := um_update (nodes g) p
       (fun nd => {| name := name nd;
                     out_edges := out_edges nd ++ [edge];
                     in_edges := in_edges nd |}) |}.

Definition insert_in_edge (p : T) (edge : graph_edge) (g : graph) : graph :=
  {| nodes := um_update (nodes g) p
       (fun nd => {| name := name nd;
                     out_edges := out_edges nd;
                     in_edges := in_edges nd ++ [edge] |}) |}.

(** [graph::create_link] *)
Definition create_link (s e : T) (w : double) : M graph unit :=
  g <- get ;;
  if negb (um_contains (nodes g) s) || negb (um_contains (nodes g) e)
  then throw (domain_error "Node does not exist")
  else
    edge <- new_graph_edge s e w ;;
    modify (insert_out_edge s edge) ;;;
    modify (insert_in_edge e edge).

Record dijkstra_iteration_step : Type := {
  current : T;
  distance : double;
  previous : option T
}.

Definition new_dijkstra_iteration_step (node : T) : dijkstra_iteration_step :=
  {| current := node; distance := HUGE_VAL; previous := None |}.

(** The iterator, with the store of its step objects as above. *)
Record dijkstra_traversal_iterator : Type := {
  working_set : list T;
  steps : T -> dijkstra_iteration_step;
  current_node : option T;
  working_graph : graph
}.

Definition store (st : T -> dijkstra_iteration_step) (p : T)
    (v : dijkstra_iteration_step) : T -> dijkstra_iteration_step :=
  fun n => if eq_dec n p then v else st n.

(** One turn of the selection loop of [iter]. *)
Definition scan_step (st : T -> dijkstra_iteration_step)
    (cur : option T) (itr : T) : option T :=
  let c := match cur with None => itr | Some c => c end in
  if lt (distance (st itr)) (distance (st c)) then Some itr else Some c.

Definition select_closest (st : T -> dijkstra_iteration_step)
    (ws : list T) : option T :=
  fold_left (scan_step st) ws None.

(** One turn of the relaxation loop of [iter]. *)
Definition relax_edge (ws : list T) (c : T)
    (st : T -> dijkstra_iteration_step) (itr : graph_edge)
    : T -> dijkstra_iteration_step :=
  let e := end_ itr in
  if ws_contains ws e then
    let d := add (distance (st c)) (weight itr) in
    if lt d (distance (st e)) then
      let st1 := store st e {| current := current (st e);
                               distance := d;
                               previous := previous (st e) |} in
      store st1 e {| current := current (st1 e);
                     distance := distance (st1 e);
                     previous := Some (current (st1 c)) |}
    else st
  else st.

(** [dijkstra_traversal_iterator::iter] *)
Definition iter (it : dijkstra_traversal_iterator) : dijkstra_traversal_iterator :=
  match working_set it with
  | [] =>
      {| working_set := working_set it; steps := steps it;
         current_node := None; working_graph := working_graph it |}
  | _ :: _ =>
      match select_closest (steps it) (working_set it) with
      | None =>
          {| working_set := working_set it; steps := steps it;
             current_node := None; working_graph := working_graph it |}
      | Some c =>
          let ws := ws_erase (working_set it) (current (steps it c)) in
          if eqb (distance (steps it c)) HUGE_VAL then
            {| working_set := ws; steps := steps it;
               current_node := None; working_graph := working_graph it |}
          else
            {| working_set := ws;
               steps := fold_left (relax_edge ws c)
                          (out_edges_of (working_graph it) (current (steps it c)))
                          (steps it);
               current_node := Some c; working_graph := working_graph it |}
      end
  end.

(** The loop of the constructor over [working_graph->nodes]. *)
Definition init_entry (s : T)
    (acc : list T * (T -> dijkstra_iteration_step)) (itr : T * graph_node)
    : list T * (T -> dijkstra_iteration_step) :=
  let element := new_dijkstra_iteration_step (fst itr) in
  let element :=
    if keq (fst itr) s
    then {| current := current element; distance := zero;
            previous := previous element |}
    else element in
  (fst acc ++ [fst itr], store (snd acc) (fst itr) element).

(** [dijkstra_traversal(g, s).begin()] *)
Definition begin (graph_ptr : graph) (s : T) : outcome dijkstra_traversal_iterator :=
  if negb (um_contains (nodes graph_ptr) s)
  then Thrown (logic_error "Unable to find the node")
  else
    let '(ws, st) :=
      fold_left (init_entry s) (nodes graph_ptr)
                ([], new_dijkstra_iteration_step) in
    Normal (iter {| working_set := ws; steps := st;
                    current_node := None; working_graph := graph_ptr |}).

(** The loop [for (auto step : traversal)] from the iterator [it]. *)
Fixpoint range_for (fuel : nat) (it : dijkstra_traversal_iterator)
    : list dijkstra_iteration_step :=
  match fuel with
  | 0 => []
  | S fuel' =>
      match current_node it with
      | None => []
      | Some p => steps it p :: range_for fuel' (iter it)
      end
  end.

(** A traversal run to exhaustion. *)
Definition traverse (g : graph) (s : T) : outcome (list dijkstra_iteration_step) :=
  match begin g s with
  | Thrown e => Thrown e
  | Normal it => Normal (range_for (S (List.length (nodes g))) it)
  end.

End Graph.

Arguments graph_edge : clear implicits.
Arguments graph_node : clear implicits.
Arguments graph : clear implicits.
Arguments dijkstra_iteration_step : clear implicits.
Arguments dijkstra_traversal_iterator : clear implicits.

Definition tenth : double := S754_finite false 7205759403792794 (-56).
Definition fifth : double := S754_finite false 7205759403792794 (-55).
Definition three_tenths_up : double := S754_finite false 5404319552844596 (-54).
Definition nan : double := S754_nan.

End Binary64.

(** ** Error kinds

    The classes and messages of the exceptions the code throws, sorted
    into the error kinds of the design. *)

Definition kind_of (e : exception) : option error_kind :=
  match e with
  | domain_error what =>
      if (what =? "Node already exists")%string then Some DuplicateKey
      else if (what =? "Node does not exist")%string then Some UnknownNode
      else if (what =? "Weights must be positive")%string then Some InvalidWeight
      else if (what =? "Edge asready exists")%string then Some DuplicateEdge
      else None
  | logic_error what =>
      if (what =? "Unable to find the node")%string then Some UnknownNode
      else None
  | GraphKeyError message =>
      if (message =? "No duplicate keys allowed")%string then Some DuplicateKey
      else if (message =? "Failed to find node")%string then Some UnknownNode
      else if (message =? "Need to specify a node in the graph")%string
           then Some UnknownNode
      else None
  | GraphEdgeError message =>
      if (message =? "Edge weights must be positive values")%string
      then Some InvalidWeight
      else if (message =? "An edge already exists")%string then Some DuplicateEdge
      else None
  end.

(** The error kind a call failed with, if it failed. *)
Definition failure {A : Type} (r : outcome A) : option error_kind :=
  match r with
  | Normal _ => None
  | Thrown e => kind_of e
  end.

(** ** Predicates of the statements *)

Section Predicates.

Context {T : Type} {T_eq_dec : EqDec T}.

(** The names of the nodes of a graph. *)
Definition node_names (g : graph T) : list T := map fst (nodes g).

(** What [create_node] and [create_link] keep true of a graph: names
    are unique keys; the out-edges of a node start at it, end at a node
    of the graph, carry a positive weight and have pairwise different
    ends. *)
Record wf_graph (g : graph T) : Prop := {
  wf_names : NoDup (node_names g);
  wf_name : forall k nd, In (k, nd) (nodes g) -> name nd = k;
  wf_start : forall k e, In e (out_edges_of g k) -> start e = k;
  wf_end : forall k e, In e (out_edges_of g k) -> In (end_ e) (node_names g);
  wf_weight : forall k e, In e (out_edges_of g k) -> (0 < weight e)%Q;
  wf_single : forall k, NoDup (map (@end_ T) (out_edges_of g k))
}.

(** [n] can be reached from [s] along out-edges. *)
Inductive reachable (g : graph T) (s : T) : T -> Prop :=
| reach_source : In s (node_names g) -> reachable g s s
| reach_edge : forall p e,
    reachable g s p -> In e (out_edges_of g p) -> reachable g s (end_ e).

(** The distances of a list of steps never go down. *)
Definition nondecreasing (l : list (dijkstra_iteration_step T)) : Prop :=
  forall i j x y, i <= j ->
    nth_error l i = Some x -> nth_error l j = Some y ->
    dle (distance x) (distance y) = true.

(** [c] is the first entry of least distance in the scan order [ws]. *)
Definition first_closest (d : T -> double) (ws : list T) (c : T) : Prop :=
  exists l1 l2, ws = l1 ++ c :: l2 /\
    (forall n, In n l1 -> dlt (d c) (d n) = true) /\
    (forall n, In n l2 -> dle (d c) (d n) = true).

(** [c] is the last entry of least distance in the scan order [ws]. *)
Definition last_closest (d : T -> double) (ws : list T) (c : T) : Prop :=
  exists l1 l2, ws = l1 ++ c :: l2 /\
    (forall n, In n l1 -> dle (d c) (d n) = true) /\
    (forall n, In n l2 -> dlt (d c) (d n) = true).

(** The invariant of the traversal.  [acc] lists the nodes selected so
    far, oldest first; [ws] is the working set and [st] the store of
    the steps. *)
Record traversal_inv (g : graph T) (s : T) (ws : list T)
    (st : T -> dijkstra_iteration_step T) (acc : list T) : Prop := {
  inv_nodup : NoDup (acc ++ ws);
  inv_nodes : forall n, In n (acc ++ ws) <-> In n (node_names g);
  inv_current : forall n, current (st n) = n;
  inv_source :
    match acc with
    | [] => In s ws /\
            forall n, st n = {| current := n;
                                distance := if keq n s then Finite 0%Q else HUGE_VAL;
                                previous := None |}
    | a :: _ => a = s /\
                st s = {| current := s; distance := Finite 0%Q; previous := None |}
    end;
  inv_sorted : forall i j x y, i <= j ->
    nth_error acc i = Some x -> nth_error acc j = Some y ->
    dle (distance (st x)) (distance (st y)) = true;
  inv_bound : forall x n, In x acc -> In n ws ->
    dle (distance (st x)) (distance (st n)) = true;
  inv_finite : forall x, In x acc -> is_huge (distance (st x)) = false;
  inv_previous : forall n p, previous (st n) = Some p ->
    In p acc /\
    exists e, In e (out_edges_of g p) /\ end_ e = n /\
              distance (st n) = dadd (distance (st p)) (weight e);
  inv_earlier : forall i n p, nth_error acc i = Some n ->
    previous (st n) = Some p -> exists j, j < i /\ nth_error acc j = Some p;
  inv_closed : forall p e, In p acc -> In e (out_edges_of g p) ->
    In (end_ e) acc \/ is_huge (distance (st (end_ e))) = false;
  inv_reachable : forall n, is_huge (distance (st n)) = false -> reachable g s n
}.





End Predicates.

(** ** Reference counts and the destruction of a graph *)

#[export] Instance Q_EqDec : EqDec Q.
Proof.
  intros [a b] [c d].
  destruct (Z.eq_dec a c) as [->|Hn]; [|right; congruence].
  destruct (Pos.eq_dec b d) as [->|Hn]; [left; reflexivity|right; congruence].
Defined.

#[export] Instance graph_edge_EqDec {T : Type} {T_eq_dec : EqDec T}
  : EqDec (graph_edge T).
Proof.
  intros [w1 s1 e1] [w2 s2 e2].
  destruct (eq_dec w1 w2) as [->|Hn]; [|right; congruence].
  destruct (eq_dec s1 s2) as [->|Hn]; [|right; congruence].
  destruct (eq_dec e1 e2) as [->|Hn]; [left; reflexivity|right; congruence].
Defined.

Section Heap.

Context {T : Type} {T_eq_dec : EqDec T}.

(** The heap of a program that holds a graph: for each node and each
    edge the number of [shared_ptr] that own it, a weak pointer not
    counting; the nodes and edges destroyed so far, latest first; and
    whether a pointer to an object already destroyed was let go of. *)
Record heap : Type := {
  node_uses : T -> nat;
  edge_uses : graph_edge T -> nat;
  destroyed_nodes : list T;
  destroyed_edges : list (graph_edge T);
  fault : bool
}.

(** A [shared_ptr] to the edge [e] is destroyed; the edge goes with the
    last one.  The members of an edge are a number and two weak
    pointers: destroying them lets go of nothing. *)
Definition release_edge (h : heap) (e : graph_edge T) : heap :=
  match edge_uses h e with
  | 0 =>
      {| node_uses := node_uses h; edge_uses := edge_uses h;
         destroyed_nodes := destroyed_nodes h;
         destroyed_edges := destroyed_edges h; fault := true |}
  | 1 =>
      {| node_uses := node_uses h;
         edge_uses := fun x => if eq_dec x e then 0 else edge_uses h x;
         destroyed_nodes := destroyed_nodes h;
         destroyed_edges := e :: destroyed_edges h; fault := fault h |}
  | S c =>
      {| node_uses := node_uses h;
         edge_uses := fun x => if eq_dec x e then c else edge_uses h x;
         destroyed_nodes := destroyed_nodes h;
         destroyed_edges := destroyed_edges h; fault := fault h |}
  end.

(** A [shared_ptr] to the node [n] is destroyed; the node goes with the
    last one, and with the node its members, in the reverse order of
    their declaration: the set [in_edges], then the set [out_edges],
    each letting go of its edges. *)
Definition release_node (g : graph T) (h : heap) (n : T) : heap :=
  match node_uses h n with
  | 0 =>
      {| node_uses := node_uses h; edge_uses := edge_uses h;
         destroyed_nodes := destroyed_nodes h;
         destroyed_edges := destroyed_edges h; fault := true |}
  | 1 =>
      fold_left release_edge (in_edges_of g n ++ out_edges_of g n)
        {| node_uses := fun x => if eq_dec x n then 0 else node_uses h x;
           edge_uses := edge_uses h;
           destroyed_nodes := n :: destroyed_nodes h;
           destroyed_edges := destroyed_edges h; fault := fault h |}
  | S c =>
      {| node_uses := fun x => if eq_dec x n then c else node_uses h x;
         edge_uses := edge_uses h;
         destroyed_nodes := destroyed_nodes h;
         destroyed_edges := destroyed_edges h; fault := fault h |}
  end.

(** [graph::~graph]: the body is empty; then the member [nodes] is
    destroyed and lets go of its nodes one after the other, in the
    order [order]. *)
Definition graph_destructor (g : graph T) (order : list T) (h : heap) : heap :=
  fold_left (release_node g) order h.

(** The heap when the graph [g] is about to be destroyed and steps
    handed to the consumer hold [held n] pointers to the node [n]: a
    node of the graph is owned by the map and by these steps, an edge
    by the out-edges of its start and by the in-edges of its end. *)
Definition heap_of (g : graph T) (held : T -> nat) : heap :=
  {| node_uses := fun n => (if um_contains (nodes g) n then 1 else 0) + held n;
     edge_uses := fun e =>
       (if in_dec eq_dec e (out_edges_of g (start e)) then 1 else 0) +
       (if in_dec eq_dec e (in_edges_of g (end_ e)) then 1 else 0);
     destroyed_nodes := []; destroyed_edges := []; fault := false |}.

End Heap.

(** ** The header Graph.h: edges that own their nodes

    In the header [Graph.h] an edge holds its start and its end by
    [shared_ptr], so that nodes and edges own each other in cycles,
    and the destructor of the graph empties the sets of edges by hand.
    [Graph::createNode], [Graph::createLink] and the constructor of
    [GraphEdge] have there the text of [graph::create_node],
    [graph::create_link] and the constructor of [graph_edge]: they
    are modelled by these, and a graph of the header is a [graph]. *)

Module GraphH.
Section Graph.

Context {T : Type} {T_eq_dec : EqDec T}.

(** [Graph::createNode] *)
Definition createNode (name : T) : M (graph T) unit := create_node name.

(** [Graph::createLink] *)
Definition createLink (s e : T) (w : Q) : M (graph T) unit := create_link s e w.

(** The memory of a program that destroys a graph: the sets of edges
    of the nodes as they are now, the use counts of the heap, and
    whether the model ran out of fuel. *)
Record memory : Type := {
  live : graph T;
  counts : @heap T;
  starved : bool
}.

Definition with_live (s : memory) (m : graph T) : memory :=
  {| live := m; counts := counts s; starved := starved s |}.

Definition with_counts (s : memory) (h : @heap T) : memory :=
  {| live := live s; counts := h; starved := starved s |}.

(** [node->in_edges.erase(itr)], [node->out_edges.erase(itr)],
    [node->in_edges.clear()] and [node->out_edges.clear()], on the
    sets alone. *)
Definition erase_in (node : T) (itr : graph_edge T) (m : graph T) : graph T :=
  {| nodes := um_update (nodes m) node
       (fun nd => {| name := name nd; out_edges := out_edges nd;
                     in_edges := remove eq_dec itr (in_edges nd) |}) |}.

Definition erase_out (node : T) (itr : graph_edge T) (m : graph T) : graph T :=
  {| nodes := um_update (nodes m) node
       (fun nd => {| name := name nd;
                     out_edges := remove eq_dec itr (out_edges nd);
                     in_edges := in_edges nd |}) |}.

Definition clear_in (node : T) (m : graph T) : graph T :=
  {| nodes := um_update (nodes m) node
       (fun nd => {| name := name nd; out_edges := out_edges nd;
                     in_edges := [] |}) |}.

Definition clear_out (node : T) (m : graph T) : graph T :=
  {| nodes := um_update (nodes m) node
       (fun nd => {| name := name nd; out_edges := [];
                     in_edges := in_edges nd |}) |}.

(** A [shared_ptr] to a node, or to an edge, is destroyed.  The object
    goes with its last owner, and its members with it, in the reverse
    order of their declaration: for a node the set [in_edges], then
    the set [out_edges], each letting go of its edges; for an edge the
    pointer [end], then the pointer [start].  [fuel] bounds the depth
    of this cascade. *)
Fixpoint release_node (fuel : nat) (n : T) (s : memory) {struct fuel} : memory :=
  match fuel with
  | 0 => {| live := live s; counts := counts s; starved := true |}
  | S fuel' =>
      let h := counts s in
      match node_uses h n with
      | 0 =>
          with_counts s
            {| node_uses := node_uses h; edge_uses := edge_uses h;
               destroyed_nodes := destroyed_nodes h;
               destroyed_edges := destroyed_edges h; fault := true |}
      | 1 =>
          fold_left (fun s e => release_edge fuel' e s)
            (in_edges_of (live s) n ++ out_edges_of (live s) n)
            {| live := clear_out n (clear_in n (live s));
               counts :=
                 {| node_uses := fun x => if eq_dec x n then 0 else node_uses h x;
                    edge_uses := edge_uses h;
                    destroyed_nodes := n :: destroyed_nodes h;
                    destroyed_edges := destroyed_edges h; fault := fault h |};
               starved := starved s |}
      | S c =>
          with_counts s
            {| node_uses := fun x => if eq_dec x n then c else node_uses h x;
               edge_uses := edge_uses h;
               destroyed_nodes := destroyed_nodes h;
               destroyed_edges := destroyed_edges h; fault := fault h |}
      end
  end
with release_edge (fuel : nat) (e : graph_edge T) (s : memory) {struct fuel}
    : memory :=
  match fuel with
  | 0 => {| live := live s; counts := counts s; starved := true |}
  | S fuel' =>
      let h := counts s in
      match edge_uses h e with
      | 0 =>
          with_counts s
            {| node_uses := node_uses h; edge_uses := edge_uses h;
               destroyed_nodes := destroyed_nodes h;
               destroyed_edges := destroyed_edges h; fault := true |}
      | 1 =>
          release_node fuel' (start e)
            (release_node fuel' (end_ e)
               (with_counts s
                  {| node_uses := node_uses h;
                     edge_uses := fun x => if eq_dec x e then 0 else edge_uses h x;
                     destroyed_nodes := destroyed_nodes h;
                     destroyed_edges := e :: destroyed_edges h;
                     fault := fault h |}))
      | S c =>
          with_counts s
            {| node_uses := node_uses h;
               edge_uses := fun x => if eq_dec x e then c else edge_uses h x;
               destroyed_nodes := destroyed_nodes h;
               destroyed_edges := destroyed_edges h; fault := fault h |}
      end
  end.

(** [other->in_edges.erase(itr)]: the set lets go of the edge when it
    holds it. *)
Definition in_edges_erase (fuel : nat) (other : T) (itr : graph_edge T)
    (s : memory) : memory :=
  if in_dec eq_dec itr (in_edges_of (live s) other)
  then release_edge fuel itr (with_live s (erase_in other itr (live s)))
  else s.

(** [other->out_edges.erase(itr)] *)
Definition out_edges_erase (fuel : nat) (other : T) (itr : graph_edge T)
    (s : memory) : memory :=
  if in_dec eq_dec itr (out_edges_of (live s) other)
  then release_edge fuel itr (with_live s (erase_out other itr (live s)))
  else s.

(** [node->in_edges.clear()] *)
Definition in_edges_clear (fuel : nat) (node : T) (s : memory) : memory :=
  fold_left (fun s e => release_edge fuel e s)
    (in_edges_of (live s) node)
    (with_live s (clear_in node (live s))).

(** [node->out_edges.clear()] *)
Definition out_edges_clear (fuel : nat) (node : T) (s : memory) : memory :=
  fold_left (fun s e => release_edge fuel e s)
    (out_edges_of (live s) node)
    (with_live s (clear_out node (live s))).

(** One turn of the loop of [Graph::~Graph], for the node [node].  The
    first inner loop reads [node->out_edges] and writes to the
    in-edges of other nodes, the second reads [node->in_edges] and
    writes to out-edges: neither writes to the set it reads.  The
    copies of pointers that the loops hold ([nodePair], [node], [itr],
    [other]) are let go of while the pointer they were copied from is
    still there; they are never a last owner and are left out. *)
Definition sever (fuel : nat) (s : memory) (node : T) : memory :=
  let s1 :=
    fold_left (fun s itr => in_edges_erase fuel (end_ itr) itr s)
              (out_edges_of (live s) node) s in
  let s2 :=
    fold_left (fun s itr => out_edges_erase fuel (start itr) itr s)
              (in_edges_of (live s1) node) s1 in
  out_edges_clear fuel node (in_edges_clear fuel node s2).

(** [Graph::~Graph]: the loop over [nodes], in the order [order] of
    the map; then the member [nodes] is destroyed and lets go of its
    nodes, in the order [order']. *)
Definition destructor (fuel : nat) (order order' : list T) (s : memory) : memory :=
  fold_left (fun s n => release_node fuel n s) order'
    (fold_left (sever fuel) order s).

(** The memory when the graph [g] is about to be destroyed and steps
    handed to the consumer hold [held n] pointers to the node [n]: a
    node is owned by the map, by these steps, and by the edges that
    start or end at it; an edge by the out-edges of its start and by
    the in-edges of its end. *)
Definition memory_of (g : graph T) (held : T -> nat) : memory :=
  {| live := g;
     counts :=
       {| node_uses := fun n =>
            (if um_contains (nodes g) n then 1 else 0) + held n +
            List.length (out_edges_of g n) + List.length (in_edges_of g n);
          edge_uses := fun e =>
            (if in_dec eq_dec e (out_edges_of g (start e)) then 1 else 0) +
            (if in_dec eq_dec e (in_edges_of g (end_ e)) then 1 else 0);
          destroyed_nodes := []; destroyed_edges := []; fault := false |};
     starved := false |}.

(** An edge that still has an owner. *)
Definition alive (h : @heap T) (e : graph_edge T) : bool :=
  negb (edge_uses h e =? 0).

(** The memory while the loop of the destructor runs, the pointers to
    the edges [pending] being about to be let go of: the count of an
    edge is the number of sets and of pending pointers that hold it,
    the count of a node that of the map, of the steps and of the
    edges alive that hold it; no node is destroyed, and the edges
    destroyed are those without an owner. *)
Record sound (g : graph T) (held : T -> nat) (pending : list (graph_edge T))
    (s : memory) : Prop := {
  so_fault : fault (counts s) = false;
  so_starved : starved s = false;
  so_out : forall n, NoDup (out_edges_of (live s) n) /\
                     incl (out_edges_of (live s) n) (out_edges_of g n);
  so_in : forall n, NoDup (in_edges_of (live s) n) /\
                    incl (in_edges_of (live s) n) (in_edges_of g n);
  so_pending : forall e, In e pending -> In e (out_edges_of g (start e));
  so_edges : forall e,
    edge_uses (counts s) e =
    (if in_dec eq_dec e (out_edges_of (live s) (start e)) then 1 else 0) +
    (if in_dec eq_dec e (in_edges_of (live s) (end_ e)) then 1 else 0) +
    count_occ eq_dec pending e;
  so_nodes : forall n,
    node_uses (counts s) n =
    (if um_contains (nodes g) n then 1 else 0) + held n +
    List.length (filter (alive (counts s)) (out_edges_of g n)) +
    List.length (filter (alive (counts s)) (in_edges_of g n));
  so_no_node : destroyed_nodes (counts s) = [];
  so_once : NoDup (destroyed_edges (counts s));
  so_gone : forall e,
    In e (destroyed_edges (counts s)) <->
    In e (out_edges_of g (start e)) /\ edge_uses (counts s) e = 0
}.

(** The sets of the memory [m'] hold no more than those of [m]. *)
Definition shrinks (m' m : graph T) : Prop :=
  forall n, incl (out_edges_of m' n) (out_edges_of m n) /\
            incl (in_edges_of m' n) (in_edges_of m n).

(** The memory once the loop of the destructor is over and the map has
    let go of the nodes [done]: every set is empty and every edge of
    [g] destroyed; a node is owned by the map, unless it is in [done],
    and by the steps; the nodes destroyed are those of [done] that no
    step holds. *)
Record swept (g : graph T) (held : T -> nat) (done : list T) (s : memory)
    : Prop := {
  sw_fault : fault (counts s) = false;
  sw_starved : starved s = false;
  sw_out : forall n, out_edges_of (live s) n = [];
  sw_in : forall n, in_edges_of (live s) n = [];
  sw_edges : forall e, edge_uses (counts s) e = 0;
  sw_edges_once : NoDup (destroyed_edges (counts s));
  sw_edges_gone : forall e,
    In e (destroyed_edges (counts s)) <-> In e (out_edges_of g (start e));
  sw_nodes : forall n,
    node_uses (counts s) n =
    (if in_dec eq_dec n done then 0
     else if um_contains (nodes g) n then 1 else 0) + held n;
  sw_once : NoDup (destroyed_nodes (counts s));
  sw_gone : forall n,
    In n (destroyed_nodes (counts s)) <-> In n done /\ held n = 0
}.

End Graph.
End GraphH.

(** ** Words of the statements *)

Section Vocabulary.

Context {T : Type} {T_eq_dec : EqDec T}.

(** An edge from [s] to [e] is in the out-edges of [s]. *)
Definition edge_between (g : graph T) (s e : T) : bool :=
  existsb (fun itr => keq (end_ itr) e) (out_edges_of g s).

Definition edgeBetween (g : Kotlin.Graph T) (s e : T) : bool :=
  existsb (fun other => keq (Kotlin.end_ other) e) (Kotlin.outEdgesOf g s).

(** What a successful [create_link] leaves behind. *)
Record link_added (g g' : graph T) (s e : T) (w : Q) : Prop := {
  added_out : out_edges_of g' s =
              out_edges_of g s ++ [{| weight := w; start := s; end_ := e |}];
  added_in : in_edges_of g' e =
             in_edges_of g e ++ [{| weight := w; start := s; end_ := e |}];
  other_out : forall n, n <> s -> out_edges_of g' n = out_edges_of g n;
  other_in : forall n, n <> e -> in_edges_of g' n = in_edges_of g n;
  same_names : node_names g' = node_names g
}.

(** The graph a successful [insertEdge] leaves behind. *)
Definition edgeInserted (g : Kotlin.Graph T) (s e : T) (w : Q) : Kotlin.Graph T :=
  let edge := {| Kotlin.start := s; Kotlin.end_ := e; Kotlin.weight := w |} in
  {| Kotlin.nodes :=
       um_update
         (um_update (Kotlin.nodes g) s
            (fun nd => {| Kotlin.name := Kotlin.name nd;
                          Kotlin.outEdges := Kotlin.outEdges nd ++ [edge];
                          Kotlin.inEdges := Kotlin.inEdges nd |}))
         e
         (fun nd => {| Kotlin.name := Kotlin.name nd;
                       Kotlin.outEdges := Kotlin.outEdges nd;
                       Kotlin.inEdges := Kotlin.inEdges nd ++ [edge] |}) |}.

(** What a successful [insertEdge] leaves behind. *)
Record linkAdded (g g' : Kotlin.Graph T) (s e : T) (w : Q) : Prop := {
  addedOut : Kotlin.outEdgesOf g' s =
             Kotlin.outEdgesOf g s
             ++ [{| Kotlin.start := s; Kotlin.end_ := e; Kotlin.weight := w |}];
  addedIn : Kotlin.inEdgesOf g' e =
            Kotlin.inEdgesOf g e
            ++ [{| Kotlin.start := s; Kotlin.end_ := e; Kotlin.weight := w |}];
  otherOut : forall n, n <> s -> Kotlin.outEdgesOf g' n = Kotlin.outEdgesOf g n;
  otherIn : forall n, n <> e -> Kotlin.inEdgesOf g' n = Kotlin.inEdgesOf g n;
  sameNames : map fst (Kotlin.nodes g') = map fst (Kotlin.nodes g)
}.

(** What the selection loop of [shortestPath] compares the entry it is
    at with. *)
Definition boundOf (st : T -> Kotlin.PathEntry T) (nextEntry : option T) : double :=
  match nextEntry with
  | Some n => Kotlin.distance (st n)
  | None => HUGE_VAL
  end.

(** [n] increments in a row. *)
Fixpoint advance (n : nat) (it : dijkstra_traversal_iterator T)
    : dijkstra_traversal_iterator T :=
  match n with
  | 0 => it
  | S n' => advance n' (incr it)
  end.

(** The step the constructor of the iterator makes for the node [n],
    [s] being the source. *)
Definition initial_step (s n : T) : dijkstra_iteration_step T :=
  {| current := n;
     distance := if keq n s then Finite 0%Q else HUGE_VAL;
     previous := None |}.

(** A Kotlin edge, node, graph and path entry read as their C++
    counterparts, field by field. *)
Definition toEdge (e : Kotlin.GraphEdge T) : graph_edge T :=
  {| weight := Kotlin.weight e; start := Kotlin.start e; end_ := Kotlin.end_ e |}.

Definition toNode (nd : Kotlin.GraphNode T) : graph_node T :=
  {| name := Kotlin.name nd;
     out_edges := map toEdge (Kotlin.outEdges nd);
     in_edges := map toEdge (Kotlin.inEdges nd) |}.

Definition toGraph (k : Kotlin.Graph T) : graph T :=
  {| nodes := map (fun kv => (fst kv, toNode (snd kv))) (Kotlin.nodes k) |}.

Definition toStep (x : Kotlin.PathEntry T) : dijkstra_iteration_step T :=
  {| current := Kotlin.node x; distance := Kotlin.distance x;
     previous := Kotlin.priorNode x |}.

(** [n] pulls in a row. *)
Fixpoint pulls (n : nat) (sq : Kotlin.PathSequence T) : Kotlin.PathSequence T :=
  match n with
  | 0 => sq
  | S n' => pulls n' (snd (Kotlin.next sq))
  end.

(** [take(k)] of the sequence: the entries of the first [k] pulls and
    the coroutine they leave behind. *)
Fixpoint takeList (k : nat) (sq : Kotlin.PathSequence T)
    : list (Kotlin.PathEntry T) * Kotlin.PathSequence T :=
  match k with
  | 0 => ([], sq)
  | S k' =>
      match Kotlin.next sq with
      | (None, sq') => ([], sq')
      | (Some p, sq') =>
          let '(l, sq'') := takeList k' sq' in
          (Kotlin.entries sq' p :: l, sq'')
      end
  end.

(** The invariant of the coroutine, read after the relaxation that is
    due when it is resumed. *)
Definition resumed_inv (k : Kotlin.Graph T) (s : T)
    (sq : Kotlin.PathSequence T) (acc : list T) : Prop :=
  Kotlin.graphOf sq = k /\
  traversal_inv (toGraph k) s
    (Kotlin.workingSet (Kotlin.resume sq))
    (fun n => toStep (Kotlin.entries (Kotlin.resume sq) n)) acc.

(** The two collections of the nodes agree: the in-edges of a node end
    at it and are out-edges of their start, and every out-edge is an
    in-edge of its end, once. *)
Record wf_links (g : graph T) : Prop := {
  in_end : forall k e, In e (in_edges_of g k) -> end_ e = k;
  in_out : forall k e, In e (in_edges_of g k) -> In e (out_edges_of g (start e));
  out_in : forall k e, In e (out_edges_of g k) -> In e (in_edges_of g (end_ e));
  in_single : forall k, NoDup (in_edges_of g k)
}.

(** Whether the node [n] still owns its edges when the map has let go
    of the nodes [done], steps holding [held n] pointers to it: 0 when
    the node is destroyed, 1 otherwise. *)
Definition owner_left (held : T -> nat) (done : list T) (n : T) : nat :=
  if in_dec eq_dec n done then (if held n =? 0 then 0 else 1) else 1.

(** The heap when the map has let go of the nodes [done]. *)
Record heap_inv (g : graph T) (held : T -> nat) (done : list T) (h : heap)
    : Prop := {
  hi_fault : fault h = false;
  hi_nodes : forall n,
    node_uses h n =
    (if in_dec eq_dec n (node_names g)
     then (if in_dec eq_dec n done then 0 else 1) else 0) + held n;
  hi_edges : forall e,
    edge_uses h e =
    if in_dec eq_dec e (out_edges_of g (start e))
    then owner_left held done (start e) + owner_left held done (end_ e) else 0;
  hi_nodes_once : NoDup (destroyed_nodes h);
  hi_nodes_gone : forall n,
    In n (destroyed_nodes h) <-> In n done /\ held n = 0;
  hi_edges_once : NoDup (destroyed_edges h);
  hi_edges_gone : forall e,
    In e (destroyed_edges h) <->
    In e (out_edges_of g (start e)) /\
    owner_left held done (start e) = 0 /\ owner_left held done (end_ e) = 0
}.

End Vocabulary.

(** ** A test program *)

(** The calls of a program that builds a graph, run one after the
    other; a call that throws is caught and the next call runs. *)
Definition build {G : Type} (calls : list (M G unit)) (g : G) : G :=
  fold_left (fun g call => snd (call g)) calls g.



(** Three nodes on IEEE doubles: the links from 0 to 1 and from 1 to 2
    of the weights 0.1 and 0.2, and a link from 0 to 2 of the weight
    0.30000000000000004, which is more than the two add up to and is
    what their sum is rounded to. *)
Definition rounding_graph : Binary64.graph nat :=
  build [Binary64.create_node 0; Binary64.create_node 1; Binary64.create_node 2;
         Binary64.create_link 0 1 Binary64.tenth;
         Binary64.create_link 1 2 Binary64.fifth;
         Binary64.create_link 0 2 Binary64.three_tenths_up]
        Binary64.empty_graph.

(** The ring of three nodes of the tests, a chord too heavy to matter
    and a node out of reach with an edge into the ring. *)
Definition ring_graph : graph nat :=
  build [create_node 2; create_node 0; create_node 1; create_node 7;
         create_link 0 1 1%Q; create_link 1 2 1%Q; create_link 2 0 1%Q;
         create_link 0 2 (5 # 2)%Q; create_link 7 0 1%Q]
        empty_graph.

(** A start node with two edges of the same weight. *)
Definition fork_graph : graph nat :=
  build [create_node 0; create_node 1; create_node 2;
         create_link 0 1 1%Q; create_link 0 2 1%Q]
        empty_graph.

Definition forkGraph : Kotlin.Graph nat :=
  build [Kotlin.insertNode 0; Kotlin.insertNode 1; Kotlin.insertNode 2;
         Kotlin.insertEdge 0 1 1%Q; Kotlin.insertEdge 0 2 1%Q]
        {| Kotlin.nodes := [] |}.

(** The iterator [begin] returns for the fork, and the sequence
    [shortestPath] returns for it, pulled once. *)
Definition fork_iterator : dijkstra_traversal_iterator nat :=
  match begin {| traversal_graph := fork_graph; traversal_start := 0 |} with
  | Normal it => it
  | Thrown _ =>
      {| working_set := []; steps := new_dijkstra_iteration_step;
         current_node := None; working_graph := fork_graph; iter_calls := 0 |}
  end.

Definition ring_iterator : dijkstra_traversal_iterator nat :=
  match begin {| traversal_graph := ring_graph; traversal_start := 0 |} with
  | Normal it => it
  | Thrown _ =>
      {| working_set := []; steps := new_dijkstra_iteration_step;
         current_node := None; working_graph := ring_graph; iter_calls := 0 |}
  end.

Definition forkSequence : Kotlin.PathSequence nat :=
  match Kotlin.shortestPath forkGraph 0 with
  | Normal sq => snd (Kotlin.next sq)
  | Thrown _ =>
      {| Kotlin.workingSet := [];
         Kotlin.entries := fun n =>
           {| Kotlin.node := n; Kotlin.distance := HUGE_VAL;
              Kotlin.priorNode := None |};
         Kotlin.suspended := None; Kotlin.graphOf := forkGraph;
         Kotlin.selections := 0 |}
  end.

(** The sequence [shortestPath] returns for the fork. *)
Definition forkStart : Kotlin.PathSequence nat :=
  match Kotlin.shortestPath forkGraph 0 with
  | Normal sq => sq
  | Thrown _ =>
      {| Kotlin.workingSet := [];
         Kotlin.entries := fun n =>
           {| Kotlin.node := n; Kotlin.distance := HUGE_VAL;
              Kotlin.priorNode := None |};
         Kotlin.suspended := None; Kotlin.graphOf := forkGraph;
         Kotlin.selections := 0 |}
  end.

(** The pointers of a consumer that has kept the first step of the
    traversal of the ring: the step points to the node 0. *)
Definition first_step_kept (n : nat) : nat := if n =? 0 then 1 else 0.

(** ** Programs that build a graph *)

(** A call of the interface that builds a graph. *)
Inductive graph_call (T : Type) : Type :=
| CreateNode (n : T)
| CreateLink (s e : T) (w : Q).

Arguments CreateNode {T} n.
Arguments CreateLink {T} s e w.

Section Calls.

Context {T : Type} {T_eq_dec : EqDec T}.

(** The call made on the C++ graph. *)
Definition run_call (c : graph_call T) : M (graph T) unit :=
  match c with
  | CreateNode n => create_node n
  | CreateLink s e w => create_link s e w
  end.

(** The call made on the Kotlin graph. *)
Definition runCall (c : graph_call T) : M (Kotlin.Graph T) unit :=
  match c with
  | CreateNode n => Kotlin.insertNode n
  | CreateLink s e w => Kotlin.insertEdge s e w
  end.

End Calls.

(** ** Paths and shortest distances *)

Section ShortestWords.

Context {T : Type} {T_eq_dec : EqDec T}.

(** A path of [g] from [s] to a node, with the sum of the weights of
    its edges, added up edge by edge as the relaxation adds them. *)
Inductive path (g : graph T) (s : T) : T -> Q -> Prop :=
| path_source : In s (node_names g) -> path g s s 0%Q
| path_edge : forall p e w,
    path g s p w -> In e (out_edges_of g p) ->
    path g s (end_ e) (w + weight e)%Q.

(** Every out-edge of a node selected so far has been relaxed: its end
    is no farther than through the edge. *)
Definition relaxed (g : graph T) (st : T -> dijkstra_iteration_step T)
    (acc : list T) : Prop :=
  forall p e, In p acc -> In e (out_edges_of g p) ->
    dle (distance (st (end_ e))) (dadd (distance (st p)) (weight e)) = true.

(** Only the source has a distance without a predecessor. *)
Definition sourced (s : T) (st : T -> dijkstra_iteration_step T) : Prop :=
  forall n, is_huge (distance (st n)) = false -> previous (st n) = None -> n = s.

(** The invariant of the traversal, with what makes the distances the
    shortest ones. *)
Record shortest_inv (g : graph T) (s : T) (ws : list T)
    (st : T -> dijkstra_iteration_step T) (acc : list T) : Prop := {
  sh_inv : traversal_inv g s ws st acc;
  sh_relaxed : relaxed g st acc;
  sh_sourced : sourced s st
}.

End ShortestWords.

(** The invariant of the shortest distances, for the coroutine of the
    Kotlin sequence read after the relaxation that is due when it is
    resumed. *)
Definition resumed_shortest {T : Type} {T_eq_dec : EqDec T}
    (k : Kotlin.Graph T) (s : T)
    (sq : Kotlin.PathSequence T) (acc : list T) : Prop :=
  Kotlin.graphOf sq = k /\
  shortest_inv (toGraph k) s
    (Kotlin.workingSet (Kotlin.resume sq))
    (fun n => toStep (Kotlin.entries (Kotlin.resume sq) n)) acc.

(** The calls that build the fork, and the calls that build it with
    the nodes and the links made in another order. *)
Definition fork_calls : list (graph_call nat) :=
  [CreateNode 0; CreateNode 1; CreateNode 2;
   CreateLink 0 1 1%Q; CreateLink 0 2 1%Q].

Definition fork_calls_shuffled : list (graph_call nat) :=
  [CreateNode 2; CreateNode 0; CreateNode 1;
   CreateLink 0 2 1%Q; CreateLink 0 1 1%Q].

(** ** The test of the C++ code *)

(** A node number as a [double]. *)
Definition Qnat (i : nat) : Q := inject_Z (Z.of_nat i).

(** The calls [testGraph] makes to build its ring of [size] nodes: the
    nodes in the order of the shuffled [array], then, in the order of
    the array shuffled again ([array']), a link of weight 1.0 from
    each node to the next one. *)
Definition ring_calls (size : nat) (array array' : list nat)
    : list (graph_call nat) :=
  map CreateNode array ++
  map (fun a => CreateLink a ((a + 1) mod size) 1%Q) array'.

(** The calls of its two nested loops: a link of weight [w] from every
    node to every node but the next one. *)
Definition heavy_calls (size : nat) (w : Q) : list (graph_call nat) :=
  flat_map
    (fun i =>
       flat_map
         (fun j => if (i + 1) mod size =? j then [] else [CreateLink i j w])
         (seq 0 size))
    (seq 0 size).

(** [float(i)] for an [int] [i] that is not negative, as the whole
    number it is: the binary32 number nearest to [i], the even one of
    two that are as near.  A binary32 number has 24 significant bits.
    An [i] of no more bits is one; of a longer [i] the bits below the
    first 24 are dropped and the rest is rounded up when the dropped
    bits are more than half a unit of it, or half a unit while the
    rest is odd. *)
Definition float_of_int (i : Z) : Z :=
  if (Z.log2 i <? 24)%Z then i
  else
    let dropped := (Z.log2 i - 23)%Z in
    let kept := Z.shiftr i dropped in
    let rest := (i - Z.shiftl kept dropped)%Z in
    let half := Z.shiftl 1 (dropped - 1) in
    let rounded :=
      if (rest <? half)%Z then kept
      else if (half <? rest)%Z then (kept + 1)%Z
      else if Z.even kept then kept else (kept + 1)%Z in
    Z.shiftl rounded dropped.

(** What the loops over the traversal assert of the [i]-th step: it is
    the step of the node [i], its distance is equal to [float(i)], and
    it was reached from the node before; the second loop of
    [testGraph] leaves [previous] unchecked. *)
Definition step_as_asserted (i : nat) (step : dijkstra_iteration_step nat)
    : Prop :=
  current step = i /\
  (exists d, distance step = Finite d /\
             (d == inject_Z (float_of_int (Z.of_nat i)))%Q) /\
  previous step = match i with 0 => None | S j => Some j end.

(** A call that adds nothing but links of the ring, of weight 1, or
    links of weight [size] or more that are no links of the ring. *)
Definition ring_call (size : nat) (c : graph_call nat) : Prop :=
  match c with
  | CreateNode _ => True
  | CreateLink s e w =>
      (e = (s + 1) mod size /\ w = 1%Q) \/
      (e <> (s + 1) mod size /\ (Qnat size <= w)%Q)
  end.

(** The edges of a graph are those of the ring of [size] nodes, of
    weight 1, and links of weight [size] or more that are no links of
    the ring. *)
Definition ring_edges (size : nat) (g : graph nat) : Prop :=
  forall p e, In e (out_edges_of g p) ->
    (end_ e = (p + 1) mod size /\ (weight e == 1)%Q) \/
    (end_ e <> (p + 1) mod size /\ (Qnat size <= weight e)%Q).

(** The edges of a graph of [size] nodes are links of weight 1 from a
    node to the next one, or weigh [size] or more. *)
Definition chain_edges (size : nat) (g : graph nat) : Prop :=
  forall p e, In e (out_edges_of g p) ->
    (end_ e = (p + 1) mod size /\ (weight e == 1)%Q) \/
    (Qnat size <= weight e)%Q.

(** ** The test of the Kotlin graph *)

(** The outcomes of the calls of a program, one after the other, a
    call that throws being caught. *)
Fixpoint outcomes {G : Type} (calls : list (M G unit)) (g : G)
    : list (outcome unit) :=
  match calls with
  | [] => []
  | call :: calls' => fst (call g) :: outcomes calls' (snd (call g))
  end.

(** The calls [GraphTest.shortestPath] makes to build its second
    graph, of [n] nodes in a line: the nodes 0 to [n]-1, then a link
    of weight 1.0 to each node but the first, from the node before. *)
Definition line_calls (n : nat) : list (graph_call nat) :=
  map CreateNode (seq 0 n) ++
  map (fun x => CreateLink (x - 1) x 1%Q) (seq 1 (n - 1)).

(** The calls of its two nested loops: for every node [x] and every
    node [y] a link of weight [w] from [x] to [y].  For [y] the node
    next to [x] the call is the one made under [assertThrows]. *)
Definition cross_calls (n : nat) (w : Q) : list (graph_call nat) :=
  flat_map (fun x => map (fun y => CreateLink x y w) (seq 0 n)) (seq 0 n).

(** What these loops expect of their calls: the call under
    [assertThrows] throws a [GraphEdgeError], the others return. *)
Definition cross_outcomes (n : nat) : list (outcome unit) :=
  flat_map
    (fun x =>
       map (fun y => if x + 1 =? y
                     then Thrown (GraphEdgeError "An edge already exists")
                     else Normal tt)
           (seq 0 n))
    (seq 0 n).

(** What the loops over the sequence assert of its [i]-th entry: it is
    the entry of the node [i], at the distance [i], reached from the
    node before. *)
Definition entry_as_asserted (i : nat) (entry : Kotlin.PathEntry nat) : Prop :=
  Kotlin.node entry = i /\
  (exists d, Kotlin.distance entry = Finite d /\ (d == Qnat i)%Q) /\
  Kotlin.priorNode entry = match i with 0 => None | S j => Some j end.

Section StarWords.

Context {T : Type} {T_eq_dec : EqDec T}.

(** The first graph of [GraphTest.shortestPath]: [makeGraphNodes] on
    the names [items], then, in a loop over the nodes the graph
    iterates, an edge of weight 1.0 from the node [a] to each node,
    [a] among them.  The loop reads the names of the nodes alone,
    which [insertEdge] leaves as they are. *)
Definition star_graph (a : T) (items : list T) : outcome (Kotlin.Graph T) :=
  match Kotlin.makeGraphNodes items with
  | Thrown e => Thrown e
  | Normal graph =>
      match for_each (fun item => Kotlin.insertEdge a (Kotlin.name item) 1%Q)
                     (Kotlin.iterator graph) graph with
      | (Normal _, graph') => Normal graph'
      | (Thrown e, graph') => Thrown e
      end
  end.

(** What the loop over the sequence asserts of an entry: the distance
    is 0.0 for the node [a] and 1.0 for any other node. *)
Definition star_entry (a : T) (entry : Kotlin.PathEntry T) : Prop :=
  exists d, Kotlin.distance entry = Finite d /\
            (d == if keq (Kotlin.node entry) a then 0 else 1)%Q.

(** The graph while the loop runs: its nodes are [names], and its edges
    the edges of weight 1 from [a] to the nodes [done]. *)
Record star_inv (a : T) (names done : list T) (k : Kotlin.Graph T) : Prop := {
  star_names : map fst (Kotlin.nodes k) = names;
  star_wf : wf_graph (toGraph k);
  star_out : Kotlin.outEdgesOf k a =
             map (fun x => {| Kotlin.start := a; Kotlin.end_ := x;
                              Kotlin.weight := 1%Q |}) done;
  star_other : forall n, n <> a -> Kotlin.outEdgesOf k n = []
}.

End StarWords.

(** * Facts *)

(** ** Doubles *)

Lemma Qltb_lt (x y : Q) : Qltb x y = true <-> (x < y)%Q.
Proof.
  unfold Qltb. rewrite negb_true_iff.
  split; intro H.
  - apply Qnot_le_lt. intro Hle. apply Qle_bool_iff in Hle. congruence.
  - destruct (Qle_bool y x) eqn:E; [|reflexivity].
    apply Qle_bool_iff in E. exfalso. apply (Qlt_not_le _ _ H E).
Qed.

Lemma Qltb_ge (x y : Q) : Qltb x y = false <-> (y <= x)%Q.
Proof.
  unfold Qltb. rewrite negb_false_iff. apply Qle_bool_iff.
Qed.

Lemma dlt_irrefl (a : double) : dlt a a = false.
Proof.
  destruct a; simpl; [|reflexivity].
  apply Qltb_ge. apply Qle_refl.
Qed.

Lemma dle_refl (a : double) : dle a a = true.
Proof.
  destruct a; simpl; [|reflexivity].
  apply Qle_bool_iff. apply Qle_refl.
Qed.

Lemma dlt_false_dle (a b : double) : dlt a b = false -> dle b a = true.
Proof.
  destruct a, b; simpl; try congruence.
  intro H. apply Qltb_ge in H. now apply Qle_bool_iff.
Qed.

Lemma dle_dlt_false (a b : double) : dle b a = true -> dlt a b = false.
Proof.
  destruct a, b; simpl; try congruence.
  intro H. apply Qle_bool_iff in H. now apply Qltb_ge.
Qed.

Lemma dlt_dle (a b : double) : dlt a b = true -> dle a b = true.
Proof.
  destruct a, b; simpl; try congruence.
  intro H. apply Qltb_lt in H. apply Qle_bool_iff. now apply Qlt_le_weak.
Qed.

Lemma dle_trans (a b c : double) :
  dle a b = true -> dle b c = true -> dle a c = true.
Proof.
  destruct a, b, c; simpl; try congruence.
  rewrite !Qle_bool_iff. apply Qle_trans.
Qed.

Lemma dlt_dle_trans (a b c : double) :
  dlt a b = true -> dle b c = true -> dlt a c = true.
Proof.
  destruct a, b, c; simpl; try congruence.
  rewrite !Qltb_lt, Qle_bool_iff. apply Qlt_le_trans.
Qed.

Lemma dle_dlt_trans (a b c : double) :
  dle a b = true -> dlt b c = true -> dlt a c = true.
Proof.
  destruct a, b, c; simpl; try congruence.
  rewrite !Qltb_lt, Qle_bool_iff. apply Qle_lt_trans.
Qed.

Lemma dlt_trans (a b c : double) :
  dlt a b = true -> dlt b c = true -> dlt a c = true.
Proof.
  intros H1 H2. eapply dlt_dle_trans; [exact H1|]. now apply dlt_dle.
Qed.

Lemma dle_total (a b : double) : dle a b = true \/ dle b a = true.
Proof.
  destruct (dlt a b) eqn:E.
  - left. now apply dlt_dle.
  - right. now apply dlt_false_dle.
Qed.

Lemma dadd_dle (a : double) (w : Q) : (0 <= w)%Q -> dle a (dadd a w) = true.
Proof.
  intro Hw. destruct a; simpl; [|reflexivity].
  apply Qle_bool_iff. lra.
Qed.

Lemma dlt_finite (a b : double) : dlt a b = true -> is_huge a = false.
Proof. destruct a; simpl; congruence. Qed.

Lemma dle_finite (a b : double) :
  dle a b = true -> is_huge b = false -> is_huge a = false.
Proof. destruct a, b; simpl; congruence. Qed.

Lemma dadd_finite (a : double) (w : Q) :
  is_huge a = false -> is_huge (dadd a w) = false.
Proof. destruct a; simpl; congruence. Qed.

Lemma dle_huge (a : double) : is_huge a = true -> forall b, dle b a = true.
Proof. destruct a; simpl; try congruence. intros _ []; reflexivity. Qed.

(** ** Keys, unordered maps and the working set *)

Section ContainerFacts.

Context {T : Type} {T_eq_dec : EqDec T}.

Lemma keq_true (x y : T) : keq x y = true <-> x = y.
Proof. unfold keq. destruct (eq_dec x y); split; congruence. Qed.

Lemma keq_false (x y : T) : keq x y = false <-> x <> y.
Proof. unfold keq. destruct (eq_dec x y); split; congruence. Qed.

Lemma keq_refl (x : T) : keq x x = true.
Proof. now apply keq_true. Qed.

Lemma um_contains_In (V : Type) (m : list (T * V)) (k : T) :
  um_contains m k = true <-> In k (map fst m).
Proof.
  unfold um_contains. rewrite existsb_exists. split.
  - intros [[k' v] [Hin Hk]]. apply keq_true in Hk. simpl in Hk. subst.
    apply in_map_iff. now exists (k', v).
  - intro Hin. apply in_map_iff in Hin. destruct Hin as [[k' v] [Hk Hin]].
    simpl in Hk. subst. exists (k, v). split; [assumption|]. apply keq_refl.
Qed.

Lemma um_contains_find (V : Type) (m : list (T * V)) (k : T) :
  um_contains m k = true <-> exists v, um_find m k = Some v.
Proof.
  induction m as [|[k' v'] m IH]; simpl.
  - split; [discriminate|]. intros [v Hv]. discriminate.
  - unfold keq at 1. destruct (eq_dec k k'); simpl.
    + split; [|reflexivity]. intros _. now exists v'.
    + exact IH.
Qed.

Lemma um_find_In (V : Type) (m : list (T * V)) (k : T) (v : V) :
  um_find m k = Some v -> In (k, v) m.
Proof.
  induction m as [|[k' v'] m IH]; simpl; [discriminate|].
  destruct (eq_dec k k').
  - intros [= <-]. subst. now left.
  - intro H. right. now apply IH.
Qed.

Lemma um_update_keys (V : Type) (m : list (T * V)) (k : T) (f : V -> V) :
  map fst (um_update m k f) = map fst m.
Proof.
  induction m as [|[k' v'] m IH]; simpl; [reflexivity|].
  destruct (eq_dec k k'); simpl; [reflexivity|]. now rewrite IH.
Qed.

Lemma um_find_update_same (V : Type) (m : list (T * V)) (k : T) (f : V -> V) :
  um_find (um_update m k f) k = option_map f (um_find m k).
Proof.
  induction m as [|[k' v'] m IH]; simpl; [reflexivity|].
  destruct (eq_dec k k') as [E|E]; simpl.
  - destruct (eq_dec k k'); [reflexivity|contradiction].
  - destruct (eq_dec k k'); [contradiction|]. exact IH.
Qed.

Lemma um_find_update_other (V : Type) (m : list (T * V)) (k n : T) (f : V -> V) :
  n <> k -> um_find (um_update m k f) n = um_find m n.
Proof.
  intro Hn. induction m as [|[k' v'] m IH]; simpl; [reflexivity|].
  destruct (eq_dec k k') as [E|E]; simpl.
  - subst. destruct (eq_dec n k'); [contradiction|reflexivity].
  - destruct (eq_dec n k'); [reflexivity|]. exact IH.
Qed.

Lemma um_assign_keys_fresh (V : Type) (m : list (T * V)) (k : T) (v : V) :
  ~ In k (map fst m) -> um_assign m k v = m ++ [(k, v)].
Proof.
  induction m as [|[k' v'] m IH]; simpl; [reflexivity|].
  intro Hn. destruct (eq_dec k k') as [E|E].
  - exfalso. apply Hn. now left.
  - rewrite IH; [reflexivity|]. intro H. apply Hn. now right.
Qed.

Lemma um_find_app (V : Type) (m1 m2 : list (T * V)) (k : T) :
  um_find (m1 ++ m2) k =
  match um_find m1 k with Some v => Some v | None => um_find m2 k end.
Proof.
  induction m1 as [|[k' v'] m1 IH]; simpl; [reflexivity|].
  destruct (eq_dec k k'); [reflexivity|exact IH].
Qed.

Lemma um_find_None (V : Type) (m : list (T * V)) (k : T) :
  um_find m k = None <-> ~ In k (map fst m).
Proof.
  rewrite <- um_contains_In. rewrite um_contains_find.
  destruct (um_find m k) as [v|].
  - split; [discriminate|]. intro H. exfalso. apply H. now exists v.
  - split; [|reflexivity]. intros _ [v' H]. discriminate.
Qed.

Lemma um_find_unique (V : Type) (m : list (T * V)) (k : T) (v : V) :
  NoDup (map fst m) -> In (k, v) m -> um_find m k = Some v.
Proof.
  induction m as [|[k' v'] m IH]; simpl; [contradiction|].
  intros Hnd [H|H].
  - injection H as -> ->. destruct (eq_dec k k); [reflexivity|contradiction].
  - inversion Hnd as [|? ? Hnotin Hnd']; subst.
    destruct (eq_dec k k') as [E|E].
    + subst. exfalso. apply Hnotin. apply in_map_iff. now exists (k', v).
    + now apply IH.
Qed.

Lemma ws_contains_In (ws : list T) (n : T) : ws_contains ws n = true <-> In n ws.
Proof.
  unfold ws_contains. rewrite existsb_exists. split.
  - intros [x [Hin Hx]]. apply keq_true in Hx. now subst.
  - intro Hin. exists n. split; [assumption|apply keq_refl].
Qed.

Lemma ws_erase_In (ws : list T) (c n : T) :
  In n (ws_erase ws c) <-> In n ws /\ n <> c.
Proof.
  unfold ws_erase. rewrite filter_In, negb_true_iff, keq_false.
  split; intros [H1 H2]; split; auto.
Qed.

Lemma ws_erase_NoDup (ws : list T) (c : T) : NoDup ws -> NoDup (ws_erase ws c).
Proof. apply NoDup_filter. Qed.

Lemma ws_erase_notin (ws : list T) (c : T) : ~ In c ws -> ws_erase ws c = ws.
Proof.
  induction ws as [|x ws IH]; simpl; [reflexivity|].
  intro Hn. destruct (keq c x) eqn:E; simpl.
  - apply keq_true in E. subst. exfalso. apply Hn. now left.
  - rewrite IH; [reflexivity|]. intro H. apply Hn. now right.
Qed.

Lemma ws_erase_split (l1 l2 : list T) (c : T) :
  NoDup (l1 ++ c :: l2) -> ws_erase (l1 ++ c :: l2) c = l1 ++ l2.
Proof.
  intro Hnd. unfold ws_erase. rewrite filter_app. simpl.
  rewrite keq_refl. simpl.
  apply NoDup_remove_2 in Hnd.
  fold (ws_erase l1 c). fold (ws_erase l2 c).
  rewrite !ws_erase_notin; [reflexivity| |];
    intro H; apply Hnd; apply in_or_app; auto.
Qed.

Lemma ws_erase_length (ws : list T) (c : T) :
  In c ws -> List.length (ws_erase ws c) < List.length ws.
Proof.
  induction ws as [|x ws IH]; simpl; [contradiction|].
  intros [H|H].
  - subst. rewrite keq_refl. simpl.
    pose proof (filter_length_le (fun k => negb (keq c k)) ws). 
    unfold ws_erase. lia.
  - specialize (IH H). destruct (negb (keq c x)); simpl; unfold ws_erase in *; lia.
Qed.

Lemma store_same (st : T -> dijkstra_iteration_step T) (p : T) v :
  store st p v p = v.
Proof. unfold store. destruct (eq_dec p p); [reflexivity|contradiction]. Qed.

Lemma store_other (st : T -> dijkstra_iteration_step T) (p n : T) v :
  n <> p -> store st p v n = st n.
Proof. intro H. unfold store. destruct (eq_dec n p); [contradiction|reflexivity]. Qed.

End ContainerFacts.

(** ** Building the graph *)

Section LinkFacts.

Context {T : Type} {T_eq_dec : EqDec T}.

Lemma edge_exists_check_eq (es : list (graph_edge T)) (e : T) (g : graph T) :
  edge_exists_check es e g =
  if existsb (fun itr => keq (end_ itr) e) es
  then (Thrown (domain_error "Edge asready exists"), g)
  else (Normal tt, g).
Proof.
  induction es as [|itr es IH]; simpl; [reflexivity|].
  destruct (keq (end_ itr) e); simpl; [reflexivity|exact IH].
Qed.

Lemma edgeExistsCheck_eq (es : list (Kotlin.GraphEdge T)) (e : T)
    (g : Kotlin.Graph T) :
  Kotlin.edgeExistsCheck es e g =
  if existsb (fun other => keq (Kotlin.end_ other) e) es
  then (Thrown (GraphEdgeError "An edge already exists"), g)
  else (Normal tt, g).
Proof.
  induction es as [|itr es IH]; simpl; [reflexivity|].
  destruct (keq (Kotlin.end_ itr) e); simpl; [reflexivity|exact IH].
Qed.

(** [create_link] runs its checks in a fixed order and only then
    touches the graph. *)
Lemma create_link_eq (g : graph T) (s e : T) (w : Q) :
  create_link s e w g =
  if negb (um_contains (nodes g) s) || negb (um_contains (nodes g) e)
  then (Thrown (domain_error "Node does not exist"), g)
  else if Qle_bool w 0%Q
  then (Thrown (domain_error "Weights must be positive"), g)
  else if edge_between g s e
  then (Thrown (domain_error "Edge asready exists"), g)
  else
    let edge := {| weight := w; start := s; end_ := e |} in
    (Normal tt, insert_in_edge e edge (insert_out_edge s edge g)).
Proof.
  unfold create_link, bind, get. simpl.
  destruct (negb (um_contains (nodes g) s) || negb (um_contains (nodes g) e));
    [reflexivity|].
  unfold new_graph_edge. simpl.
  destruct (Qle_bool w 0); [reflexivity|].
  unfold bind, get. rewrite edge_exists_check_eq. fold (edge_between g s e).
  destruct (edge_between g s e); reflexivity.
Qed.

(** [insertEdge] looks for the edge before it builds the new one. *)
Lemma insertEdge_eq (g : Kotlin.Graph T) (s e : T) (w : Q) :
  Kotlin.insertEdge s e w g =
  if negb (um_contains (Kotlin.nodes g) s) || negb (um_contains (Kotlin.nodes g) e)
  then (Thrown (GraphKeyError "Failed to find node"), g)
  else if edgeBetween g s e
  then (Thrown (GraphEdgeError "An edge already exists"), g)
  else if Qle_bool w 0%Q
  then (Thrown (GraphEdgeError "Edge weights must be positive values"), g)
  else
    let edge := {| Kotlin.start := s; Kotlin.end_ := e; Kotlin.weight := w |} in
    (Normal tt,
     {| Kotlin.nodes :=
          um_update
            (um_update (Kotlin.nodes g) s
               (fun nd => {| Kotlin.name := Kotlin.name nd;
                             Kotlin.outEdges := Kotlin.outEdges nd ++ [edge];
                             Kotlin.inEdges := Kotlin.inEdges nd |}))
            e
            (fun nd => {| Kotlin.name := Kotlin.name nd;
                          Kotlin.outEdges := Kotlin.outEdges nd;
                          Kotlin.inEdges := Kotlin.inEdges nd ++ [edge] |}) |}).
Proof.
  unfold Kotlin.insertEdge, bind, get. simpl.
  destruct (negb (um_contains (Kotlin.nodes g) s)
            || negb (um_contains (Kotlin.nodes g) e)); [reflexivity|].
  rewrite edgeExistsCheck_eq. fold (edgeBetween g s e).
  destruct (edgeBetween g s e); [reflexivity|].
  unfold Kotlin.newGraphEdge. destruct (Qle_bool w 0); reflexivity.
Qed.

Lemma out_edges_insert_out_same (g : graph T) (s : T) (edge : graph_edge T) :
  um_contains (nodes g) s = true ->
  out_edges_of (insert_out_edge s edge g) s = out_edges_of g s ++ [edge].
Proof.
  intro H. apply um_contains_find in H. destruct H as [nd Hnd].
  unfold out_edges_of, insert_out_edge. simpl.
  rewrite um_find_update_same, Hnd. reflexivity.
Qed.

Lemma out_edges_insert_out_other (g : graph T) (s n : T) (edge : graph_edge T) :
  n <> s -> out_edges_of (insert_out_edge s edge g) n = out_edges_of g n.
Proof.
  intro H. unfold out_edges_of, insert_out_edge. simpl.
  now rewrite um_find_update_other.
Qed.

Lemma in_edges_insert_out (g : graph T) (s n : T) (edge : graph_edge T) :
  in_edges_of (insert_out_edge s edge g) n = in_edges_of g n.
Proof.
  unfold in_edges_of, insert_out_edge. simpl.
  destruct (eq_dec n s) as [->|Hn].
  - rewrite um_find_update_same. destruct (um_find (nodes g) s); reflexivity.
  - now rewrite um_find_update_other.
Qed.

Lemma out_edges_insert_in (g : graph T) (e n : T) (edge : graph_edge T) :
  out_edges_of (insert_in_edge e edge g) n = out_edges_of g n.
Proof.
  unfold out_edges_of, insert_in_edge. simpl.
  destruct (eq_dec n e) as [->|Hn].
  - rewrite um_find_update_same. destruct (um_find (nodes g) e); reflexivity.
  - now rewrite um_find_update_other.
Qed.

Lemma in_edges_insert_in_same (g : graph T) (e : T) (edge : graph_edge T) :
  um_contains (nodes g) e = true ->
  in_edges_of (insert_in_edge e edge g) e = in_edges_of g e ++ [edge].
Proof.
  intro H. apply um_contains_find in H. destruct H as [nd Hnd].
  unfold in_edges_of, insert_in_edge. simpl.
  rewrite um_find_update_same, Hnd. reflexivity.
Qed.

Lemma in_edges_insert_in_other (g : graph T) (e n : T) (edge : graph_edge T) :
  n <> e -> in_edges_of (insert_in_edge e edge g) n = in_edges_of g n.
Proof.
  intro H. unfold in_edges_of, insert_in_edge. simpl.
  now rewrite um_find_update_other.
Qed.

Lemma node_names_insert_out (g : graph T) (s : T) (edge : graph_edge T) :
  node_names (insert_out_edge s edge g) = node_names g.
Proof. unfold node_names, insert_out_edge. simpl. apply um_update_keys. Qed.

Lemma node_names_insert_in (g : graph T) (e : T) (edge : graph_edge T) :
  node_names (insert_in_edge e edge g) = node_names g.
Proof. unfold node_names, insert_in_edge. simpl. apply um_update_keys. Qed.

Lemma contains_insert_out (g : graph T) (s n : T) (edge : graph_edge T) :
  um_contains (nodes (insert_out_edge s edge g)) n = um_contains (nodes g) n.
Proof.
  apply eq_true_iff_eq. rewrite !um_contains_In.
  fold (node_names (insert_out_edge s edge g)). fold (node_names g).
  now rewrite node_names_insert_out.
Qed.

Lemma create_link_added (g : graph T) (s e : T) (w : Q) :
  um_contains (nodes g) s = true -> um_contains (nodes g) e = true ->
  let edge := {| weight := w; start := s; end_ := e |} in
  link_added g (insert_in_edge e edge (insert_out_edge s edge g)) s e w.
Proof.
  intros Hs He edge. split.
  - rewrite out_edges_insert_in. now apply out_edges_insert_out_same.
  - rewrite in_edges_insert_in_same.
    + now rewrite in_edges_insert_out.
    + now rewrite contains_insert_out.
  - intros n Hn. rewrite out_edges_insert_in. now apply out_edges_insert_out_other.
  - intros n Hn. rewrite in_edges_insert_in_other by assumption.
    apply in_edges_insert_out.
  - now rewrite node_names_insert_in, node_names_insert_out.
Qed.

End LinkFacts.

Section KotlinLinkFacts.

Context {T : Type} {T_eq_dec : EqDec T}.

Lemma edgeInserted_added (g : Kotlin.Graph T) (s e : T) (w : Q) :
  um_contains (Kotlin.nodes g) s = true -> um_contains (Kotlin.nodes g) e = true ->
  linkAdded g (edgeInserted g s e w) s e w.
Proof.
  intros Hs He.
  apply um_contains_find in Hs. destruct Hs as [ns Hns].
  apply um_contains_find in He. destruct He as [ne Hne].
  unfold edgeInserted. split; unfold Kotlin.outEdgesOf, Kotlin.inEdgesOf; simpl.
  - destruct (eq_dec s e) as [<-|Hse].
    + rewrite !um_find_update_same, Hns. reflexivity.
    + rewrite um_find_update_other by assumption.
      rewrite um_find_update_same, Hns. reflexivity.
  - rewrite um_find_update_same.
    destruct (eq_dec e s) as [->|Hes].
    + rewrite um_find_update_same, Hns. reflexivity.
    + rewrite um_find_update_other by assumption. rewrite Hne. reflexivity.
  - intros n Hn. destruct (eq_dec n e) as [->|Hne'].
    + rewrite um_find_update_same, um_find_update_other by assumption.
      destruct (um_find (Kotlin.nodes g) e); reflexivity.
    + now rewrite !um_find_update_other.
  - intros n Hn. rewrite um_find_update_other by assumption.
    destruct (eq_dec n s) as [->|Hns'].
    + rewrite um_find_update_same.
      destruct (um_find (Kotlin.nodes g) s); reflexivity.
    + now rewrite um_find_update_other.
  - now rewrite !um_update_keys.
Qed.

End KotlinLinkFacts.

Section CreateLink.

Context {T : Type} {T_eq_dec : EqDec T}.

Local Open Scope Q_scope.


(** C10: a [create_link] or an [insertEdge] that throws leaves the
    graph as it found it. *)
Theorem C10_create_link_failure_atomic (g g' : graph T) (k k' : Kotlin.Graph T)
    (s e : T) (w : Q) (ex : exception) :
  (create_link s e w g = (Thrown ex, g') -> g' = g) /\
  (Kotlin.insertEdge s e w k = (Thrown ex, k') -> k' = k).
Proof.
  rewrite create_link_eq, insertEdge_eq. split.
  - destruct (negb (um_contains (nodes g) s) || negb (um_contains (nodes g) e)).
    { now intros [= _ <-]. }
    destruct (Qle_bool w 0). { now intros [= _ <-]. }
    destruct (edge_between g s e). { now intros [= _ <-]. }
    discriminate.
  - destruct (negb (um_contains (Kotlin.nodes k) s)
              || negb (um_contains (Kotlin.nodes k) e)).
    { now intros [= _ <-]. }
    destruct (edgeBetween k s e). { now intros [= _ <-]. }
    destruct (Qle_bool w 0). { now intros [= _ <-]. }
    discriminate.
Qed.

End CreateLink.

(** ** The selection loops *)

Lemma dle_false_dlt (a b : double) : dle a b = false -> dlt b a = true.
Proof.
  destruct (dlt b a) eqn:E; [reflexivity|].
  apply dlt_false_dle in E. congruence.
Qed.

Section Selection.

Context {T : Type} {T_eq_dec : EqDec T}.

Variable st : T -> dijkstra_iteration_step T.

Let d (n : T) : double := distance (st n).

(** The scan started with [c0] in hand: either [c0] is kept, and
    nothing in [ws] is closer, or some entry of [ws] closer than [c0]
    is kept, closer than everything scanned before it and not farther
    than anything scanned after it. *)
Lemma scan_from (ws : list T) : forall c0 : T,
  exists c, fold_left (scan_step st) ws (Some c0) = Some c /\
    ((c = c0 /\ forall n, In n ws -> dlt (d n) (d c0) = false) \/
     (exists l1 l2, ws = l1 ++ c :: l2 /\
        dlt (d c) (d c0) = true /\
        (forall n, In n l1 -> dlt (d c) (d n) = true) /\
        (forall n, In n l2 -> dlt (d n) (d c) = false))).
Proof.
  induction ws as [|x ws IH]; intro c0; simpl.
  - exists c0. split; [reflexivity|]. left. split; [reflexivity|]. intros n [].
  - unfold scan_step at 2. fold (d x). fold (d c0).
    destruct (dlt (d x) (d c0)) eqn:Hx.
    + destruct (IH x) as [c [Hc Hcase]]. exists c. split; [exact Hc|]. right.
      destruct Hcase as [[Heq Hall]|(l1 & l2 & Hws & Hlt & H1 & H2)].
      * subst c. exists [], ws. repeat split; auto; try (intros ? []).
      * subst ws. exists (x :: l1), l2. repeat split; auto.
        -- eapply dlt_trans; eassumption.
        -- intros n [<-|Hn]; auto.
    + destruct (IH c0) as [c [Hc Hcase]]. exists c. split; [exact Hc|].
      destruct Hcase as [[Heq Hall]|(l1 & l2 & Hws & Hlt & H1 & H2)].
      * left. split; [exact Heq|]. intros n [<-|Hn]; auto.
      * right. subst ws. exists (x :: l1), l2. repeat split; auto.
        intros n [<-|Hn]; auto.
        eapply dlt_dle_trans; [exact Hlt|]. now apply dlt_false_dle.
Qed.

(** The selection loop of [iter] keeps the first of the closest entries. *)
Lemma select_closest_first (ws : list T) :
  ws <> [] -> exists c, select_closest st ws = Some c /\ first_closest d ws c.
Proof.
  destruct ws as [|x ws]; [congruence|]. intros _.
  unfold select_closest. simpl. unfold scan_step at 2.
  rewrite dlt_irrefl.
  destruct (scan_from ws x) as [c [Hc Hcase]]. exists c. split; [exact Hc|].
  destruct Hcase as [[Heq Hall]|(l1 & l2 & Hws & Hlt & H1 & H2)].
  - subst c. exists [], ws. repeat split; auto; try (intros ? []).
    intros n Hn. apply dlt_false_dle. now apply Hall.
  - subst ws. exists (x :: l1), l2. repeat split; auto.
    + intros n [<-|Hn]; auto.
    + intros n Hn. apply dlt_false_dle. now apply H2.
Qed.

Lemma first_closest_In (ws : list T) (c : T) : first_closest d ws c -> In c ws.
Proof.
  intros (l1 & l2 & -> & _). apply in_or_app. right. now left.
Qed.

Lemma first_closest_least (ws : list T) (c : T) :
  first_closest d ws c -> forall n, In n ws -> dle (d c) (d n) = true.
Proof.
  intros (l1 & l2 & -> & H1 & H2) n Hn.
  apply in_app_or in Hn. destruct Hn as [Hn|[<-|Hn]].
  - apply dlt_dle. now apply H1.
  - apply dle_refl.
  - now apply H2.
Qed.

End Selection.

Section KotlinSelection.

Context {T : Type} {T_eq_dec : EqDec T}.

Variable st : T -> Kotlin.PathEntry T.

Let d (n : T) : double := Kotlin.distance (st n).

Lemma scanStep_eq (cur : option T) (x : T) :
  Kotlin.scanStep st cur x = if dle (d x) (boundOf st cur) then Some x else cur.
Proof. destruct cur; reflexivity. Qed.

Lemma scanFrom (ws : list T) : forall cur : option T,
  (ws = [] /\ fold_left (Kotlin.scanStep st) ws cur = cur) \/
  exists c, fold_left (Kotlin.scanStep st) ws cur = Some c /\
    ((cur = Some c /\ forall n, In n ws -> dlt (d c) (d n) = true) \/
     (exists l1 l2, ws = l1 ++ c :: l2 /\
        dle (d c) (boundOf st cur) = true /\
        (forall n, In n l1 -> dle (d c) (d n) = true) /\
        (forall n, In n l2 -> dlt (d c) (d n) = true))).
Proof.
  induction ws as [|x ws IH]; intro cur; simpl.
  - left. split; reflexivity.
  - right. rewrite scanStep_eq.
    destruct (dle (d x) (boundOf st cur)) eqn:Hx.
    + destruct (IH (Some x)) as [[Hws Hc]|[c [Hc Hcase]]].
      * subst ws. exists x. split; [exact Hc|]. right. exists [], [].
        repeat split; auto; try (intros ? []).
      * exists c. split; [exact Hc|]. right.
        destruct Hcase as [[Heq Hall]|(l1 & l2 & Hws & Hle & H1 & H2)].
        -- injection Heq as Heq. subst c.
           exists [], ws. repeat split; auto; try (intros ? []).
        -- subst ws. simpl in Hle. exists (x :: l1), l2. repeat split; auto.
           ++ eapply dle_trans; eassumption.
           ++ intros n [<-|Hn]; auto.
    + assert (Hcur : exists c0, cur = Some c0).
      { destruct cur as [c0|]; [now exists c0|]. simpl in Hx.
        destruct (d x); discriminate. }
      destruct Hcur as [c0 Hcur]. subst cur. simpl in Hx.
      apply dle_false_dlt in Hx.
      destruct (IH (Some c0)) as [[Hws Hc]|[c [Hc Hcase]]].
      * subst ws. exists c0. split; [exact Hc|]. left. split; [reflexivity|].
        intros n [<-|[]]. exact Hx.
      * exists c. split; [exact Hc|].
        destruct Hcase as [[Heq Hall]|(l1 & l2 & Hws & Hle & H1 & H2)].
        -- injection Heq as Heq. subst c.
           left. split; [reflexivity|]. intros n [<-|Hn]; auto.
        -- right. subst ws. simpl in Hle. exists (x :: l1), l2.
           repeat split; auto.
           intros n [<-|Hn]; auto.
           apply dlt_dle. eapply dle_dlt_trans; eassumption.
Qed.

(** The selection loop of [shortestPath] keeps the last of the closest
    entries. *)
Lemma selectNext_last (ws : list T) :
  ws <> [] -> exists c, Kotlin.selectNext st ws = Some c /\ last_closest d ws c.
Proof.
  intro Hws. unfold Kotlin.selectNext.
  destruct (scanFrom ws None) as [[Hnil _]|[c [Hc Hcase]]]; [congruence|].
  exists c. split; [exact Hc|].
  destruct Hcase as [[Heq _]|(l1 & l2 & Hl & _ & H1 & H2)]; [discriminate|].
  exists l1, l2. repeat split; auto.
Qed.

End KotlinSelection.

(** ** One increment *)

Section Increment.

Context {T : Type} {T_eq_dec : EqDec T}.

Lemma iter_empty (it : dijkstra_traversal_iterator T) :
  working_set it = [] ->
  iter it = {| working_set := working_set it; steps := steps it;
               current_node := None; working_graph := working_graph it;
               iter_calls := S (iter_calls it) |}.
Proof. intro H. unfold iter. rewrite H. reflexivity. Qed.

Lemma iter_select (it : dijkstra_traversal_iterator T) :
  working_set it <> [] ->
  exists c,
    first_closest (fun n => distance (steps it n)) (working_set it) c /\
    iter it =
      let ws := ws_erase (working_set it) (current (steps it c)) in
      if is_huge (distance (steps it c)) then
        {| working_set := ws; steps := steps it;
           current_node := None; working_graph := working_graph it;
           iter_calls := S (iter_calls it) |}
      else
        {| working_set := ws;
           steps := fold_left (relax_edge ws c)
                      (out_edges_of (working_graph it) (current (steps it c)))
                      (steps it);
           current_node := Some c; working_graph := working_graph it;
           iter_calls := S (iter_calls it) |}.
Proof.
  intro Hws.
  destruct (select_closest_first (steps it) Hws) as [c [Hsel Hfirst]].
  exists c. split; [exact Hfirst|].
  unfold iter. rewrite Hsel.
  destruct (working_set it); [congruence|reflexivity].
Qed.

(** The three ways an increment can go. *)
Lemma iter_cases (it : dijkstra_traversal_iterator T) :
  (working_set it = [] /\
   iter it = {| working_set := working_set it; steps := steps it;
                current_node := None; working_graph := working_graph it;
                iter_calls := S (iter_calls it) |}) \/
  (exists c,
     first_closest (fun n => distance (steps it n)) (working_set it) c /\
     is_huge (distance (steps it c)) = true /\
     iter it = {| working_set := ws_erase (working_set it) (current (steps it c));
                  steps := steps it;
                  current_node := None; working_graph := working_graph it;
                  iter_calls := S (iter_calls it) |}) \/
  (exists c,
     first_closest (fun n => distance (steps it n)) (working_set it) c /\
     is_huge (distance (steps it c)) = false /\
     iter it = {| working_set := ws_erase (working_set it) (current (steps it c));
                  steps := fold_left
                             (relax_edge
                                (ws_erase (working_set it) (current (steps it c))) c)
                             (out_edges_of (working_graph it) (current (steps it c)))
                             (steps it);
                  current_node := Some c; working_graph := working_graph it;
                  iter_calls := S (iter_calls it) |}).
Proof.
  destruct (working_set it) as [|x l] eqn:Hws.
  - left. split; [reflexivity|]. rewrite <- Hws. now apply iter_empty.
  - right. rewrite <- Hws.
    assert (Hne : working_set it <> []) by (rewrite Hws; discriminate).
    destruct (iter_select it Hne) as [c [Hfirst Hiter]].
    cbv zeta in Hiter.
    destruct (is_huge (distance (steps it c))) eqn:Hh; [left|right];
      exists c; repeat split; assumption.
Qed.

Lemma iter_calls_iter (it : dijkstra_traversal_iterator T) :
  iter_calls (iter it) = S (iter_calls it).
Proof.
  unfold iter. destruct (working_set it); [reflexivity|].
  destruct (select_closest _ _); [|reflexivity].
  destruct (is_huge _); reflexivity.
Qed.

Lemma working_graph_iter (it : dijkstra_traversal_iterator T) :
  working_graph (iter it) = working_graph it.
Proof.
  unfold iter. destruct (working_set it); [reflexivity|].
  destruct (select_closest _ _); [|reflexivity].
  destruct (is_huge _); reflexivity.
Qed.

Lemma next_select (sq : Kotlin.PathSequence T) :
  Kotlin.workingSet (Kotlin.resume sq) <> [] ->
  exists c,
    last_closest (fun n => Kotlin.distance (Kotlin.entries (Kotlin.resume sq) n))
                 (Kotlin.workingSet (Kotlin.resume sq)) c /\
    Kotlin.next sq =
      let sq' := Kotlin.resume sq in
      let ws := ws_erase (Kotlin.workingSet sq')
                         (Kotlin.node (Kotlin.entries sq' c)) in
      if is_huge (Kotlin.distance (Kotlin.entries sq' c)) then
        (None, {| Kotlin.workingSet := ws; Kotlin.entries := Kotlin.entries sq';
                  Kotlin.suspended := None; Kotlin.graphOf := Kotlin.graphOf sq';
                  Kotlin.selections := S (Kotlin.selections sq') |})
      else
        (Some c, {| Kotlin.workingSet := ws; Kotlin.entries := Kotlin.entries sq';
                    Kotlin.suspended := Some c; Kotlin.graphOf := Kotlin.graphOf sq';
                    Kotlin.selections := S (Kotlin.selections sq') |}).
Proof.
  intro Hws.
  destruct (selectNext_last (Kotlin.entries (Kotlin.resume sq)) Hws)
    as [c [Hsel Hlast]].
  exists c. split; [exact Hlast|].
  unfold Kotlin.next. rewrite Hsel.
  destruct (Kotlin.workingSet (Kotlin.resume sq)); [congruence|reflexivity].
Qed.

(** C6, as the code has it.  An increment of the C++ iterator takes
    out of the working set an entry of least distance, and of several
    such entries the first in scan order; a pull of the Kotlin
    sequence takes out an entry of least distance, and of several such
    entries the last in scan order. *)
Theorem C6_selection_tie_break
    (it : dijkstra_traversal_iterator T) (sq : Kotlin.PathSequence T) :
  (working_set it <> [] ->
   exists c,
     first_closest (fun n => distance (steps it n)) (working_set it) c /\
     (forall n, In n (working_set it) ->
        dle (distance (steps it c)) (distance (steps it n)) = true) /\
     working_set (iter it) = ws_erase (working_set it) (current (steps it c)) /\
     current_node (iter it) =
       if is_huge (distance (steps it c)) then None else Some c) /\
  (Kotlin.workingSet (Kotlin.resume sq) <> [] ->
   exists c,
     last_closest (fun n => Kotlin.distance (Kotlin.entries (Kotlin.resume sq) n))
                  (Kotlin.workingSet (Kotlin.resume sq)) c /\
     (forall n, In n (Kotlin.workingSet (Kotlin.resume sq)) ->
        dle (Kotlin.distance (Kotlin.entries (Kotlin.resume sq) c))
            (Kotlin.distance (Kotlin.entries (Kotlin.resume sq) n)) = true) /\
     Kotlin.workingSet (snd (Kotlin.next sq)) =
       ws_erase (Kotlin.workingSet (Kotlin.resume sq))
                (Kotlin.node (Kotlin.entries (Kotlin.resume sq) c)) /\
     fst (Kotlin.next sq) =
       if is_huge (Kotlin.distance (Kotlin.entries (Kotlin.resume sq) c))
       then None else Some c).
Proof.
  split.
  - intro Hws. destruct (iter_select it Hws) as [c [Hfirst Hiter]].
    exists c. split; [exact Hfirst|]. split.
    { apply (first_closest_least (steps it) Hfirst). }
    rewrite Hiter. simpl.
    destruct (is_huge (distance (steps it c))); split; reflexivity.
  - intro Hws. destruct (next_select sq Hws) as [c [Hlast Hnext]].
    exists c. split; [exact Hlast|]. split.
    { destruct Hlast as (l1 & l2 & Hl & H1 & H2). intros n Hn.
      rewrite Hl in Hn. apply in_app_or in Hn. destruct Hn as [Hn|[<-|Hn]].
      - now apply H1.
      - apply dle_refl.
      - apply dlt_dle. now apply H2. }
    rewrite Hnext. simpl.
    destruct (is_huge (Kotlin.distance (Kotlin.entries (Kotlin.resume sq) c)));
      split; reflexivity.
Qed.

End Increment.

(** ** Relaxation *)

Section Relaxation.

Context {T : Type} {T_eq_dec : EqDec T}.

Variable ws : list T.
Variable c : T.

Lemma relax_edge_frame (st : T -> dijkstra_iteration_step T) (e : graph_edge T)
    (n : T) :
  ~ In n ws -> relax_edge ws c st e n = st n.
Proof.
  intro Hn. unfold relax_edge.
  destruct (ws_contains ws (end_ e)) eqn:Hc; [|reflexivity].
  apply ws_contains_In in Hc.
  destruct (dlt _ _); [|reflexivity].
  assert (n <> end_ e) by (intros ->; contradiction).
  now rewrite !store_other.
Qed.

Lemma relax_edge_current (st : T -> dijkstra_iteration_step T) (e : graph_edge T)
    (n : T) :
  current (relax_edge ws c st e n) = current (st n).
Proof.
  unfold relax_edge.
  destruct (ws_contains ws (end_ e)); [|reflexivity].
  destruct (dlt _ _); [|reflexivity].
  destruct (eq_dec n (end_ e)) as [->|Hn].
  - rewrite !store_same. reflexivity.
  - now rewrite !store_other.
Qed.

Lemma relax_frame (es : list (graph_edge T)) :
  forall (st : T -> dijkstra_iteration_step T) (n : T),
  ~ In n ws -> fold_left (relax_edge ws c) es st n = st n.
Proof.
  induction es as [|e es IH]; intros st n Hn; simpl; [reflexivity|].
  rewrite IH by assumption. now apply relax_edge_frame.
Qed.

Lemma relax_current (es : list (graph_edge T)) :
  forall (st : T -> dijkstra_iteration_step T) (n : T),
  current (fold_left (relax_edge ws c) es st n) = current (st n).
Proof.
  induction es as [|e es IH]; intros st n; simpl; [reflexivity|].
  rewrite IH. apply relax_edge_current.
Qed.

End Relaxation.

(** ** Steps are not touched once handed over *)

Section Immutable.

Context {T : Type} {T_eq_dec : EqDec T}.

Lemma advance_add (i j : nat) : forall it : dijkstra_traversal_iterator T,
  advance (i + j) it = advance j (advance i it).
Proof.
  induction i as [|i IH]; intro it; simpl; [reflexivity|]. apply IH.
Qed.

Lemma iter_working_set_incl (it : dijkstra_traversal_iterator T) (n : T) :
  In n (working_set (iter it)) -> In n (working_set it).
Proof.
  destruct (iter_cases it) as [[_ ->]|[(c & _ & _ & ->)|(c & _ & _ & ->)]];
    cbn [working_set]; [tauto| |]; intro H; apply ws_erase_In in H; tauto.
Qed.

(** An increment writes only to steps whose entry is still in the
    working set when the increment is over. *)
Lemma iter_frame (it : dijkstra_traversal_iterator T) (n : T) :
  ~ In n (working_set (iter it)) -> steps (iter it) n = steps it n.
Proof.
  destruct (iter_cases it) as [[_ ->]|[(c & _ & _ & ->)|(c & _ & _ & ->)]];
    cbn [working_set steps]; try reflexivity.
  intro Hn. now apply relax_frame.
Qed.

Lemma iter_current (it : dijkstra_traversal_iterator T) :
  (forall n, current (steps it n) = n) ->
  forall n, current (steps (iter it) n) = n.
Proof.
  intros H n.
  destruct (iter_cases it) as [[_ ->]|[(c & _ & _ & ->)|(c & _ & _ & ->)]];
    cbn [steps]; try apply H.
  rewrite relax_current. apply H.
Qed.

Lemma iter_current_node_erased (it : dijkstra_traversal_iterator T) (p : T) :
  (forall n, current (steps it n) = n) ->
  current_node (iter it) = Some p -> ~ In p (working_set (iter it)).
Proof.
  intros H.
  destruct (iter_cases it) as [[_ ->]|[(c & _ & _ & ->)|(c & _ & _ & ->)]];
    cbn [working_set current_node]; try discriminate.
  intros [= <-]. rewrite H. intro Hin. apply ws_erase_In in Hin. tauto.
Qed.

Lemma advance_frame (j : nat) : forall (it : dijkstra_traversal_iterator T) (n : T),
  ~ In n (working_set it) ->
  steps (advance j it) n = steps it n.
Proof.
  induction j as [|j IH]; intros it n Hn; simpl; [reflexivity|].
  assert (Hn' : ~ In n (working_set (iter it))).
  { intro H. apply Hn. now apply iter_working_set_incl. }
  unfold incr. rewrite IH by assumption. now apply iter_frame.
Qed.

Lemma init_entry_current (s : T) (l : list (T * graph_node T)) :
  forall acc : list T * (T -> dijkstra_iteration_step T),
  (forall n, current (snd acc n) = n) ->
  forall n, current (snd (fold_left (init_entry s) l acc) n) = n.
Proof.
  induction l as [|[k nd] l IH]; intros acc H n; simpl; [apply H|].
  apply IH. intro m. unfold init_entry. simpl.
  destruct (eq_dec m k) as [->|Hm].
  - rewrite store_same. destruct (keq k s); reflexivity.
  - rewrite store_other by assumption. apply H.
Qed.

Lemma begin_inversion (t : dijkstra_traversal T) (it : dijkstra_traversal_iterator T) :
  begin t = Normal it ->
  um_contains (nodes (traversal_graph t)) (traversal_start t) = true /\
  it = iter
         {| working_set :=
              fst (fold_left (init_entry (traversal_start t))
                             (nodes (traversal_graph t))
                             ([], new_dijkstra_iteration_step));
            steps :=
              snd (fold_left (init_entry (traversal_start t))
                             (nodes (traversal_graph t))
                             ([], new_dijkstra_iteration_step));
            current_node := None;
            working_graph := traversal_graph t;
            iter_calls := 0 |}.
Proof.
  unfold begin, new_dijkstra_traversal_iterator. simpl.
  destruct (um_contains _ _); simpl; [|discriminate].
  destruct (fold_left _ _ _) as [ws st]. simpl.
  intros [= <-]. split; reflexivity.
Qed.

Lemma begin_current (t : dijkstra_traversal T) (it : dijkstra_traversal_iterator T) :
  begin t = Normal it -> forall n, current (steps it n) = n.
Proof.
  intro H. apply begin_inversion in H. destruct H as [_ ->].
  apply iter_current. simpl. apply init_entry_current. reflexivity.
Qed.

Lemma advance_current (i : nat) : forall it : dijkstra_traversal_iterator T,
  (forall n, current (steps it n) = n) ->
  forall n, current (steps (advance i it) n) = n.
Proof.
  induction i as [|i IH]; intros it H; simpl; [exact H|].
  apply IH. now apply iter_current.
Qed.

Lemma advance_current_node_erased (i : nat) :
  forall (it : dijkstra_traversal_iterator T) (p : T),
  (forall n, current (steps it n) = n) ->
  (current_node it = Some p -> ~ In p (working_set it)) ->
  current_node (advance i it) = Some p -> ~ In p (working_set (advance i it)).
Proof.
  induction i as [|i IH]; intros it p H H0; simpl; [exact H0|].
  apply IH.
  - now apply iter_current.
  - now apply iter_current_node_erased.
Qed.

End Immutable.

(** ** The consumer's loop *)

Section Consumer.

Context {T : Type} {T_eq_dec : EqDec T}.

Lemma range_for_at_end (F : nat) (it : dijkstra_traversal_iterator T) :
  current_node it = None -> range_for F it = [].
Proof. intro H. destruct F; simpl; [reflexivity|]. unfold deref. now rewrite H. Qed.

Lemma range_for_length (F : nat) : forall it : dijkstra_traversal_iterator T,
  List.length (range_for F it) <= F.
Proof.
  induction F as [|F IH]; intro it; simpl; [lia|].
  destruct (deref it); simpl; [|lia]. specialize (IH (incr it)). lia.
Qed.

Lemma iter_shrinks (it : dijkstra_traversal_iterator T) :
  (forall n, current (steps it n) = n) ->
  current_node (iter it) = None \/
  List.length (working_set (iter it)) < List.length (working_set it).
Proof.
  intro H.
  destruct (iter_cases it) as [[_ ->]|[(c & _ & _ & ->)|(c & Hf & _ & ->)]];
    cbn [working_set current_node]; auto.
  right. rewrite H. apply ws_erase_length.
  eapply first_closest_In. exact Hf.
Qed.

(** Fuel beyond the size of the working set changes nothing: the loop
    has ended by then. *)
Lemma range_for_enough (F : nat) : forall (it : dijkstra_traversal_iterator T) (F' : nat),
  (forall n, current (steps it n) = n) ->
  List.length (working_set it) < F -> F <= F' ->
  range_for F' it = range_for F it.
Proof.
  induction F as [|F IH]; intros it F' Hc Hlen HF; [lia|].
  destruct F' as [|F']; [lia|]. simpl.
  destruct (deref it) as [p|]; [|reflexivity]. f_equal.
  unfold incr. destruct (iter_shrinks it Hc) as [Hnone|Hlt].
  - now rewrite !range_for_at_end.
  - apply IH; [now apply iter_current|lia|lia].
Qed.

(** The steps read by a consumer that leaves after [k] of them are the
    first [k] steps of the loop left to run. *)
Lemma range_for_break_prefix (k : nat) :
  forall (F : nat) (it : dijkstra_traversal_iterator T),
  k <= F -> fst (range_for_break k it) = firstn k (range_for F it).
Proof.
  induction k as [|k IH]; intros F it HF; [reflexivity|].
  destruct F as [|F]; [lia|]. simpl.
  destruct (deref it) as [p|]; [|reflexivity].
  destruct k as [|k].
  - reflexivity.
  - specialize (IH F (incr it) ltac:(lia)).
    destruct (range_for_break (S k) (incr it)) as [l it'].
    simpl in IH |- *. now rewrite IH.
Qed.

(** Reading [k] steps takes the increment [begin] runs and one more
    for each step after the first. *)
Lemma range_for_break_calls (k : nat) :
  forall (F : nat) (it : dijkstra_traversal_iterator T),
  1 <= k -> k <= List.length (range_for F it) ->
  iter_calls (snd (range_for_break k it)) = iter_calls it + k - 1.
Proof.
  induction k as [|k IH]; intros F it Hk Hlen; [lia|].
  destruct F as [|F]; [simpl in Hlen; lia|]. simpl in Hlen |- *.
  destruct (deref it) as [p|]; [|simpl in Hlen; lia].
  destruct k as [|k].
  - simpl. lia.
  - simpl in Hlen.
    specialize (IH F (incr it) ltac:(lia) ltac:(lia)).
    destruct (range_for_break (S k) (incr it)) as [l it'].
    simpl in IH |- *. rewrite IH. unfold incr. rewrite iter_calls_iter. lia.
Qed.

Lemma begin_calls (t : dijkstra_traversal T) (it : dijkstra_traversal_iterator T) :
  begin t = Normal it -> iter_calls it = 1.
Proof.
  intro H. apply begin_inversion in H. destruct H as [_ ->].
  now rewrite iter_calls_iter.
Qed.

Lemma advance_calls (k : nat) : forall it : dijkstra_traversal_iterator T,
  iter_calls (advance k it) = iter_calls it + k.
Proof.
  induction k as [|k IH]; intro it; simpl; [lia|].
  rewrite IH. unfold incr. rewrite iter_calls_iter. lia.
Qed.

(** A loop that ended with fuel to spare ended at the end: after as
    many increments as it read steps, the iterator is there. *)
Lemma range_for_stops (F : nat) : forall it : dijkstra_traversal_iterator T,
  List.length (range_for F it) < F ->
  current_node (advance (List.length (range_for F it)) it) = None.
Proof.
  induction F as [|F IH]; intros it Hlen; [lia|].
  simpl in Hlen |- *. unfold deref in *.
  destruct (current_node it) as [p|] eqn:Hp; simpl in Hlen |- *.
  - apply IH. lia.
  - exact Hp.
Qed.

Lemma traverse_inversion (g : graph T) (s : T) (l : list (dijkstra_iteration_step T)) :
  traverse g s = Normal l ->
  exists it, begin {| traversal_graph := g; traversal_start := s |} = Normal it /\
             l = range_for (S (List.length (nodes g))) it.
Proof.
  unfold traverse. simpl.
  destruct (begin _) as [it|]; [|discriminate].
  intros [= <-]. now exists it.
Qed.

End Consumer.

(** ** What relaxation computes *)

Section RelaxationResult.

Context {T : Type} {T_eq_dec : EqDec T}.

Variable ws : list T.
Variable c : T.
Hypothesis c_erased : ~ In c ws.

Lemma relax_edge_cases (st : T -> dijkstra_iteration_step T) (e : graph_edge T)
    (n : T) :
  relax_edge ws c st e n = st n \/
  (n = end_ e /\ In n ws /\
   dlt (dadd (distance (st c)) (weight e)) (distance (st n)) = true /\
   relax_edge ws c st e n =
     {| current := current (st n);
        distance := dadd (distance (st c)) (weight e);
        previous := Some (current (st c)) |}).
Proof.
  unfold relax_edge.
  destruct (ws_contains ws (end_ e)) eqn:Hin; [|now left].
  apply ws_contains_In in Hin.
  destruct (dlt _ _) eqn:Hlt; [|now left].
  destruct (eq_dec n (end_ e)) as [->|Hn].
  - right. repeat split; auto.
    assert (Hc : c <> end_ e) by (intros ->; contradiction).
    rewrite !store_same. simpl. rewrite store_other by assumption. reflexivity.
  - left. now rewrite !store_other.
Qed.

(** A step after the loop is the step before it, or was written for
    one of the edges, with a smaller distance than before. *)
Lemma relax_cases (es : list (graph_edge T)) :
  forall (st : T -> dijkstra_iteration_step T) (n : T),
  fold_left (relax_edge ws c) es st n = st n \/
  exists e, In e es /\ end_ e = n /\ In n ws /\
    dlt (distance (fold_left (relax_edge ws c) es st n)) (distance (st n)) = true /\
    distance (fold_left (relax_edge ws c) es st n) =
      dadd (distance (st c)) (weight e) /\
    previous (fold_left (relax_edge ws c) es st n) = Some (current (st c)).
Proof.
  induction es as [|e es IH]; intros st n; simpl; [now left|].
  assert (Hc : relax_edge ws c st e c = st c) by now apply relax_edge_frame.
  destruct (IH (relax_edge ws c st e) n) as [Heq|(e' & He' & Hend & Hin & Hlt & Hd & Hp)].
  - rewrite Heq.
    destruct (relax_edge_cases st e n) as [Hsame|(Hn & Hin & Hlt & Hval)].
    + now left.
    + right. exists e. rewrite Hval. simpl. repeat split; auto.
  - right. rewrite Hc in Hd, Hp.
    exists e'. repeat split; auto.
    destruct (relax_edge_cases st e n) as [Hsame|(Hn & _ & Hlt' & Hval)].
    + now rewrite Hsame in Hlt.
    + eapply dlt_trans; [exact Hlt|]. rewrite Hval. simpl. exact Hlt'.
Qed.

Lemma relax_decreases (es : list (graph_edge T))
    (st : T -> dijkstra_iteration_step T) (n : T) :
  dle (distance (fold_left (relax_edge ws c) es st n)) (distance (st n)) = true.
Proof.
  destruct (relax_cases es st n) as [->|(e & _ & _ & _ & Hlt & _)].
  - apply dle_refl.
  - now apply dlt_dle.
Qed.

(** After the loop the end of every edge with an entry in the working
    set is no farther than through that edge. *)
Lemma relax_upper (es : list (graph_edge T)) :
  forall (st : T -> dijkstra_iteration_step T) (e : graph_edge T),
  In e es -> In (end_ e) ws ->
  dle (distance (fold_left (relax_edge ws c) es st (end_ e)))
      (dadd (distance (st c)) (weight e)) = true.
Proof.
  induction es as [|e0 es IH]; intros st e Hin Hws; simpl; [contradiction|].
  destruct Hin as [->|Hin].
  - eapply dle_trans; [apply relax_decreases|].
    destruct (relax_edge_cases st e (end_ e)) as [Hsame|(_ & _ & _ & Hval)].
    + rewrite Hsame. apply dlt_false_dle.
      unfold relax_edge in Hsame.
      apply ws_contains_In in Hws. rewrite Hws in Hsame.
      destruct (dlt _ _) eqn:Hlt; [|reflexivity].
      exfalso. rewrite !store_same in Hsame. simpl in Hsame.
      rewrite <- Hsame in Hlt. simpl in Hlt. now rewrite dlt_irrefl in Hlt.
    + rewrite Hval. simpl. apply dle_refl.
  - specialize (IH (relax_edge ws c st e0) e Hin Hws).
    now rewrite relax_edge_frame in IH by assumption.
Qed.

End RelaxationResult.

(** ** The invariant of the traversal *)

Section Invariant.

Context {T : Type} {T_eq_dec : EqDec T}.

Variable g : graph T.
Variable s : T.
Hypothesis g_wf : wf_graph g.

Lemma NoDup_app_apart (l l' : list T) (a : T) :
  NoDup (l ++ l') -> In a l -> ~ In a l'.
Proof.
  induction l as [|x l IH]; simpl; [contradiction|].
  intros Hnd [->|Hin] Hin'.
  - inversion Hnd as [|? ? Hnotin _]. apply Hnotin. apply in_or_app. now right.
  - inversion Hnd as [|? ? _ Hnd']. now apply (IH Hnd' Hin).
Qed.

Lemma move_selected (acc ws : list T) (c : T) :
  NoDup ws -> In c ws ->
  Permutation (acc ++ ws) ((acc ++ [c]) ++ ws_erase ws c).
Proof.
  intros Hnd Hc. apply in_split in Hc. destruct Hc as (l1 & l2 & ->).
  rewrite ws_erase_split by assumption.
  rewrite <- app_assoc. apply Permutation_app_head. simpl.
  apply Permutation_sym. apply Permutation_middle.
Qed.

Lemma nth_error_snoc (acc : list T) (c : T) (i : nat) (x : T) :
  nth_error (acc ++ [c]) i = Some x ->
  (i < List.length acc /\ nth_error acc i = Some x) \/
  (i = List.length acc /\ x = c).
Proof.
  intro H. destruct (Nat.lt_ge_cases i (List.length acc)) as [Hlt|Hge].
  - left. split; [assumption|]. now rewrite nth_error_app1 in H.
  - right. rewrite nth_error_app2 in H by assumption.
    destruct (i - List.length acc) as [|k] eqn:E; simpl in H.
    + injection H as <-. split; [lia|reflexivity].
    + destruct k; discriminate.
Qed.

(** One round keeps the invariant: [c], an entry of least distance
    with a finite distance, leaves the working set and its out-edges
    are relaxed. *)
Lemma round_inv (ws : list T) (st : T -> dijkstra_iteration_step T)
    (acc : list T) (c : T) :
  traversal_inv g s ws st acc ->
  In c ws ->
  (forall n, In n ws -> dle (distance (st c)) (distance (st n)) = true) ->
  is_huge (distance (st c)) = false ->
  traversal_inv g s (ws_erase ws c)
    (fold_left (relax_edge (ws_erase ws c) c) (out_edges_of g c) st)
    (acc ++ [c]).
Proof.
  intros Inv Hc Hmin Hfin.
  set (ws' := ws_erase ws c).
  set (st' := fold_left (relax_edge ws' c) (out_edges_of g c) st).
  assert (Hndws : NoDup ws).
  { eapply NoDup_app_remove_l. exact (inv_nodup Inv). }
  assert (Hperm : Permutation (acc ++ ws) ((acc ++ [c]) ++ ws'))
    by now apply move_selected.
  assert (Hnd' : NoDup ((acc ++ [c]) ++ ws')).
  { eapply Permutation_NoDup; [exact Hperm|exact (inv_nodup Inv)]. }
  assert (Hc' : ~ In c ws').
  { intro H. apply ws_erase_In in H. tauto. }
  assert (Hout : forall x, In x (acc ++ [c]) -> ~ In x ws').
  { intros x Hx Hx'.
    now apply (NoDup_app_apart _ _ x Hnd' Hx). }
  assert (Hframe : forall x, In x (acc ++ [c]) -> st' x = st x).
  { intros x Hx. apply relax_frame. now apply Hout. }
  assert (Hacc : forall x, In x acc -> st' x = st x).
  { intros x Hx. apply Hframe. apply in_or_app. now left. }
  assert (Hstc : st' c = st c).
  { apply Hframe. apply in_or_app. right. now left. }
  pose proof (relax_cases ws' c Hc' (out_edges_of g c) st) as Hcases.
  pose proof (relax_decreases ws' c Hc' (out_edges_of g c) st) as Hdecr.
  pose proof (relax_upper ws' c Hc' (out_edges_of g c) st) as Hupper.
  fold st' in Hcases, Hdecr, Hupper.
  split.
  - exact Hnd'.
  - intro n. rewrite <- (inv_nodes Inv n). split; intro H.
    + eapply Permutation_in; [apply Permutation_sym; exact Hperm|exact H].
    + eapply Permutation_in; [exact Hperm|exact H].
  - intro n. unfold st'. rewrite relax_current. apply (inv_current Inv).
  - pose proof (inv_source Inv) as Hsrc.
    destruct acc as [|a acc0]; simpl.
    + destruct Hsrc as [_ Hinit].
      assert (c = s).
      { rewrite Hinit in Hfin. simpl in Hfin.
        destruct (keq c s) eqn:E; [now apply keq_true in E|discriminate]. }
      subst c. split; [reflexivity|].
      rewrite Hstc, Hinit. now rewrite keq_refl.
    + destruct Hsrc as [-> Hs]. split; [reflexivity|].
      rewrite Hacc; [exact Hs|now left].
  - intros i j x y Hij Hx Hy.
    assert (Hxin : In x (acc ++ [c])) by (eapply nth_error_In; exact Hx).
    assert (Hyin : In y (acc ++ [c])) by (eapply nth_error_In; exact Hy).
    rewrite (Hframe x Hxin), (Hframe y Hyin).
    apply nth_error_snoc in Hx. apply nth_error_snoc in Hy.
    destruct Hy as [[Hj Hy]|[Hj ->]].
    + destruct Hx as [[Hi Hx]|[Hi ->]]; [|lia].
      apply (inv_sorted Inv) with (i := i) (j := j); assumption.
    + destruct Hx as [[Hi Hx]|[Hi ->]]; [|apply dle_refl].
      apply (inv_bound Inv); [|assumption].
      eapply nth_error_In; exact Hx.
  - intros x n Hx Hn.
    rewrite (Hframe x Hx).
    assert (Hxc : dle (distance (st x)) (distance (st c)) = true).
    { apply in_app_or in Hx. destruct Hx as [Hx|[<-|[]]].
      - now apply (inv_bound Inv).
      - apply dle_refl. }
    apply ws_erase_In in Hn. destruct Hn as [Hn Hne].
    destruct (Hcases n) as [Heq|(e & He & Hend & _ & _ & Hd & _)].
    + rewrite Heq. eapply dle_trans; [exact Hxc|]. now apply Hmin.
    + rewrite Hd. eapply dle_trans; [exact Hxc|].
      apply dadd_dle. apply Qlt_le_weak. eapply (wf_weight g_wf). exact He.
  - intros x Hx. rewrite (Hframe x Hx).
    apply in_app_or in Hx. destruct Hx as [Hx|[<-|[]]].
    + now apply (inv_finite Inv).
    + exact Hfin.
  - intros n p Hp.
    destruct (Hcases n) as [Heq|(e & He & Hend & _ & _ & Hd & Hprev)].
    + rewrite Heq in Hp. destruct (inv_previous Inv _ Hp) as [Hpin (e & He & Hend & Hd)].
      split; [apply in_or_app; now left|].
      exists e. repeat split; auto. rewrite Heq, (Hacc p Hpin). exact Hd.
    + rewrite Hprev in Hp. rewrite (inv_current Inv) in Hp. injection Hp as <-.
      split; [apply in_or_app; right; now left|].
      exists e. repeat split; auto. now rewrite Hstc.
  - intros i n p Hn Hp.
    assert (Hnin : In n (acc ++ [c])) by (eapply nth_error_In; exact Hn).
    rewrite (Hframe n Hnin) in Hp.
    apply nth_error_snoc in Hn. destruct Hn as [[Hi Hn]|[Hi ->]].
    + destruct (inv_earlier Inv _ Hn Hp) as [j [Hj Hpj]].
      exists j. split; [assumption|].
      rewrite nth_error_app1; [assumption|lia].
    + destruct (inv_previous Inv _ Hp) as [Hpin _].
      apply In_nth_error in Hpin. destruct Hpin as [j Hj].
      assert (j < List.length acc) by (apply nth_error_Some; congruence).
      exists j. split; [lia|]. now rewrite nth_error_app1.
  - intros p e Hp He.
    apply in_app_or in Hp. destruct Hp as [Hp|[<-|[]]].
    + destruct (inv_closed Inv _ _ Hp He) as [Hin|Hf].
      * left. apply in_or_app. now left.
      * right. eapply dle_finite; [|exact Hf]. apply Hdecr.
    + assert (Hend : In (end_ e) (acc ++ ws)).
      { apply (inv_nodes Inv). eapply (wf_end g_wf). exact He. }
      apply in_app_or in Hend. destruct Hend as [Hin|Hin].
      * left. apply in_or_app. now left.
      * destruct (eq_dec (end_ e) c) as [Heq|Hne].
        -- left. apply in_or_app. right. left. now symmetry.
        -- right.
           assert (Hin' : In (end_ e) ws') by (apply ws_erase_In; now split).
           eapply dle_finite.
           ++ apply (Hupper e He Hin').
           ++ now apply dadd_finite.
  - intros n Hn.
    destruct (Hcases n) as [Heq|(e & He & Hend & _ & _ & _ & _)].
    + rewrite Heq in Hn. now apply (inv_reachable Inv).
    + subst n. eapply reach_edge; [|exact He].
      now apply (inv_reachable Inv).
Qed.

End Invariant.

(** ** The traversal from its construction to its end *)

Section Run.

Context {T : Type} {T_eq_dec : EqDec T}.

Variable g : graph T.
Variable s : T.
Hypothesis g_wf : wf_graph g.
Hypothesis s_in : In s (node_names g).

Lemma init_entry_ws (l : list (T * graph_node T)) :
  forall acc : list T * (T -> dijkstra_iteration_step T),
  fst (fold_left (init_entry s) l acc) = fst acc ++ map fst l.
Proof.
  induction l as [|[k nd] l IH]; intro acc; simpl.
  - now rewrite app_nil_r.
  - rewrite IH. simpl. now rewrite <- app_assoc.
Qed.

Lemma init_entry_steps (l : list (T * graph_node T)) :
  forall (acc : list T * (T -> dijkstra_iteration_step T)) (n : T),
  snd (fold_left (init_entry s) l acc) n =
  if in_dec eq_dec n (map fst l) then initial_step s n else snd acc n.
Proof.
  induction l as [|[k nd] l IH]; intros acc n; simpl; [reflexivity|].
  rewrite IH. simpl.
  destruct (in_dec eq_dec n (map fst l)) as [Hin|Hnin].
  - destruct (eq_dec k n); reflexivity.
  - destruct (eq_dec k n) as [->|Hk].
    + rewrite store_same. unfold initial_step.
      destruct (keq n s); reflexivity.
    + rewrite store_other by congruence. reflexivity.
Qed.

Lemma initial_steps (n : T) :
  snd (fold_left (init_entry s) (nodes g) ([], new_dijkstra_iteration_step)) n =
  initial_step s n.
Proof.
  rewrite init_entry_steps. simpl.
  destruct (in_dec eq_dec n (map fst (nodes g))) as [Hin|Hnin]; [reflexivity|].
  unfold initial_step, new_dijkstra_iteration_step.
  destruct (keq n s) eqn:E; [|reflexivity].
  apply keq_true in E. subst n. contradiction.
Qed.

(** The invariant holds when the constructor has filled the working
    set and has not yet called [iter]. *)
Lemma initial_inv :
  traversal_inv g s
    (fst (fold_left (init_entry s) (nodes g) ([], new_dijkstra_iteration_step)))
    (snd (fold_left (init_entry s) (nodes g) ([], new_dijkstra_iteration_step)))
    [].
Proof.
  rewrite init_entry_ws. simpl. fold (node_names g).
  split; simpl.
  - exact (wf_names g_wf).
  - tauto.
  - intro n. now rewrite initial_steps.
  - split; [exact s_in|]. intro n. now rewrite initial_steps.
  - intros i j x y _ Hx. destruct i; discriminate.
  - intros x n [].
  - intros x [].
  - intros n p. rewrite initial_steps. discriminate.
  - intros i n p Hn. destruct i; discriminate.
  - intros p e [].
  - intros n. rewrite initial_steps. simpl.
    destruct (keq n s) eqn:E; [|discriminate].
    apply keq_true in E. subst n. intros _. now apply reach_source.
Qed.

(** When nothing in the working set has a finite distance, every node
    that can be reached has been selected. *)
Lemma exhausted_reachable (ws : list T) (st : T -> dijkstra_iteration_step T)
    (acc : list T) :
  traversal_inv g s ws st acc ->
  (forall n, In n ws -> is_huge (distance (st n)) = true) ->
  forall n, reachable g s n -> In n acc.
Proof.
  intros Inv Hhuge n Hreach. induction Hreach as [Hs|p e Hp IH He].
  - pose proof (inv_source Inv) as Hsrc. destruct acc as [|a acc0].
    + destruct Hsrc as [Hin Hinit]. specialize (Hhuge s Hin).
      rewrite Hinit in Hhuge. simpl in Hhuge. rewrite keq_refl in Hhuge.
      discriminate.
    + destruct Hsrc as [-> _]. now left.
  - destruct (inv_closed Inv _ _ IH He) as [Hin|Hfin]; [assumption|].
    assert (Hend : In (end_ e) (acc ++ ws)).
    { apply (inv_nodes Inv). eapply (wf_end g_wf). exact He. }
    apply in_app_or in Hend. destruct Hend as [Hin|Hin]; [assumption|].
    rewrite (Hhuge _ Hin) in Hfin. discriminate.
Qed.

Lemma huge_least (d : T -> double) (ws : list T) (c : T) :
  first_closest d ws c -> is_huge (d c) = true ->
  forall n, In n ws -> is_huge (d n) = true.
Proof.
  intros (l1 & l2 & -> & H1 & H2) Hc n Hn.
  apply in_app_or in Hn. destruct Hn as [Hn|[<-|Hn]].
  - specialize (H1 n Hn). apply dlt_finite in H1. congruence.
  - exact Hc.
  - specialize (H2 n Hn). destruct (d c); [discriminate|].
    destruct (d n); [discriminate|reflexivity].
Qed.

(** The loop from an iterator that satisfies the invariant: what it
    reads is the store at its end, read at the nodes it selected. *)
Lemma range_for_inv (F : nat) :
  forall (it : dijkstra_traversal_iterator T) (acc : list T) (c : T),
  working_graph it = g ->
  traversal_inv g s (working_set it) (steps it) (acc ++ [c]) ->
  current_node it = Some c ->
  List.length (working_set it) < F ->
  exists rest ws st,
    traversal_inv g s ws st (acc ++ c :: rest) /\
    (forall n, In n ws -> is_huge (distance (st n)) = true) /\
    range_for F it = map st (c :: rest) /\
    (forall x, In x (acc ++ [c]) -> st x = steps it x).
Proof.
  induction F as [|F IH]; intros it acc c Hg Inv Hcur Hlen; [lia|].
  simpl. unfold deref. rewrite Hcur. unfold incr.
  destruct (iter_cases it) as [[Hws Hit]|[(c' & Hf & Hh & Hit)|(c' & Hf & Hh & Hit)]].
  - exists [], (working_set it), (steps it).
    split; [exact Inv|]. split; [|split].
    + intros n Hn. rewrite Hws in Hn. contradiction.
    + rewrite range_for_at_end; [reflexivity|]. now rewrite Hit.
    + reflexivity.
  - exists [], (working_set it), (steps it).
    split; [exact Inv|]. split; [|split].
    + apply (huge_least Hf Hh).
    + rewrite range_for_at_end; [reflexivity|]. now rewrite Hit.
    + reflexivity.
  - rewrite (inv_current Inv) in Hit. rewrite Hg in Hit.
    assert (Hin : In c' (working_set it)) by (eapply first_closest_In; exact Hf).
    assert (Inv' : traversal_inv g s (working_set (iter it)) (steps (iter it))
                     ((acc ++ [c]) ++ [c'])).
    { rewrite Hit. cbn [working_set steps].
      apply round_inv; auto.
      apply (first_closest_least (steps it) Hf). }
    destruct (IH (iter it) (acc ++ [c]) c') as (rest & ws & st & Hinv & Hhuge & Hrun & Hfr).
    + now rewrite working_graph_iter.
    + exact Inv'.
    + rewrite Hit. reflexivity.
    + rewrite Hit. cbn [working_set].
      pose proof (ws_erase_length (working_set it) c' Hin). lia.
    + assert (Hframe : forall x, In x (acc ++ [c]) -> st x = steps it x).
      { intros x Hx. rewrite Hfr by (apply in_or_app; now left).
        apply iter_frame.
        apply (NoDup_app_apart _ _ x (inv_nodup Inv')).
        apply in_or_app. now left. }
      exists (c' :: rest), ws, st.
      split; [|split; [exact Hhuge|split; [|exact Hframe]]].
      * now rewrite <- app_assoc in Hinv.
      * rewrite Hrun. simpl. f_equal. symmetry. apply Hframe.
        apply in_or_app. right. now left.
Qed.

(** The traversal from a source in the graph, summed up: it returns
    the final store read at the nodes selected, the invariant holds of
    them, and nothing left in the working set has a finite distance. *)
Lemma begin_eq :
  begin {| traversal_graph := g; traversal_start := s |} =
  Normal (iter
    {| working_set :=
         fst (fold_left (init_entry s) (nodes g) ([], new_dijkstra_iteration_step));
       steps :=
         snd (fold_left (init_entry s) (nodes g) ([], new_dijkstra_iteration_step));
       current_node := None; working_graph := g; iter_calls := 0 |}).
Proof.
  unfold begin, new_dijkstra_traversal_iterator.
  cbn [traversal_graph traversal_start working_set steps].
  assert (Hs : um_contains (nodes g) s = true) by (now apply um_contains_In).
  rewrite Hs. cbn [negb].
  destruct (fold_left _ _ _) as [ws0 st0]. reflexivity.
Qed.

Lemma traverse_inv :
  exists acc ws st,
    traverse g s = Normal (map st acc) /\
    traversal_inv g s ws st acc /\
    (forall n, In n ws -> is_huge (distance (st n)) = true).
Proof.
  unfold traverse, new_dijkstra_traversal. rewrite begin_eq.
  pose proof initial_inv as Inv0.
  pose proof (init_entry_ws (nodes g) ([], new_dijkstra_iteration_step)) as Hws0.
  cbn [fst app] in Hws0.
  set (ws0 := fst (fold_left (init_entry s) (nodes g)
                     ([], new_dijkstra_iteration_step))) in *.
  set (st0 := snd (fold_left (init_entry s) (nodes g)
                     ([], new_dijkstra_iteration_step))) in *.
  assert (Hlen0 : List.length ws0 = List.length (nodes g)).
  { rewrite Hws0. apply length_map. }
  destruct (inv_source Inv0) as [Hsin Hst0].
  destruct (iter_cases {| working_set := ws0; steps := st0; current_node := None;
                          working_graph := g; iter_calls := 0 |})
    as [[Hws Hit]|[(c & Hf & Hh & Hit)|(c & Hf & Hh & Hit)]];
    cbn [working_set steps working_graph iter_calls] in Hit;
    cbn [working_set steps] in *.
  - rewrite Hws in Hsin. contradiction.
  - exfalso.
    pose proof (huge_least Hf Hh s Hsin) as H. cbv beta in H.
    rewrite Hst0 in H. simpl in H. rewrite keq_refl in H. discriminate.
  - rewrite (inv_current Inv0) in Hit.
    assert (Hin : In c ws0) by (eapply first_closest_In; exact Hf).
    destruct (@range_for_inv (S (List.length (nodes g)))
                (iter {| working_set := ws0; steps := st0; current_node := None;
                         working_graph := g; iter_calls := 0 |}) [] c)
      as (rest & ws & st & Hinv & Hhuge & Hrun & _).
    + now rewrite working_graph_iter.
    + rewrite Hit. cbn [working_set steps].
      apply round_inv; auto.
      apply (first_closest_least st0 Hf).
    + rewrite Hit. reflexivity.
    + rewrite Hit. cbn [working_set].
      pose proof (ws_erase_length ws0 c Hin). lia.
    + exists (c :: rest), ws, st.
      split; [now rewrite Hrun|]. split; [exact Hinv|exact Hhuge].
Qed.

End Run.

(** ** The first step and the order of the distances *)

Section Yielded.

Context {T : Type} {T_eq_dec : EqDec T}.

Lemma nth_error_map_inv (A B : Type) (f : A -> B) (l : list A) (i : nat) (y : B) :
  nth_error (map f l) i = Some y ->
  exists a, nth_error l i = Some a /\ y = f a.
Proof.
  rewrite nth_error_map. destruct (nth_error l i) as [a|]; simpl; [|discriminate].
  intros [= <-]. now exists a.
Qed.

Lemma map_current (st : T -> dijkstra_iteration_step T) (acc : list T) :
  (forall n, current (st n) = n) -> map (@current T) (map st acc) = acc.
Proof.
  intro H. rewrite map_map. rewrite <- (map_id acc) at 2.
  apply map_ext. intro a. apply H.
Qed.

Lemma iter_length_le (it : dijkstra_traversal_iterator T) :
  List.length (working_set (iter it)) <= List.length (working_set it).
Proof.
  destruct (iter_cases it) as [[_ ->]|[(c & _ & _ & ->)|(c & _ & _ & ->)]];
    cbn [working_set]; [lia| |]; apply filter_length_le.
Qed.

(** C1: from a source in the graph, the first step yielded is the
    source at distance 0 without a predecessor, and the distances of
    the steps yielded never go down. *)
Theorem C1_nondecreasing_from_source (g : graph T) (s : T) :
  wf_graph g -> In s (node_names g) ->
  exists rest,
    traverse g s =
      Normal ({| current := s; distance := Finite 0%Q; previous := None |} :: rest) /\
    nondecreasing
      ({| current := s; distance := Finite 0%Q; previous := None |} :: rest).
Proof.
  intros Hwf Hs.
  destruct (traverse_inv s Hwf Hs) as (acc & ws & st & Hrun & Inv & Hhuge).
  pose proof (inv_source Inv) as Hsrc.
  destruct acc as [|a acc].
  - exfalso. destruct Hsrc as [Hin Hinit].
    specialize (Hhuge s Hin). rewrite Hinit in Hhuge. simpl in Hhuge.
    rewrite keq_refl in Hhuge. discriminate.
  - destruct Hsrc as [-> Hst]. exists (map st acc).
    simpl in Hrun. rewrite Hst in Hrun. split; [exact Hrun|].
    rewrite <- Hst. change (nondecreasing (map st (s :: acc))).
    intros i j x y Hij Hx Hy.
    apply nth_error_map_inv in Hx. destruct Hx as (a & Ha & ->).
    apply nth_error_map_inv in Hy. destruct Hy as (b & Hb & ->).
    apply (inv_sorted Inv) with (i := i) (j := j); assumption.
Qed.

End Yielded.

(** ** Every graph the operations build is well formed *)

Section WellFormed.

Context {T : Type} {T_eq_dec : EqDec T}.

Lemma wf_empty_graph : wf_graph (@empty_graph T).
Proof.
  split; unfold node_names, out_edges_of; simpl;
    try (intros; contradiction); intros; constructor.
Qed.

Lemma um_update_In (V : Type) (m : list (T * V)) (k0 : T) (f : V -> V)
    (k : T) (v' : V) :
  In (k, v') (um_update m k0 f) ->
  exists v, In (k, v) m /\ (v' = v \/ v' = f v).
Proof.
  induction m as [|[k1 v1] m IH]; simpl; [contradiction|].
  destruct (eq_dec k0 k1) as [Heq|Hk].
  - intros [H|H].
    + injection H as Hk Hv. subst. exists v1. split; [now left|now right].
    + exists v'. split; [now right|now left].
  - intros [H|H].
    + injection H as Hk1 Hv. subst. exists v'. split; [now left|now left].
    + destruct (IH H) as (v & Hv & Hcase). exists v. split; [now right|exact Hcase].
Qed.

Lemma create_node_eq (g : graph T) (n : T) :
  create_node n g =
  if um_contains (nodes g) n
  then (Thrown (domain_error "Node already exists"), g)
  else (Normal tt, {| nodes := um_assign (nodes g) n (new_graph_node n) |}).
Proof.
  unfold create_node, bind, get. simpl.
  destruct (um_contains (nodes g) n); reflexivity.
Qed.

Lemma create_node_wf (g : graph T) (n : T) :
  wf_graph g -> wf_graph (snd (create_node n g)).
Proof.
  intro Hwf. rewrite create_node_eq.
  destruct (um_contains (nodes g) n) eqn:Hc; [exact Hwf|]. simpl.
  assert (Hfresh : ~ In n (map fst (nodes g))).
  { intro H. apply um_contains_In in H. congruence. }
  assert (Hout : forall k,
    out_edges_of {| nodes := um_assign (nodes g) n (new_graph_node n) |} k =
    out_edges_of g k).
  { intro k. unfold out_edges_of. simpl.
    rewrite um_assign_keys_fresh by assumption. rewrite um_find_app. simpl.
    destruct (um_find (nodes g) k) as [nd|] eqn:E; [reflexivity|].
    destruct (eq_dec k n); reflexivity. }
  assert (Hnames :
    node_names {| nodes := um_assign (nodes g) n (new_graph_node n) |} =
    node_names g ++ [n]).
  { unfold node_names. simpl. rewrite um_assign_keys_fresh by assumption.
    now rewrite map_app. }
  split.
  - rewrite Hnames. apply NoDup_app.
    + exact (wf_names Hwf).
    + repeat constructor. intros [].
    + intros a Ha [<-|[]]. now apply Hfresh.
  - intros k nd. simpl. rewrite um_assign_keys_fresh by assumption.
    intro H. apply in_app_or in H. destruct H as [H|[[= <- <-]|[]]].
    + now apply (wf_name Hwf).
    + reflexivity.
  - intros k e. rewrite Hout. apply (wf_start Hwf).
  - intros k e. rewrite Hout, Hnames. intro H.
    apply in_or_app. left. now apply (wf_end Hwf k).
  - intros k e. rewrite Hout. apply (wf_weight Hwf).
  - intro k. rewrite Hout. apply (wf_single Hwf).
Qed.

Lemma edge_between_false (g : graph T) (s e : T) :
  edge_between g s e = false -> ~ In e (map (@end_ T) (out_edges_of g s)).
Proof.
  unfold edge_between. intros H Hin.
  apply in_map_iff in Hin. destruct Hin as (x & Hx & Hin).
  assert (existsb (fun itr => keq (end_ itr) e) (out_edges_of g s) = true).
  { apply existsb_exists. exists x. split; [assumption|]. now apply keq_true. }
  congruence.
Qed.

Lemma create_link_wf (g : graph T) (s e : T) (w : Q) :
  wf_graph g -> wf_graph (snd (create_link s e w g)).
Proof.
  intro Hwf. rewrite create_link_eq.
  destruct (negb (um_contains (nodes g) s) || negb (um_contains (nodes g) e)) eqn:Hc;
    [exact Hwf|].
  apply orb_false_elim in Hc. destruct Hc as [Hs He].
  apply negb_false_iff in Hs. apply negb_false_iff in He.
  destruct (Qle_bool w 0) eqn:Hw; [exact Hwf|].
  destruct (edge_between g s e) eqn:Hd; [exact Hwf|]. cbv zeta. simpl.
  pose proof (create_link_added g s e w Hs He) as Hadd. cbv zeta in Hadd.
  set (edge := {| weight := w; start := s; end_ := e |}) in *.
  set (g' := insert_in_edge e edge (insert_out_edge s edge g)) in *.
  assert (Hout : forall k x, In x (out_edges_of g' k) ->
                 In x (out_edges_of g k) \/ (k = s /\ x = edge)).
  { intros k x Hx. destruct (eq_dec k s) as [->|Hk].
    - rewrite (added_out Hadd) in Hx. apply in_app_or in Hx.
      destruct Hx as [Hx|[<-|[]]]; auto.
    - rewrite (other_out Hadd) in Hx by assumption. now left. }
  split.
  - rewrite (same_names Hadd). exact (wf_names Hwf).
  - intros k nd Hin. unfold g', insert_in_edge, insert_out_edge in Hin. simpl in Hin.
    apply um_update_In in Hin. destruct Hin as (nd1 & Hin & Hnd).
    apply um_update_In in Hin. destruct Hin as (nd0 & Hin & Hnd1).
    pose proof (wf_name Hwf _ _ Hin) as Hname.
    destruct Hnd as [->| ->]; destruct Hnd1 as [->| ->]; exact Hname.
  - intros k x Hx. destruct (Hout k x Hx) as [H|[-> ->]].
    + now apply (wf_start Hwf k).
    + reflexivity.
  - intros k x Hx. rewrite (same_names Hadd).
    destruct (Hout k x Hx) as [H|[-> ->]].
    + now apply (wf_end Hwf k).
    + simpl. now apply um_contains_In.
  - intros k x Hx. destruct (Hout k x Hx) as [H|[-> ->]].
    + now apply (wf_weight Hwf k).
    + simpl. apply Qnot_le_lt. intro Hle. apply Qle_bool_iff in Hle. congruence.
  - intro k. destruct (eq_dec k s) as [->|Hk].
    + rewrite (added_out Hadd), map_app. apply NoDup_app.
      * exact (wf_single Hwf s).
      * repeat constructor. intros [].
      * intros a Ha [<-|[]]. simpl in Ha. revert Ha. now apply edge_between_false.
    + rewrite (other_out Hadd) by assumption. exact (wf_single Hwf k).
Qed.

End WellFormed.

(** ** A test program *)

Lemma build_wf (T : Type) (T_eq_dec : EqDec T) (calls : list (M (graph T) unit)) :
  Forall (fun call => forall g, wf_graph g -> wf_graph (snd (call g))) calls ->
  forall g, wf_graph g -> wf_graph (build calls g).
Proof.
  induction 1 as [|call calls Hcall _ IH]; intros g Hg; simpl; [exact Hg|].
  apply IH. now apply Hcall.
Qed.

Lemma ring_graph_wf : wf_graph ring_graph.
Proof.
  apply build_wf; [|apply wf_empty_graph].
  repeat (apply Forall_cons;
          [intros g Hg; first [now apply create_node_wf | now apply create_link_wf]|]).
  apply Forall_nil.
Qed.


Example ring_traversal :
  traverse ring_graph 0 =
  Normal [ {| current := 0; distance := Finite 0%Q; previous := None |};
           {| current := 1; distance := Finite 1%Q; previous := Some 0 |};
           {| current := 2; distance := Finite 2%Q; previous := Some 1 |} ].
Proof. vm_compute. reflexivity. Qed.

Example fork_traversal :
  traverse fork_graph 0 =
  Normal [ {| current := 0; distance := Finite 0%Q; previous := None |};
           {| current := 1; distance := Finite 1%Q; previous := Some 0 |};
           {| current := 2; distance := Finite 1%Q; previous := Some 0 |} ].
Proof. vm_compute. reflexivity. Qed.

Example forkTraversal :
  Kotlin.traversal forkGraph 0 =
  Normal
    [ {| Kotlin.node := 0; Kotlin.distance := Finite 0%Q; Kotlin.priorNode := None |};
      {| Kotlin.node := 2; Kotlin.distance := Finite 1%Q; Kotlin.priorNode := Some 0 |};
      {| Kotlin.node := 1; Kotlin.distance := Finite 1%Q; Kotlin.priorNode := Some 0 |} ].
Proof. vm_compute. reflexivity. Qed.

(** ** An unknown source *)

Section UnknownSource.

Context {T : Type} {T_eq_dec : EqDec T}.

(** C5, as the code has it.  Constructing the [dijkstra_traversal]
    object never fails, whatever the source, and neither does [end];
    a source missing from the graph makes [begin], which constructs
    the iterator that holds the working set, fail with UnknownNode, so
    that the loop over the traversal fails before its first turn; a
    source in the graph makes [begin] succeed.  [shortestPath] fails
    with UnknownNode when it is called with a missing source. *)
Theorem C5_unknown_source_fails_at_begin (g : graph T) (k : Kotlin.Graph T) (s : T) :
  (exists t, new_dijkstra_traversal g s = Normal t /\
     failure (end_iterator t) = None /\
     failure (begin t) =
       if um_contains (nodes g) s then None else Some UnknownNode) /\
  failure (traverse g s) =
    (if um_contains (nodes g) s then None else Some UnknownNode) /\
  failure (Kotlin.shortestPath k s) =
    (if um_contains (Kotlin.nodes k) s then None else Some UnknownNode).
Proof.
  split; [|split].
  - exists {| traversal_graph := g; traversal_start := s |}.
    split; [reflexivity|]. split; [reflexivity|].
    unfold begin, new_dijkstra_traversal_iterator. simpl.
    destruct (um_contains (nodes g) s); simpl; [|reflexivity].
    destruct (fold_left _ _ _). reflexivity.
  - unfold traverse, new_dijkstra_traversal, begin, new_dijkstra_traversal_iterator.
    simpl. destruct (um_contains (nodes g) s); simpl; [|reflexivity].
    destruct (fold_left _ _ _). reflexivity.
  - unfold Kotlin.shortestPath.
    destruct (um_contains (Kotlin.nodes k) s); simpl; [|reflexivity].
    destruct (fold_left _ _ _). reflexivity.
Qed.

End UnknownSource.

(** ** The statements at the test program *)

Lemma C1_witness :
  wf_graph ring_graph /\ In 0 (node_names ring_graph) /\
  exists rest,
    traverse ring_graph 0 =
      Normal ({| current := 0; distance := Finite 0%Q; previous := None |} :: rest) /\
    nondecreasing
      ({| current := 0; distance := Finite 0%Q; previous := None |} :: rest).
Proof.
  split; [exact ring_graph_wf|].
  split; [right; left; reflexivity|].
  apply C1_nondecreasing_from_source.
  - exact ring_graph_wf.
  - right. left. reflexivity.
Defined.



(** C5 as it was stated fails: the traversal object for a source that
    is not in the graph is constructed without a failure. *)
Lemma C5_counterexample :
  um_contains (nodes ring_graph) 5 = false /\
  new_dijkstra_traversal ring_graph 5 =
    Normal {| traversal_graph := ring_graph; traversal_start := 5 |} /\
  failure (new_dijkstra_traversal ring_graph 5) = None.
Proof. repeat split; reflexivity. Qed.

Lemma C6_witness :
  working_set fork_iterator <> [] /\
  Kotlin.workingSet (Kotlin.resume forkSequence) <> [] /\
  (exists c,
     first_closest (fun n => distance (steps fork_iterator n))
                   (working_set fork_iterator) c /\
     (forall n, In n (working_set fork_iterator) ->
        dle (distance (steps fork_iterator c))
            (distance (steps fork_iterator n)) = true) /\
     working_set (iter fork_iterator) =
       ws_erase (working_set fork_iterator) (current (steps fork_iterator c)) /\
     current_node (iter fork_iterator) =
       if is_huge (distance (steps fork_iterator c)) then None else Some c) /\
  (exists c,
     last_closest
       (fun n => Kotlin.distance (Kotlin.entries (Kotlin.resume forkSequence) n))
       (Kotlin.workingSet (Kotlin.resume forkSequence)) c /\
     (forall n, In n (Kotlin.workingSet (Kotlin.resume forkSequence)) ->
        dle (Kotlin.distance (Kotlin.entries (Kotlin.resume forkSequence) c))
            (Kotlin.distance (Kotlin.entries (Kotlin.resume forkSequence) n)) = true) /\
     Kotlin.workingSet (snd (Kotlin.next forkSequence)) =
       ws_erase (Kotlin.workingSet (Kotlin.resume forkSequence))
                (Kotlin.node (Kotlin.entries (Kotlin.resume forkSequence) c)) /\
     fst (Kotlin.next forkSequence) =
       if is_huge (Kotlin.distance (Kotlin.entries (Kotlin.resume forkSequence) c))
       then None else Some c).
Proof.
  assert (H1 : working_set fork_iterator <> []) by (vm_compute; discriminate).
  assert (H2 : Kotlin.workingSet (Kotlin.resume forkSequence) <> [])
    by (vm_compute; discriminate).
  split; [exact H1|]. split; [exact H2|].
  destruct (C6_selection_tie_break fork_iterator forkSequence) as [Hc Hk].
  split; [exact (Hc H1)|exact (Hk H2)].
Defined.

(** C6 as it was stated fails: after the first pull of the fork the
    working set holds the nodes 1 and 2, in this order and at the same
    distance, and the next pull keeps 2, the last of them. *)
Lemma C6_counterexample :
  Kotlin.workingSet (Kotlin.resume forkSequence) = [1; 2] /\
  Kotlin.distance (Kotlin.entries (Kotlin.resume forkSequence) 1) = Finite 1%Q /\
  Kotlin.distance (Kotlin.entries (Kotlin.resume forkSequence) 2) = Finite 1%Q /\
  fst (Kotlin.next forkSequence) = Some 2 /\
  ~ first_closest
      (fun n => Kotlin.distance (Kotlin.entries (Kotlin.resume forkSequence) n))
      (Kotlin.workingSet (Kotlin.resume forkSequence)) 2.
Proof.
  assert (Hws : Kotlin.workingSet (Kotlin.resume forkSequence) = [1; 2])
    by (vm_compute; reflexivity).
  assert (H1 : Kotlin.distance (Kotlin.entries (Kotlin.resume forkSequence) 1)
               = Finite 1%Q) by (vm_compute; reflexivity).
  assert (H2 : Kotlin.distance (Kotlin.entries (Kotlin.resume forkSequence) 2)
               = Finite 1%Q) by (vm_compute; reflexivity).
  split; [exact Hws|]. split; [exact H1|]. split; [exact H2|].
  split; [vm_compute; reflexivity|].
  rewrite Hws. intros (l1 & l2 & Hl & Hbefore & _).
  destruct l1 as [|a l1]; [discriminate|].
  injection Hl as <- Hl.
  specialize (Hbefore 1 (or_introl eq_refl)).
  rewrite H1, H2 in Hbefore. vm_compute in Hbefore. discriminate.
Qed.

Lemma C10_witness :
  create_link 0 1 1%Q ring_graph =
    (Thrown (domain_error "Edge asready exists"), ring_graph) /\
  Kotlin.insertEdge 0 1 1%Q forkGraph =
    (Thrown (GraphEdgeError "An edge already exists"), forkGraph) /\
  ring_graph = ring_graph /\ forkGraph = forkGraph.
Proof.
  assert (H1 : create_link 0 1 1%Q ring_graph =
               (Thrown (domain_error "Edge asready exists"), ring_graph))
    by (vm_compute; reflexivity).
  assert (H2 : Kotlin.insertEdge 0 1 1%Q forkGraph =
               (Thrown (GraphEdgeError "An edge already exists"), forkGraph))
    by (vm_compute; reflexivity).
  split; [exact H1|]. split; [exact H2|].
  split.
  - exact (proj1 (C10_create_link_failure_atomic ring_graph ring_graph
                    forkGraph forkGraph 0 1 1%Q
                    (domain_error "Edge asready exists")) H1).
  - exact (proj2 (C10_create_link_failure_atomic ring_graph ring_graph
                    forkGraph forkGraph 0 1 1%Q
                    (GraphEdgeError "An edge already exists")) H2).
Defined.

(** ** Reference counts and the destruction of a graph *)

Section LinksWellFormed.

Context {T : Type} {T_eq_dec : EqDec T}.

Lemma wf_links_empty : wf_links (@empty_graph T).
Proof.
  split; unfold in_edges_of, out_edges_of; simpl;
    try (intros; contradiction); intros; constructor.
Qed.

Lemma create_node_wf_links (g : graph T) (n : T) :
  wf_links g -> wf_links (snd (create_node n g)).
Proof.
  intro Hwf. rewrite create_node_eq.
  destruct (um_contains (nodes g) n) eqn:Hc; [exact Hwf|]. simpl.
  assert (Hfresh : ~ In n (map fst (nodes g))).
  { intro H. apply um_contains_In in H. congruence. }
  assert (Hout : forall k,
    out_edges_of {| nodes := um_assign (nodes g) n (new_graph_node n) |} k =
    out_edges_of g k).
  { intro k. unfold out_edges_of. simpl.
    rewrite um_assign_keys_fresh by assumption. rewrite um_find_app. simpl.
    destruct (um_find (nodes g) k) as [nd|] eqn:E; [reflexivity|].
    destruct (eq_dec k n); reflexivity. }
  assert (Hin : forall k,
    in_edges_of {| nodes := um_assign (nodes g) n (new_graph_node n) |} k =
    in_edges_of g k).
  { intro k. unfold in_edges_of. simpl.
    rewrite um_assign_keys_fresh by assumption. rewrite um_find_app. simpl.
    destruct (um_find (nodes g) k) as [nd|] eqn:E; [reflexivity|].
    destruct (eq_dec k n); reflexivity. }
  split.
  - intros k e. rewrite Hin. apply (in_end Hwf).
  - intros k e. rewrite Hin, Hout. apply (in_out Hwf).
  - intros k e. rewrite Hin, Hout. apply (out_in Hwf).
  - intro k. rewrite Hin. apply (in_single Hwf).
Qed.

Lemma create_link_wf_links (g : graph T) (s e : T) (w : Q) :
  wf_graph g -> wf_links g -> wf_links (snd (create_link s e w g)).
Proof.
  intros Hg Hwf. rewrite create_link_eq.
  destruct (negb (um_contains (nodes g) s) || negb (um_contains (nodes g) e)) eqn:Hc;
    [exact Hwf|].
  apply orb_false_elim in Hc. destruct Hc as [Hs He].
  apply negb_false_iff in Hs. apply negb_false_iff in He.
  destruct (Qle_bool w 0) eqn:Hw; [exact Hwf|].
  destruct (edge_between g s e) eqn:Hd; [exact Hwf|]. cbv zeta. simpl.
  pose proof (create_link_added g s e w Hs He) as Hadd. cbv zeta in Hadd.
  set (edge := {| weight := w; start := s; end_ := e |}) in *.
  set (g' := insert_in_edge e edge (insert_out_edge s edge g)) in *.
  assert (Hout : forall k x, In x (out_edges_of g' k) <->
                 In x (out_edges_of g k) \/ (k = s /\ x = edge)).
  { intros k x. destruct (eq_dec k s) as [->|Hk].
    - rewrite (added_out Hadd). rewrite in_app_iff. simpl. intuition.
    - rewrite (other_out Hadd) by assumption. intuition. }
  assert (Hin : forall k x, In x (in_edges_of g' k) <->
                In x (in_edges_of g k) \/ (k = e /\ x = edge)).
  { intros k x. destruct (eq_dec k e) as [->|Hk].
    - rewrite (added_in Hadd). rewrite in_app_iff. simpl. intuition.
    - rewrite (other_in Hadd) by assumption. intuition. }
  split.
  - intros k x Hx. apply Hin in Hx. destruct Hx as [Hx|[-> ->]].
    + now apply (in_end Hwf k).
    + reflexivity.
  - intros k x Hx. apply Hout. apply Hin in Hx. destruct Hx as [Hx|[-> ->]].
    + left. now apply (in_out Hwf k).
    + right. split; reflexivity.
  - intros k x Hx. apply Hin. apply Hout in Hx. destruct Hx as [Hx|[-> ->]].
    + left. now apply (out_in Hwf k).
    + right. split; reflexivity.
  - intro k. destruct (eq_dec k e) as [->|Hk].
    + rewrite (added_in Hadd). apply NoDup_app.
      * exact (in_single Hwf e).
      * repeat constructor. intros [].
      * intros a Ha [<-|[]]. apply (in_out Hwf) in Ha. simpl in Ha.
        apply (edge_between_false g s e Hd). apply in_map_iff.
        exists edge. split; [reflexivity|exact Ha].
    + rewrite (other_in Hadd) by assumption. exact (in_single Hwf k).
Qed.

End LinksWellFormed.

Section HeapFacts.

Context {T : Type} {T_eq_dec : EqDec T}.

(** Letting go of the edges of a list, each of them owned at least as
    often as it is in the list. *)
Lemma release_edges (l : list (graph_edge T)) : forall h : heap,
  fault h = false ->
  (forall e, count_occ eq_dec l e <= edge_uses h e) ->
  fault (fold_left release_edge l h) = false /\
  node_uses (fold_left release_edge l h) = node_uses h /\
  destroyed_nodes (fold_left release_edge l h) = destroyed_nodes h /\
  (forall e, edge_uses (fold_left release_edge l h) e =
             edge_uses h e - count_occ eq_dec l e) /\
  exists new,
    destroyed_edges (fold_left release_edge l h) = new ++ destroyed_edges h /\
    NoDup new /\
    forall e, In e new <-> In e l /\ edge_uses h e = count_occ eq_dec l e.
Proof.
  induction l as [|x l IH]; intros h Hf Hle; simpl fold_left.
  - split; [exact Hf|]. split; [reflexivity|]. split; [reflexivity|].
    split; [intro e; simpl; lia|].
    exists []. split; [reflexivity|]. split; [constructor|].
    intro e. simpl. tauto.
  - pose proof (Hle x) as Hx. simpl in Hx.
    destruct (eq_dec x x) as [_|Hne]; [|contradiction].
    assert (Hstep :
      fault (release_edge h x) = false /\
      node_uses (release_edge h x) = node_uses h /\
      destroyed_nodes (release_edge h x) = destroyed_nodes h /\
      (forall e, edge_uses (release_edge h x) e =
                 edge_uses h e - (if eq_dec x e then 1 else 0)) /\
      destroyed_edges (release_edge h x) =
        (if edge_uses h x =? 1 then [x] else []) ++ destroyed_edges h).
    { unfold release_edge.
      destruct (edge_uses h x) as [|[|c]] eqn:Hu; [lia| |]; simpl;
        (split; [exact Hf|]); (split; [reflexivity|]); (split; [reflexivity|]);
        (split; [|reflexivity]); intro e;
        destruct (eq_dec e x) as [->|Hne]; destruct (eq_dec x x);
        try contradiction; try (rewrite Hu; lia);
        destruct (eq_dec x e); try congruence; lia. }
    destruct Hstep as (Hf1 & Hn1 & Hd1 & Hu1 & He1).
    assert (Hle1 : forall e, count_occ eq_dec l e <= edge_uses (release_edge h x) e).
    { intro e. rewrite Hu1. specialize (Hle e). simpl in Hle.
      destruct (eq_dec x e); lia. }
    destruct (IH (release_edge h x) Hf1 Hle1)
      as (Hf' & Hn' & Hd' & Hu' & new1 & Hnew1 & Hnd1 & Hin1).
    split; [exact Hf'|]. split; [now rewrite Hn'|]. split; [now rewrite Hd'|].
    split.
    { intro e. rewrite Hu', Hu1. simpl. destruct (eq_dec x e); lia. }
    exists (new1 ++ (if edge_uses h x =? 1 then [x] else [])).
    split; [rewrite Hnew1, He1; now rewrite app_assoc|].
    destruct (edge_uses h x =? 1) eqn:Hone.
    + apply Nat.eqb_eq in Hone.
      assert (Hcx : count_occ eq_dec l x = 0) by lia.
      assert (Hxl : ~ In x l) by (now apply (count_occ_not_In eq_dec)).
      split.
      * apply NoDup_app; [exact Hnd1|repeat constructor; intros []|].
        intros a Ha [<-|[]]. apply Hin1 in Ha. tauto.
      * intro e. rewrite in_app_iff, Hin1, Hu1. simpl.
        destruct (eq_dec x e) as [<-|Hne].
        -- split; [intros _; split; [now left|lia]|intros _; right; now left].
        -- split.
           ++ intros [[Hl Hc]|[Hxe|[]]]; [|congruence].
              split; [now right|lia].
           ++ intros [[Hxe|Hl] Hc]; [congruence|]. left. split; [exact Hl|lia].
    + apply Nat.eqb_neq in Hone. rewrite app_nil_r.
      split; [exact Hnd1|].
      intro e. rewrite Hin1, Hu1. simpl.
      destruct (eq_dec x e) as [<-|Hne].
      * split.
        -- intros [Hl Hc]. split; [now left|lia].
        -- intros [_ Hc]. split; [|lia].
           apply (count_occ_In eq_dec). lia.
      * split.
        -- intros [Hl Hc]. split; [now right|lia].
        -- intros [[Hxe|Hl] Hc]; [congruence|]. split; [exact Hl|lia].
Qed.

End HeapFacts.

Section Teardown.

Context {T : Type} {T_eq_dec : EqDec T}.

Variable g : graph T.
Variable held : T -> nat.
Hypothesis g_wf : wf_graph g.
Hypothesis g_links : wf_links g.

Lemma owner_left_le (done : list T) (n : T) : owner_left held done n <= 1.
Proof.
  unfold owner_left. destruct (in_dec eq_dec n done); [|lia].
  destruct (held n =? 0); lia.
Qed.

Lemma owner_left_zero (done : list T) (n : T) :
  owner_left held done n = 0 <-> In n done /\ held n = 0.
Proof.
  unfold owner_left. destruct (in_dec eq_dec n done) as [Hin|Hnin].
  - destruct (held n =? 0) eqn:E.
    + apply Nat.eqb_eq in E. tauto.
    + apply Nat.eqb_neq in E. split; [discriminate|tauto].
  - split; [discriminate|tauto].
Qed.

Lemma owner_left_fresh (done : list T) (n : T) :
  ~ In n done -> owner_left held done n = 1.
Proof. intro H. unfold owner_left. destruct (in_dec eq_dec n done); tauto. Qed.

Lemma owner_left_snoc_gone (done : list T) (n m : T) :
  held n = 0 -> ~ In n done ->
  owner_left held (done ++ [n]) m = if eq_dec m n then 0 else owner_left held done m.
Proof.
  intros Hh Hn. unfold owner_left.
  destruct (eq_dec m n) as [->|Hne].
  - destruct (in_dec eq_dec n (done ++ [n])) as [_|H].
    + now rewrite Hh.
    + exfalso. apply H. apply in_or_app. right. now left.
  - destruct (in_dec eq_dec m (done ++ [n])) as [H|H];
      destruct (in_dec eq_dec m done) as [H'|H']; try reflexivity.
    + apply in_app_or in H. destruct H as [H|[H|[]]]; [contradiction|congruence].
    + exfalso. apply H. apply in_or_app. now left.
Qed.

Lemma owner_left_snoc_held (done : list T) (n m : T) :
  held n <> 0 -> ~ In n done ->
  owner_left held (done ++ [n]) m = owner_left held done m.
Proof.
  intros Hh Hn. unfold owner_left.
  destruct (in_dec eq_dec m (done ++ [n])) as [H|H];
    destruct (in_dec eq_dec m done) as [H'|H']; try reflexivity.
  - apply in_app_or in H. destruct H as [H|[H|[]]]; [contradiction|].
    subst m. apply Nat.eqb_neq in Hh. now rewrite Hh.
  - exfalso. apply H. apply in_or_app. now left.
Qed.

Lemma count_occ_single (A : Type) (dec : forall x y : A, {x = y} + {x <> y})
    (l : list A) (x : A) :
  NoDup l -> count_occ dec l x = if in_dec dec x l then 1 else 0.
Proof.
  intro Hnd. destruct (in_dec dec x l) as [Hin|Hnin].
  - pose proof (proj1 (NoDup_count_occ dec l) Hnd x) as Hle.
    pose proof (proj1 (count_occ_In dec l x) Hin). lia.
  - now apply count_occ_not_In.
Qed.

Lemma out_edges_single (k : T) : NoDup (out_edges_of g k).
Proof. eapply NoDup_map_inv. exact (wf_single g_wf k). Qed.

(** An edge of the graph is an out-edge of [n] exactly when it starts
    at [n], and an in-edge of [n] exactly when it ends at [n]. *)
Lemma out_edge_iff (e : graph_edge T) (n : T) :
  In e (out_edges_of g (start e)) ->
  (In e (out_edges_of g n) <-> start e = n).
Proof.
  intro He. split.
  - apply (wf_start g_wf).
  - intros <-. exact He.
Qed.

Lemma in_edge_iff (e : graph_edge T) (n : T) :
  In e (out_edges_of g (start e)) ->
  (In e (in_edges_of g n) <-> end_ e = n).
Proof.
  intro He. split.
  - apply (in_end g_links).
  - intros <-. now apply (out_in g_links (start e)).
Qed.

Lemma member_is_edge (e : graph_edge T) (n : T) :
  In e (in_edges_of g n ++ out_edges_of g n) -> In e (out_edges_of g (start e)).
Proof.
  intro H. apply in_app_or in H. destruct H as [H|H].
  - now apply (in_out g_links n).
  - pose proof (wf_start g_wf _ _ H) as Hs. now rewrite Hs.
Qed.

(** The edges of the two sets of [n], counted. *)
Lemma member_count (e : graph_edge T) (n : T) :
  count_occ eq_dec (in_edges_of g n ++ out_edges_of g n) e =
  if in_dec eq_dec e (out_edges_of g (start e))
  then (if eq_dec (end_ e) n then 1 else 0) + (if eq_dec (start e) n then 1 else 0)
  else 0.
Proof.
  rewrite count_occ_app.
  rewrite count_occ_single by exact (in_single g_links n).
  rewrite count_occ_single by exact (out_edges_single n).
  destruct (in_dec eq_dec e (out_edges_of g (start e))) as [He|He].
  - pose proof (@in_edge_iff e n He) as Hiff.
    pose proof (@out_edge_iff e n He) as Hoff.
    destruct (in_dec eq_dec e (in_edges_of g n)) as [Hi|Hi];
      destruct (eq_dec (end_ e) n) as [Hen|Hen]; try tauto;
      destruct (in_dec eq_dec e (out_edges_of g n)) as [Ho|Ho];
      destruct (eq_dec (start e) n) as [Hsn|Hsn]; try tauto; reflexivity.
  - destruct (in_dec eq_dec e (in_edges_of g n)) as [Hi|Hi].
    + exfalso. apply He. now apply (in_out g_links n).
    + destruct (in_dec eq_dec e (out_edges_of g n)) as [Ho|Ho]; [|reflexivity].
      exfalso. apply He. pose proof (wf_start g_wf _ _ Ho) as Hs. now rewrite Hs.
Qed.

Lemma owner_left_member (done : list T) (e : graph_edge T) (n : T) :
  ~ In n done ->
  In e (out_edges_of g (start e)) ->
  (if eq_dec (end_ e) n then 1 else 0) <= owner_left held done (end_ e) /\
  (if eq_dec (start e) n then 1 else 0) <= owner_left held done (start e).
Proof.
  intros Hn He. split.
  - destruct (eq_dec (end_ e) n) as [->|_]; [|lia].
    now rewrite owner_left_fresh.
  - destruct (eq_dec (start e) n) as [->|_]; [|lia].
    now rewrite owner_left_fresh.
Qed.

(** The map lets go of one more node. *)
Lemma release_node_inv (done : list T) (h : heap) (n : T) :
  heap_inv g held done h -> In n (node_names g) -> ~ In n done ->
  heap_inv g held (done ++ [n]) (release_node g h n).
Proof.
  intros Inv Hn Hnd.
  assert (Hu : node_uses h n = S (held n)).
  { rewrite (hi_nodes Inv).
    destruct (in_dec eq_dec n (node_names g)); [|contradiction].
    destruct (in_dec eq_dec n done); [contradiction|reflexivity]. }
  assert (Hin_snoc : forall m, m <> n ->
            (In m (done ++ [n]) <-> In m done)).
  { intros m Hm. rewrite in_app_iff. simpl. intuition congruence. }
  unfold release_node. rewrite Hu.
  destruct (held n) as [|c] eqn:Hh.
  - (* the node is destroyed *)
    set (h1 := {| node_uses := fun x => if eq_dec x n then 0 else node_uses h x;
                  edge_uses := edge_uses h;
                  destroyed_nodes := n :: destroyed_nodes h;
                  destroyed_edges := destroyed_edges h; fault := fault h |}).
    set (l := in_edges_of g n ++ out_edges_of g n).
    assert (Hle : forall e, count_occ eq_dec l e <= edge_uses h1 e).
    { intro e. unfold l. rewrite member_count. simpl. rewrite (hi_edges Inv).
      destruct (in_dec eq_dec e (out_edges_of g (start e))) as [He|He]; [|lia].
      destruct (@owner_left_member done e n Hnd He). lia. }
    destruct (release_edges l h1 (hi_fault Inv) Hle)
      as (Hf & Hnu & Hdn & Heu & new & Hde & Hnew & Hin).
    assert (Hol : forall m, owner_left held (done ++ [n]) m =
                            if eq_dec m n then 0 else owner_left held done m).
    { intro m. now apply owner_left_snoc_gone. }
    assert (Hnew_iff : forall e, In e new <->
              In e (out_edges_of g (start e)) /\
              (end_ e = n \/ start e = n) /\
              owner_left held (done ++ [n]) (start e) = 0 /\
              owner_left held (done ++ [n]) (end_ e) = 0).
    { intro e. rewrite Hin. unfold l at 2. rewrite member_count. simpl.
      rewrite (hi_edges Inv), !Hol.
      split.
      - intros [Hl Hc]. pose proof (@member_is_edge e n Hl) as He.
        destruct (in_dec eq_dec e (out_edges_of g (start e))); [|contradiction].
        destruct (@owner_left_member done e n Hnd He) as [H1 H2].
        pose proof (owner_left_le done (start e)).
        pose proof (owner_left_le done (end_ e)).
        split; [exact He|]. split.
        + unfold l in Hl. apply in_app_or in Hl. destruct Hl as [Hl|Hl].
          * left. now apply (in_end g_links).
          * right. now apply (wf_start g_wf n).
        + destruct (eq_dec (start e) n); destruct (eq_dec (end_ e) n); lia.
      - intros (He & Hor & Hs & Hd).
        destruct (in_dec eq_dec e (out_edges_of g (start e))); [|contradiction].
        split.
        + unfold l. apply in_or_app. destruct Hor as [Hen|Hsn].
          * left. now apply (@in_edge_iff e n He).
          * right. now apply (@out_edge_iff e n He).
        + destruct (@owner_left_member done e n Hnd He) as [H1 H2].
          pose proof (owner_left_le done (start e)).
          pose proof (owner_left_le done (end_ e)).
          destruct (eq_dec (start e) n); destruct (eq_dec (end_ e) n); lia. }
    split.
    + exact Hf.
    + intro m. rewrite Hnu. simpl.
      destruct (eq_dec m n) as [->|Hm].
      * destruct (in_dec eq_dec n (node_names g)); [|contradiction].
        destruct (in_dec eq_dec n (done ++ [n])) as [_|H]; [now rewrite Hh|].
        exfalso. apply H. apply in_or_app. right. now left.
      * rewrite (hi_nodes Inv).
        destruct (in_dec eq_dec m (node_names g)); [|reflexivity].
        destruct (in_dec eq_dec m (done ++ [n])) as [H|H];
          destruct (in_dec eq_dec m done) as [H'|H']; try reflexivity;
          apply (Hin_snoc m Hm) in H || (exfalso; apply H; now apply Hin_snoc);
          contradiction.
    + intro e. rewrite Heu. unfold l. rewrite member_count. simpl.
      rewrite (hi_edges Inv), !Hol.
      destruct (in_dec eq_dec e (out_edges_of g (start e))) as [He|He]; [|reflexivity].
      destruct (@owner_left_member done e n Hnd He) as [H1 H2].
      pose proof (owner_left_le done (start e)).
      pose proof (owner_left_le done (end_ e)).
      destruct (eq_dec (start e) n); destruct (eq_dec (end_ e) n); lia.
    + rewrite Hdn. simpl. constructor; [|exact (hi_nodes_once Inv)].
      intro H. apply (hi_nodes_gone Inv) in H. tauto.
    + intro m. rewrite Hdn. simpl. rewrite (hi_nodes_gone Inv), in_app_iff. simpl.
      split.
      * intros [<-|[H1 H2]]; [split; [right; now left|exact Hh]|tauto].
      * intros [[H|[H|[]]] H2]; [right; tauto|left; exact H].
    + rewrite Hde. apply NoDup_app; [exact Hnew|exact (hi_edges_once Inv)|].
      intros e He Hold. apply Hnew_iff in He. destruct He as (_ & Hor & _).
      apply (hi_edges_gone Inv) in Hold. destruct Hold as (_ & Hs & Hd).
      apply owner_left_zero in Hs. apply owner_left_zero in Hd.
      destruct Hor as [<-|<-]; tauto.
    + intro e. rewrite Hde, in_app_iff, Hnew_iff.
      change (destroyed_edges h1) with (destroyed_edges h).
      rewrite (hi_edges_gone Inv), !Hol.
      destruct (eq_dec (start e) n) as [Hsn|Hsn];
        destruct (eq_dec (end_ e) n) as [Hen|Hen]; tauto.
  - (* a step still holds the node *)
    assert (Hol : forall m, owner_left held (done ++ [n]) m = owner_left held done m).
    { intro m. apply owner_left_snoc_held; [lia|exact Hnd]. }
    split; simpl.
    + exact (hi_fault Inv).
    + intro m. destruct (eq_dec m n) as [->|Hm].
      * destruct (in_dec eq_dec n (node_names g)); [|contradiction].
        destruct (in_dec eq_dec n (done ++ [n])) as [_|H]; [now rewrite Hh|].
        exfalso. apply H. apply in_or_app. right. now left.
      * rewrite (hi_nodes Inv).
        destruct (in_dec eq_dec m (node_names g)); [|reflexivity].
        destruct (in_dec eq_dec m (done ++ [n])) as [H|H];
          destruct (in_dec eq_dec m done) as [H'|H']; try reflexivity;
          apply (Hin_snoc m Hm) in H || (exfalso; apply H; now apply Hin_snoc);
          contradiction.
    + intro e. rewrite (hi_edges Inv), !Hol. reflexivity.
    + exact (hi_nodes_once Inv).
    + intro m. rewrite (hi_nodes_gone Inv), in_app_iff. simpl.
      split; [tauto|]. intros [[H|[H|[]]] H2]; [tauto|]. subst m. lia.
    + exact (hi_edges_once Inv).
    + intro e. rewrite (hi_edges_gone Inv), !Hol. reflexivity.
Qed.

Lemma heap_of_inv : heap_inv g held [] (heap_of g held).
Proof.
  split; simpl.
  - reflexivity.
  - intro n. destruct (um_contains (nodes g) n) eqn:Hc;
      destruct (in_dec eq_dec n (node_names g)) as [Hin|Hin]; try reflexivity.
    + exfalso. apply Hin. now apply um_contains_In.
    + apply um_contains_In in Hin. unfold node_names in Hin. congruence.
  - intro e. unfold owner_left. simpl.
    destruct (in_dec eq_dec e (out_edges_of g (start e))) as [He|He];
      destruct (in_dec eq_dec e (in_edges_of g (end_ e))) as [Hi|Hi];
      try reflexivity.
    + exfalso. apply Hi. now apply (out_in g_links (start e)).
    + exfalso. apply He. now apply (in_out g_links (end_ e)).
  - constructor.
  - intro n. tauto.
  - constructor.
  - intro e. unfold owner_left. simpl. split; [tauto|]. intros (_ & H & _).
    discriminate.
Qed.

Lemma graph_destructor_inv (rest : list T) : forall (done : list T) (h : heap),
  heap_inv g held done h ->
  NoDup (done ++ rest) ->
  (forall n, In n rest -> In n (node_names g)) ->
  heap_inv g held (done ++ rest) (graph_destructor g rest h).
Proof.
  induction rest as [|n rest IH]; intros done h Inv Hnd Hin; simpl.
  - now rewrite app_nil_r.
  - replace (done ++ n :: rest) with ((done ++ [n]) ++ rest)
      by (now rewrite <- app_assoc).
    apply IH.
    + apply release_node_inv; [exact Inv|apply Hin; now left|].
      apply NoDup_remove_2 in Hnd. intro H. apply Hnd. apply in_or_app. now left.
    + now rewrite <- app_assoc.
    + intros m Hm. apply Hin. now right.
Qed.

End Teardown.

Section Reclaimed.

Context {T : Type} {T_eq_dec : EqDec T}.

(** C9, as the code has it.  The destructor of the graph severs
    nothing: its body is empty, and when the map lets go of the nodes,
    in any order, a node that a step still points to stays alive and
    keeps owning the edges of its two collections.  A node no step
    points to is destroyed, once; an edge is destroyed, once, when
    both its start and its end are; no pointer to a destroyed object
    is let go of; and the counts left are those of the pointers still
    there.  So with no step alive every node and edge is reclaimed. *)
Theorem C9_reclaimed_by_counting (g : graph T) (held : T -> nat) (order : list T) :
  wf_graph g -> wf_links g -> Permutation order (node_names g) ->
  fault (graph_destructor g order (heap_of g held)) = false /\
  NoDup (destroyed_nodes (graph_destructor g order (heap_of g held))) /\
  NoDup (destroyed_edges (graph_destructor g order (heap_of g held))) /\
  (forall n, In n (destroyed_nodes (graph_destructor g order (heap_of g held))) <->
             In n (node_names g) /\ held n = 0) /\
  (forall e, In e (destroyed_edges (graph_destructor g order (heap_of g held))) <->
             In e (out_edges_of g (start e)) /\
             held (start e) = 0 /\ held (end_ e) = 0) /\
  (forall n, node_uses (graph_destructor g order (heap_of g held)) n = held n) /\
  (forall e, In e (out_edges_of g (start e)) ->
             edge_uses (graph_destructor g order (heap_of g held)) e =
             (if held (start e) =? 0 then 0 else 1) +
             (if held (end_ e) =? 0 then 0 else 1)).
Proof.
  intros Hwf Hlinks Hperm.
  assert (Hin : forall n, In n order <-> In n (node_names g)).
  { intro n. split; apply Permutation_in; [exact Hperm|now apply Permutation_sym]. }
  assert (Hnd : NoDup order).
  { eapply Permutation_NoDup; [apply Permutation_sym; exact Hperm|].
    exact (wf_names Hwf). }
  pose proof (@graph_destructor_inv T _ g held Hwf Hlinks order [] (heap_of g held)
                (@heap_of_inv T _ g held Hlinks) Hnd
                (fun n H => proj1 (Hin n) H)) as Inv.
  simpl in Inv.
  assert (Hstart : forall e, In e (out_edges_of g (start e)) -> In (start e) order).
  { intros e He. apply Hin. unfold out_edges_of in He.
    destruct (um_find (nodes g) (start e)) as [nd|] eqn:E; [|contradiction].
    apply um_find_In in E. apply in_map_iff. now exists (start e, nd). }
  assert (Hend : forall e, In e (out_edges_of g (start e)) -> In (end_ e) order).
  { intros e He. apply Hin. now apply (wf_end Hwf (start e)). }
  split; [exact (hi_fault Inv)|].
  split; [exact (hi_nodes_once Inv)|].
  split; [exact (hi_edges_once Inv)|].
  split; [|split; [|split]].
  - intro n. rewrite (hi_nodes_gone Inv), Hin. reflexivity.
  - intro e. rewrite (hi_edges_gone Inv), !owner_left_zero.
    split.
    + tauto.
    + intros (He & Hs & Hd). specialize (Hstart e He). specialize (Hend e He). tauto.
  - intro n. rewrite (hi_nodes Inv).
    destruct (in_dec eq_dec n (node_names g)) as [H|H]; [|reflexivity].
    destruct (in_dec eq_dec n order) as [H'|H']; [reflexivity|].
    exfalso. apply H'. now apply Hin.
  - intros e He. rewrite (hi_edges Inv).
    destruct (in_dec eq_dec e (out_edges_of g (start e))); [|contradiction].
    unfold owner_left.
    destruct (in_dec eq_dec (start e) order) as [_|H]; [|exfalso; auto].
    destruct (in_dec eq_dec (end_ e) order) as [_|H]; [|exfalso; auto].
    reflexivity.
Qed.

End Reclaimed.

Lemma build_invariant (G : Type) (P : G -> Prop) (calls : list (M G unit)) :
  Forall (fun call => forall g, P g -> P (snd (call g))) calls ->
  forall g, P g -> P (build calls g).
Proof.
  induction 1 as [|call calls Hcall _ IH]; intros g Hg; simpl; [exact Hg|].
  apply IH. now apply Hcall.
Qed.

Lemma ring_graph_links : wf_links ring_graph.
Proof.
  apply (build_invariant (fun g : graph nat => wf_graph g /\ wf_links g));
    [|split; [apply wf_empty_graph|apply wf_links_empty]].
  repeat (apply Forall_cons;
          [intros g [Hg Hl]; split;
           first [now apply create_node_wf | now apply create_link_wf
                 | now apply create_node_wf_links | now apply create_link_wf_links]|]).
  apply Forall_nil.
Qed.

Lemma C9_witness :
  fault (graph_destructor ring_graph [2; 0; 1; 7] (heap_of ring_graph first_step_kept))
    = false /\
  NoDup (destroyed_nodes
           (graph_destructor ring_graph [2; 0; 1; 7] (heap_of ring_graph first_step_kept))) /\
  NoDup (destroyed_edges
           (graph_destructor ring_graph [2; 0; 1; 7] (heap_of ring_graph first_step_kept))) /\
  (forall n, In n (destroyed_nodes
                     (graph_destructor ring_graph [2; 0; 1; 7]
                        (heap_of ring_graph first_step_kept))) <->
             In n (node_names ring_graph) /\ first_step_kept n = 0) /\
  (forall e, In e (destroyed_edges
                     (graph_destructor ring_graph [2; 0; 1; 7]
                        (heap_of ring_graph first_step_kept))) <->
             In e (out_edges_of ring_graph (start e)) /\
             first_step_kept (start e) = 0 /\ first_step_kept (end_ e) = 0) /\
  (forall n, node_uses (graph_destructor ring_graph [2; 0; 1; 7]
                          (heap_of ring_graph first_step_kept)) n =
             first_step_kept n) /\
  (forall e, In e (out_edges_of ring_graph (start e)) ->
             edge_uses (graph_destructor ring_graph [2; 0; 1; 7]
                          (heap_of ring_graph first_step_kept)) e =
             (if first_step_kept (start e) =? 0 then 0 else 1) +
             (if first_step_kept (end_ e) =? 0 then 0 else 1)).
Proof.
  apply C9_reclaimed_by_counting.
  - exact ring_graph_wf.
  - exact ring_graph_links.
  - apply Permutation_refl.
Defined.

(** C9 as it was stated fails: with the first step of a traversal of
    the ring kept by the consumer, the node 0 outlives the graph and
    its collections are not severed: its out-edge to the node 1 and
    its in-edge from the node 2 are not destroyed, each still owned by
    the node 0. *)
Lemma C9_counterexample :
  In {| current := 0; distance := Finite 0%Q; previous := None |}
     (match traverse ring_graph 0 with Normal l => l | Thrown _ => [] end) /\
  In {| weight := 1%Q; start := 0; end_ := 1 |} (out_edges_of ring_graph 0) /\
  In {| weight := 1%Q; start := 2; end_ := 0 |} (in_edges_of ring_graph 0) /\
  ~ In 0 (destroyed_nodes
            (graph_destructor ring_graph [2; 0; 1; 7]
               (heap_of ring_graph first_step_kept))) /\
  ~ In {| weight := 1%Q; start := 0; end_ := 1 |}
       (destroyed_edges
          (graph_destructor ring_graph [2; 0; 1; 7]
             (heap_of ring_graph first_step_kept))) /\
  ~ In {| weight := 1%Q; start := 2; end_ := 0 |}
       (destroyed_edges
          (graph_destructor ring_graph [2; 0; 1; 7]
             (heap_of ring_graph first_step_kept))) /\
  edge_uses (graph_destructor ring_graph [2; 0; 1; 7]
               (heap_of ring_graph first_step_kept))
            {| weight := 1%Q; start := 0; end_ := 1 |} = 1 /\
  edge_uses (graph_destructor ring_graph [2; 0; 1; 7]
               (heap_of ring_graph first_step_kept))
            {| weight := 1%Q; start := 2; end_ := 0 |} = 1.
Proof.
  split; [left; reflexivity|].
  split; [left; reflexivity|].
  split; [left; reflexivity|].
  assert (Hn : destroyed_nodes
                 (graph_destructor ring_graph [2; 0; 1; 7]
                    (heap_of ring_graph first_step_kept)) = [7; 1; 2])
    by (vm_compute; reflexivity).
  assert (He : destroyed_edges
                 (graph_destructor ring_graph [2; 0; 1; 7]
                    (heap_of ring_graph first_step_kept)) =
               [ {| weight := 1%Q; start := 1; end_ := 2 |} ])
    by (vm_compute; reflexivity).
  rewrite Hn, He.
  split; [intros [H|[H|[H|[]]]]; discriminate|].
  split; [intros [H|[]]; discriminate|].
  split; [intros [H|[]]; discriminate|].
  split; vm_compute; reflexivity.
Qed.

(** ** The Kotlin traversal, read as the C++ one *)

Section Translation.

Context {T : Type} {T_eq_dec : EqDec T}.

Lemma um_find_map_values (V W : Type) (f : V -> W) (m : list (T * V)) (k : T) :
  um_find (map (fun kv => (fst kv, f (snd kv))) m) k = option_map f (um_find m k).
Proof.
  induction m as [|[k' v'] m IH]; simpl; [reflexivity|].
  destruct (eq_dec k k'); [reflexivity|exact IH].
Qed.

Lemma names_toGraph (k : Kotlin.Graph T) :
  node_names (toGraph k) = map fst (Kotlin.nodes k).
Proof.
  unfold node_names, toGraph. simpl. rewrite map_map. reflexivity.
Qed.

Lemma out_edges_toGraph (k : Kotlin.Graph T) (p : T) :
  out_edges_of (toGraph k) p = map toEdge (Kotlin.outEdgesOf k p).
Proof.
  unfold out_edges_of, Kotlin.outEdgesOf, toGraph. simpl.
  rewrite um_find_map_values.
  destruct (um_find (Kotlin.nodes k) p); reflexivity.
Qed.

Lemma contains_toGraph (k : Kotlin.Graph T) (p : T) :
  um_contains (nodes (toGraph k)) p = um_contains (Kotlin.nodes k) p.
Proof.
  apply eq_true_iff_eq. rewrite !um_contains_In.
  fold (node_names (toGraph k)). now rewrite names_toGraph.
Qed.

(** Relaxation looks at the store only through its values. *)
Lemma relax_edge_ext (ws : list T) (c : T)
    (st st' : T -> dijkstra_iteration_step T) (e : graph_edge T) :
  (forall n, st n = st' n) ->
  forall n, relax_edge ws c st e n = relax_edge ws c st' e n.
Proof.
  intros H n. unfold relax_edge. rewrite !H.
  destruct (ws_contains ws (end_ e)); [|apply H].
  destruct (dlt _ _); [|apply H].
  unfold store. destruct (eq_dec n (end_ e)); [|apply H].
  destruct (eq_dec (end_ e) (end_ e)); [|contradiction].
  destruct (eq_dec c (end_ e)); simpl; rewrite ?H; reflexivity.
Qed.

Lemma relax_ext (ws : list T) (c : T) (es : list (graph_edge T)) :
  forall st st' : T -> dijkstra_iteration_step T,
  (forall n, st n = st' n) ->
  forall n, fold_left (relax_edge ws c) es st n =
            fold_left (relax_edge ws c) es st' n.
Proof.
  induction es as [|e es IH]; intros st st' H n; simpl; [apply H|].
  apply IH. now apply relax_edge_ext.
Qed.

Lemma relaxEdge_sim (ws : list T) (c : T) (st : T -> Kotlin.PathEntry T)
    (e : Kotlin.GraphEdge T) (n : T) :
  toStep (Kotlin.relaxEdge ws c st e n) =
  relax_edge ws c (fun m => toStep (st m)) (toEdge e) n.
Proof.
  unfold Kotlin.relaxEdge, relax_edge. simpl.
  destruct (ws_contains ws (Kotlin.end_ e)); simpl; [|reflexivity].
  destruct (dlt _ _); [|reflexivity].
  unfold Kotlin.storeEntry, store.
  destruct (eq_dec n (Kotlin.end_ e)); [|reflexivity].
  destruct (eq_dec (Kotlin.end_ e) (Kotlin.end_ e)); [|contradiction].
  destruct (eq_dec c (Kotlin.end_ e)); reflexivity.
Qed.

Lemma relax_sim (ws : list T) (c : T) (es : list (Kotlin.GraphEdge T)) :
  forall (st : T -> Kotlin.PathEntry T) (n : T),
  toStep (fold_left (Kotlin.relaxEdge ws c) es st n) =
  fold_left (relax_edge ws c) (map toEdge es) (fun m => toStep (st m)) n.
Proof.
  induction es as [|e es IH]; intros st n; simpl; [reflexivity|].
  rewrite IH. apply relax_ext. intro m. apply relaxEdge_sim.
Qed.

(** The invariant looks at the store only through its values. *)
Lemma traversal_inv_ext (g : graph T) (s : T) (ws : list T)
    (st st' : T -> dijkstra_iteration_step T) (acc : list T) :
  (forall n, st n = st' n) ->
  traversal_inv g s ws st acc -> traversal_inv g s ws st' acc.
Proof.
  intros H Inv. split.
  - exact (inv_nodup Inv).
  - exact (inv_nodes Inv).
  - intro n. rewrite <- H. apply (inv_current Inv).
  - pose proof (inv_source Inv) as Hs. destruct acc as [|a acc].
    + destruct Hs as [Hin Hinit]. split; [exact Hin|].
      intro n. rewrite <- H. apply Hinit.
    + destruct Hs as [-> Hs]. split; [reflexivity|]. now rewrite <- H.
  - intros i j x y Hij Hx Hy. rewrite <- !H.
    apply (inv_sorted Inv) with (i := i) (j := j); assumption.
  - intros x n Hx Hn. rewrite <- !H. now apply (inv_bound Inv).
  - intros x Hx. rewrite <- H. now apply (inv_finite Inv).
  - intros n p Hp. rewrite <- H in Hp.
    destruct (inv_previous Inv _ Hp) as (Hin & e & He & Hend & Hd).
    split; [exact Hin|]. exists e. rewrite <- !H. auto.
  - intros i n p Hn Hp. rewrite <- H in Hp. exact (inv_earlier Inv _ Hn Hp).
  - intros p e Hp He. rewrite <- H. exact (inv_closed Inv _ _ Hp He).
  - intros n Hn. rewrite <- H in Hn. now apply (inv_reachable Inv).
Qed.

End Translation.

Section KotlinRun.

Context {T : Type} {T_eq_dec : EqDec T}.

Lemma last_closest_In (d : T -> double) (ws : list T) (c : T) :
  last_closest d ws c -> In c ws.
Proof. intros (l1 & l2 & -> & _). apply in_or_app. right. now left. Qed.

Lemma last_closest_least (d : T -> double) (ws : list T) (c : T) :
  last_closest d ws c -> forall n, In n ws -> dle (d c) (d n) = true.
Proof.
  intros (l1 & l2 & -> & H1 & H2) n Hn.
  apply in_app_or in Hn. destruct Hn as [Hn|[<-|Hn]].
  - now apply H1.
  - apply dle_refl.
  - apply dlt_dle. now apply H2.
Qed.

Lemma resume_resume (sq : Kotlin.PathSequence T) :
  Kotlin.resume (Kotlin.resume sq) = Kotlin.resume sq.
Proof.
  unfold Kotlin.resume. destruct (Kotlin.suspended sq) as [c|] eqn:E.
  - reflexivity.
  - now rewrite E.
Qed.

Lemma graphOf_resume (sq : Kotlin.PathSequence T) :
  Kotlin.graphOf (Kotlin.resume sq) = Kotlin.graphOf sq.
Proof. unfold Kotlin.resume. destruct (Kotlin.suspended sq); reflexivity. Qed.

Lemma workingSet_resume (sq : Kotlin.PathSequence T) :
  Kotlin.workingSet (Kotlin.resume sq) = Kotlin.workingSet sq.
Proof. unfold Kotlin.resume. destruct (Kotlin.suspended sq); reflexivity. Qed.

Lemma selections_resume (sq : Kotlin.PathSequence T) :
  Kotlin.selections (Kotlin.resume sq) = Kotlin.selections sq.
Proof. unfold Kotlin.resume. destruct (Kotlin.suspended sq); reflexivity. Qed.

(** The three ways a pull can go. *)
Lemma next_cases (sq : Kotlin.PathSequence T) :
  (Kotlin.workingSet (Kotlin.resume sq) = [] /\
   Kotlin.next sq = (None, Kotlin.resume sq)) \/
  (exists c,
     last_closest (fun n => Kotlin.distance (Kotlin.entries (Kotlin.resume sq) n))
                  (Kotlin.workingSet (Kotlin.resume sq)) c /\
     is_huge (Kotlin.distance (Kotlin.entries (Kotlin.resume sq) c)) = true /\
     Kotlin.next sq =
       (None,
        {| Kotlin.workingSet :=
             ws_erase (Kotlin.workingSet (Kotlin.resume sq))
                      (Kotlin.node (Kotlin.entries (Kotlin.resume sq) c));
           Kotlin.entries := Kotlin.entries (Kotlin.resume sq);
           Kotlin.suspended := None;
           Kotlin.graphOf := Kotlin.graphOf (Kotlin.resume sq);
           Kotlin.selections := S (Kotlin.selections (Kotlin.resume sq)) |})) \/
  (exists c,
     last_closest (fun n => Kotlin.distance (Kotlin.entries (Kotlin.resume sq) n))
                  (Kotlin.workingSet (Kotlin.resume sq)) c /\
     is_huge (Kotlin.distance (Kotlin.entries (Kotlin.resume sq) c)) = false /\
     Kotlin.next sq =
       (Some c,
        {| Kotlin.workingSet :=
             ws_erase (Kotlin.workingSet (Kotlin.resume sq))
                      (Kotlin.node (Kotlin.entries (Kotlin.resume sq) c));
           Kotlin.entries := Kotlin.entries (Kotlin.resume sq);
           Kotlin.suspended := Some c;
           Kotlin.graphOf := Kotlin.graphOf (Kotlin.resume sq);
           Kotlin.selections := S (Kotlin.selections (Kotlin.resume sq)) |})).
Proof.
  destruct (Kotlin.workingSet (Kotlin.resume sq)) as [|x l] eqn:Hws.
  - left. split; [reflexivity|]. unfold Kotlin.next. now rewrite Hws.
  - right. rewrite <- Hws.
    assert (Hne : Kotlin.workingSet (Kotlin.resume sq) <> [])
      by (rewrite Hws; discriminate).
    destruct (next_select sq Hne) as [c [Hlast Hnext]]. cbv zeta in Hnext.
    destruct (is_huge (Kotlin.distance (Kotlin.entries (Kotlin.resume sq) c))) eqn:Hh;
      [left|right]; exists c; repeat split; assumption.
Qed.

Variable k : Kotlin.Graph T.
Variable s : T.
Hypothesis k_wf : wf_graph (toGraph k).
Hypothesis s_in : In s (map fst (Kotlin.nodes k)).

Lemma next_inv (sq : Kotlin.PathSequence T) (acc : list T) (c : T) :
  resumed_inv k s sq acc ->
  last_closest (fun n => Kotlin.distance (Kotlin.entries (Kotlin.resume sq) n))
               (Kotlin.workingSet (Kotlin.resume sq)) c ->
  is_huge (Kotlin.distance (Kotlin.entries (Kotlin.resume sq) c)) = false ->
  resumed_inv k s
    {| Kotlin.workingSet :=
         ws_erase (Kotlin.workingSet (Kotlin.resume sq))
                  (Kotlin.node (Kotlin.entries (Kotlin.resume sq) c));
       Kotlin.entries := Kotlin.entries (Kotlin.resume sq);
       Kotlin.suspended := Some c;
       Kotlin.graphOf := Kotlin.graphOf (Kotlin.resume sq);
       Kotlin.selections := S (Kotlin.selections (Kotlin.resume sq)) |}
    (acc ++ [c]).
Proof.
  intros [Hg Inv] Hlast Hfin.
  assert (Hnode : Kotlin.node (Kotlin.entries (Kotlin.resume sq) c) = c)
    by (exact (inv_current Inv c)).
  split; [simpl; now rewrite graphOf_resume|].
  rewrite workingSet_resume. cbn [Kotlin.workingSet].
  rewrite Hnode, graphOf_resume, Hg.
  eapply traversal_inv_ext; [|apply round_inv; [exact k_wf|exact Inv| | |]].
  - intro n. cbv beta. symmetry.
    unfold Kotlin.resume at 1.
    cbn [Kotlin.suspended Kotlin.workingSet Kotlin.entries Kotlin.graphOf].
    rewrite Hnode, relax_sim, out_edges_toGraph. reflexivity.
  - eapply last_closest_In. exact Hlast.
  - intros n Hn. apply (last_closest_least Hlast n Hn).
  - exact Hfin.
Qed.

Lemma relaxEdge_frame (ws : list T) (c : T) (st : T -> Kotlin.PathEntry T)
    (e : Kotlin.GraphEdge T) (n : T) :
  ~ In n ws -> Kotlin.relaxEdge ws c st e n = st n.
Proof.
  intro Hn. unfold Kotlin.relaxEdge.
  destruct (ws_contains ws (Kotlin.end_ e)) eqn:Hc; simpl; [|reflexivity].
  apply ws_contains_In in Hc.
  destruct (dlt _ _); [|reflexivity].
  unfold Kotlin.storeEntry.
  destruct (eq_dec n (Kotlin.end_ e)) as [->|Hne]; [contradiction|reflexivity].
Qed.

Lemma relaxEdges_frame (ws : list T) (c : T) (es : list (Kotlin.GraphEdge T)) :
  forall (st : T -> Kotlin.PathEntry T) (n : T),
  ~ In n ws -> fold_left (Kotlin.relaxEdge ws c) es st n = st n.
Proof.
  induction es as [|e es IH]; intros st n Hn; simpl; [reflexivity|].
  rewrite IH by assumption. now apply relaxEdge_frame.
Qed.

(** Resuming writes only to entries still in the working set. *)
Lemma resume_frame (sq : Kotlin.PathSequence T) (n : T) :
  ~ In n (Kotlin.workingSet sq) ->
  Kotlin.entries (Kotlin.resume sq) n = Kotlin.entries sq n.
Proof.
  intro Hn. unfold Kotlin.resume.
  destruct (Kotlin.suspended sq); [|reflexivity]. simpl.
  now apply relaxEdges_frame.
Qed.

Lemma huge_least_last (d : T -> double) (ws : list T) (c : T) :
  last_closest d ws c -> is_huge (d c) = true ->
  forall n, In n ws -> is_huge (d n) = true.
Proof.
  intros Hlast Hc n Hn. pose proof (last_closest_least Hlast n Hn) as H.
  destruct (d c); [discriminate|]. destruct (d n); [discriminate|reflexivity].
Qed.

(** The sequence consumed from a coroutine that satisfies the
    invariant: what is read is the store at the end, read at the nodes
    selected. *)
Lemma toList_inv (F : nat) : forall (sq : Kotlin.PathSequence T) (acc : list T),
  resumed_inv k s sq acc ->
  List.length (Kotlin.workingSet (Kotlin.resume sq)) < F ->
  exists rest ws st,
    traversal_inv (toGraph k) s ws st (acc ++ rest) /\
    (forall n, In n ws -> is_huge (distance (st n)) = true) /\
    map toStep (Kotlin.toList F sq) = map st rest /\
    (forall x, In x acc -> st x = toStep (Kotlin.entries (Kotlin.resume sq) x)).
Proof.
  induction F as [|F IH]; intros sq acc Hinv Hlen; [lia|].
  simpl.
  destruct (next_cases sq)
    as [[Hws Hnext]|[(c & Hlast & Hh & Hnext)|(c & Hlast & Hh & Hnext)]];
    rewrite Hnext.
  - exists [], (Kotlin.workingSet (Kotlin.resume sq)),
           (fun n => toStep (Kotlin.entries (Kotlin.resume sq) n)).
    rewrite app_nil_r. split; [exact (proj2 Hinv)|]. split; [|split].
    + intros n Hn. rewrite Hws in Hn. contradiction.
    + reflexivity.
    + reflexivity.
  - exists [], (Kotlin.workingSet (Kotlin.resume sq)),
           (fun n => toStep (Kotlin.entries (Kotlin.resume sq) n)).
    rewrite app_nil_r. split; [exact (proj2 Hinv)|]. split; [|split].
    + intros n Hn. simpl. now apply (huge_least_last Hlast Hh).
    + reflexivity.
    + reflexivity.
  - pose proof (next_inv Hinv Hlast Hh) as Hinv1.
    set (sq1 := {| Kotlin.workingSet :=
                     ws_erase (Kotlin.workingSet (Kotlin.resume sq))
                              (Kotlin.node (Kotlin.entries (Kotlin.resume sq) c));
                   Kotlin.entries := Kotlin.entries (Kotlin.resume sq);
                   Kotlin.suspended := Some c;
                   Kotlin.graphOf := Kotlin.graphOf (Kotlin.resume sq);
                   Kotlin.selections := S (Kotlin.selections (Kotlin.resume sq)) |})
      in *.
    assert (Hnode : Kotlin.node (Kotlin.entries (Kotlin.resume sq) c) = c)
      by (exact (inv_current (proj2 Hinv) c)).
    assert (Hws1 : Kotlin.workingSet (Kotlin.resume sq1) =
                   ws_erase (Kotlin.workingSet (Kotlin.resume sq)) c).
    { rewrite workingSet_resume. unfold sq1. simpl. now rewrite Hnode. }
    destruct (IH sq1 (acc ++ [c]) Hinv1) as (rest & ws & st & Hfin & Hhuge & Hrun & Hfr).
    { rewrite Hws1.
      pose proof (ws_erase_length _ _ (last_closest_In Hlast)). lia. }
    assert (Hout : forall x, In x (acc ++ [c]) ->
              Kotlin.entries (Kotlin.resume sq1) x =
              Kotlin.entries (Kotlin.resume sq) x).
    { intros x Hx. rewrite resume_frame; [reflexivity|].
      rewrite <- workingSet_resume.
      apply (NoDup_app_apart _ _ x (inv_nodup (proj2 Hinv1)) Hx). }
    exists (c :: rest), ws, st.
    split; [now rewrite <- app_assoc in Hfin|]. split; [exact Hhuge|]. split.
    + simpl. rewrite Hrun. f_equal.
      rewrite Hfr by (apply in_or_app; right; now left).
      rewrite Hout by (apply in_or_app; right; now left). reflexivity.
    + intros x Hx. rewrite Hfr by (apply in_or_app; now left).
      rewrite Hout by (apply in_or_app; now left). reflexivity.
Qed.

Lemma initEntry_ws (l : list (T * Kotlin.GraphNode T)) :
  forall acc : list T * (T -> Kotlin.PathEntry T),
  fst (fold_left Kotlin.initEntry l acc) = fst acc ++ map fst l.
Proof.
  induction l as [|[n nd] l IH]; intro acc; simpl.
  - now rewrite app_nil_r.
  - rewrite IH. simpl. now rewrite <- app_assoc.
Qed.

Lemma initEntry_entries (l : list (T * Kotlin.GraphNode T)) :
  forall (acc : list T * (T -> Kotlin.PathEntry T)) (n : T),
  snd acc n = {| Kotlin.node := n; Kotlin.distance := HUGE_VAL;
                 Kotlin.priorNode := None |} ->
  snd (fold_left Kotlin.initEntry l acc) n =
  {| Kotlin.node := n; Kotlin.distance := HUGE_VAL; Kotlin.priorNode := None |}.
Proof.
  induction l as [|[m nd] l IH]; intros acc n Hacc; simpl; [exact Hacc|].
  apply IH. unfold Kotlin.initEntry, Kotlin.storeEntry. simpl.
  destruct (eq_dec n m) as [->|Hne]; [reflexivity|exact Hacc].
Qed.

(** What [shortestPath] returns for a source in the graph. *)
Lemma shortestPath_eq :
  exists sq,
    Kotlin.shortestPath k s = Normal sq /\
    Kotlin.workingSet sq = map fst (Kotlin.nodes k) /\
    Kotlin.suspended sq = None /\ Kotlin.graphOf sq = k /\
    Kotlin.selections sq = 0 /\
    forall n, toStep (Kotlin.entries sq n) = initial_step s n.
Proof.
  unfold Kotlin.shortestPath.
  assert (Hs : um_contains (Kotlin.nodes k) s = true) by (now apply um_contains_In).
  rewrite Hs. cbn [negb].
  pose proof (initEntry_ws (Kotlin.nodes k)
                ([], fun n => {| Kotlin.node := n; Kotlin.distance := HUGE_VAL;
                                 Kotlin.priorNode := None |})) as Hws.
  pose proof (fun n => @initEntry_entries (Kotlin.nodes k)
                ([], fun n => {| Kotlin.node := n; Kotlin.distance := HUGE_VAL;
                                 Kotlin.priorNode := None |}) n eq_refl) as Hst.
  destruct (fold_left Kotlin.initEntry (Kotlin.nodes k) _) as [ws st].
  simpl in Hws, Hst. subst ws.
  assert (Hc : ws_contains (map fst (Kotlin.nodes k)) s = true)
    by (now apply ws_contains_In).
  rewrite Hc. eexists. split; [reflexivity|]. simpl.
  repeat split.
  intro n. unfold Kotlin.storeEntry, initial_step, toStep.
  destruct (eq_dec n s) as [->|Hne]; simpl.
  - rewrite keq_refl, Hst. reflexivity.
  - rewrite Hst. simpl.
    destruct (keq n s) eqn:E; [apply keq_true in E; contradiction|reflexivity].
Qed.

(** The traversal of the sequence, summed up. *)
Lemma shortestPath_inv :
  exists sq acc ws st,
    Kotlin.shortestPath k s = Normal sq /\
    map toStep (Kotlin.toList (S (List.length (Kotlin.nodes k))) sq) = map st acc /\
    traversal_inv (toGraph k) s ws st acc /\
    (forall n, In n ws -> is_huge (distance (st n)) = true).
Proof.
  destruct shortestPath_eq as (sq & Hsp & Hws & Hsus & Hg & _ & Hst).
  assert (Hres : Kotlin.resume sq = sq).
  { unfold Kotlin.resume. now rewrite Hsus. }
  assert (Hs' : In s (node_names (toGraph k))) by (now rewrite names_toGraph).
  assert (Hinv : resumed_inv k s sq []).
  { split; [exact Hg|]. rewrite Hres, Hws.
    pose proof (initial_inv s k_wf Hs') as Inv0.
    rewrite init_entry_ws in Inv0. cbn [fst app] in Inv0.
    change (map fst (nodes (toGraph k))) with (node_names (toGraph k)) in Inv0.
    rewrite names_toGraph in Inv0.
    eapply traversal_inv_ext; [|exact Inv0].
    intro n. cbv beta. rewrite Hst. now apply initial_steps. }

  destruct (@toList_inv (S (List.length (Kotlin.nodes k))) sq [] Hinv)
    as (rest & ws & st & Hfin & Hhuge & Hrun & _).
  { rewrite Hres, Hws, length_map. lia. }
  exists sq, rest, ws, st. auto.
Qed.

End KotlinRun.

(** ** The Kotlin graph and sequence satisfy the same statements *)

Section KotlinGraphs.

Context {T : Type} {T_eq_dec : EqDec T}.

Lemma um_update_map (V W : Type) (F : V -> W) (f : V -> V) (f' : W -> W)
    (m : list (T * V)) (k : T) :
  (forall v, F (f v) = f' (F v)) ->
  map (fun kv => (fst kv, F (snd kv))) (um_update m k f) =
  um_update (map (fun kv => (fst kv, F (snd kv))) m) k f'.
Proof.
  intro H. induction m as [|[k' v'] m IH]; simpl; [reflexivity|].
  destruct (eq_dec k k'); simpl; [now rewrite H|now rewrite IH].
Qed.

Lemma um_assign_map (V W : Type) (F : V -> W) (m : list (T * V)) (k : T) (v : V) :
  map (fun kv => (fst kv, F (snd kv))) (um_assign m k v) =
  um_assign (map (fun kv => (fst kv, F (snd kv))) m) k (F v).
Proof.
  induction m as [|[k' v'] m IH]; simpl; [reflexivity|].
  destruct (eq_dec k k'); simpl; [reflexivity|now rewrite IH].
Qed.

Lemma edgeBetween_toGraph (k : Kotlin.Graph T) (s e : T) :
  edge_between (toGraph k) s e = edgeBetween k s e.
Proof.
  unfold edge_between, edgeBetween. rewrite out_edges_toGraph.
  induction (Kotlin.outEdgesOf k s) as [|x l IH]; simpl; [reflexivity|].
  now rewrite IH.
Qed.

(** [insertNode] and [insertEdge] change the graph as [create_node] and
    [create_link] do. *)
Lemma insertNode_toGraph (k : Kotlin.Graph T) (n : T) :
  toGraph (snd (Kotlin.insertNode n k)) = snd (create_node n (toGraph k)).
Proof.
  rewrite create_node_eq. unfold Kotlin.insertNode, bind, get. simpl.
  rewrite <- (contains_toGraph k n). simpl.
  destruct (um_contains _ n); simpl; [reflexivity|].
  unfold toGraph. simpl. f_equal. apply um_assign_map.
Qed.

Lemma insertEdge_toGraph (k : Kotlin.Graph T) (s e : T) (w : Q) :
  toGraph (snd (Kotlin.insertEdge s e w k)) = snd (create_link s e w (toGraph k)).
Proof.
  rewrite create_link_eq, insertEdge_eq.
  rewrite !contains_toGraph, edgeBetween_toGraph.
  destruct (negb (um_contains (Kotlin.nodes k) s)
            || negb (um_contains (Kotlin.nodes k) e)); [reflexivity|].
  destruct (edgeBetween k s e); destruct (Qle_bool w 0); try reflexivity.
  cbv zeta. simpl. unfold toGraph, insert_in_edge, insert_out_edge. simpl.
  f_equal.
  rewrite (um_update_map toNode _
             (fun nd => {| name := name nd; out_edges := out_edges nd;
                           in_edges := in_edges nd ++
                             [{| weight := w; start := s; end_ := e |}] |})).
  - rewrite (um_update_map toNode _
               (fun nd => {| name := name nd;
                             out_edges := out_edges nd ++
                               [{| weight := w; start := s; end_ := e |}];
                             in_edges := in_edges nd |})).
    + reflexivity.
    + intro nd. unfold toNode. simpl. now rewrite map_app.
  - intro nd. unfold toNode. simpl. now rewrite map_app.
Qed.

Lemma insertNode_wf (k : Kotlin.Graph T) (n : T) :
  wf_graph (toGraph k) -> wf_graph (toGraph (snd (Kotlin.insertNode n k))).
Proof. intro H. rewrite insertNode_toGraph. now apply create_node_wf. Qed.

Lemma insertEdge_wf (k : Kotlin.Graph T) (s e : T) (w : Q) :
  wf_graph (toGraph k) -> wf_graph (toGraph (snd (Kotlin.insertEdge s e w k))).
Proof. intro H. rewrite insertEdge_toGraph. now apply create_link_wf. Qed.

End KotlinGraphs.

Lemma forkGraph_wf : wf_graph (toGraph forkGraph).
Proof.
  apply (build_invariant (fun k : Kotlin.Graph nat => wf_graph (toGraph k))).
  - repeat (apply Forall_cons;
            [intros k Hk; first [now apply insertNode_wf | now apply insertEdge_wf]|]).
    apply Forall_nil.
  - apply (@wf_empty_graph nat).
Qed.

(** ** The sequence, pull by pull *)

Section KotlinSequence.

Context {T : Type} {T_eq_dec : EqDec T}.

Lemma relaxEdge_node (ws : list T) (c : T) (st : T -> Kotlin.PathEntry T)
    (e : Kotlin.GraphEdge T) :
  (forall n, Kotlin.node (st n) = n) ->
  forall n, Kotlin.node (Kotlin.relaxEdge ws c st e n) = n.
Proof.
  intros H n. unfold Kotlin.relaxEdge.
  destruct (ws_contains ws (Kotlin.end_ e) && dlt _ _); [|apply H].
  unfold Kotlin.storeEntry.
  destruct (eq_dec n (Kotlin.end_ e)) as [->|Hne]; simpl; [|apply H].
  destruct (eq_dec (Kotlin.end_ e) (Kotlin.end_ e)); [|contradiction].
  simpl. apply H.
Qed.

Lemma relaxEdges_node (ws : list T) (c : T) (es : list (Kotlin.GraphEdge T)) :
  forall st : T -> Kotlin.PathEntry T,
  (forall n, Kotlin.node (st n) = n) ->
  forall n, Kotlin.node (fold_left (Kotlin.relaxEdge ws c) es st n) = n.
Proof.
  induction es as [|e es IH]; intros st H n; simpl; [apply H|].
  apply IH. now apply relaxEdge_node.
Qed.

Lemma resume_node (sq : Kotlin.PathSequence T) :
  (forall n, Kotlin.node (Kotlin.entries sq n) = n) ->
  forall n, Kotlin.node (Kotlin.entries (Kotlin.resume sq) n) = n.
Proof.
  intros H n. unfold Kotlin.resume.
  destruct (Kotlin.suspended sq); [|apply H]. simpl.
  now apply relaxEdges_node.
Qed.

Lemma next_entries (sq : Kotlin.PathSequence T) :
  Kotlin.entries (snd (Kotlin.next sq)) = Kotlin.entries (Kotlin.resume sq).
Proof.
  destruct (next_cases sq) as [[_ ->]|[(c & _ & _ & ->)|(c & _ & _ & ->)]];
    reflexivity.
Qed.

Lemma next_node (sq : Kotlin.PathSequence T) :
  (forall n, Kotlin.node (Kotlin.entries sq n) = n) ->
  forall n, Kotlin.node (Kotlin.entries (snd (Kotlin.next sq)) n) = n.
Proof. intros H n. rewrite next_entries. now apply resume_node. Qed.

Lemma next_incl (sq : Kotlin.PathSequence T) (n : T) :
  In n (Kotlin.workingSet (snd (Kotlin.next sq))) -> In n (Kotlin.workingSet sq).
Proof.
  destruct (next_cases sq) as [[_ ->]|[(c & _ & _ & ->)|(c & _ & _ & ->)]];
    cbn [snd Kotlin.workingSet]; rewrite ?workingSet_resume; try tauto;
    intro H; apply ws_erase_In in H; tauto.
Qed.

(** A pull that yields has taken the entry it yields out of the
    working set. *)
Lemma next_yield (sq : Kotlin.PathSequence T) (p : T) :
  (forall n, Kotlin.node (Kotlin.entries sq n) = n) ->
  fst (Kotlin.next sq) = Some p ->
  In p (Kotlin.workingSet sq) /\
  Kotlin.workingSet (snd (Kotlin.next sq)) = ws_erase (Kotlin.workingSet sq) p /\
  Kotlin.selections (snd (Kotlin.next sq)) = S (Kotlin.selections sq).
Proof.
  intros H.
  destruct (next_cases sq) as [[_ ->]|[(c & _ & _ & ->)|(c & Hl & _ & ->)]];
    cbn [fst snd Kotlin.workingSet Kotlin.selections]; try discriminate.
  intros [= <-]. rewrite (resume_node _ H), workingSet_resume, selections_resume.
  apply last_closest_In in Hl. rewrite workingSet_resume in Hl. auto.
Qed.

Lemma pulls_node (j : nat) : forall sq : Kotlin.PathSequence T,
  (forall n, Kotlin.node (Kotlin.entries sq n) = n) ->
  forall n, Kotlin.node (Kotlin.entries (pulls j sq) n) = n.
Proof.
  induction j as [|j IH]; intros sq H n; simpl; [apply H|].
  apply IH. now apply next_node.
Qed.

Lemma pulls_incl (j : nat) : forall (sq : Kotlin.PathSequence T) (n : T),
  In n (Kotlin.workingSet (pulls j sq)) -> In n (Kotlin.workingSet sq).
Proof.
  induction j as [|j IH]; intros sq n; simpl; [tauto|].
  intro H. apply next_incl. now apply IH.
Qed.

Lemma pulls_add (i j : nat) : forall sq : Kotlin.PathSequence T,
  pulls (i + j) sq = pulls j (pulls i sq).
Proof. induction i as [|i IH]; intro sq; simpl; [reflexivity|apply IH]. Qed.

(** Pulls write only to entries still in the working set. *)
Lemma next_frame (sq : Kotlin.PathSequence T) (n : T) :
  ~ In n (Kotlin.workingSet sq) ->
  Kotlin.entries (snd (Kotlin.next sq)) n = Kotlin.entries sq n.
Proof. intro H. rewrite next_entries. now apply resume_frame. Qed.

Lemma pulls_frame (j : nat) : forall (sq : Kotlin.PathSequence T) (n : T),
  ~ In n (Kotlin.workingSet sq) ->
  Kotlin.entries (pulls j sq) n = Kotlin.entries sq n.
Proof.
  induction j as [|j IH]; intros sq n H; simpl; [reflexivity|].
  rewrite IH.
  - now apply next_frame.
  - intro Hn. apply H. now apply next_incl.
Qed.

Lemma shortestPath_node (k : Kotlin.Graph T) (s : T) (sq : Kotlin.PathSequence T) :
  Kotlin.shortestPath k s = Normal sq ->
  In s (map fst (Kotlin.nodes k)) /\
  Kotlin.selections sq = 0 /\
  Kotlin.workingSet sq = map fst (Kotlin.nodes k) /\
  forall n, Kotlin.node (Kotlin.entries sq n) = n.
Proof.
  unfold Kotlin.shortestPath.
  destruct (um_contains (Kotlin.nodes k) s) eqn:Hs; [|discriminate].
  cbn [negb].
  pose proof (initEntry_ws (Kotlin.nodes k)
                ([], fun n => {| Kotlin.node := n; Kotlin.distance := HUGE_VAL;
                                 Kotlin.priorNode := None |})) as Hws.
  pose proof (fun n => @initEntry_entries _ _ (Kotlin.nodes k)
                ([], fun n => {| Kotlin.node := n; Kotlin.distance := HUGE_VAL;
                                 Kotlin.priorNode := None |}) n eq_refl) as Hst.
  destruct (fold_left Kotlin.initEntry (Kotlin.nodes k) _) as [ws st].
  simpl in Hws, Hst. subst ws.
  intros [= <-]. cbn [Kotlin.selections Kotlin.workingSet Kotlin.entries].
  split; [now apply um_contains_In|]. split; [reflexivity|].
  split; [reflexivity|].
  intro n. destruct (ws_contains _ s); [|now rewrite Hst].
  unfold Kotlin.storeEntry. destruct (eq_dec n s) as [->|Hne]; simpl;
    now rewrite Hst.
Qed.

Lemma toList_length (F : nat) : forall sq : Kotlin.PathSequence T,
  List.length (Kotlin.toList F sq) <= F.
Proof.
  induction F as [|F IH]; intro sq; simpl; [lia|].
  destruct (Kotlin.next sq) as [[p|] sq']; simpl; [|lia].
  specialize (IH sq'). lia.
Qed.


(** The entries read by a consumer that takes [k] of them are the
    first [k] of the sequence. *)
Lemma takeList_prefix (k : nat) : forall (F : nat) (sq : Kotlin.PathSequence T),
  k <= F -> fst (takeList k sq) = firstn k (Kotlin.toList F sq).
Proof.
  induction k as [|k IH]; intros F sq HF; [reflexivity|].
  destruct F as [|F]; [lia|]. simpl.
  destruct (Kotlin.next sq) as [[p|] sq']; [|reflexivity].
  specialize (IH F sq' ltac:(lia)).
  destruct (takeList k sq') as [l sq'']. simpl in IH |- *. now rewrite IH.
Qed.

(** Taking [k] entries runs the selection loop [k] times. *)
Lemma takeList_selections (k : nat) : forall (F : nat) (sq : Kotlin.PathSequence T),
  (forall n, Kotlin.node (Kotlin.entries sq n) = n) ->
  k <= List.length (Kotlin.toList F sq) ->
  Kotlin.selections (snd (takeList k sq)) = Kotlin.selections sq + k.
Proof.
  induction k as [|k IH]; intros F sq Hc Hlen; [simpl; lia|].
  destruct F as [|F]; [simpl in Hlen; lia|]. simpl in Hlen |- *.
  pose proof (next_yield sq) as Hy. pose proof (next_node sq Hc) as Hn.
  destruct (Kotlin.next sq) as [[p|] sq']; [|simpl in Hlen; lia].
  destruct (Hy p Hc eq_refl) as (_ & _ & Hsel). simpl in Hsel, Hn, Hlen.
  specialize (IH F sq' Hn ltac:(lia)).
  destruct (takeList k sq') as [l sq'']. simpl in IH |- *. lia.
Qed.

Lemma next_suspended (sq : Kotlin.PathSequence T) (p : T) :
  fst (Kotlin.next sq) = Some p ->
  Kotlin.suspended (snd (Kotlin.next sq)) = Some p.
Proof.
  destruct (next_cases sq) as [[_ ->]|[(c & _ & _ & ->)|(c & _ & _ & ->)]];
    cbn [fst snd Kotlin.suspended]; try discriminate.
  intro H. exact H.
Qed.

(** After [k] entries the coroutine is suspended at the [yield] of the
    last of them: the loop over the edges of that entry has not run. *)
Lemma takeList_suspended (k : nat) : forall (F : nat) (sq : Kotlin.PathSequence T),
  S k <= List.length (Kotlin.toList F sq) ->
  exists p,
    Kotlin.suspended (snd (takeList (S k) sq)) = Some p /\
    nth_error (fst (takeList (S k) sq)) k =
      Some (Kotlin.entries (snd (takeList (S k) sq)) p).
Proof.
  induction k as [|k IH]; intros F sq Hlen.
  - destruct F as [|F]; [simpl in Hlen; lia|]. simpl in Hlen |- *.
    pose proof (next_suspended sq) as Hs.
    destruct (Kotlin.next sq) as [[p|] sq']; [|simpl in Hlen; lia].
    simpl in Hs |- *. exists p. split; [now apply Hs|reflexivity].
  - destruct F as [|F]; [simpl in Hlen; lia|].
    simpl in Hlen. change (takeList (S (S k)) sq) with
      (match Kotlin.next sq with
       | (None, sq') => ([], sq')
       | (Some p, sq') =>
           let '(l, sq'') := takeList (S k) sq' in
           (Kotlin.entries sq' p :: l, sq'')
       end).
    destruct (Kotlin.next sq) as [[p|] sq']; [|simpl in Hlen; lia].
    simpl in Hlen.
    destruct (IH F sq' ltac:(lia)) as (q & Hq & Hnth).
    destruct (takeList (S k) sq') as [l sq''].
    simpl in Hq, Hnth |- *. exists q. split; assumption.
Qed.

End KotlinSequence.

(** ** The steps yielded, in both programs *)

Section YieldedSteps.

Context {T : Type} {T_eq_dec : EqDec T}.

Lemma traversal_inversion (k : Kotlin.Graph T) (s : T)
    (l : list (Kotlin.PathEntry T)) :
  Kotlin.traversal k s = Normal l ->
  exists sq, Kotlin.shortestPath k s = Normal sq /\
             l = Kotlin.toList (S (List.length (Kotlin.nodes k))) sq.
Proof.
  unfold Kotlin.traversal.
  destruct (Kotlin.shortestPath k s) as [sq|]; [|discriminate].
  intros [= <-]. now exists sq.
Qed.

Lemma map_node (st : T -> dijkstra_iteration_step T) (acc : list T)
    (l : list (Kotlin.PathEntry T)) :
  (forall n, current (st n) = n) -> map toStep l = map st acc ->
  map (@Kotlin.node T) l = acc.
Proof.
  intros Hc H. rewrite <- (map_current st acc Hc), <- H, map_map.
  reflexivity.
Qed.

(** C2: a step yielded with a predecessor [p] comes after the step
    yielded for [p]; the graph has an edge from [p] to the node of the
    step, and the distance of the step is the distance yielded for [p]
    plus the weight of that edge.  So it is for the steps of the C++
    iterator and for the entries of the Kotlin sequence. *)
Theorem C2_predecessor_edge (g : graph T) (k : Kotlin.Graph T) (s : T)
    (l : list (dijkstra_iteration_step T)) (l' : list (Kotlin.PathEntry T))
    (i : nat) (x : dijkstra_iteration_step T) (x' : Kotlin.PathEntry T) (p : T) :
  (wf_graph g -> traverse g s = Normal l ->
   nth_error l i = Some x -> previous x = Some p ->
   exists j y e,
     j < i /\ nth_error l j = Some y /\ current y = p /\
     In e (out_edges_of g p) /\ start e = p /\ end_ e = current x /\
     distance x = dadd (distance y) (weight e)) /\
  (wf_graph (toGraph k) -> Kotlin.traversal k s = Normal l' ->
   nth_error l' i = Some x' -> Kotlin.priorNode x' = Some p ->
   exists j y e,
     j < i /\ nth_error l' j = Some y /\ Kotlin.node y = p /\
     In e (Kotlin.outEdgesOf k p) /\ Kotlin.start e = p /\
     Kotlin.end_ e = Kotlin.node x' /\
     Kotlin.distance x' = dadd (Kotlin.distance y) (Kotlin.weight e)).
Proof.
  split.
  - intros Hwf Hrun Hx Hp.
    assert (Hs : In s (node_names g)).
    { apply traverse_inversion in Hrun. destruct Hrun as (it & Hb & _).
      apply begin_inversion in Hb. destruct Hb as [Hb _].
      now apply um_contains_In. }
    destruct (traverse_inv s Hwf Hs) as (acc & ws & st & Hrun' & Inv & _).
    rewrite Hrun in Hrun'. injection Hrun' as ->.
    apply nth_error_map_inv in Hx. destruct Hx as (n & Hn & ->).
    destruct (inv_earlier Inv _ Hn Hp) as (j & Hj & Hpj).
    destruct (inv_previous Inv _ Hp) as (_ & e & He & Hend & Hd).
    exists j, (st p), e.
    split; [exact Hj|]. split; [now apply map_nth_error|].
    split; [apply (inv_current Inv)|]. split; [exact He|].
    split; [exact (wf_start Hwf _ _ He)|].
    split; [now rewrite (inv_current Inv)|exact Hd].
  - intros Hwf Hrun Hx Hp.
    apply traversal_inversion in Hrun. destruct Hrun as (sq & Hsq & ->).
    destruct (shortestPath_node _ _ Hsq) as (Hs & _).
    destruct (@shortestPath_inv _ _ k s Hwf Hs) as (sq' & acc & ws & st & Hsq' & Hrun & Inv & _).
    rewrite Hsq in Hsq'. injection Hsq' as <-.
    apply (map_nth_error toStep) in Hx. rewrite Hrun in Hx.
    apply nth_error_map_inv in Hx. destruct Hx as (n & Hn & Hxn).
    assert (Hp' : previous (st n) = Some p) by (now rewrite <- Hxn).
    destruct (inv_earlier Inv _ Hn Hp') as (j & Hj & Hpj).
    destruct (inv_previous Inv _ Hp') as (_ & e & He & Hend & Hd).
    apply (map_nth_error st) in Hpj. rewrite <- Hrun in Hpj.
    apply nth_error_map_inv in Hpj. destruct Hpj as (y & Hy & Hyp).
    rewrite out_edges_toGraph in He. apply in_map_iff in He.
    destruct He as (e' & <- & He').
    exists j, y, e'.
    assert (Hnode : Kotlin.node y = p).
    { change (current (toStep y) = p). rewrite <- Hyp. apply (inv_current Inv). }
    split; [exact Hj|]. split; [exact Hy|]. split; [exact Hnode|].
    split; [exact He'|].
    split.
    { pose proof (wf_start Hwf p (toEdge e')) as H. simpl in H. apply H.
      rewrite out_edges_toGraph. now apply in_map. }
    split.
    { change (end_ (toEdge e') = current (toStep x')).
      rewrite Hxn, (inv_current Inv). exact Hend. }
    change (distance (toStep x') = dadd (distance (toStep y)) (weight (toEdge e'))).
    now rewrite Hxn, <- Hyp.
Qed.


(** C7: [begin] runs the first increment of the C++ iterator before
    any step is read, and each [++] runs one more: a consumer that
    reads [n] steps, one at least, and leaves has made it run [n]
    increments, and a loop run to its end one more than it read
    steps, the last of them finding nothing to yield.  The Kotlin
    sequence runs nothing before the first pull and one selection for
    each entry taken, and it is suspended at the last of them: the
    loop over the edges of that entry has not run.  The steps read
    are the first [n] steps of the traversal run to exhaustion. *)
Theorem C7_lazy_prefix (g : graph T) (k : Kotlin.Graph T) (s : T)
    (t : dijkstra_traversal T) (it : dijkstra_traversal_iterator T)
    (sq : Kotlin.PathSequence T)
    (full : list (dijkstra_iteration_step T))
    (full' : list (Kotlin.PathEntry T)) (n : nat) :
  (new_dijkstra_traversal g s = Normal t ->
   begin t = Normal it ->
   traverse g s = Normal full ->
   1 <= n -> n <= List.length full ->
   (fst (range_for_break n it) = firstn n full /\
    iter_calls (snd (range_for_break n it)) = n) /\
   iter_calls it = 1 /\
   deref (advance (List.length full) it) = None /\
   iter_calls (advance (List.length full) it) = S (List.length full)) /\
  (Kotlin.shortestPath k s = Normal sq ->
   Kotlin.traversal k s = Normal full' ->
   n <= List.length full' ->
   (fst (takeList n sq) = firstn n full' /\
    Kotlin.selections (snd (takeList n sq)) = n) /\
   Kotlin.selections sq = 0 /\
   (1 <= n ->
    exists p,
      Kotlin.suspended (snd (takeList n sq)) = Some p /\
      nth_error (fst (takeList n sq)) (n - 1) =
        Some (Kotlin.entries (snd (takeList n sq)) p))).
Proof.
  split.
  - intros [= <-] Hb Hfull Hn Hlen.
    apply traverse_inversion in Hfull. destruct Hfull as [it' [Hb' ->]].
    rewrite Hb in Hb'. injection Hb' as <-.
    pose proof (range_for_length (S (List.length (nodes g))) it) as Hle.
    split; [split|].
    + apply range_for_break_prefix. lia.
    + rewrite (@range_for_break_calls _ _ n (S (List.length (nodes g))) it)
        by assumption.
      rewrite (begin_calls _ Hb). lia.
    + split; [exact (begin_calls _ Hb)|].
      assert (Hmore : range_for (S (S (List.length (nodes g)))) it =
                      range_for (S (List.length (nodes g))) it).
      { apply range_for_enough; [exact (begin_current _ Hb)| |lia].
        apply begin_inversion in Hb. destruct Hb as [_ ->].
        eapply Nat.le_lt_trans; [apply iter_length_le|].
        cbn [working_set traversal_graph traversal_start].
        rewrite init_entry_ws. simpl. rewrite length_map. lia. }
      split.
      * unfold deref. rewrite <- Hmore. apply range_for_stops.
        rewrite Hmore. lia.
      * rewrite advance_calls, (begin_calls _ Hb). lia.
  - intros Hsq Hfull Hlen.
    apply traversal_inversion in Hfull. destruct Hfull as (sq' & Hsq' & ->).
    rewrite Hsq in Hsq'. injection Hsq' as <-.
    destruct (shortestPath_node _ _ Hsq) as (_ & Hsel & _ & Hnode).
    pose proof (toList_length (S (List.length (Kotlin.nodes k))) sq) as Hle.
    split; [split|].
    + apply takeList_prefix. lia.
    + rewrite (@takeList_selections _ _ n (S (List.length (Kotlin.nodes k))) sq)
        by assumption.
      rewrite Hsel. reflexivity.
    + split; [exact Hsel|]. intro Hn.
      destruct n as [|n]; [lia|]. replace (S n - 1) with n by lia.
      eapply takeList_suspended. exact Hlen.
Qed.

(** C8: the step a consumer was handed is the same after any number of
    later increments, and an increment writes to no step whose entry
    has left the working set.  So it is for the steps of the C++
    iterator and for the entries of the Kotlin sequence. *)
Theorem C8_yielded_step_immutable (g : graph T) (k : Kotlin.Graph T) (s : T)
    (t : dijkstra_traversal T) (it0 : dijkstra_traversal_iterator T)
    (sq0 : Kotlin.PathSequence T) (i j : nat) (p : T) :
  (new_dijkstra_traversal g s = Normal t ->
   begin t = Normal it0 ->
   deref (advance i it0) = Some p ->
   steps (advance (i + j) it0) p = steps (advance i it0) p /\
   forall n, ~ In n (working_set (advance (i + j) it0)) ->
             steps (advance (i + S j) it0) n = steps (advance (i + j) it0) n) /\
  (Kotlin.shortestPath k s = Normal sq0 ->
   fst (Kotlin.next (pulls i sq0)) = Some p ->
   Kotlin.entries (pulls (S i + j) sq0) p = Kotlin.entries (pulls (S i) sq0) p /\
   forall n, ~ In n (Kotlin.workingSet (pulls (i + j) sq0)) ->
             Kotlin.entries (pulls (i + S j) sq0) n =
             Kotlin.entries (pulls (i + j) sq0) n).
Proof.
  split.
  - intros _ Hb Hp. split.
    + rewrite advance_add. apply advance_frame.
      apply advance_current_node_erased; try assumption.
      * now apply (begin_current t).
      * apply begin_inversion in Hb. destruct Hb as [_ ->].
        apply iter_current_node_erased. simpl.
        apply init_entry_current. reflexivity.
    + intros n Hn. replace (i + S j) with ((i + j) + 1) by lia.
      rewrite (advance_add (i + j) 1). simpl. unfold incr.
      apply iter_frame. intro H. apply Hn. now apply iter_working_set_incl.
  - intros Hsq Hp.
    destruct (shortestPath_node _ _ Hsq) as (_ & _ & _ & Hnode).
    split.
    + rewrite pulls_add. apply pulls_frame.
      replace (S i) with (i + 1) by lia. rewrite pulls_add. simpl.
      destruct (next_yield (pulls i sq0) (pulls_node i sq0 Hnode) Hp)
        as (_ & -> & _).
      intro H. apply ws_erase_In in H. now destruct H.
    + intros n Hn. replace (i + S j) with ((i + j) + 1) by lia.
      rewrite (pulls_add (i + j) 1). simpl. now apply next_frame.
Qed.

End YieldedSteps.

Lemma C2_witness :
  (exists j y e,
     j < 2 /\
     nth_error
       [ {| current := 0; distance := Finite 0%Q; previous := None |};
         {| current := 1; distance := Finite 1%Q; previous := Some 0 |};
         {| current := 2; distance := Finite 2%Q; previous := Some 1 |} ] j = Some y /\
     current y = 1 /\
     In e (out_edges_of ring_graph 1) /\ start e = 1 /\
     end_ e = current {| current := 2; distance := Finite 2%Q; previous := Some 1 |} /\
     distance {| current := 2; distance := Finite 2%Q; previous := Some 1 |} =
       dadd (distance y) (weight e)) /\
  (exists j y e,
     j < 2 /\
     nth_error
       [ {| Kotlin.node := 0; Kotlin.distance := Finite 0%Q;
            Kotlin.priorNode := None |};
         {| Kotlin.node := 2; Kotlin.distance := Finite 1%Q;
            Kotlin.priorNode := Some 0 |};
         {| Kotlin.node := 1; Kotlin.distance := Finite 1%Q;
            Kotlin.priorNode := Some 0 |} ] j = Some y /\
     Kotlin.node y = 0 /\
     In e (Kotlin.outEdgesOf forkGraph 0) /\ Kotlin.start e = 0 /\
     Kotlin.end_ e =
       Kotlin.node {| Kotlin.node := 1; Kotlin.distance := Finite 1%Q;
                      Kotlin.priorNode := Some 0 |} /\
     Kotlin.distance {| Kotlin.node := 1; Kotlin.distance := Finite 1%Q;
                        Kotlin.priorNode := Some 0 |} =
       dadd (Kotlin.distance y) (Kotlin.weight e)).
Proof.
  split.
  - apply (proj1 (C2_predecessor_edge ring_graph forkGraph 0 _ [] 2 _
                    {| Kotlin.node := 0; Kotlin.distance := HUGE_VAL;
                       Kotlin.priorNode := None |} 1)).
    + exact ring_graph_wf.
    + vm_compute. reflexivity.
    + reflexivity.
    + reflexivity.
  - apply (proj2 (C2_predecessor_edge ring_graph forkGraph 0 [] _ 2
                    {| current := 0; distance := HUGE_VAL; previous := None |}
                    _ 0)).
    + exact forkGraph_wf.
    + vm_compute. reflexivity.
    + reflexivity.
    + reflexivity.
Defined.



Lemma C7_witness :
  ((fst (range_for_break 2 ring_iterator) =
      firstn 2
        [ {| current := 0; distance := Finite 0%Q; previous := None |};
          {| current := 1; distance := Finite 1%Q; previous := Some 0 |};
          {| current := 2; distance := Finite 2%Q; previous := Some 1 |} ] /\
    iter_calls (snd (range_for_break 2 ring_iterator)) = 2) /\
   iter_calls ring_iterator = 1 /\
   deref (advance 3 ring_iterator) = None /\
   iter_calls (advance 3 ring_iterator) = 4) /\
  ((fst (takeList 2 forkStart) =
      firstn 2
        [ {| Kotlin.node := 0; Kotlin.distance := Finite 0%Q;
             Kotlin.priorNode := None |};
          {| Kotlin.node := 2; Kotlin.distance := Finite 1%Q;
             Kotlin.priorNode := Some 0 |};
          {| Kotlin.node := 1; Kotlin.distance := Finite 1%Q;
             Kotlin.priorNode := Some 0 |} ] /\
    Kotlin.selections (snd (takeList 2 forkStart)) = 2) /\
   Kotlin.selections forkStart = 0 /\
   exists p,
     Kotlin.suspended (snd (takeList 2 forkStart)) = Some p /\
     nth_error (fst (takeList 2 forkStart)) (2 - 1) =
       Some (Kotlin.entries (snd (takeList 2 forkStart)) p)).
Proof.
  split.
  - apply (proj1 (C7_lazy_prefix ring_graph forkGraph 0
                    {| traversal_graph := ring_graph; traversal_start := 0 |}
                    ring_iterator forkStart
                    [ {| current := 0; distance := Finite 0%Q; previous := None |};
                      {| current := 1; distance := Finite 1%Q; previous := Some 0 |};
                      {| current := 2; distance := Finite 2%Q; previous := Some 1 |} ]
                    [] 2)).
    + reflexivity.
    + vm_compute. reflexivity.
    + vm_compute. reflexivity.
    + lia.
    + simpl. lia.
  - destruct (proj2 (C7_lazy_prefix ring_graph forkGraph 0
                       {| traversal_graph := ring_graph; traversal_start := 0 |}
                       ring_iterator forkStart []
                       [ {| Kotlin.node := 0; Kotlin.distance := Finite 0%Q;
                            Kotlin.priorNode := None |};
                         {| Kotlin.node := 2; Kotlin.distance := Finite 1%Q;
                            Kotlin.priorNode := Some 0 |};
                         {| Kotlin.node := 1; Kotlin.distance := Finite 1%Q;
                            Kotlin.priorNode := Some 0 |} ] 2)) as (H1 & H2 & H3).
    + vm_compute. reflexivity.
    + vm_compute. reflexivity.
    + simpl. lia.
    + split; [exact H1|]. split; [exact H2|]. apply H3. lia.
Defined.

(** C7 fails on the count of the increments.  [begin] has run one
    increment of the iterator of the ring when no step has been read;
    the loop run to its end reads three steps and has run four
    increments, the fourth bringing it to the end.  The Kotlin
    sequence of the fork, when one entry has been taken, has run one
    selection and is suspended at the entry of the node 0: the loop
    over its edges has not run, and the entries of the nodes 1 and 2
    are as they were made. *)
Lemma C7_counterexample :
  (fst (range_for_break 0 ring_iterator) = [] /\
   iter_calls (snd (range_for_break 0 ring_iterator)) = 1) /\
  (List.length (range_for 5 ring_iterator) = 3 /\
   deref (advance 3 ring_iterator) = None /\
   iter_calls (advance 3 ring_iterator) = 4) /\
  (List.length (fst (takeList 1 forkStart)) = 1 /\
   Kotlin.selections (snd (takeList 1 forkStart)) = 1 /\
   Kotlin.suspended (snd (takeList 1 forkStart)) = Some 0 /\
   Kotlin.distance (Kotlin.entries (snd (takeList 1 forkStart)) 1) = HUGE_VAL /\
   Kotlin.distance (Kotlin.entries (snd (takeList 1 forkStart)) 2) = HUGE_VAL).
Proof.
  split; [|split].
  - split; vm_compute; reflexivity.
  - split; [|split]; vm_compute; reflexivity.
  - split; [|split; [|split; [|split]]]; vm_compute; reflexivity.
Qed.

Lemma C8_witness :
  (steps (advance (1 + 1) ring_iterator) 1 = steps (advance 1 ring_iterator) 1 /\
   forall n, ~ In n (working_set (advance (1 + 1) ring_iterator)) ->
             steps (advance (1 + 2) ring_iterator) n =
             steps (advance (1 + 1) ring_iterator) n) /\
  (Kotlin.entries (pulls (2 + 1) forkStart) 2 = Kotlin.entries (pulls 2 forkStart) 2 /\
   forall n, ~ In n (Kotlin.workingSet (pulls (1 + 1) forkStart)) ->
             Kotlin.entries (pulls (1 + 2) forkStart) n =
             Kotlin.entries (pulls (1 + 1) forkStart) n).
Proof.
  split.
  - apply (proj1 (C8_yielded_step_immutable ring_graph forkGraph 0
                    {| traversal_graph := ring_graph; traversal_start := 0 |}
                    ring_iterator forkStart 1 1 1)).
    + reflexivity.
    + vm_compute. reflexivity.
    + vm_compute. reflexivity.
  - apply (proj2 (C8_yielded_step_immutable ring_graph forkGraph 0
                    {| traversal_graph := ring_graph; traversal_start := 0 |}
                    ring_iterator forkStart 1 1 2)).
    + vm_compute. reflexivity.
    + vm_compute. reflexivity.
Defined.

(** * More of the code *)

(** ** The distances yielded are the shortest ones *)

Section ShortestRun.

Context {T : Type} {T_eq_dec : EqDec T}.

Variable g : graph T.
Variable s : T.
Hypothesis g_wf : wf_graph g.
Hypothesis s_in : In s (node_names g).

Lemma round_shortest (ws : list T) (st : T -> dijkstra_iteration_step T)
    (acc : list T) (c : T) :
  shortest_inv g s ws st acc ->
  In c ws ->
  (forall n, In n ws -> dle (distance (st c)) (distance (st n)) = true) ->
  is_huge (distance (st c)) = false ->
  shortest_inv g s (ws_erase ws c)
    (fold_left (relax_edge (ws_erase ws c) c) (out_edges_of g c) st)
    (acc ++ [c]).
Proof.
  intros [Inv Hrel Hsrc] Hc Hmin Hfin.
  pose proof (@round_inv _ _ g s g_wf ws st acc c Inv Hc Hmin Hfin) as Inv'.
  set (ws' := ws_erase ws c) in *.
  set (st' := fold_left (relax_edge ws' c) (out_edges_of g c) st) in *.
  assert (Hc' : ~ In c ws').
  { intro H. apply ws_erase_In in H. tauto. }
  assert (Hframe : forall x, In x (acc ++ [c]) -> st' x = st x).
  { intros x Hx. apply relax_frame.
    now apply (NoDup_app_apart _ _ x (inv_nodup Inv') Hx). }
  pose proof (relax_cases ws' c Hc' (out_edges_of g c) st) as Hcases.
  pose proof (relax_decreases ws' c Hc' (out_edges_of g c) st) as Hdecr.
  pose proof (relax_upper ws' c Hc' (out_edges_of g c) st) as Hupper.
  fold st' in Hcases, Hdecr, Hupper.
  split; [exact Inv'| |].
  - intros p e Hp He. rewrite (Hframe p Hp).
    apply in_app_or in Hp. destruct Hp as [Hp|[<-|[]]].
    + eapply dle_trans; [apply Hdecr|]. now apply Hrel.
    + assert (Hend : In (end_ e) (acc ++ ws)).
      { apply (inv_nodes Inv). eapply (wf_end g_wf). exact He. }
      assert (Hw : (0 <= weight e)%Q).
      { apply Qlt_le_weak. eapply (wf_weight g_wf). exact He. }
      apply in_app_or in Hend. destruct Hend as [Hin|Hin].
      * rewrite Hframe by (apply in_or_app; now left).
        eapply dle_trans; [now apply (inv_bound Inv (end_ e) c)|].
        now apply dadd_dle.
      * destruct (eq_dec (end_ e) c) as [Heq|Hne].
        -- rewrite Heq, Hframe by (apply in_or_app; right; now left).
           now apply dadd_dle.
        -- apply Hupper; [exact He|]. apply ws_erase_In. now split.
  - intros n Hn Hp.
    destruct (Hcases n) as [Heq|(e & _ & _ & _ & _ & _ & Hprev)].
    + rewrite Heq in Hn, Hp. now apply Hsrc.
    + rewrite Hprev in Hp. discriminate.
Qed.

Lemma initial_shortest :
  shortest_inv g s
    (fst (fold_left (init_entry s) (nodes g) ([], new_dijkstra_iteration_step)))
    (snd (fold_left (init_entry s) (nodes g) ([], new_dijkstra_iteration_step)))
    [].
Proof.
  split.
  - now apply initial_inv.
  - intros p e [].
  - intros n Hn _. rewrite initial_steps in Hn by exact s_in. simpl in Hn.
    destruct (keq n s) eqn:E; [now apply keq_true in E|discriminate].
Qed.

Lemma range_for_shortest (F : nat) :
  forall (it : dijkstra_traversal_iterator T) (acc : list T) (c : T),
  working_graph it = g ->
  shortest_inv g s (working_set it) (steps it) (acc ++ [c]) ->
  current_node it = Some c ->
  List.length (working_set it) < F ->
  exists rest ws st,
    shortest_inv g s ws st (acc ++ c :: rest) /\
    (forall n, In n ws -> is_huge (distance (st n)) = true) /\
    range_for F it = map st (c :: rest) /\
    (forall x, In x (acc ++ [c]) -> st x = steps it x).
Proof.
  induction F as [|F IH]; intros it acc c Hg Inv Hcur Hlen; [lia|].
  simpl. unfold deref. rewrite Hcur. unfold incr.
  destruct (iter_cases it) as [[Hws Hit]|[(c' & Hf & Hh & Hit)|(c' & Hf & Hh & Hit)]].
  - exists [], (working_set it), (steps it).
    split; [exact Inv|]. split; [|split].
    + intros n Hn. rewrite Hws in Hn. contradiction.
    + rewrite range_for_at_end; [reflexivity|]. now rewrite Hit.
    + reflexivity.
  - exists [], (working_set it), (steps it).
    split; [exact Inv|]. split; [|split].
    + apply (huge_least Hf Hh).
    + rewrite range_for_at_end; [reflexivity|]. now rewrite Hit.
    + reflexivity.
  - rewrite (inv_current (sh_inv Inv)) in Hit. rewrite Hg in Hit.
    assert (Hin : In c' (working_set it)) by (eapply first_closest_In; exact Hf).
    assert (Inv' : shortest_inv g s (working_set (iter it)) (steps (iter it))
                     ((acc ++ [c]) ++ [c'])).
    { rewrite Hit. cbn [working_set steps].
      apply round_shortest; auto.
      apply (first_closest_least (steps it) Hf). }
    destruct (IH (iter it) (acc ++ [c]) c') as (rest & ws & st & Hinv & Hhuge & Hrun & Hfr).
    + now rewrite working_graph_iter.
    + exact Inv'.
    + rewrite Hit. reflexivity.
    + rewrite Hit. cbn [working_set].
      pose proof (ws_erase_length (working_set it) c' Hin). lia.
    + assert (Hframe : forall x, In x (acc ++ [c]) -> st x = steps it x).
      { intros x Hx. rewrite Hfr by (apply in_or_app; now left).
        apply iter_frame.
        apply (NoDup_app_apart _ _ x (inv_nodup (sh_inv Inv'))).
        apply in_or_app. now left. }
      exists (c' :: rest), ws, st.
      split; [|split; [exact Hhuge|split; [|exact Hframe]]].
      * now rewrite <- app_assoc in Hinv.
      * rewrite Hrun. simpl. f_equal. symmetry. apply Hframe.
        apply in_or_app. right. now left.
Qed.

Lemma traverse_shortest :
  exists acc ws st,
    traverse g s = Normal (map st acc) /\
    shortest_inv g s ws st acc /\
    (forall n, In n ws -> is_huge (distance (st n)) = true).
Proof.
  unfold traverse, new_dijkstra_traversal. rewrite (begin_eq g s s_in).
  pose proof initial_shortest as Inv0.
  pose proof (init_entry_ws s (nodes g) ([], new_dijkstra_iteration_step)) as Hws0.
  cbn [fst app] in Hws0.
  set (ws0 := fst (fold_left (init_entry s) (nodes g)
                     ([], new_dijkstra_iteration_step))) in *.
  set (st0 := snd (fold_left (init_entry s) (nodes g)
                     ([], new_dijkstra_iteration_step))) in *.
  assert (Hlen0 : List.length ws0 = List.length (nodes g)).
  { rewrite Hws0. apply length_map. }
  destruct (inv_source (sh_inv Inv0)) as [Hsin Hst0].
  destruct (iter_cases {| working_set := ws0; steps := st0; current_node := None;
                          working_graph := g; iter_calls := 0 |})
    as [[Hws Hit]|[(c & Hf & Hh & Hit)|(c & Hf & Hh & Hit)]];
    cbn [working_set steps working_graph iter_calls] in Hit;
    cbn [working_set steps] in *.
  - rewrite Hws in Hsin. contradiction.
  - exfalso.
    pose proof (huge_least Hf Hh s Hsin) as H. cbv beta in H.
    rewrite Hst0 in H. simpl in H. rewrite keq_refl in H. discriminate.
  - rewrite (inv_current (sh_inv Inv0)) in Hit.
    assert (Hin : In c ws0) by (eapply first_closest_In; exact Hf).
    destruct (@range_for_shortest (S (List.length (nodes g)))
                (iter {| working_set := ws0; steps := st0; current_node := None;
                         working_graph := g; iter_calls := 0 |}) [] c)
      as (rest & ws & st & Hinv & Hhuge & Hrun & _).
    + now rewrite working_graph_iter.
    + rewrite Hit. cbn [working_set steps].
      apply round_shortest; auto.
      apply (first_closest_least st0 Hf).
    + rewrite Hit. reflexivity.
    + rewrite Hit. cbn [working_set].
      pose proof (ws_erase_length ws0 c Hin). lia.
    + exists (c :: rest), ws, st.
      split; [now rewrite Hrun|]. split; [exact Hinv|exact Hhuge].
Qed.

Lemma path_reachable (n : T) (w : Q) : path g s n w -> reachable g s n.
Proof.
  induction 1 as [Hs|p e w Hp IH He]; [now apply reach_source|].
  eapply reach_edge; eassumption.
Qed.

(** At the end no path beats the distance in the store. *)
Lemma final_least (ws : list T) (st : T -> dijkstra_iteration_step T)
    (acc : list T) :
  shortest_inv g s ws st acc ->
  (forall n, In n ws -> is_huge (distance (st n)) = true) ->
  forall n w, path g s n w ->
    In n acc /\ exists d, distance (st n) = Finite d /\ (d <= w)%Q.
Proof.
  intros [Inv Hrel Hsrc] Hhuge n w Hpath.
  assert (Hacc : forall m v, path g s m v -> In m acc).
  { intros m v Hm. apply (exhausted_reachable g_wf Inv Hhuge).
    now apply (path_reachable Hm). }
  induction Hpath as [Hs|p e w Hp IH He].
  - split; [now apply (Hacc s 0%Q), path_source|].
    pose proof (inv_source Inv) as H0.
    assert (Hin : In s acc) by (now apply (Hacc s 0%Q), path_source).
    destruct acc as [|a acc0]; [contradiction|].
    destruct H0 as [_ ->]. exists 0%Q. split; [reflexivity|apply Qle_refl].
  - destruct IH as [Hpin (dp & Hdp & Hle)].
    split; [apply (Hacc (end_ e) (w + weight e)%Q); now apply path_edge with (p := p)|].
    pose proof (Hrel p e Hpin He) as H. rewrite Hdp in H. simpl in H.
    destruct (distance (st (end_ e))) as [d|]; [|discriminate].
    exists d. split; [reflexivity|].
    simpl in H. apply Qle_bool_iff in H.
    eapply Qle_trans; [exact H|]. apply Qplus_le_compat; [exact Hle|apply Qle_refl].
Qed.

(** Every node selected has a path of the weight in the store. *)
Lemma final_path (ws : list T) (st : T -> dijkstra_iteration_step T)
    (acc : list T) :
  shortest_inv g s ws st acc ->
  forall i n, nth_error acc i = Some n ->
    exists d, distance (st n) = Finite d /\ path g s n d.
Proof.
  intros [Inv Hrel Hsrc] i.
  induction i as [i IH] using lt_wf_ind. intros n Hn.
  assert (Hin : In n acc) by (eapply nth_error_In; exact Hn).
  pose proof (inv_finite Inv n Hin) as Hfin.
  destruct (previous (st n)) as [p|] eqn:Hp.
  - destruct (inv_earlier Inv _ Hn Hp) as (j & Hj & Hpj).
    destruct (inv_previous Inv _ Hp) as (_ & e & He & Hend & Hd).
    destruct (IH j Hj p Hpj) as (dp & Hdp & Hpath).
    exists (dp + weight e)%Q. split.
    + rewrite Hd, Hdp. reflexivity.
    + rewrite <- Hend. now apply path_edge with (p := p).
  - assert (n = s) by (now apply Hsrc). subst n.
    pose proof (inv_source Inv) as H0.
    destruct acc as [|a acc0]; [contradiction|].
    destruct H0 as [_ ->]. exists 0%Q. split; [reflexivity|].
    now apply path_source.
Qed.

End ShortestRun.

Section ShortestDistances.

Context {T : Type} {T_eq_dec : EqDec T}.

Lemma traverse_source (g : graph T) (s : T) (l : list (dijkstra_iteration_step T)) :
  traverse g s = Normal l -> In s (node_names g).
Proof.
  intro Hrun. apply traverse_inversion in Hrun. destruct Hrun as (it & Hb & _).
  apply begin_inversion in Hb. destruct Hb as [Hb _].
  now apply um_contains_In.
Qed.

Lemma path_same_edges (g g' : graph T) (s : T) :
  (forall n, In n (node_names g) -> In n (node_names g')) ->
  (forall p e, In e (out_edges_of g p) -> In e (out_edges_of g' p)) ->
  forall n w, path g s n w -> path g' s n w.
Proof.
  intros Hn He n w Hp. induction Hp as [Hs|p e w Hp IH Hin].
  - apply path_source. now apply Hn.
  - apply path_edge with (p := p); [exact IH|]. now apply He.
Qed.

(** X3: two graphs with the same nodes and the same out-edges, kept in
    whatever order by their containers, are traversed to the same
    nodes, and each node is yielded at the same distance. *)
Theorem X3_distances_independent_of_order (g g' : graph T) (s : T)
    (l l' : list (dijkstra_iteration_step T))
    (x x' : dijkstra_iteration_step T) :
  wf_graph g -> wf_graph g' ->
  (forall n, In n (node_names g) <-> In n (node_names g')) ->
  (forall p e, In e (out_edges_of g p) <-> In e (out_edges_of g' p)) ->
  traverse g s = Normal l -> traverse g' s = Normal l' ->
  (forall n, In n (map (@current T) l) <-> In n (map (@current T) l')) /\
  (In x l -> In x' l' -> current x = current x' ->
   exists d d', distance x = Finite d /\ distance x' = Finite d' /\ (d == d')%Q).
Proof.
  intros Hwf Hwf' Hnames Hedges Hrun Hrun'.
  pose proof (traverse_source _ _ Hrun) as Hs.
  pose proof (traverse_source _ _ Hrun') as Hs'.
  assert (Hpath : forall n w, path g s n w <-> path g' s n w).
  { intros n w. split; apply path_same_edges; intros; first [now apply Hnames | now apply Hedges]. }
  destruct (@traverse_shortest _ _ g s Hwf Hs) as (acc & ws & st & Hl & Inv & Hhuge).
  destruct (@traverse_shortest _ _ g' s Hwf' Hs') as (acc' & ws' & st' & Hl' & Inv' & Hhuge').
  rewrite Hrun in Hl. injection Hl as ->.
  rewrite Hrun' in Hl'. injection Hl' as ->.
  rewrite (map_current _ _ (inv_current (sh_inv Inv))).
  rewrite (map_current _ _ (inv_current (sh_inv Inv'))).
  split.
  - intro n. split; intro Hn; apply In_nth_error in Hn; destruct Hn as [i Hi].
    + destruct (final_path Hs Inv i Hi) as (d & _ & Hp).
      apply Hpath in Hp.
      now destruct (final_least Hwf' Inv' Hhuge' Hp).
    + destruct (final_path Hs' Inv' i Hi) as (d & _ & Hp).
      apply Hpath in Hp.
      now destruct (final_least Hwf Inv Hhuge Hp).
  - intros Hx Hx' Hcur.
    apply in_map_iff in Hx. destruct Hx as (n & <- & Hn).
    apply in_map_iff in Hx'. destruct Hx' as (n' & <- & Hn').
    rewrite !(inv_current (sh_inv Inv)), !(inv_current (sh_inv Inv')) in Hcur.
    subst n'.
    apply In_nth_error in Hn. destruct Hn as [i Hi].
    apply In_nth_error in Hn'. destruct Hn' as [i' Hi'].
    destruct (final_path Hs Inv i Hi) as (d & Hd & Hp).
    destruct (final_path Hs' Inv' i' Hi') as (d' & Hd' & Hp').
    exists d, d'. split; [exact Hd|]. split; [exact Hd'|].
    apply Qle_antisym.
    + apply Hpath in Hp'.
      destruct (final_least Hwf Inv Hhuge Hp') as (_ & e & He & Hle).
      rewrite Hd in He. injection He as <-. exact Hle.
    + apply Hpath in Hp.
      destruct (final_least Hwf' Inv' Hhuge' Hp) as (_ & e & He & Hle).
      rewrite Hd' in He. injection He as <-. exact Hle.
Qed.

End ShortestDistances.

(** ** The end of the loop *)

Section AtEnd.

Context {T : Type} {T_eq_dec : EqDec T}.

(** An increment that ends the traversal leaves only entries at
    [HUGE_VAL] in the working set. *)
Lemma iter_end_huge (it : dijkstra_traversal_iterator T) :
  current_node (iter it) = None ->
  forall n, In n (working_set (iter it)) ->
            is_huge (distance (steps (iter it) n)) = true.
Proof.
  destruct (iter_cases it) as [[Hws ->]|[(c & Hf & Hh & ->)|(c & _ & _ & ->)]];
    cbn [working_set steps current_node]; try discriminate; intros _ n Hn.
  - rewrite Hws in Hn. contradiction.
  - apply ws_erase_In in Hn. destruct Hn as [Hn _].
    now apply (huge_least Hf Hh).
Qed.

Lemma iter_huge (it : dijkstra_traversal_iterator T) :
  (forall n, In n (working_set it) -> is_huge (distance (steps it n)) = true) ->
  current_node (iter it) = None /\ steps (iter it) = steps it /\
  forall n, In n (working_set (iter it)) ->
            is_huge (distance (steps (iter it) n)) = true.
Proof.
  intro Hall.
  destruct (iter_cases it) as [[Hws ->]|[(c & Hf & Hh & ->)|(c & Hf & Hh & ->)]];
    cbn [working_set steps current_node].
  - repeat split; auto.
  - repeat split; auto. intros n Hn. apply ws_erase_In in Hn. now apply Hall.
  - apply first_closest_In in Hf. rewrite (Hall c Hf) in Hh. discriminate.
Qed.

Lemma advance_huge (k : nat) : forall it : dijkstra_traversal_iterator T,
  current_node it = None ->
  (forall n, In n (working_set it) -> is_huge (distance (steps it n)) = true) ->
  current_node (advance k it) = None /\ steps (advance k it) = steps it.
Proof.
  induction k as [|k IH]; intros it Hcur Hall; simpl; [now split|].
  destruct (iter_huge it Hall) as (Hnone & Hsteps & Hall').
  unfold incr. destruct (IH (iter it) Hnone Hall') as [H1 H2].
  split; [exact H1|]. now rewrite H2.
Qed.

(** X4: once an increment has brought the iterator to the end, further
    increments leave it at the end and write to no step. *)
Theorem X4_end_is_absorbing (it : dijkstra_traversal_iterator T) (k : nat) :
  not_at_end (incr it) = false ->
  not_at_end (advance k (incr it)) = false /\
  deref (advance k (incr it)) = None /\
  steps (advance k (incr it)) = steps (incr it).
Proof.
  unfold not_at_end, deref, incr. intro H.
  assert (Hnone : current_node (iter it) = None).
  { destruct (current_node (iter it)); [discriminate|reflexivity]. }
  destruct (advance_huge k (iter it) Hnone (iter_end_huge it Hnone)) as [H1 H2].
  rewrite H1. auto.
Qed.

Lemma advance_ends (k : nat) : forall it : dijkstra_traversal_iterator T,
  (forall n, current (steps it n) = n) ->
  List.length (working_set it) < k ->
  current_node (advance k it) = None.
Proof.
  induction k as [|k IH]; intros it Hc Hlen; [lia|]. simpl. unfold incr.
  destruct (iter_shrinks it Hc) as [Hnone|Hlt].
  - now apply advance_huge; [|apply iter_end_huge].
  - apply IH; [now apply iter_current|lia].
Qed.

(** X5: the loop over a traversal ends: after as many increments as
    the graph has nodes, or more, the iterator that [begin] returned is
    at the end. *)
Theorem X5_loop_ends_within_node_count (t : dijkstra_traversal T)
    (it : dijkstra_traversal_iterator T) (k : nat) :
  begin t = Normal it ->
  List.length (nodes (traversal_graph t)) <= k ->
  not_at_end (advance k it) = false.
Proof.
  intros Hb Hk. unfold not_at_end.
  pose proof (begin_current t Hb) as Hcur.
  apply begin_inversion in Hb. destruct Hb as [_ Hit].
  set (it0 := {| working_set := _ |}) in Hit.
  assert (Hlen0 : List.length (working_set it0) = List.length (nodes (traversal_graph t))).
  { unfold it0. cbn [working_set]. rewrite init_entry_ws. simpl. apply length_map. }
  assert (Hc0 : forall n, current (steps it0 n) = n).
  { unfold it0. cbn [steps]. apply init_entry_current. reflexivity. }
  assert (Hnone : current_node (advance k it) = None).
  { destruct (iter_shrinks it0 Hc0) as [Hnone|Hlt].
    - rewrite Hit. now apply advance_huge; [|apply iter_end_huge].
    - apply advance_ends; [exact Hcur|]. rewrite Hit. lia. }
  now rewrite Hnone.
Qed.

End AtEnd.

(** ** Building a graph, call by call *)

Section Building.

Context {T : Type} {T_eq_dec : EqDec T}.

Lemma insertNode_eq (k : Kotlin.Graph T) (n : T) :
  Kotlin.insertNode n k =
  if um_contains (Kotlin.nodes k) n
  then (Thrown (GraphKeyError "No duplicate keys allowed"), k)
  else (Normal tt,
        {| Kotlin.nodes :=
             um_assign (Kotlin.nodes k) n
               {| Kotlin.name := n; Kotlin.outEdges := []; Kotlin.inEdges := [] |} |}).
Proof.
  unfold Kotlin.insertNode, bind, get. simpl.
  destruct (um_contains (Kotlin.nodes k) n); reflexivity.
Qed.

Lemma um_contains_false (V : Type) (m : list (T * V)) (k : T) :
  um_contains m k = false -> ~ In k (map fst m).
Proof.
  intros H Hin. apply um_contains_In in Hin. congruence.
Qed.

Lemma um_find_snoc (V : Type) (m : list (T * V)) (k n : T) (v : V) :
  ~ In n (map fst m) ->
  um_find (m ++ [(n, v)]) k = if eq_dec k n then Some v else um_find m k.
Proof.
  intro Hn. rewrite um_find_app. simpl.
  destruct (eq_dec k n) as [->|Hk].
  - apply um_find_None in Hn. now rewrite Hn.
  - destruct (um_find m k); reflexivity.
Qed.

(** X6: adding a node under a name in use fails and leaves the graph
    as it was; under a new name it succeeds, the new node has no edges
    and every other node is as before.  The Kotlin graph then iterates
    the new node last. *)
Theorem X6_create_node_outcomes (g : graph T) (k : Kotlin.Graph T) (n : T) :
  (um_contains (nodes g) n = true ->
   create_node n g = (Thrown (domain_error "Node already exists"), g)) /\
  (um_contains (nodes g) n = false ->
   fst (create_node n g) = Normal tt /\
   forall m, um_find (nodes (snd (create_node n g))) m =
             if eq_dec m n
             then Some {| name := n; out_edges := []; in_edges := [] |}
             else um_find (nodes g) m) /\
  (um_contains (Kotlin.nodes k) n = true ->
   Kotlin.insertNode n k =
     (Thrown (GraphKeyError "No duplicate keys allowed"), k)) /\
  (um_contains (Kotlin.nodes k) n = false ->
   fst (Kotlin.insertNode n k) = Normal tt /\
   Kotlin.iterator (snd (Kotlin.insertNode n k)) =
     Kotlin.iterator k ++
     [{| Kotlin.name := n; Kotlin.outEdges := []; Kotlin.inEdges := [] |}] /\
   map fst (Kotlin.nodes (snd (Kotlin.insertNode n k))) =
     map fst (Kotlin.nodes k) ++ [n]).
Proof.
  rewrite create_node_eq, insertNode_eq.
  split; [|split; [|split]].
  - now intros ->.
  - intro H. rewrite H. simpl. split; [reflexivity|].
    apply um_contains_false in H. rewrite um_assign_keys_fresh by assumption.
    intro m. now apply um_find_snoc.
  - now intros ->.
  - intro H. rewrite H. simpl. split; [reflexivity|].
    apply um_contains_false in H. rewrite um_assign_keys_fresh by assumption.
    unfold Kotlin.iterator. simpl. rewrite !map_app. split; reflexivity.
Qed.

Lemma existsb_snoc (A : Type) (f : A -> bool) (l : list A) (a : A) :
  existsb f (l ++ [a]) = existsb f l || f a.
Proof. rewrite existsb_app. simpl. now rewrite orb_false_r. Qed.

Lemma link_added_between (g g' : graph T) (s e : T) (w : Q) :
  link_added g g' s e w ->
  forall a b, edge_between g' a b = edge_between g a b || (keq a s && keq b e).
Proof.
  intros H a b. unfold edge_between.
  destruct (eq_dec a s) as [->|Ha].
  - rewrite (added_out H), existsb_snoc, keq_refl. simpl.
    f_equal. unfold keq. destruct (eq_dec e b) as [->|Hn].
    + destruct (eq_dec b b); [reflexivity|contradiction].
    + destruct (eq_dec b e); [congruence|reflexivity].
  - rewrite (other_out H) by assumption.
    assert (Hk : keq a s = false) by (apply keq_false; exact Ha).
    rewrite Hk. simpl. now rewrite orb_false_r.
Qed.

Lemma linkAdded_between (g g' : Kotlin.Graph T) (s e : T) (w : Q) :
  linkAdded g g' s e w ->
  forall a b, edgeBetween g' a b = edgeBetween g a b || (keq a s && keq b e).
Proof.
  intros H a b. unfold edgeBetween.
  destruct (eq_dec a s) as [->|Ha].
  - rewrite (addedOut H), existsb_snoc, keq_refl. simpl.
    f_equal. unfold keq. destruct (eq_dec e b) as [->|Hn].
    + destruct (eq_dec b b); [reflexivity|contradiction].
    + destruct (eq_dec b e); [congruence|reflexivity].
  - rewrite (otherOut H) by assumption.
    assert (Hk : keq a s = false) by (apply keq_false; exact Ha).
    rewrite Hk. simpl. now rewrite orb_false_r.
Qed.

Lemma um_contains_names (V W : Type) (m : list (T * V)) (m' : list (T * W)) :
  map fst m' = map fst m -> forall k, um_contains m' k = um_contains m k.
Proof.
  intros H k. apply eq_true_iff_eq. rewrite !um_contains_In. now rewrite H.
Qed.

(** X7: a link that was created is directed and the only one from its
    start to its end: afterwards there is an edge from a node to
    another when there was one before or when the two are the start
    and the end of the new link, in this order; and a second call for
    the same start and end fails, whatever its weight, and leaves the
    graph as it is. *)
Theorem X7_link_is_directed_and_unique (g g' : graph T) (k k' : Kotlin.Graph T)
    (s e : T) (w w' : Q) :
  (create_link s e w g = (Normal tt, g') ->
   (forall a b, edge_between g' a b = edge_between g a b || (keq a s && keq b e)) /\
   exists ex, create_link s e w' g' = (Thrown ex, g')) /\
  (Kotlin.insertEdge s e w k = (Normal tt, k') ->
   (forall a b, edgeBetween k' a b = edgeBetween k a b || (keq a s && keq b e)) /\
   Kotlin.insertEdge s e w' k' =
     (Thrown (GraphEdgeError "An edge already exists"), k')).
Proof.
  split.
  - rewrite create_link_eq.
    destruct (um_contains (nodes g) s) eqn:Hs; [|simpl; discriminate].
    destruct (um_contains (nodes g) e) eqn:He; [|simpl; discriminate].
    simpl.
    destruct (Qle_bool w 0); [discriminate|].
    destruct (edge_between g s e) eqn:Hb; [discriminate|].
    intros [= <-].
    pose proof (create_link_added g s e w Hs He) as Hadd. cbv zeta in Hadd.
    pose proof (link_added_between Hadd) as Hbetween.
    split; [exact Hbetween|].
    rewrite create_link_eq.
    rewrite !(um_contains_names _ _ (same_names Hadd)).
    fold (node_names g) in *. unfold node_names.
    rewrite Hs, He. simpl.
    destruct (Qle_bool w' 0); [eexists; reflexivity|].
    rewrite Hbetween, !keq_refl, orb_true_r. eexists; reflexivity.
  - rewrite insertEdge_eq.
    destruct (um_contains (Kotlin.nodes k) s) eqn:Hs; [|simpl; discriminate].
    destruct (um_contains (Kotlin.nodes k) e) eqn:He; [|simpl; discriminate].
    simpl.
    destruct (edgeBetween k s e) eqn:Hb; [discriminate|].
    destruct (Qle_bool w 0); [discriminate|].
    intros [= <-].
    pose proof (edgeInserted_added k s e w Hs He) as Hadd.
    pose proof (linkAdded_between Hadd) as Hbetween.
    split; [exact Hbetween|].
    change (Kotlin.insertEdge s e w' (edgeInserted k s e w) =
            (Thrown (GraphEdgeError "An edge already exists"),
             edgeInserted k s e w)).
    rewrite insertEdge_eq.
    rewrite !(um_contains_names _ _ (sameNames Hadd)).
    rewrite Hs, He. simpl.
    rewrite Hbetween, !keq_refl, orb_true_r. reflexivity.
Qed.

Lemma build_app (G : Type) (calls calls' : list (M G unit)) (g : G) :
  build (calls ++ calls') g = build calls' (build calls g).
Proof. unfold build. apply fold_left_app. Qed.

Lemma run_call_wf (c : graph_call T) (g : graph T) :
  wf_graph g /\ wf_links g ->
  wf_graph (snd (run_call c g)) /\ wf_links (snd (run_call c g)).
Proof.
  intros [Hwf Hl]. destruct c as [n|s e w]; simpl; split.
  - now apply create_node_wf.
  - now apply create_node_wf_links.
  - now apply create_link_wf.
  - now apply create_link_wf_links.
Qed.

Lemma runCall_toGraph (c : graph_call T) (k : Kotlin.Graph T) :
  toGraph (snd (runCall c k)) = snd (run_call c (toGraph k)).
Proof.
  destruct c as [n|s e w]; simpl.
  - apply insertNode_toGraph.
  - apply insertEdge_toGraph.
Qed.

Lemma build_toGraph (calls : list (graph_call T)) : forall k : Kotlin.Graph T,
  toGraph (build (map runCall calls) k) = build (map run_call calls) (toGraph k).
Proof.
  induction calls as [|c calls IH]; intro k; simpl; [reflexivity|].
  unfold build in *. simpl. rewrite IH. now rewrite runCall_toGraph.
Qed.

Lemma build_calls_wf (calls : list (graph_call T)) : forall g : graph T,
  wf_graph g /\ wf_links g ->
  wf_graph (build (map run_call calls) g) /\
  wf_links (build (map run_call calls) g).
Proof.
  induction calls as [|c calls IH]; intros g H; simpl; [exact H|].
  unfold build in *. simpl. apply IH. now apply run_call_wf.
Qed.


(** X9: the same calls build the same graph in the two programs: the
    Kotlin graph, read field by field, is the C++ graph, though a
    failed call may fail with another error. *)
Theorem X9_same_calls_same_graph (calls : list (graph_call T)) :
  toGraph (build (map runCall calls) {| Kotlin.nodes := [] |}) =
  build (map run_call calls) empty_graph.
Proof. now rewrite build_toGraph. Qed.

End Building.

(** ** [makeGraphNodes] *)

Section MakeGraphNodes.

Context {T : Type} {T_eq_dec : EqDec T}.

Lemma for_each_insertNode (items : list T) : forall k : Kotlin.Graph T,
  NoDup (map fst (Kotlin.nodes k) ++ items) ->
  for_each Kotlin.insertNode items k =
  (Normal tt,
   {| Kotlin.nodes :=
        Kotlin.nodes k ++
        map (fun n => (n, {| Kotlin.name := n; Kotlin.outEdges := [];
                             Kotlin.inEdges := [] |})) items |}).
Proof.
  induction items as [|x items IH]; intros k Hnd; simpl.
  - rewrite app_nil_r. destruct k. reflexivity.
  - unfold bind. rewrite insertNode_eq.
    assert (Hx : ~ In x (map fst (Kotlin.nodes k))).
    { intro H. apply NoDup_remove_2 in Hnd. apply Hnd. apply in_or_app. now left. }
    assert (Hc : um_contains (Kotlin.nodes k) x = false).
    { destruct (um_contains (Kotlin.nodes k) x) eqn:E; [|reflexivity].
      apply um_contains_In in E. contradiction. }
    rewrite Hc, um_assign_keys_fresh by assumption.
    rewrite IH.
    + simpl. now rewrite <- app_assoc.
    + simpl. rewrite map_app. simpl. now rewrite <- app_assoc.
Qed.

Lemma for_each_insertNode_throws (items : list T) : forall k : Kotlin.Graph T,
  NoDup (map fst (Kotlin.nodes k)) ->
  ~ NoDup (map fst (Kotlin.nodes k) ++ items) ->
  fst (for_each Kotlin.insertNode items k) =
  Thrown (GraphKeyError "No duplicate keys allowed").
Proof.
  induction items as [|x items IH]; intros k Hk Hnd; simpl.
  - rewrite app_nil_r in Hnd. contradiction.
  - unfold bind. rewrite insertNode_eq.
    destruct (um_contains (Kotlin.nodes k) x) eqn:Hc; [reflexivity|].
    apply um_contains_false in Hc.
    rewrite um_assign_keys_fresh by assumption.
    apply IH; simpl; rewrite map_app; simpl.
    + eapply Permutation_NoDup; [apply Permutation_cons_append|].
      now constructor.
    + now rewrite <- app_assoc.
Qed.

(** X10: [makeGraphNodes] returns a graph when the names it is given
    are pairwise different, and then the graph iterates one node for
    each name, in the order given, each without edges; when a name
    comes twice it fails with the error of [insertNode]. *)
Theorem X10_makeGraphNodes_outcomes (items : list T) :
  (NoDup items ->
   exists graph,
     Kotlin.makeGraphNodes items = Normal graph /\
     Kotlin.iterator graph =
       map (fun n => {| Kotlin.name := n; Kotlin.outEdges := [];
                        Kotlin.inEdges := [] |}) items /\
     map fst (Kotlin.nodes graph) = items) /\
  (~ NoDup items ->
   Kotlin.makeGraphNodes items =
     Thrown (GraphKeyError "No duplicate keys allowed")).
Proof.
  unfold Kotlin.makeGraphNodes. split.
  - intro Hnd. rewrite for_each_insertNode by exact Hnd. simpl.
    eexists. split; [reflexivity|]. unfold Kotlin.iterator. simpl.
    rewrite !map_map. simpl. split; [reflexivity|apply map_id].
  - intro Hnd.
    pose proof (@for_each_insertNode_throws items {| Kotlin.nodes := [] |}
                  (NoDup_nil T) Hnd) as H.
    destruct (for_each Kotlin.insertNode items _) as [[u|ex] k']; simpl in H.
    + discriminate.
    + now injection H as ->.
Qed.

End MakeGraphNodes.

(** ** The distances of the Kotlin sequence *)

Section KotlinShortest.

Context {T : Type} {T_eq_dec : EqDec T}.

Lemma shortest_inv_ext (g : graph T) (s : T) (ws : list T)
    (st st' : T -> dijkstra_iteration_step T) (acc : list T) :
  (forall n, st n = st' n) ->
  shortest_inv g s ws st acc -> shortest_inv g s ws st' acc.
Proof.
  intros H [Inv Hrel Hsrc]. split.
  - now apply (@traversal_inv_ext _ _ g s ws st st' acc H).
  - intros p e Hp He. rewrite <- !H. now apply Hrel.
  - intros n Hn Hp. rewrite <- H in Hn, Hp. now apply Hsrc.
Qed.

Variable k : Kotlin.Graph T.
Variable s : T.
Hypothesis k_wf : wf_graph (toGraph k).
Hypothesis s_in : In s (map fst (Kotlin.nodes k)).

Lemma next_shortest (sq : Kotlin.PathSequence T) (acc : list T) (c : T) :
  resumed_shortest k s sq acc ->
  last_closest (fun n => Kotlin.distance (Kotlin.entries (Kotlin.resume sq) n))
               (Kotlin.workingSet (Kotlin.resume sq)) c ->
  is_huge (Kotlin.distance (Kotlin.entries (Kotlin.resume sq) c)) = false ->
  resumed_shortest k s
    {| Kotlin.workingSet :=
         ws_erase (Kotlin.workingSet (Kotlin.resume sq))
                  (Kotlin.node (Kotlin.entries (Kotlin.resume sq) c));
       Kotlin.entries := Kotlin.entries (Kotlin.resume sq);
       Kotlin.suspended := Some c;
       Kotlin.graphOf := Kotlin.graphOf (Kotlin.resume sq);
       Kotlin.selections := S (Kotlin.selections (Kotlin.resume sq)) |}
    (acc ++ [c]).
Proof.
  intros [Hg Inv] Hlast Hfin.
  assert (Hnode : Kotlin.node (Kotlin.entries (Kotlin.resume sq) c) = c)
    by (exact (inv_current (sh_inv Inv) c)).
  assert (Hs' : In s (node_names (toGraph k))) by (now rewrite names_toGraph).
  split; [simpl; now rewrite graphOf_resume|].
  rewrite workingSet_resume. cbn [Kotlin.workingSet].
  rewrite Hnode, graphOf_resume, Hg.
  eapply shortest_inv_ext;
    [|apply round_shortest; [exact k_wf|exact Inv| | |]].
  - intro n. cbv beta. symmetry.
    unfold Kotlin.resume at 1.
    cbn [Kotlin.suspended Kotlin.workingSet Kotlin.entries Kotlin.graphOf].
    rewrite Hnode, relax_sim, out_edges_toGraph. reflexivity.
  - eapply last_closest_In. exact Hlast.
  - intros n Hn. apply (last_closest_least Hlast n Hn).
  - exact Hfin.
Qed.

Lemma toList_shortest (F : nat) : forall (sq : Kotlin.PathSequence T) (acc : list T),
  resumed_shortest k s sq acc ->
  List.length (Kotlin.workingSet (Kotlin.resume sq)) < F ->
  exists rest ws st,
    shortest_inv (toGraph k) s ws st (acc ++ rest) /\
    (forall n, In n ws -> is_huge (distance (st n)) = true) /\
    map toStep (Kotlin.toList F sq) = map st rest /\
    (forall x, In x acc -> st x = toStep (Kotlin.entries (Kotlin.resume sq) x)).
Proof.
  induction F as [|F IH]; intros sq acc Hinv Hlen; [lia|].
  simpl.
  destruct (next_cases sq)
    as [[Hws Hnext]|[(c & Hlast & Hh & Hnext)|(c & Hlast & Hh & Hnext)]];
    rewrite Hnext.
  - exists [], (Kotlin.workingSet (Kotlin.resume sq)),
           (fun n => toStep (Kotlin.entries (Kotlin.resume sq) n)).
    rewrite app_nil_r. split; [exact (proj2 Hinv)|]. split; [|split].
    + intros n Hn. rewrite Hws in Hn. contradiction.
    + reflexivity.
    + reflexivity.
  - exists [], (Kotlin.workingSet (Kotlin.resume sq)),
           (fun n => toStep (Kotlin.entries (Kotlin.resume sq) n)).
    rewrite app_nil_r. split; [exact (proj2 Hinv)|]. split; [|split].
    + intros n Hn. simpl. now apply (huge_least_last Hlast Hh).
    + reflexivity.
    + reflexivity.
  - pose proof (next_shortest Hinv Hlast Hh) as Hinv1.
    set (sq1 := {| Kotlin.workingSet :=
                     ws_erase (Kotlin.workingSet (Kotlin.resume sq))
                              (Kotlin.node (Kotlin.entries (Kotlin.resume sq) c));
                   Kotlin.entries := Kotlin.entries (Kotlin.resume sq);
                   Kotlin.suspended := Some c;
                   Kotlin.graphOf := Kotlin.graphOf (Kotlin.resume sq);
                   Kotlin.selections := S (Kotlin.selections (Kotlin.resume sq)) |})
      in *.
    assert (Hnode : Kotlin.node (Kotlin.entries (Kotlin.resume sq) c) = c)
      by (exact (inv_current (sh_inv (proj2 Hinv)) c)).
    assert (Hws1 : Kotlin.workingSet (Kotlin.resume sq1) =
                   ws_erase (Kotlin.workingSet (Kotlin.resume sq)) c).
    { rewrite workingSet_resume. unfold sq1. simpl. now rewrite Hnode. }
    destruct (IH sq1 (acc ++ [c]) Hinv1) as (rest & ws & st & Hfin & Hhuge & Hrun & Hfr).
    { rewrite Hws1.
      pose proof (ws_erase_length _ _ (last_closest_In Hlast)). lia. }
    assert (Hout : forall x, In x (acc ++ [c]) ->
              Kotlin.entries (Kotlin.resume sq1) x =
              Kotlin.entries (Kotlin.resume sq) x).
    { intros x Hx. rewrite resume_frame; [reflexivity|].
      rewrite <- workingSet_resume.
      apply (NoDup_app_apart _ _ x (inv_nodup (sh_inv (proj2 Hinv1))) Hx). }
    exists (c :: rest), ws, st.
    split; [now rewrite <- app_assoc in Hfin|]. split; [exact Hhuge|]. split.
    + simpl. rewrite Hrun. f_equal.
      rewrite Hfr by (apply in_or_app; right; now left).
      rewrite Hout by (apply in_or_app; right; now left). reflexivity.
    + intros x Hx. rewrite Hfr by (apply in_or_app; now left).
      rewrite Hout by (apply in_or_app; now left). reflexivity.
Qed.

Lemma shortestPath_shortest :
  exists sq acc ws st,
    Kotlin.shortestPath k s = Normal sq /\
    map toStep (Kotlin.toList (S (List.length (Kotlin.nodes k))) sq) = map st acc /\
    shortest_inv (toGraph k) s ws st acc /\
    (forall n, In n ws -> is_huge (distance (st n)) = true).
Proof.
  destruct (@shortestPath_eq _ _ k s s_in) as (sq & Hsp & Hws & Hsus & Hg & _ & Hst).
  assert (Hres : Kotlin.resume sq = sq).
  { unfold Kotlin.resume. now rewrite Hsus. }
  assert (Hs' : In s (node_names (toGraph k))) by (now rewrite names_toGraph).
  assert (Hinv : resumed_shortest k s sq []).
  { split; [exact Hg|]. rewrite Hres, Hws.
    pose proof (@initial_shortest _ _ (toGraph k) s k_wf Hs') as Inv0.
    rewrite init_entry_ws in Inv0. cbn [fst app] in Inv0.
    change (map fst (nodes (toGraph k))) with (node_names (toGraph k)) in Inv0.
    rewrite names_toGraph in Inv0.
    eapply shortest_inv_ext; [|exact Inv0].
    intro n. cbv beta. rewrite Hst. now apply initial_steps. }
  destruct (@toList_shortest (S (List.length (Kotlin.nodes k))) sq [] Hinv)
    as (rest & ws & st & Hfin & Hhuge & Hrun & _).
  { rewrite Hres, Hws, length_map. lia. }
  exists sq, rest, ws, st. auto.
Qed.

End KotlinShortest.

(** ** Shortest distances in both programs *)

Section BothPrograms.

Context {T : Type} {T_eq_dec : EqDec T}.


Lemma first_only (st : T -> dijkstra_iteration_step T) (s : T)
    (ws acc : list T) (g : graph T) (i : nat) (n : T) :
  shortest_inv g s ws st acc -> nth_error acc i = Some n ->
  (previous (st n) = None <-> i = 0) /\ (n = s <-> i = 0).
Proof.
  intros Inv Hn.
  assert (Hin : In n acc) by (eapply nth_error_In; exact Hn).
  pose proof (inv_source (sh_inv Inv)) as H0.
  destruct acc as [|a acc0]; [contradiction|].
  destruct H0 as [-> Hst].
  assert (Hnd : NoDup (s :: acc0)).
  { eapply NoDup_app_remove_r. exact (inv_nodup (sh_inv Inv)). }
  assert (Hfirst : n = s <-> i = 0).
  { split.
    - intros ->. apply (proj1 (NoDup_nth_error (s :: acc0)) Hnd i 0).
      + apply nth_error_Some. congruence.
      + rewrite Hn. reflexivity.
    - intros ->. simpl in Hn. congruence. }
  split; [|exact Hfirst].
  split.
  - intro Hp. apply Hfirst. apply (sh_sourced Inv); [|exact Hp].
    now apply (inv_finite (sh_inv Inv)).
  - intro Hi. apply Hfirst in Hi. subst n. now rewrite Hst.
Qed.

(** X2: the step yielded first, the one of the source, is the only
    step yielded without a predecessor, in the C++ traversal and in
    the Kotlin sequence. *)
Theorem X2_only_source_without_predecessor (g : graph T) (k : Kotlin.Graph T)
    (s : T) (l : list (dijkstra_iteration_step T))
    (l' : list (Kotlin.PathEntry T)) (i : nat)
    (x : dijkstra_iteration_step T) (x' : Kotlin.PathEntry T) :
  (wf_graph g -> traverse g s = Normal l -> nth_error l i = Some x ->
   (previous x = None <-> i = 0) /\ (current x = s <-> i = 0)) /\
  (wf_graph (toGraph k) -> Kotlin.traversal k s = Normal l' ->
   nth_error l' i = Some x' ->
   (Kotlin.priorNode x' = None <-> i = 0) /\ (Kotlin.node x' = s <-> i = 0)).
Proof.
  split.
  - intros Hwf Hrun Hx.
    pose proof (traverse_source _ _ Hrun) as Hs.
    destruct (@traverse_shortest _ _ g s Hwf Hs) as (acc & ws & st & Hrun' & Inv & Hhuge).
    rewrite Hrun in Hrun'. injection Hrun' as ->.
    apply nth_error_map_inv in Hx. destruct Hx as (n & Hn & ->).
    rewrite (inv_current (sh_inv Inv)).
    eapply first_only; eassumption.
  - intros Hwf Hrun Hx.
    apply traversal_inversion in Hrun. destruct Hrun as (sq & Hsq & ->).
    destruct (shortestPath_node _ _ Hsq) as (Hs & _).
    destruct (@shortestPath_shortest _ _ k s Hwf Hs)
      as (sq' & acc & ws & st & Hsq' & Hrun & Inv & Hhuge).
    rewrite Hsq in Hsq'. injection Hsq' as <-.
    apply (map_nth_error toStep) in Hx. rewrite Hrun in Hx.
    apply nth_error_map_inv in Hx. destruct Hx as (n & Hn & Hxn).
    change (Kotlin.priorNode x') with (previous (toStep x')).
    change (Kotlin.node x') with (current (toStep x')).
    rewrite Hxn, (inv_current (sh_inv Inv)).
    eapply first_only; eassumption.
Qed.

(** X11: the two programs, run on graphs built by the same calls, yield
    the same nodes, in an order that may differ, and yield each node at
    the same distance. *)
Theorem X11_same_distances_in_both_programs (calls : list (graph_call T)) (s : T)
    (l : list (dijkstra_iteration_step T)) (l' : list (Kotlin.PathEntry T))
    (x : dijkstra_iteration_step T) (x' : Kotlin.PathEntry T) :
  traverse (build (map run_call calls) empty_graph) s = Normal l ->
  Kotlin.traversal (build (map runCall calls) {| Kotlin.nodes := [] |}) s
    = Normal l' ->
  Permutation (map (@current T) l) (map (@Kotlin.node T) l') /\
  (In x l -> In x' l' -> current x = Kotlin.node x' ->
   exists d d', distance x = Finite d /\ Kotlin.distance x' = Finite d' /\
                (d == d')%Q).
Proof.
  set (g := build (map run_call calls) empty_graph).
  set (k := build (map runCall calls) {| Kotlin.nodes := [] |}).
  intros Hrun Hrun'.
  assert (Hg : toGraph k = g) by (unfold k, g; now rewrite build_toGraph).
  assert (Hwf : wf_graph g).
  { apply build_calls_wf. split; [apply wf_empty_graph|apply wf_links_empty]. }
  pose proof (traverse_source _ _ Hrun) as Hs.
  apply traversal_inversion in Hrun'. destruct Hrun' as (sq & Hsq & ->).
  destruct (shortestPath_node _ _ Hsq) as (Hs' & _).
  assert (Hwf' : wf_graph (toGraph k)) by (now rewrite Hg).
  destruct (@traverse_shortest _ _ g s Hwf Hs) as (acc & ws & st & Hl & Inv & Hhuge).
  destruct (@shortestPath_shortest _ _ k s Hwf' Hs')
    as (sq' & acc' & ws' & st' & Hsq' & Hl' & Inv' & Hhuge').
  rewrite Hsq in Hsq'. injection Hsq' as <-.
  rewrite Hrun in Hl. injection Hl as ->.
  rewrite Hg in Inv'.
  rewrite (map_current _ _ (inv_current (sh_inv Inv))).
  rewrite (@map_node _ _ _ _ (inv_current (sh_inv Inv')) Hl').
  assert (Hsame : forall n, In n acc <-> In n acc').
  { intro n. split; intro Hn; apply In_nth_error in Hn; destruct Hn as [i Hi].
    - destruct (final_path Hs Inv i Hi) as (d & _ & Hp).
      now destruct (final_least Hwf Inv' Hhuge' Hp).
    - destruct (final_path Hs Inv' i Hi) as (d & _ & Hp).
      now destruct (final_least Hwf Inv Hhuge Hp). }
  split.
  - apply NoDup_Permutation; [| |exact Hsame].
    + eapply NoDup_app_remove_r. exact (inv_nodup (sh_inv Inv)).
    + eapply NoDup_app_remove_r. exact (inv_nodup (sh_inv Inv')).
  - intros Hx Hx' Hcur.
    apply in_map_iff in Hx. destruct Hx as (n & <- & Hn).
    apply (in_map toStep) in Hx'. rewrite Hl' in Hx'.
    apply in_map_iff in Hx'. destruct Hx' as (n' & Hxn & Hn').
    change (Kotlin.node x') with (current (toStep x')) in Hcur.
    change (Kotlin.distance x') with (distance (toStep x')).
    rewrite <- Hxn in *.
    rewrite (inv_current (sh_inv Inv)), (inv_current (sh_inv Inv')) in Hcur.
    subst n'.
    apply In_nth_error in Hn. destruct Hn as [i Hi].
    apply In_nth_error in Hn'. destruct Hn' as [i' Hi'].
    destruct (final_path Hs Inv i Hi) as (d & Hd & Hp).
    destruct (final_path Hs Inv' i' Hi') as (d' & Hd' & Hp').
    exists d, d'. split; [exact Hd|]. split; [exact Hd'|].
    apply Qle_antisym.
    + destruct (final_least Hwf Inv Hhuge Hp') as (_ & e & He & Hle).
      rewrite Hd in He. injection He as <-. exact Hle.
    + destruct (final_least Hwf Inv' Hhuge' Hp) as (_ & e & He & Hle).
      rewrite Hd' in He. injection He as <-. exact Hle.
Qed.

End BothPrograms.

(** ** The ring of the test *)

Section SortedNames.

(** A list of numbers without repetition, in ascending order, that
    holds the numbers from [a] on, as many as it is long, is the list
    of these numbers in a row. *)
Lemma ascending_seq (l : list nat) : forall a : nat,
  NoDup l ->
  (forall x, In x l <-> a <= x < a + List.length l) ->
  (forall i j x y, i <= j -> nth_error l i = Some x -> nth_error l j = Some y ->
                   x <= y) ->
  l = seq a (List.length l).
Proof.
  induction l as [|h t IH]; intros a Hnd Hin Hsort; [reflexivity|].
  simpl.
  assert (Hh : h = a).
  { assert (Ha : In a (h :: t)) by (apply Hin; simpl; lia).
    apply In_nth_error in Ha. destruct Ha as [j Hj].
    assert (h <= a) by (apply (Hsort 0 j h a); [lia|reflexivity|exact Hj]).
    assert (a <= h) by (apply Hin; now left).
    lia. }
  subst h. f_equal. inversion Hnd as [|? ? Hnotin Hnd']. subst.
  apply IH; [exact Hnd'| |].
  - intro x. split.
    + intro Hx. assert (x <> a) by (intros ->; contradiction).
      assert (a <= x < a + S (List.length t)) by (apply Hin; now right).
      lia.
    + intro Hx. assert (Hx' : In x (a :: t)) by (apply Hin; simpl; lia).
      destruct Hx' as [->|Hx']; [lia|exact Hx'].
  - intros i j x y Hij Hx Hy. apply (Hsort (S i) (S j) x y); [lia|exact Hx|exact Hy].
Qed.

Lemma Qnat_le (i j : nat) : (Qnat i <= Qnat j)%Q <-> i <= j.
Proof. unfold Qnat. rewrite <- Zle_Qle. lia. Qed.

Lemma Qnat_S (i : nat) : (Qnat (S i) == Qnat i + 1)%Q.
Proof.
  unfold Qnat, Qeq, Qplus, inject_Z. cbn [Qnum Qden]. lia.
Qed.

Lemma Qnat_eq (i j : nat) : (Qnat i == Qnat j)%Q -> i = j.
Proof.
  intro H. apply Nat.le_antisymm; apply Qnat_le; rewrite H; apply Qle_refl.
Qed.

(** A whole number of no more than 24 bits is a binary32 number. *)
Lemma float_of_int_small (z : Z) :
  (0 <= z < 2 ^ 24)%Z -> float_of_int z = z.
Proof.
  intros [H0 H1]. unfold float_of_int.
  destruct (Z.ltb_spec (Z.log2 z) 24) as [_|H]; [reflexivity|].
  exfalso. destruct (Z.eq_dec z 0) as [->|Hz]; [simpl in H; lia|].
  assert (Hlog : (Z.log2 z < 24)%Z) by (apply Z.log2_lt_pow2; lia).
  lia.
Qed.

(** Longer numbers are rounded: 2^24 + 1 to 2^24 and 2^24 + 3 to
    2^24 + 4, as the rounding of the Standard Library does. *)
Lemma float_of_int_rounds :
  float_of_int (2 ^ 24 + 1) = (2 ^ 24)%Z /\
  float_of_int (2 ^ 24 + 3) = (2 ^ 24 + 4)%Z /\
  binary_normalize 24 128 (2 ^ 24 + 1) 0 false = S754_finite false 8388608 1 /\
  binary_normalize 24 128 (2 ^ 24 + 3) 0 false = S754_finite false 8388610 1.
Proof. repeat split; vm_compute; reflexivity. Qed.

(** Below 2^24 the distance [i] is the distance the tests compare
    with. *)
Lemma float_distance (size i : nat) (d : Q) :
  (Z.of_nat size <= 2 ^ 24)%Z -> i < size ->
  (d == Qnat i)%Q -> (d == inject_Z (float_of_int (Z.of_nat i)))%Q.
Proof.
  intros Hsize Hi Hd. rewrite float_of_int_small by lia. exact Hd.
Qed.

End SortedNames.

Lemma ring_chain (size : nat) (g : graph nat) :
  ring_edges size g -> chain_edges size g.
Proof.
  intros H p e He. destruct (H p e He) as [Hl|[_ Hw]]; [now left|now right].
Qed.

Section RingTraversal.

Variable size : nat.
Variable g : graph nat.
Hypothesis size_pos : 1 <= size.
Hypothesis g_wf : wf_graph g.
Hypothesis g_names : forall x, In x (node_names g) <-> x < size.
Hypothesis g_ring : forall i, S i < size ->
  exists e, In e (out_edges_of g i) /\ end_ e = S i /\ (weight e == 1)%Q.
Hypothesis g_edges : chain_edges size g.

Lemma ring_path (i : nat) :
  i < size -> exists w, path g 0 i w /\ (w == Qnat i)%Q.
Proof.
  induction i as [|i IH]; intro Hi.
  - exists 0%Q. split; [apply path_source; apply g_names; lia|reflexivity].
  - destruct IH as (w & Hp & Hw); [lia|].
    destruct (g_ring Hi) as (e & He & Hend & Hwe).
    exists (w + weight e)%Q. split.
    + rewrite <- Hend. now apply path_edge with (p := i).
    + rewrite Hw, Hwe. symmetry. apply Qnat_S.
Qed.

Lemma ring_potential (x : nat) (w : Q) : path g 0 x w -> (Qnat x <= w)%Q.
Proof.
  induction 1 as [_|p e w Hp IH He].
  - apply Qle_refl.
  - assert (Hend : end_ e < size).
    { apply g_names. eapply (wf_end g_wf). exact He. }
    destruct (g_edges p e He) as [[Hring Hw]|Hw].
    + rewrite Hw.
      assert (Hle : end_ e <= S p).
      { rewrite Hring.
        destruct (Nat.eq_dec (p + 1) size) as [Heq|Hne].
        - rewrite Heq, Nat.Div0.mod_same. lia.
        - pose proof (Nat.Div0.mod_le (p + 1) size). lia. }
      apply Qnat_le in Hle. eapply Qle_trans; [exact Hle|].
      rewrite Qnat_S. apply Qplus_le_compat; [exact IH|apply Qle_refl].
    + assert (Hle : end_ e <= size) by lia.
      apply Qnat_le in Hle. eapply Qle_trans; [exact Hle|].
      eapply Qle_trans; [exact Hw|].
      rewrite <- (Qplus_0_l (weight e)) at 1.
      apply Qplus_le_compat; [|apply Qle_refl].
      eapply Qle_trans; [|exact IH].
      change 0%Q with (Qnat 0). apply Qnat_le. lia.
Qed.

Variable ws : list nat.
Variable st : nat -> dijkstra_iteration_step nat.
Variable acc : list nat.
Hypothesis Inv : shortest_inv g 0 ws st acc.
Hypothesis Hhuge : forall n, In n ws -> is_huge (distance (st n)) = true.

Lemma ring_source : In 0 (node_names g).
Proof. apply g_names. lia. Qed.

Lemma ring_distance (x : nat) :
  x < size ->
  In x acc /\ exists d, distance (st x) = Finite d /\ (d == Qnat x)%Q.
Proof.
  intro Hx. destruct (ring_path Hx) as (w & Hp & Hw).
  destruct (final_least g_wf Inv Hhuge Hp) as (Hin & d & Hd & Hle).
  split; [exact Hin|]. exists d. split; [exact Hd|].
  apply In_nth_error in Hin. destruct Hin as [i Hi].
  destruct (final_path ring_source Inv i Hi) as (d' & Hd' & Hp').
  rewrite Hd in Hd'. injection Hd' as <-.
  apply Qle_antisym.
  - now rewrite <- Hw.
  - now apply ring_potential.
Qed.

Lemma ring_selected (x : nat) : In x acc <-> x < size.
Proof.
  split.
  - intro Hx. apply g_names. apply (inv_nodes (sh_inv Inv)).
    apply in_or_app. now left.
  - intro Hx. now apply ring_distance.
Qed.

Lemma ring_length : List.length acc = size.
Proof.
  rewrite <- (length_seq size 0). apply Permutation_length.
  apply NoDup_Permutation.
  - eapply NoDup_app_remove_r. exact (inv_nodup (sh_inv Inv)).
  - apply seq_NoDup.
  - intro x. rewrite ring_selected, in_seq. lia.
Qed.

Lemma ring_order : acc = seq 0 size.
Proof.
  rewrite <- ring_length. apply ascending_seq.
  - eapply NoDup_app_remove_r. exact (inv_nodup (sh_inv Inv)).
  - intro x. rewrite ring_selected, ring_length. lia.
  - intros i j x y Hij Hx Hy.
    pose proof (inv_sorted (sh_inv Inv) Hij Hx Hy) as Hle.
    assert (Hxs : x < size) by (apply ring_selected; eapply nth_error_In; exact Hx).
    assert (Hys : y < size) by (apply ring_selected; eapply nth_error_In; exact Hy).
    destruct (ring_distance Hxs) as (_ & dx & Hdx & Hex).
    destruct (ring_distance Hys) as (_ & dy & Hdy & Hey).
    rewrite Hdx, Hdy in Hle. simpl in Hle. apply Qle_bool_iff in Hle.
    apply Qnat_le. now rewrite <- Hex, <- Hey.
Qed.

Lemma ring_previous (i : nat) :
  i < size -> previous (st i) = match i with 0 => None | S j => Some j end.
Proof.
  intro Hi.
  assert (Hn : nth_error acc i = Some i).
  { rewrite ring_order. rewrite nth_error_seq.
    destruct (Nat.ltb_spec i size); [reflexivity|lia]. }
  destruct (@first_only nat _ st 0 ws acc g i i Inv Hn) as [Hnone _].
  destruct i as [|j]; [now apply Hnone|].
  destruct (previous (st (S j))) as [p|] eqn:Hp.
  - destruct (inv_previous (sh_inv Inv) _ Hp) as (Hpin & e & He & Hend & Hd).
    assert (Hps : p < size) by (now apply ring_selected).
    destruct (ring_distance Hps) as (_ & dp & Hdp & Hep).
    destruct (ring_distance Hi) as (_ & d & Hdi & Hei).
    rewrite Hdi, Hdp in Hd. simpl in Hd. injection Hd as Hd.
    assert (Hsum : (Qnat (S j) == Qnat p + weight e)%Q).
    { rewrite <- Hei, <- Hep, Hd. reflexivity. }
    destruct (g_edges p e He) as [[Hring Hw]|Hw].
    + rewrite Hw, <- Qnat_S in Hsum. apply Qnat_eq in Hsum.
      now injection Hsum as ->.
    + exfalso.
      assert (Hlt : (Qnat (S j) < Qnat size)%Q).
      { unfold Qnat. rewrite <- Zlt_Qlt. lia. }
      assert (H0 : (0 <= Qnat p)%Q).
      { change 0%Q with (Qnat 0). apply Qnat_le. lia. }
      rewrite Hsum in Hlt.
      apply (Qlt_irrefl (Qnat size)).
      eapply Qle_lt_trans; [|exact Hlt].
      eapply Qle_trans; [exact Hw|].
      rewrite <- (Qplus_0_l (weight e)) at 1.
      apply Qplus_le_compat; [exact H0|apply Qle_refl].
  - assert (S j = 0) by (now apply Hnone). discriminate.
Qed.

End RingTraversal.

Section TestGraph.

Lemma create_node_out_edges (T : Type) (T_eq_dec : EqDec T) (g : graph T)
    (n p : T) (e : graph_edge T) :
  In e (out_edges_of (snd (create_node n g)) p) <-> In e (out_edges_of g p).
Proof.
  rewrite create_node_eq.
  destruct (um_contains (nodes g) n) eqn:Hc; simpl; [tauto|].
  apply um_contains_false in Hc.
  unfold out_edges_of. simpl.
  rewrite um_assign_keys_fresh, um_find_snoc by assumption.
  destruct (eq_dec p n) as [->|Hp]; [|tauto].
  apply um_find_None in Hc. rewrite Hc. simpl. tauto.
Qed.

Lemma create_node_names (T : Type) (T_eq_dec : EqDec T) (g : graph T) (n x : T) :
  In x (node_names (snd (create_node n g))) <-> In x (node_names g) \/ x = n.
Proof.
  rewrite create_node_eq.
  destruct (um_contains (nodes g) n) eqn:Hc; simpl.
  - apply um_contains_In in Hc. fold (node_names g) in Hc.
    split; [tauto|]. intros [H| ->]; assumption.
  - apply um_contains_false in Hc.
    rewrite um_assign_keys_fresh by assumption.
    unfold node_names. simpl. rewrite map_app, in_app_iff. simpl.
    split; [intros [H|[H|[]]]; auto|intros [H|H]; auto].
Qed.

Lemma create_link_names (T : Type) (T_eq_dec : EqDec T) (g : graph T)
    (s e : T) (w : Q) :
  node_names (snd (create_link s e w g)) = node_names g.
Proof.
  rewrite create_link_eq.
  destruct (um_contains (nodes g) s) eqn:Hs; [|reflexivity].
  destruct (um_contains (nodes g) e) eqn:He; [|reflexivity].
  simpl. destruct (Qle_bool w 0); [reflexivity|].
  destruct (edge_between g s e); [reflexivity|].
  exact (same_names (create_link_added g s e w Hs He)).
Qed.

(** What a call of [create_link] leaves in the out-edges. *)
Lemma create_link_out_edges (T : Type) (T_eq_dec : EqDec T) (g : graph T)
    (s e : T) (w : Q) (p : T) (x : graph_edge T) :
  In x (out_edges_of (snd (create_link s e w g)) p) ->
  In x (out_edges_of g p) \/
  (p = s /\ x = {| weight := w; start := s; end_ := e |}).
Proof.
  rewrite create_link_eq.
  destruct (um_contains (nodes g) s) eqn:Hs; [|now left].
  destruct (um_contains (nodes g) e) eqn:He; [|now left].
  simpl. destruct (Qle_bool w 0); [now left|].
  destruct (edge_between g s e); [now left|].
  pose proof (create_link_added g s e w Hs He) as Hadd. cbv zeta in Hadd.
  simpl. destruct (eq_dec p s) as [->|Hp].
  - rewrite (added_out Hadd), in_app_iff. simpl.
    intros [H|[H|[]]]; [now left|right; now split].
  - rewrite (other_out Hadd) by assumption. now left.
Qed.

Lemma create_link_keeps (T : Type) (T_eq_dec : EqDec T) (g : graph T)
    (s e : T) (w : Q) (p : T) (x : graph_edge T) :
  In x (out_edges_of g p) -> In x (out_edges_of (snd (create_link s e w g)) p).
Proof.
  rewrite create_link_eq.
  destruct (um_contains (nodes g) s) eqn:Hs; [|tauto].
  destruct (um_contains (nodes g) e) eqn:He; [|tauto].
  simpl. destruct (Qle_bool w 0); [tauto|].
  destruct (edge_between g s e); [tauto|].
  pose proof (create_link_added g s e w Hs He) as Hadd. cbv zeta in Hadd.
  simpl. destruct (eq_dec p s) as [->|Hp].
  - rewrite (added_out Hadd), in_app_iff. now left.
  - now rewrite (other_out Hadd) by assumption.
Qed.

Lemma run_call_keeps (c : graph_call nat) (g : graph nat) (p : nat)
    (x : graph_edge nat) :
  In x (out_edges_of g p) -> In x (out_edges_of (snd (run_call c g)) p).
Proof.
  destruct c as [n|s e w]; simpl.
  - apply create_node_out_edges.
  - apply create_link_keeps.
Qed.

Lemma run_call_names (c : graph_call nat) (g : graph nat) (x : nat) :
  In x (node_names g) -> In x (node_names (snd (run_call c g))).
Proof.
  destruct c as [n|s e w]; simpl.
  - intro H. apply create_node_names. now left.
  - now rewrite create_link_names.
Qed.

Lemma build_keeps (calls : list (graph_call nat)) : forall (g : graph nat)
    (p : nat) (x : graph_edge nat),
  In x (out_edges_of g p) ->
  In x (out_edges_of (build (map run_call calls) g) p).
Proof.
  induction calls as [|c calls IH]; intros g p x H; [exact H|].
  unfold build in *. simpl. apply IH. now apply run_call_keeps.
Qed.

Lemma build_names (calls : list (graph_call nat)) : forall (g : graph nat) (x : nat),
  In x (node_names g) -> In x (node_names (build (map run_call calls) g)).
Proof.
  induction calls as [|c calls IH]; intros g x H; [exact H|].
  unfold build in *. simpl. apply IH. now apply run_call_names.
Qed.

Variable size : nat.

Lemma run_call_ring (c : graph_call nat) (g : graph nat) :
  ring_call size c -> ring_edges size g -> ring_edges size (snd (run_call c g)).
Proof.
  intros Hc Hg p x Hx. destruct c as [n|s e w]; simpl in Hx.
  - apply create_node_out_edges in Hx. now apply Hg.
  - apply create_link_out_edges in Hx. destruct Hx as [Hx|[-> ->]].
    + now apply Hg.
    + simpl. destruct Hc as [[-> ->]|[Hne Hw]].
      * left. split; reflexivity.
      * right. now split.
Qed.

Lemma build_ring (calls : list (graph_call nat)) : forall g : graph nat,
  Forall (ring_call size) calls -> ring_edges size g ->
  ring_edges size (build (map run_call calls) g).
Proof.
  induction calls as [|c calls IH]; intros g Hc Hg; [exact Hg|].
  inversion Hc as [|? ? Hc1 Hc2]. subst.
  unfold build in *. simpl. apply IH; [exact Hc2|]. now apply run_call_ring.
Qed.

(** The nodes a list of calls may add. *)
Lemma build_names_only (calls : list (graph_call nat)) : forall (g : graph nat) (x : nat),
  In x (node_names (build (map run_call calls) g)) ->
  In x (node_names g) \/ In (CreateNode x) calls.
Proof.
  induction calls as [|c calls IH]; intros g x H; [now left|].
  unfold build in *. simpl in H. apply IH in H. destruct H as [H|H].
  - destruct c as [n|s e w]; simpl in H.
    + apply create_node_names in H. destruct H as [H| ->]; [now left|].
      right. now left.
    + rewrite create_link_names in H. now left.
  - right. now right.
Qed.

Lemma create_nodes_names (array : list nat) : forall (g : graph nat) (x : nat),
  In x array -> In x (node_names (build (map run_call (map CreateNode array)) g)).
Proof.
  induction array as [|a array IH]; intros g x Hx; [contradiction|].
  unfold build in *. simpl. destruct Hx as [->|Hx].
  - apply (build_names (map CreateNode array)). apply create_node_names. now right.
  - now apply IH.
Qed.

(** After the call that links a node of the ring to the next one the
    link is there, with the weight 1. *)
Lemma ring_link_there (g : graph nat) (a : nat) :
  ring_edges size g ->
  In a (node_names g) -> In ((a + 1) mod size) (node_names g) ->
  exists e,
    In e (out_edges_of (snd (create_link a ((a + 1) mod size) 1%Q g)) a) /\
    end_ e = (a + 1) mod size /\ (weight e == 1)%Q.
Proof.
  intros Hg Ha Hb. rewrite create_link_eq.
  apply um_contains_In in Ha, Hb. rewrite Ha, Hb. simpl.
  destruct (edge_between g a ((a + 1) mod size)) eqn:Hbetween.
  - unfold edge_between in Hbetween. apply existsb_exists in Hbetween.
    destruct Hbetween as (e & He & Hend). apply keq_true in Hend.
    exists e. split; [exact He|]. split; [exact Hend|].
    destruct (Hg a e He) as [[_ Hw]|[Hne _]]; [exact Hw|contradiction].
  - pose proof (create_link_added g a ((a + 1) mod size) 1%Q Ha Hb) as Hadd.
    cbv zeta in Hadd. simpl.
    exists {| weight := 1%Q; start := a; end_ := (a + 1) mod size |}.
    rewrite (added_out Hadd), in_app_iff. simpl.
    split; [right; now left|]. split; reflexivity.
Qed.

Lemma ring_links_there (array' : list nat) : forall (g : graph nat) (a : nat),
  ring_edges size g ->
  (forall x, x < size -> In x (node_names g)) ->
  1 <= size -> In a array' -> a < size ->
  exists e,
    In e (out_edges_of
            (build (map run_call
                      (map (fun a => CreateLink a ((a + 1) mod size) 1%Q) array')) g)
            a) /\
    end_ e = (a + 1) mod size /\ (weight e == 1)%Q.
Proof.
  induction array' as [|b array' IH]; intros g a Hg Hnames Hsize Ha Hlt;
    [contradiction|].
  unfold build in *. simpl.
  assert (Hg' : ring_edges size (snd (create_link b ((b + 1) mod size) 1%Q g))).
  { apply (run_call_ring (CreateLink b ((b + 1) mod size) 1%Q)); [|exact Hg].
    left. split; reflexivity. }
  assert (Hnames' : forall x, x < size ->
            In x (node_names (snd (create_link b ((b + 1) mod size) 1%Q g)))).
  { intros x Hx. rewrite create_link_names. now apply Hnames. }
  destruct (in_dec Nat.eq_dec a array') as [Hin|Hnin].
  - now apply IH.
  - destruct Ha as [->|Ha]; [|contradiction].
    destruct (@ring_link_there g a Hg) as (e & He & Hend & Hw).
    + now apply Hnames.
    + apply Hnames. apply Nat.mod_upper_bound. lia.
    + exists e. split; [|split; assumption].
      apply (build_keeps
               (map (fun a => CreateLink a ((a + 1) mod size) 1%Q) array')).
      exact He.
Qed.

Lemma heavy_calls_ring (w : Q) :
  (Qnat size <= w)%Q -> Forall (ring_call size) (heavy_calls size w).
Proof.
  intro Hw. apply Forall_forall. intros c Hc.
  unfold heavy_calls in Hc. apply in_flat_map in Hc.
  destruct Hc as (i & _ & Hc). apply in_flat_map in Hc.
  destruct Hc as (j & _ & Hc).
  destruct (Nat.eqb_spec ((i + 1) mod size) j) as [Heq|Hne]; [contradiction|].
  destruct Hc as [<-|[]]. simpl. right. split; [congruence|exact Hw].
Qed.

Lemma ring_calls_ring (array array' : list nat) :
  Forall (ring_call size) (ring_calls size array array').
Proof.
  unfold ring_calls. apply Forall_app. split; apply Forall_forall; intros c Hc;
    apply in_map_iff in Hc; destruct Hc as (a & <- & _); simpl; auto.
Qed.

(** X12: the assertions of [testGraph] hold however its shuffles come
    out, for every [size] up to 2^24.  With the nodes 0 to [size]-1
    created in any order and each linked to the next one with the
    weight 1, the links made in any order, the traversal from the node
    0 yields [size] steps, the [i]-th one for the node [i], at a
    distance equal to [float(i)] and with the node [i]-1 before it;
    and so it does after the links of a weight of [size] or more have
    been added between all the other pairs.  Beyond 2^24 the
    conversion [float(i)] rounds, and the distance [i] is no longer
    equal to it. *)
Theorem X12_testGraph_assertions_hold (array array' : list nat) (w : Q)
    (heavy : bool) :
  1 <= size -> (Z.of_nat size <= 2 ^ 24)%Z ->
  Permutation array (seq 0 size) -> Permutation array' (seq 0 size) ->
  (Qnat size <= w)%Q ->
  exists l,
    traverse
      (build (map run_call (ring_calls size array array' ++
                            if heavy then heavy_calls size w else []))
             empty_graph) 0 = Normal l /\
    List.length l = size /\
    forall i step, nth_error l i = Some step -> step_as_asserted i step.
Proof.
  intros Hsize Hfloat Harr Harr' Hw.
  set (rest := if heavy then heavy_calls size w else []).
  set (g := build (map run_call (ring_calls size array array' ++ rest)) empty_graph).
  assert (Hrest : Forall (ring_call size) rest).
  { unfold rest. destruct heavy; [now apply heavy_calls_ring|constructor]. }
  assert (Hwf : wf_graph g).
  { apply build_calls_wf. split; [apply wf_empty_graph|apply wf_links_empty]. }
  assert (Hedges : ring_edges size g).
  { apply build_ring.
    - apply Forall_app. split; [apply ring_calls_ring|exact Hrest].
    - intros p e He. unfold out_edges_of in He. simpl in He. contradiction. }
  assert (Hsplit : g = build (map run_call rest)
                     (build (map run_call
                               (map (fun a => CreateLink a ((a + 1) mod size) 1%Q)
                                    array'))
                        (build (map run_call (map CreateNode array)) empty_graph))).
  { unfold g, ring_calls. now rewrite !map_app, !build_app. }
  assert (Hnames : forall x, In x (node_names g) <-> x < size).
  { intro x. split.
    - intro Hx. apply build_names_only in Hx. destruct Hx as [Hx|Hx]; [contradiction|].
      apply in_app_or in Hx. destruct Hx as [Hx|Hx].
      + unfold ring_calls in Hx. apply in_app_or in Hx. destruct Hx as [Hx|Hx].
        * apply in_map_iff in Hx. destruct Hx as (a & [= ->] & Ha).
          apply (Permutation_in _ Harr) in Ha. apply in_seq in Ha. lia.
        * apply in_map_iff in Hx. destruct Hx as (a & Heq & _). discriminate.
      + unfold rest in Hx. destruct heavy; [|contradiction].
        unfold heavy_calls in Hx. apply in_flat_map in Hx.
        destruct Hx as (i & _ & Hx). apply in_flat_map in Hx.
        destruct Hx as (j & _ & Hx).
        destruct ((i + 1) mod size =? j); [contradiction|].
        destruct Hx as [Hx|[]]. discriminate.
    - intro Hx. rewrite Hsplit. apply build_names. apply build_names.
      apply create_nodes_names.
      apply (Permutation_in _ (Permutation_sym Harr)). apply in_seq. lia. }
  assert (Hring : forall i, S i < size ->
            exists e, In e (out_edges_of g i) /\ end_ e = S i /\ (weight e == 1)%Q).
  { intros i Hi.
    destruct (@ring_links_there array'
                (build (map run_call (map CreateNode array)) empty_graph) i)
      as (e & He & Hend & Hwe).
    - apply build_ring.
      + apply Forall_forall. intros c Hc. apply in_map_iff in Hc.
        destruct Hc as (a & <- & _). exact I.
      + intros p e He. unfold out_edges_of in He. simpl in He. contradiction.
    - intros x Hx. apply create_nodes_names.
      apply (Permutation_in _ (Permutation_sym Harr)). apply in_seq. lia.
    - exact Hsize.
    - apply (Permutation_in _ (Permutation_sym Harr')). apply in_seq. lia.
    - lia.
    - exists e. split; [|split].
      + rewrite Hsplit. now apply build_keeps.
      + rewrite Hend. replace (i + 1) with (S i) by lia.
        apply Nat.mod_small. exact Hi.
      + exact Hwe. }
  assert (Hs : In 0 (node_names g)) by (apply Hnames; lia).
  destruct (@traverse_shortest _ _ g 0 Hwf Hs) as (acc & ws & st & Hrun & Inv & Hhuge).
  exists (map st acc). split; [exact Hrun|].
  pose proof (@ring_order size g Hsize Hwf Hnames Hring (ring_chain Hedges)
                ws st acc Inv Hhuge)
    as Horder.
  split.
  - rewrite length_map, Horder. apply length_seq.
  - intros i step Hstep.
    apply nth_error_map_inv in Hstep. destruct Hstep as (n & Hn & ->).
    rewrite Horder, nth_error_seq in Hn.
    destruct (Nat.ltb_spec i size) as [Hi|Hi]; [|discriminate].
    injection Hn as <-. simpl.
    split; [apply (inv_current (sh_inv Inv))|]. split.
    + destruct (@ring_distance size g Hsize Hwf Hnames Hring (ring_chain Hedges)
                  ws st acc Inv Hhuge i Hi) as (_ & d & Hd & Hdi).
      exists d. split; [exact Hd|]. now apply float_distance with (size := size).
    + exact (@ring_previous size g Hsize Hwf Hnames Hring (ring_chain Hedges)
               ws st acc Inv Hhuge i Hi).
Qed.

End TestGraph.

(** ** The statements at the test graphs *)


Lemma X2_witness :
  ((previous {| current := 1; distance := Finite 1%Q; previous := Some 0 |} = None
    <-> 1 = 0) /\
   (current {| current := 1; distance := Finite 1%Q; previous := Some 0 |} = 0
    <-> 1 = 0)) /\
  ((Kotlin.priorNode {| Kotlin.node := 0; Kotlin.distance := Finite 0%Q;
                        Kotlin.priorNode := None |} = None <-> 0 = 0) /\
   (Kotlin.node {| Kotlin.node := 0; Kotlin.distance := Finite 0%Q;
                   Kotlin.priorNode := None |} = 0 <-> 0 = 0)).
Proof.
  split.
  - apply (proj1 (X2_only_source_without_predecessor ring_graph forkGraph 0
                    [ {| current := 0; distance := Finite 0%Q; previous := None |};
                      {| current := 1; distance := Finite 1%Q; previous := Some 0 |};
                      {| current := 2; distance := Finite 2%Q; previous := Some 1 |} ]
                    [] 1 _
                    {| Kotlin.node := 0; Kotlin.distance := HUGE_VAL;
                       Kotlin.priorNode := None |})).
    + exact ring_graph_wf.
    + vm_compute. reflexivity.
    + reflexivity.
  - apply (proj2 (X2_only_source_without_predecessor ring_graph forkGraph 0 []
                    [ {| Kotlin.node := 0; Kotlin.distance := Finite 0%Q;
                         Kotlin.priorNode := None |};
                      {| Kotlin.node := 2; Kotlin.distance := Finite 1%Q;
                         Kotlin.priorNode := Some 0 |};
                      {| Kotlin.node := 1; Kotlin.distance := Finite 1%Q;
                         Kotlin.priorNode := Some 0 |} ]
                    0
                    {| current := 0; distance := HUGE_VAL; previous := None |} _)).
    + exact forkGraph_wf.
    + vm_compute. reflexivity.
    + reflexivity.
Defined.

Lemma fork_shuffled_edges (p : nat) (e : graph_edge nat) :
  In e (out_edges_of (build (map run_call fork_calls) empty_graph) p) <->
  In e (out_edges_of (build (map run_call fork_calls_shuffled) empty_graph) p).
Proof.
  unfold out_edges_of.
  let l := eval vm_compute in (nodes (build (map run_call fork_calls) empty_graph)) in
  change (nodes (build (map run_call fork_calls) empty_graph)) with l.
  let l := eval vm_compute in
             (nodes (build (map run_call fork_calls_shuffled) empty_graph)) in
  change (nodes (build (map run_call fork_calls_shuffled) empty_graph)) with l.
  cbn [um_find].
  destruct (eq_dec p 0); [|destruct (eq_dec p 1); [|destruct (eq_dec p 2)]];
    subst; simpl; tauto.
Qed.

Lemma X3_witness :
  (forall n,
     In n (map (@current nat)
             [ {| current := 0; distance := Finite 0%Q; previous := None |};
               {| current := 1; distance := Finite 1%Q; previous := Some 0 |};
               {| current := 2; distance := Finite 1%Q; previous := Some 0 |} ]) <->
     In n (map (@current nat)
             [ {| current := 0; distance := Finite 0%Q; previous := None |};
               {| current := 2; distance := Finite 1%Q; previous := Some 0 |};
               {| current := 1; distance := Finite 1%Q; previous := Some 0 |} ])) /\
  (In {| current := 1; distance := Finite 1%Q; previous := Some 0 |}
      [ {| current := 0; distance := Finite 0%Q; previous := None |};
        {| current := 1; distance := Finite 1%Q; previous := Some 0 |};
        {| current := 2; distance := Finite 1%Q; previous := Some 0 |} ] ->
   In {| current := 1; distance := Finite 1%Q; previous := Some 0 |}
      [ {| current := 0; distance := Finite 0%Q; previous := None |};
        {| current := 2; distance := Finite 1%Q; previous := Some 0 |};
        {| current := 1; distance := Finite 1%Q; previous := Some 0 |} ] ->
   current {| current := 1; distance := Finite 1%Q; previous := Some 0 |} =
   current {| current := 1; distance := Finite 1%Q; previous := Some 0 |} ->
   exists d d',
     distance {| current := 1; distance := Finite 1%Q; previous := Some 0 |}
       = Finite d /\
     distance {| current := 1; distance := Finite 1%Q; previous := Some 0 |}
       = Finite d' /\ (d == d')%Q).
Proof.
  apply X3_distances_independent_of_order
    with (g := build (map run_call fork_calls) empty_graph)
         (g' := build (map run_call fork_calls_shuffled) empty_graph)
         (s := 0).
  - apply build_calls_wf. split; [apply wf_empty_graph|apply wf_links_empty].
  - apply build_calls_wf. split; [apply wf_empty_graph|apply wf_links_empty].
  - intro n. vm_compute. tauto.
  - exact fork_shuffled_edges.
  - vm_compute. reflexivity.
  - vm_compute. reflexivity.
Defined.

Lemma X4_witness :
  not_at_end (advance 3 (incr (advance 2 fork_iterator))) = false /\
  deref (advance 3 (incr (advance 2 fork_iterator))) = None /\
  steps (advance 3 (incr (advance 2 fork_iterator))) =
    steps (incr (advance 2 fork_iterator)).
Proof.
  apply X4_end_is_absorbing. vm_compute. reflexivity.
Defined.

Lemma X5_witness : not_at_end (advance 3 fork_iterator) = false.
Proof.
  apply (X5_loop_ends_within_node_count
           {| traversal_graph := fork_graph; traversal_start := 0 |}).
  - vm_compute. reflexivity.
  - vm_compute. lia.
Defined.

Lemma X6_witness :
  create_node 0 ring_graph =
    (Thrown (domain_error "Node already exists"), ring_graph) /\
  (fst (create_node 9 ring_graph) = Normal tt /\
   forall m, um_find (nodes (snd (create_node 9 ring_graph))) m =
             if eq_dec m 9
             then Some {| name := 9; out_edges := []; in_edges := [] |}
             else um_find (nodes ring_graph) m) /\
  Kotlin.insertNode 0 forkGraph =
    (Thrown (GraphKeyError "No duplicate keys allowed"), forkGraph) /\
  (fst (Kotlin.insertNode 9 forkGraph) = Normal tt /\
   Kotlin.iterator (snd (Kotlin.insertNode 9 forkGraph)) =
     Kotlin.iterator forkGraph ++
     [{| Kotlin.name := 9; Kotlin.outEdges := []; Kotlin.inEdges := [] |}] /\
   map fst (Kotlin.nodes (snd (Kotlin.insertNode 9 forkGraph))) =
     map fst (Kotlin.nodes forkGraph) ++ [9]).
Proof.
  split; [|split; [|split]].
  - apply (proj1 (X6_create_node_outcomes ring_graph forkGraph 0)). reflexivity.
  - apply (proj1 (proj2 (X6_create_node_outcomes ring_graph forkGraph 9))).
    reflexivity.
  - apply (proj1 (proj2 (proj2 (X6_create_node_outcomes ring_graph forkGraph 0)))).
    reflexivity.
  - apply (proj2 (proj2 (proj2 (X6_create_node_outcomes ring_graph forkGraph 9)))).
    reflexivity.
Defined.

Lemma X7_witness :
  ((forall a b,
      edge_between (snd (create_link 1 2 1%Q fork_graph)) a b =
      edge_between fork_graph a b || (keq a 1 && keq b 2)) /\
   exists ex,
     create_link 1 2 (3 # 1)%Q (snd (create_link 1 2 1%Q fork_graph)) =
     (Thrown ex, snd (create_link 1 2 1%Q fork_graph))) /\
  ((forall a b,
      edgeBetween (snd (Kotlin.insertEdge 1 2 1%Q forkGraph)) a b =
      edgeBetween forkGraph a b || (keq a 1 && keq b 2)) /\
   Kotlin.insertEdge 1 2 (3 # 1)%Q (snd (Kotlin.insertEdge 1 2 1%Q forkGraph)) =
     (Thrown (GraphEdgeError "An edge already exists"),
      snd (Kotlin.insertEdge 1 2 1%Q forkGraph))).
Proof.
  split.
  - apply (proj1 (X7_link_is_directed_and_unique
                    fork_graph (snd (create_link 1 2 1%Q fork_graph))
                    forkGraph forkGraph 1 2 1%Q (3 # 1)%Q)).
    vm_compute. reflexivity.
  - apply (proj2 (X7_link_is_directed_and_unique
                    fork_graph fork_graph
                    forkGraph (snd (Kotlin.insertEdge 1 2 1%Q forkGraph))
                    1 2 1%Q (3 # 1)%Q)).
    vm_compute. reflexivity.
Defined.

Lemma X10_witness :
  (exists graph,
     Kotlin.makeGraphNodes [1; 2; 3] = Normal graph /\
     Kotlin.iterator graph =
       map (fun n => {| Kotlin.name := n; Kotlin.outEdges := [];
                        Kotlin.inEdges := [] |}) [1; 2; 3] /\
     map fst (Kotlin.nodes graph) = [1; 2; 3]) /\
  Kotlin.makeGraphNodes [1; 2; 1] =
    Thrown (GraphKeyError "No duplicate keys allowed").
Proof.
  split.
  - apply (proj1 (X10_makeGraphNodes_outcomes [1; 2; 3])).
    repeat constructor; simpl; intuition discriminate.
  - apply (proj2 (X10_makeGraphNodes_outcomes [1; 2; 1])).
    intro H. inversion H as [|? ? Hnotin _]. apply Hnotin. simpl. auto.
Defined.

Lemma X11_witness :
  Permutation
    (map (@current nat)
       [ {| current := 0; distance := Finite 0%Q; previous := None |};
         {| current := 1; distance := Finite 1%Q; previous := Some 0 |};
         {| current := 2; distance := Finite 1%Q; previous := Some 0 |} ])
    (map (@Kotlin.node nat)
       [ {| Kotlin.node := 0; Kotlin.distance := Finite 0%Q;
            Kotlin.priorNode := None |};
         {| Kotlin.node := 2; Kotlin.distance := Finite 1%Q;
            Kotlin.priorNode := Some 0 |};
         {| Kotlin.node := 1; Kotlin.distance := Finite 1%Q;
            Kotlin.priorNode := Some 0 |} ]) /\
  (In {| current := 2; distance := Finite 1%Q; previous := Some 0 |}
      [ {| current := 0; distance := Finite 0%Q; previous := None |};
        {| current := 1; distance := Finite 1%Q; previous := Some 0 |};
        {| current := 2; distance := Finite 1%Q; previous := Some 0 |} ] ->
   In {| Kotlin.node := 2; Kotlin.distance := Finite 1%Q;
         Kotlin.priorNode := Some 0 |}
      [ {| Kotlin.node := 0; Kotlin.distance := Finite 0%Q;
           Kotlin.priorNode := None |};
        {| Kotlin.node := 2; Kotlin.distance := Finite 1%Q;
           Kotlin.priorNode := Some 0 |};
        {| Kotlin.node := 1; Kotlin.distance := Finite 1%Q;
           Kotlin.priorNode := Some 0 |} ] ->
   current {| current := 2; distance := Finite 1%Q; previous := Some 0 |} =
   Kotlin.node {| Kotlin.node := 2; Kotlin.distance := Finite 1%Q;
                  Kotlin.priorNode := Some 0 |} ->
   exists d d',
     distance {| current := 2; distance := Finite 1%Q; previous := Some 0 |}
       = Finite d /\
     Kotlin.distance {| Kotlin.node := 2; Kotlin.distance := Finite 1%Q;
                        Kotlin.priorNode := Some 0 |} = Finite d' /\
     (d == d')%Q).
Proof.
  apply (X11_same_distances_in_both_programs fork_calls 0).
  - vm_compute. reflexivity.
  - vm_compute. reflexivity.
Defined.

Lemma X12_witness :
  exists l,
    traverse
      (build (map run_call (ring_calls 3 [2; 0; 1] [1; 2; 0] ++
                            if true then heavy_calls 3 (4 # 1)%Q else []))
             empty_graph) 0 = Normal l /\
    List.length l = 3 /\
    forall i step, nth_error l i = Some step -> step_as_asserted i step.
Proof.
  apply (@X12_testGraph_assertions_hold 3 [2; 0; 1] [1; 2; 0] (4 # 1)%Q true).
  - lia.
  - simpl. lia.
  - simpl. apply Permutation_sym.
    apply perm_trans with (l' := [0; 2; 1]).
    + apply perm_skip. apply perm_swap.
    + apply perm_swap.
  - simpl. apply Permutation_sym.
    apply perm_trans with (l' := [1; 0; 2]).
    + apply perm_swap.
    + apply perm_skip. apply perm_swap.
  - unfold Qnat, Qle. simpl. lia.
Defined.

(** ** What an increment writes *)

Section Lowering.

Context {T : Type} {T_eq_dec : EqDec T}.

(** X13: an increment never raises a distance and never changes the
    node of a step: a step it writes to gets a smaller distance, and
    the node the increment has selected as its predecessor.  So it is
    for the C++ iterator and, at the pull after a yield, for the
    entries of the Kotlin sequence. *)
Theorem X13_increment_only_lowers (it : dijkstra_traversal_iterator T)
    (sq : Kotlin.PathSequence T) (n : T) :
  ((forall m, current (steps it m) = m) ->
   current (steps (incr it) n) = n /\
   (steps (incr it) n = steps it n \/
    (dlt (distance (steps (incr it) n)) (distance (steps it n)) = true /\
     previous (steps (incr it) n) = deref (incr it) /\
     deref (incr it) <> None))) /\
  ((forall m, Kotlin.node (Kotlin.entries sq m) = m) ->
   Kotlin.node (Kotlin.entries (snd (Kotlin.next (snd (Kotlin.next sq)))) n) = n /\
   (Kotlin.entries (snd (Kotlin.next (snd (Kotlin.next sq)))) n =
      Kotlin.entries (snd (Kotlin.next sq)) n \/
    (dlt (Kotlin.distance
            (Kotlin.entries (snd (Kotlin.next (snd (Kotlin.next sq)))) n))
         (Kotlin.distance (Kotlin.entries (snd (Kotlin.next sq)) n)) = true /\
     Kotlin.priorNode
       (Kotlin.entries (snd (Kotlin.next (snd (Kotlin.next sq)))) n) =
       fst (Kotlin.next sq) /\
     fst (Kotlin.next sq) <> None))).
Proof.
  split.
  - intro Hc. unfold incr, deref. split; [now apply iter_current|].
    destruct (iter_cases it) as [[_ ->]|[(c & _ & _ & ->)|(c & Hf & _ & ->)]];
      cbn [steps current_node]; [now left|now left|].
    rewrite Hc.
    assert (Hc' : ~ In c (ws_erase (working_set it) c)).
    { intro H. apply ws_erase_In in H. tauto. }
    destruct (relax_cases _ c Hc' (out_edges_of (working_graph it) c) (steps it) n)
      as [Heq|(e & _ & _ & _ & Hlt & _ & Hprev)].
    + now left.
    + right. split; [exact Hlt|]. split; [|discriminate].
      now rewrite Hprev, Hc.
  - intro Hc.
    pose proof (next_node sq Hc) as Hc1.
    split; [now apply next_node|].
    rewrite (next_entries (snd (Kotlin.next sq))).
    destruct (fst (Kotlin.next sq)) as [c|] eqn:Hfst.
    + destruct (next_yield sq Hc Hfst) as (_ & Hws & _).
      assert (Hsus : Kotlin.suspended (snd (Kotlin.next sq)) = Some c).
      { destruct (next_cases sq) as [[_ Hn]|[(c' & _ & _ & Hn)|(c' & _ & _ & Hn)]];
          rewrite Hn in Hfst |- *; simpl in Hfst |- *; congruence. }
      unfold Kotlin.resume. rewrite Hsus. cbn [Kotlin.entries].
      rewrite Hc1, Hws.
      assert (Hc' : ~ In c (ws_erase (Kotlin.workingSet sq) c)).
      { intro H. apply ws_erase_In in H. tauto. }
      set (es := Kotlin.outEdgesOf (Kotlin.graphOf (snd (Kotlin.next sq))) c).
      set (st := Kotlin.entries (snd (Kotlin.next sq))).
      pose proof (relax_sim (ws_erase (Kotlin.workingSet sq) c) c es st n) as Hsim.
      destruct (relax_cases _ c Hc' (map toEdge es) (fun m => toStep (st m)) n)
        as [Heq|(e & _ & _ & _ & Hlt & _ & Hprev)].
      * left. rewrite Heq in Hsim.
        pose proof (relaxEdges_node (ws_erase (Kotlin.workingSet sq) c) c es st Hc1 n)
          as Hnode.
        destruct (fold_left _ es st n) as [a b d] eqn:E.
        unfold toStep in Hsim. simpl in Hsim, Hnode.
        destruct (st n) as [a' b' d'] eqn:E'. simpl in Hsim.
        injection Hsim as -> -> ->. reflexivity.
      * right. rewrite <- Hsim in Hlt, Hprev. simpl in Hlt, Hprev.
        split; [exact Hlt|]. split; [|discriminate].
        rewrite Hprev. unfold st. now rewrite Hc1.
    + left.
      assert (Hsus : Kotlin.suspended (snd (Kotlin.next sq)) = None).
      { destruct (next_cases sq) as [[_ Hn]|[(c' & _ & _ & Hn)|(c' & _ & _ & Hn)]];
          rewrite Hn in Hfst |- *; simpl in Hfst |- *; try congruence.
        unfold Kotlin.resume. destruct (Kotlin.suspended sq) eqn:E; [reflexivity|exact E]. }
      unfold Kotlin.resume. now rewrite Hsus.
Qed.

End Lowering.

Lemma X13_witness :
  (current (steps (incr fork_iterator) 2) = 2 /\
   (steps (incr fork_iterator) 2 = steps fork_iterator 2 \/
    (dlt (distance (steps (incr fork_iterator) 2))
         (distance (steps fork_iterator 2)) = true /\
     previous (steps (incr fork_iterator) 2) = deref (incr fork_iterator) /\
     deref (incr fork_iterator) <> None))) /\
  (Kotlin.node (Kotlin.entries (snd (Kotlin.next (snd (Kotlin.next forkStart)))) 2) = 2 /\
   (Kotlin.entries (snd (Kotlin.next (snd (Kotlin.next forkStart)))) 2 =
      Kotlin.entries (snd (Kotlin.next forkStart)) 2 \/
    (dlt (Kotlin.distance
            (Kotlin.entries (snd (Kotlin.next (snd (Kotlin.next forkStart)))) 2))
         (Kotlin.distance (Kotlin.entries (snd (Kotlin.next forkStart)) 2)) = true /\
     Kotlin.priorNode
       (Kotlin.entries (snd (Kotlin.next (snd (Kotlin.next forkStart)))) 2) =
       fst (Kotlin.next forkStart) /\
     fst (Kotlin.next forkStart) <> None))).
Proof.
  split.
  - apply (proj1 (X13_increment_only_lowers fork_iterator forkStart 2)).
    intro m. apply (begin_current
                      {| traversal_graph := fork_graph; traversal_start := 0 |}).
    vm_compute. reflexivity.
  - apply (proj2 (X13_increment_only_lowers fork_iterator forkStart 2)).
    intro m.
    apply (@shortestPath_node nat _ forkGraph 0 forkStart). vm_compute. reflexivity.
Defined.

(** ** The destructor of the header Graph.h *)

Section HeaderTeardown.

Import GraphH.

Context {T : Type} {T_eq_dec : EqDec T}.

Lemma um_find_update (V : Type) (m : list (T * V)) (k n : T) (f : V -> V) :
  um_find (um_update m k f) n =
  if eq_dec n k then option_map f (um_find m n) else um_find m n.
Proof.
  destruct (eq_dec n k) as [->|Hn].
  - apply um_find_update_same.
  - now apply um_find_update_other.
Qed.

Lemma out_erase_in (m : graph T) (k n : T) (e : graph_edge T) :
  out_edges_of (erase_in k e m) n = out_edges_of m n.
Proof.
  unfold out_edges_of, erase_in. simpl. rewrite um_find_update.
  destruct (eq_dec n k); [|reflexivity]. destruct (um_find (nodes m) n); reflexivity.
Qed.

Lemma in_erase_in (m : graph T) (k n : T) (e : graph_edge T) :
  in_edges_of (erase_in k e m) n =
  if eq_dec n k then remove eq_dec e (in_edges_of m n) else in_edges_of m n.
Proof.
  unfold in_edges_of, erase_in. simpl. rewrite um_find_update.
  destruct (eq_dec n k); [|reflexivity]. destruct (um_find (nodes m) n); reflexivity.
Qed.

Lemma out_erase_out (m : graph T) (k n : T) (e : graph_edge T) :
  out_edges_of (erase_out k e m) n =
  if eq_dec n k then remove eq_dec e (out_edges_of m n) else out_edges_of m n.
Proof.
  unfold out_edges_of, erase_out. simpl. rewrite um_find_update.
  destruct (eq_dec n k); [|reflexivity]. destruct (um_find (nodes m) n); reflexivity.
Qed.

Lemma in_erase_out (m : graph T) (k n : T) (e : graph_edge T) :
  in_edges_of (erase_out k e m) n = in_edges_of m n.
Proof.
  unfold in_edges_of, erase_out. simpl. rewrite um_find_update.
  destruct (eq_dec n k); [|reflexivity]. destruct (um_find (nodes m) n); reflexivity.
Qed.

Lemma out_clear_in (m : graph T) (k n : T) :
  out_edges_of (clear_in k m) n = out_edges_of m n.
Proof.
  unfold out_edges_of, clear_in. simpl. rewrite um_find_update.
  destruct (eq_dec n k); [|reflexivity]. destruct (um_find (nodes m) n); reflexivity.
Qed.

Lemma in_clear_in (m : graph T) (k n : T) :
  in_edges_of (clear_in k m) n = if eq_dec n k then [] else in_edges_of m n.
Proof.
  unfold in_edges_of, clear_in. simpl. rewrite um_find_update.
  destruct (eq_dec n k); [|reflexivity]. destruct (um_find (nodes m) n); reflexivity.
Qed.

Lemma out_clear_out (m : graph T) (k n : T) :
  out_edges_of (clear_out k m) n = if eq_dec n k then [] else out_edges_of m n.
Proof.
  unfold out_edges_of, clear_out. simpl. rewrite um_find_update.
  destruct (eq_dec n k); [|reflexivity]. destruct (um_find (nodes m) n); reflexivity.
Qed.

Lemma in_clear_out (m : graph T) (k n : T) :
  in_edges_of (clear_out k m) n = in_edges_of m n.
Proof.
  unfold in_edges_of, clear_out. simpl. rewrite um_find_update.
  destruct (eq_dec n k); [|reflexivity]. destruct (um_find (nodes m) n); reflexivity.
Qed.

Lemma filter_some (A : Type) (f : A -> bool) (l : list A) (x : A) :
  In x l -> f x = true -> 1 <= List.length (filter f l).
Proof.
  intros Hin Hf.
  assert (H : In x (filter f l)) by (apply filter_In; now split).
  destruct (filter f l); [contradiction|simpl; lia].
Qed.

(** Taking one element out of those a filter keeps. *)
Lemma filter_kill (A : Type) (dec : forall x y : A, {x = y} + {x <> y})
    (f f' : A -> bool) (l : list A) (e : A) :
  NoDup l -> (forall x, x <> e -> f' x = f x) -> f e = true -> f' e = false ->
  List.length (filter f l) =
  List.length (filter f' l) + (if in_dec dec e l then 1 else 0).
Proof.
  intros Hnd Hsame He He'. induction l as [|x l IH]; [reflexivity|].
  inversion Hnd as [|? ? Hnotin Hnd']. subst. specialize (IH Hnd').
  simpl. destruct (dec x e) as [->|Hx].
  - rewrite He, He'. simpl.
    destruct (in_dec dec e l) as [Hin|_]; [contradiction|]. lia.
  - rewrite (Hsame x Hx).
    destruct (in_dec dec e l) as [Hin|Hnin]; destruct (f x); simpl; lia.
Qed.

Lemma release_node_decrement (fuel : nat) (n : T) (s : memory) (c : nat) :
  node_uses (counts s) n = S (S c) ->
  release_node (S fuel) n s =
  with_counts s
    {| node_uses := fun x => if eq_dec x n then S c else node_uses (counts s) x;
       edge_uses := edge_uses (counts s);
       destroyed_nodes := destroyed_nodes (counts s);
       destroyed_edges := destroyed_edges (counts s);
       fault := fault (counts s) |}.
Proof. intro H. simpl. rewrite H. reflexivity. Qed.

Variable g : graph T.
Variable held : T -> nat.
Hypothesis g_wf : wf_graph g.
Hypothesis g_links : wf_links g.

Lemma edge_ends (e : graph_edge T) :
  In e (out_edges_of g (start e)) ->
  um_contains (nodes g) (start e) = true /\ um_contains (nodes g) (end_ e) = true /\
  In e (in_edges_of g (end_ e)).
Proof.
  intro He. split; [|split].
  - apply um_contains_find. unfold out_edges_of in He.
    destruct (um_find (nodes g) (start e)) as [nd|]; [now exists nd|contradiction].
  - apply um_contains_In. exact (wf_end g_wf _ _ He).
  - exact (out_in g_links _ _ He).
Qed.

Lemma out_member (e : graph_edge T) (n : T) :
  In e (out_edges_of g (start e)) -> (In e (out_edges_of g n) <-> start e = n).
Proof.
  intro He. split; [apply (wf_start g_wf)|intros <-; exact He].
Qed.

Lemma in_member (e : graph_edge T) (n : T) :
  In e (out_edges_of g (start e)) -> (In e (in_edges_of g n) <-> end_ e = n).
Proof.
  intro He. split; [apply (in_end g_links)|].
  intros <-. exact (out_in g_links _ _ He).
Qed.

Lemma out_nodup (n : T) : NoDup (out_edges_of g n).
Proof. eapply NoDup_map_inv. exact (wf_single g_wf n). Qed.

Lemma in_nodup (n : T) : NoDup (in_edges_of g n).
Proof. exact (in_single g_links n). Qed.

Lemma release_edge_eq (fuel : nat) (e : graph_edge T) (s : memory) :
  release_edge (S fuel) e s =
  match edge_uses (counts s) e with
  | 0 =>
      with_counts s
        {| node_uses := node_uses (counts s); edge_uses := edge_uses (counts s);
           destroyed_nodes := destroyed_nodes (counts s);
           destroyed_edges := destroyed_edges (counts s); fault := true |}
  | 1 =>
      release_node fuel (start e)
        (release_node fuel (end_ e)
           (with_counts s
              {| node_uses := node_uses (counts s);
                 edge_uses := fun x => if eq_dec x e then 0 else edge_uses (counts s) x;
                 destroyed_nodes := destroyed_nodes (counts s);
                 destroyed_edges := e :: destroyed_edges (counts s);
                 fault := fault (counts s) |}))
  | S c =>
      with_counts s
        {| node_uses := node_uses (counts s);
           edge_uses := fun x => if eq_dec x e then c else edge_uses (counts s) x;
           destroyed_nodes := destroyed_nodes (counts s);
           destroyed_edges := destroyed_edges (counts s); fault := fault (counts s) |}
  end.
Proof. reflexivity. Qed.

(** A pointer to an edge is let go of while the loop runs: the edge
    goes when this was its last owner, and its two nodes stay. *)
Lemma release_edge_sound (fuel : nat) (e : graph_edge T)
    (rest : list (graph_edge T)) (s : memory) :
  2 <= fuel -> sound g held (e :: rest) s ->
  sound g held rest (release_edge fuel e s) /\
  live (release_edge fuel e s) = live s.
Proof.
  intros Hfuel So.
  destruct fuel as [|[|fuel]]; try lia.
  pose proof (so_edges So e) as He.
  rewrite count_occ_cons_eq in He by reflexivity.
  assert (Hedge : In e (out_edges_of g (start e)))
    by (apply (so_pending So); now left).
  destruct (edge_ends e Hedge) as (Hcs & Hce & Hin).
  rewrite release_edge_eq.
  destruct (edge_uses (counts s) e) as [|[|c]] eqn:Hu.
  - lia.
  - assert (Ha : alive (counts s) e = true)
      by (unfold alive; rewrite Hu; reflexivity).
    pose proof (filter_some (alive (counts s)) _ _ Hin Ha) as Lin.
    pose proof (filter_some (alive (counts s)) _ _ Hedge Ha) as Lout.
    pose proof (so_nodes So (end_ e)) as Hne. rewrite Hce in Hne.
    pose proof (so_nodes So (start e)) as Hns. rewrite Hcs in Hns.
    destruct (node_uses (counts s) (end_ e)) as [|[|c1]] eqn:Hc1; try lia.
    rewrite (@release_node_decrement fuel (end_ e) _ c1) by exact Hc1.
    cbn [counts with_counts node_uses].
    assert (Hc2 : exists c2,
      (if eq_dec (start e) (end_ e) then S c1 else node_uses (counts s) (start e))
      = S (S c2)).
    { destruct (eq_dec (start e) (end_ e)) as [Heq|Hneq].
      - rewrite Heq in Lout. destruct c1 as [|c1]; [lia|]. now exists c1.
      - destruct (node_uses (counts s) (start e)) as [|[|c2]]; try lia.
        now exists c2. }
    destruct Hc2 as [c2 Hc2].
    rewrite (@release_node_decrement fuel (start e) _ c2)
      by (cbn [counts with_counts node_uses]; exact Hc2).
    cbn [counts with_counts node_uses edge_uses destroyed_nodes destroyed_edges
         fault live starved].
    split; [|reflexivity].
    constructor; cbn [counts with_counts node_uses edge_uses destroyed_nodes
                      destroyed_edges fault live starved].
    + exact (so_fault So).
    + exact (so_starved So).
    + exact (so_out So).
    + exact (so_in So).
    + intros x Hx. apply (so_pending So). now right.
    + intro x. destruct (eq_dec x e) as [->|Hx].
      * lia.
      * rewrite (so_edges So x). rewrite count_occ_cons_neq by congruence.
        reflexivity.
    + intro n.
      set (h' := {| node_uses := _; edge_uses := _; destroyed_nodes := _;
                    destroyed_edges := _; fault := _ |}).
      assert (Hsame : forall x, x <> e -> alive h' x = alive (counts s) x).
      { intros x Hx. unfold alive, h'. cbn [edge_uses].
        destruct (eq_dec x e); [contradiction|reflexivity]. }
      assert (Hdead : alive h' e = false).
      { unfold alive, h'. cbn [edge_uses].
        destruct (eq_dec e e); [reflexivity|contradiction]. }
      pose proof (filter_kill eq_dec (alive (counts s)) (alive h')
                    (out_nodup n) Hsame Ha Hdead) as Ko.
      pose proof (filter_kill eq_dec (alive (counts s)) (alive h')
                    (in_nodup n) Hsame Ha Hdead) as Ki.
      pose proof (so_nodes So n) as Hn.
      pose proof (out_member e n Hedge) as Mo.
      pose proof (in_member e n Hedge) as Mi.
      destruct (in_dec eq_dec e (out_edges_of g n)) as [Io|Io];
        destruct (in_dec eq_dec e (in_edges_of g n)) as [Ii|Ii].
      * apply Mo in Io. apply Mi in Ii. subst n.
        destruct (eq_dec (start e) (start e)); [|contradiction].
        destruct (eq_dec (start e) (end_ e)) as [E|E]; [|congruence].
        rewrite <- E in Hc1. lia.
      * apply Mo in Io. subst n.
        destruct (eq_dec (start e) (start e)); [|contradiction].
        destruct (eq_dec (start e) (end_ e)) as [E|E];
          [exfalso; apply Ii, Mi; congruence|].
        lia.
      * apply Mi in Ii. subst n.
        destruct (eq_dec (end_ e) (start e)) as [E|E];
          [exfalso; apply Io, Mo; congruence|].
        destruct (eq_dec (end_ e) (end_ e)); [|contradiction].
        lia.
      * destruct (eq_dec n (start e)) as [E|E];
          [exfalso; apply Io, Mo; congruence|].
        destruct (eq_dec n (end_ e)) as [E'|E'];
          [exfalso; apply Ii, Mi; congruence|].
        lia.
    + exact (so_no_node So).
    + constructor; [|exact (so_once So)].
      intro Hgone. apply (so_gone So) in Hgone. lia.
    + intro x. destruct (eq_dec x e) as [->|Hx].
      * split; [intros _; now split|intros _; now left].
      * rewrite <- (so_gone So x). split.
        -- intros [E|Hx']; [congruence|exact Hx'].
        -- intro Hx'. now right.
  - cbn [counts with_counts node_uses edge_uses destroyed_nodes destroyed_edges
         fault live starved].
    split; [|reflexivity].
    set (h' := {| node_uses := _; edge_uses := _; destroyed_nodes := _;
                  destroyed_edges := _; fault := _ |}).
    assert (Hsame : forall x, alive h' x = alive (counts s) x).
    { intro x. unfold alive, h'. cbn [edge_uses].
      destruct (eq_dec x e) as [->|Hx]; [|reflexivity]. now rewrite Hu. }
    constructor; cbn [counts with_counts live starved]; unfold h';
      cbn [node_uses edge_uses destroyed_nodes destroyed_edges fault];
      fold h'.
    + exact (so_fault So).
    + exact (so_starved So).
    + exact (so_out So).
    + exact (so_in So).
    + intros x Hx. apply (so_pending So). now right.
    + intro x. destruct (eq_dec x e) as [->|Hx].
      * lia.
      * rewrite (so_edges So x). rewrite count_occ_cons_neq by congruence.
        reflexivity.
    + intro n. rewrite (so_nodes So n).
      rewrite (filter_ext _ _ Hsame (out_edges_of g n)).
      rewrite (filter_ext _ _ Hsame (in_edges_of g n)). reflexivity.
    + exact (so_no_node So).
    + exact (so_once So).
    + intro x. rewrite (so_gone So x). destruct (eq_dec x e) as [->|Hx].
      * split; intros [_ H0]; lia.
      * reflexivity.
Qed.

Lemma release_edges_sound (fuel : nat) (l : list (graph_edge T)) (s : memory) :
  2 <= fuel -> sound g held l s ->
  sound g held [] (fold_left (fun s e => release_edge fuel e s) l s) /\
  live (fold_left (fun s e => release_edge fuel e s) l s) = live s.
Proof.
  intro Hfuel. revert s. induction l as [|e l IH]; intros s So; simpl.
  - now split.
  - destruct (release_edge_sound Hfuel So) as [So' Hl].
    destruct (IH _ So') as [So'' Hl']. split; [exact So''|congruence].
Qed.

Lemma nodup_remove (A : Type) (dec : forall x y : A, {x = y} + {x <> y})
    (x : A) (l : list A) :
  NoDup l -> NoDup (remove dec x l).
Proof.
  induction 1 as [|y l Hy Hnd IH]; simpl; [constructor|].
  destruct (dec x y); [exact IH|]. constructor; [|exact IH].
  intro H. apply in_remove in H. now apply Hy.
Qed.

Lemma count_occ_nodup (A : Type) (dec : forall x y : A, {x = y} + {x <> y})
    (l : list A) (x : A) :
  NoDup l -> count_occ dec l x = if in_dec dec x l then 1 else 0.
Proof.
  intro Hnd. destruct (in_dec dec x l) as [Hin|Hnin].
  - apply (count_occ_In dec) in Hin.
    pose proof (proj1 (NoDup_count_occ dec l) Hnd x). lia.
  - now apply count_occ_not_In.
Qed.

(** A set of in-edges gives up the pointers [pending]. *)
Lemma hand_over_in (s : memory) (m' : graph T) (pending : list (graph_edge T)) :
  sound g held [] s ->
  (forall n, out_edges_of m' n = out_edges_of (live s) n) ->
  (forall n, NoDup (in_edges_of m' n) /\
             incl (in_edges_of m' n) (in_edges_of (live s) n)) ->
  NoDup pending ->
  (forall e, In e pending <->
             In e (in_edges_of (live s) (end_ e)) /\
             ~ In e (in_edges_of m' (end_ e))) ->
  sound g held pending (with_live s m').
Proof.
  intros So Hout Hin Hnd Hp.
  constructor; cbn [live counts starved with_live].
  - exact (so_fault So).
  - exact (so_starved So).
  - intro n. rewrite Hout. exact (so_out So n).
  - intro n. split; [apply Hin|].
    eapply incl_tran; [apply Hin|apply (so_in So)].
  - intros e He. apply Hp in He. destruct He as [He _].
    apply (so_in So) in He. exact (in_out g_links _ _ He).
  - intro e. rewrite (so_edges So e). rewrite Hout.
    rewrite (count_occ_nodup eq_dec e Hnd). simpl count_occ.
    destruct (in_dec eq_dec e (in_edges_of (live s) (end_ e))) as [I|I];
      destruct (in_dec eq_dec e (in_edges_of m' (end_ e))) as [I'|I'];
      destruct (in_dec eq_dec e pending) as [P|P]; try lia.
    + apply Hp in P. tauto.
    + exfalso. apply P, Hp. tauto.
    + apply (proj2 (Hin _)) in I'. contradiction.
    + apply (proj2 (Hin _)) in I'. contradiction.
    + apply Hp in P. tauto.
  - exact (so_nodes So).
  - exact (so_no_node So).
  - exact (so_once So).
  - exact (so_gone So).
Qed.

(** A set of out-edges gives up the pointers [pending]. *)
Lemma hand_over_out (s : memory) (m' : graph T) (pending : list (graph_edge T)) :
  sound g held [] s ->
  (forall n, in_edges_of m' n = in_edges_of (live s) n) ->
  (forall n, NoDup (out_edges_of m' n) /\
             incl (out_edges_of m' n) (out_edges_of (live s) n)) ->
  NoDup pending ->
  (forall e, In e pending <->
             In e (out_edges_of (live s) (start e)) /\
             ~ In e (out_edges_of m' (start e))) ->
  sound g held pending (with_live s m').
Proof.
  intros So Hin Hout Hnd Hp.
  constructor; cbn [live counts starved with_live].
  - exact (so_fault So).
  - exact (so_starved So).
  - intro n. split; [apply Hout|].
    eapply incl_tran; [apply Hout|apply (so_out So)].
  - intro n. rewrite Hin. exact (so_in So n).
  - intros e He. apply Hp in He. destruct He as [He _].
    now apply (so_out So) in He.
  - intro e. rewrite (so_edges So e). rewrite Hin.
    rewrite (count_occ_nodup eq_dec e Hnd). simpl count_occ.
    destruct (in_dec eq_dec e (out_edges_of (live s) (start e))) as [I|I];
      destruct (in_dec eq_dec e (out_edges_of m' (start e))) as [I'|I'];
      destruct (in_dec eq_dec e pending) as [P|P]; try lia.
    + apply Hp in P. tauto.
    + exfalso. apply P, Hp. tauto.
    + apply (proj2 (Hout _)) in I'. contradiction.
    + apply (proj2 (Hout _)) in I'. contradiction.
    + apply Hp in P. tauto.
  - exact (so_nodes So).
  - exact (so_no_node So).
  - exact (so_once So).
  - exact (so_gone So).
Qed.

Lemma shrinks_refl (m : graph T) : shrinks m m.
Proof. intro n. split; apply incl_refl. Qed.

Lemma shrinks_trans (m1 m2 m3 : graph T) :
  shrinks m1 m2 -> shrinks m2 m3 -> shrinks m1 m3.
Proof.
  intros H1 H2 n. split; (eapply incl_tran; [apply H1|apply H2]).
Qed.

Lemma shrinks_erase_in (m : graph T) (k : T) (e : graph_edge T) :
  shrinks (erase_in k e m) m.
Proof.
  intro n. rewrite out_erase_in, in_erase_in. split; [apply incl_refl|].
  destruct (eq_dec n k); [|apply incl_refl].
  intros x Hx. now apply in_remove in Hx.
Qed.

Lemma shrinks_erase_out (m : graph T) (k : T) (e : graph_edge T) :
  shrinks (erase_out k e m) m.
Proof.
  intro n. rewrite out_erase_out, in_erase_out. split; [|apply incl_refl].
  destruct (eq_dec n k); [|apply incl_refl].
  intros x Hx. now apply in_remove in Hx.
Qed.

Lemma shrinks_clear_in (m : graph T) (k : T) : shrinks (clear_in k m) m.
Proof.
  intro n. rewrite out_clear_in, in_clear_in. split; [apply incl_refl|].
  destruct (eq_dec n k); [apply incl_nil_l|apply incl_refl].
Qed.

Lemma shrinks_clear_out (m : graph T) (k : T) : shrinks (clear_out k m) m.
Proof.
  intro n. rewrite out_clear_out, in_clear_out. split; [|apply incl_refl].
  destruct (eq_dec n k); [apply incl_nil_l|apply incl_refl].
Qed.

Lemma in_edges_erase_sound (fuel : nat) (other : T) (itr : graph_edge T)
    (s : memory) :
  2 <= fuel -> sound g held [] s ->
  sound g held [] (in_edges_erase fuel other itr s) /\
  shrinks (live (in_edges_erase fuel other itr s)) (live s) /\
  forall n, out_edges_of (live (in_edges_erase fuel other itr s)) n =
            out_edges_of (live s) n.
Proof.
  intros Hfuel So. unfold in_edges_erase.
  destruct (in_dec eq_dec itr (in_edges_of (live s) other)) as [Hin|Hnin].
  2:{ split; [exact So|]. split; [apply shrinks_refl|reflexivity]. }
  assert (Hend : end_ itr = other).
  { apply (in_end g_links). now apply (so_in So). }
  assert (So' : sound g held [itr] (with_live s (erase_in other itr (live s)))).
  { apply hand_over_in; [exact So| | | |].
    - intro n. apply out_erase_in.
    - intro n. rewrite in_erase_in. destruct (eq_dec n other).
      + split; [apply nodup_remove, (so_in So)|].
        intros x Hx. now apply in_remove in Hx.
      + split; [apply (so_in So)|apply incl_refl].
    - constructor; [intros []|constructor].
    - intro e. rewrite in_erase_in. split.
      + intros [<-|[]]. rewrite Hend.
        destruct (eq_dec other other); [|contradiction].
        split; [exact Hin|apply remove_In].
      + intros [He Hne]. destruct (eq_dec (end_ e) other) as [E|E];
          [|contradiction].
        destruct (eq_dec e itr) as [->|Hd]; [now left|].
        exfalso. apply Hne. now apply in_in_remove. }
  destruct (release_edge_sound Hfuel So') as [So'' Hl].
  split; [exact So''|]. rewrite Hl. cbn [live with_live].
  split; [apply shrinks_erase_in|]. intro n. apply out_erase_in.
Qed.

Lemma out_edges_erase_sound (fuel : nat) (other : T) (itr : graph_edge T)
    (s : memory) :
  2 <= fuel -> sound g held [] s ->
  sound g held [] (out_edges_erase fuel other itr s) /\
  shrinks (live (out_edges_erase fuel other itr s)) (live s) /\
  forall n, in_edges_of (live (out_edges_erase fuel other itr s)) n =
            in_edges_of (live s) n.
Proof.
  intros Hfuel So. unfold out_edges_erase.
  destruct (in_dec eq_dec itr (out_edges_of (live s) other)) as [Hin|Hnin].
  2:{ split; [exact So|]. split; [apply shrinks_refl|reflexivity]. }
  assert (Hstart : start itr = other).
  { apply (wf_start g_wf). now apply (so_out So). }
  assert (So' : sound g held [itr] (with_live s (erase_out other itr (live s)))).
  { apply hand_over_out; [exact So| | | |].
    - intro n. apply in_erase_out.
    - intro n. rewrite out_erase_out. destruct (eq_dec n other).
      + split; [apply nodup_remove, (so_out So)|].
        intros x Hx. now apply in_remove in Hx.
      + split; [apply (so_out So)|apply incl_refl].
    - constructor; [intros []|constructor].
    - intro e. rewrite out_erase_out. split.
      + intros [<-|[]]. rewrite Hstart.
        destruct (eq_dec other other); [|contradiction].
        split; [exact Hin|apply remove_In].
      + intros [He Hne]. destruct (eq_dec (start e) other) as [E|E];
          [|contradiction].
        destruct (eq_dec e itr) as [->|Hd]; [now left|].
        exfalso. apply Hne. now apply in_in_remove. }
  destruct (release_edge_sound Hfuel So') as [So'' Hl].
  split; [exact So''|]. rewrite Hl. cbn [live with_live].
  split; [apply shrinks_erase_out|]. intro n. apply in_erase_out.
Qed.

Lemma in_edges_clear_sound (fuel : nat) (node : T) (s : memory) :
  2 <= fuel -> sound g held [] s ->
  sound g held [] (in_edges_clear fuel node s) /\
  live (in_edges_clear fuel node s) = clear_in node (live s).
Proof.
  intros Hfuel So. unfold in_edges_clear.
  apply release_edges_sound; [exact Hfuel|].
  apply hand_over_in; [exact So| | | |].
  - intro n. apply out_clear_in.
  - intro n. rewrite in_clear_in. destruct (eq_dec n node).
    + split; [constructor|apply incl_nil_l].
    + split; [apply (so_in So)|apply incl_refl].
  - apply (so_in So).
  - intro e. rewrite in_clear_in. split.
    + intro He. assert (E : end_ e = node).
      { apply (in_end g_links). now apply (so_in So). }
      rewrite E. destruct (eq_dec node node); [|contradiction].
      split; [exact He|intros []].
    + intros [He Hne]. destruct (eq_dec (end_ e) node) as [E|E];
        [|contradiction].
      now rewrite <- E.
Qed.

Lemma out_edges_clear_sound (fuel : nat) (node : T) (s : memory) :
  2 <= fuel -> sound g held [] s ->
  sound g held [] (out_edges_clear fuel node s) /\
  live (out_edges_clear fuel node s) = clear_out node (live s).
Proof.
  intros Hfuel So. unfold out_edges_clear.
  apply release_edges_sound; [exact Hfuel|].
  apply hand_over_out; [exact So| | | |].
  - intro n. apply in_clear_out.
  - intro n. rewrite out_clear_out. destruct (eq_dec n node).
    + split; [constructor|apply incl_nil_l].
    + split; [apply (so_out So)|apply incl_refl].
  - apply (so_out So).
  - intro e. rewrite out_clear_out. split.
    + intro He. assert (E : start e = node).
      { apply (wf_start g_wf). now apply (so_out So). }
      rewrite E. destruct (eq_dec node node); [|contradiction].
      split; [exact He|intros []].
    + intros [He Hne]. destruct (eq_dec (start e) node) as [E|E];
        [|contradiction].
      now rewrite <- E.
Qed.

Lemma erase_ins_sound (fuel : nat) (l : list (graph_edge T)) (s : memory) :
  2 <= fuel -> sound g held [] s ->
  let s' := fold_left (fun s itr => in_edges_erase fuel (end_ itr) itr s) l s in
  sound g held [] s' /\ shrinks (live s') (live s) /\
  forall n, out_edges_of (live s') n = out_edges_of (live s) n.
Proof.
  intro Hfuel. revert s. induction l as [|e l IH]; intros s So; simpl; cbv zeta.
  - split; [exact So|]. split; [apply shrinks_refl|reflexivity].
  - destruct (in_edges_erase_sound (end_ e) e Hfuel So) as (So1 & Sh1 & O1).
    destruct (IH _ So1) as (So2 & Sh2 & O2).
    split; [exact So2|]. split.
    + eapply shrinks_trans; [exact Sh2|exact Sh1].
    + intro n. now rewrite O2, O1.
Qed.

Lemma erase_outs_sound (fuel : nat) (l : list (graph_edge T)) (s : memory) :
  2 <= fuel -> sound g held [] s ->
  let s' := fold_left (fun s itr => out_edges_erase fuel (start itr) itr s) l s in
  sound g held [] s' /\ shrinks (live s') (live s) /\
  forall n, in_edges_of (live s') n = in_edges_of (live s) n.
Proof.
  intro Hfuel. revert s. induction l as [|e l IH]; intros s So; simpl; cbv zeta.
  - split; [exact So|]. split; [apply shrinks_refl|reflexivity].
  - destruct (out_edges_erase_sound (start e) e Hfuel So) as (So1 & Sh1 & I1).
    destruct (IH _ So1) as (So2 & Sh2 & I2).
    split; [exact So2|]. split.
    + eapply shrinks_trans; [exact Sh2|exact Sh1].
    + intro n. now rewrite I2, I1.
Qed.

(** One turn of the loop leaves the node without edges. *)
Lemma sever_sound (fuel : nat) (node : T) (s : memory) :
  2 <= fuel -> sound g held [] s ->
  sound g held [] (sever fuel s node) /\
  shrinks (live (sever fuel s node)) (live s) /\
  out_edges_of (live (sever fuel s node)) node = [] /\
  in_edges_of (live (sever fuel s node)) node = [].
Proof.
  intros Hfuel So. unfold sever.
  destruct (erase_ins_sound (out_edges_of (live s) node) Hfuel So)
    as (So1 & Sh1 & _).
  set (s1 := fold_left _ (out_edges_of (live s) node) s) in *.
  destruct (erase_outs_sound (in_edges_of (live s1) node) Hfuel So1)
    as (So2 & Sh2 & _).
  set (s2 := fold_left _ (in_edges_of (live s1) node) s1) in *.
  destruct (in_edges_clear_sound node Hfuel So2) as (So3 & L3).
  set (s3 := in_edges_clear fuel node s2) in *.
  destruct (out_edges_clear_sound node Hfuel So3) as (So4 & L4).
  split; [exact So4|]. rewrite L4, L3. split; [|split].
  - eapply shrinks_trans; [apply shrinks_clear_out|].
    eapply shrinks_trans; [apply shrinks_clear_in|].
    eapply shrinks_trans; [exact Sh2|exact Sh1].
  - rewrite out_clear_out. destruct (eq_dec node node); [reflexivity|contradiction].
  - rewrite in_clear_out, in_clear_in.
    destruct (eq_dec node node); [reflexivity|contradiction].
Qed.

Lemma sever_all (fuel : nat) (order : list T) (s : memory) :
  2 <= fuel -> sound g held [] s ->
  let s' := fold_left (sever fuel) order s in
  sound g held [] s' /\ shrinks (live s') (live s) /\
  forall n, In n order ->
    out_edges_of (live s') n = [] /\ in_edges_of (live s') n = [].
Proof.
  intro Hfuel. revert s. induction order as [|a order IH]; intros s So; simpl; cbv zeta.
  - split; [exact So|]. split; [apply shrinks_refl|intros n []].
  - destruct (sever_sound a Hfuel So) as (So1 & Sh1 & O1 & I1).
    destruct (IH _ So1) as (So2 & Sh2 & E2).
    split; [exact So2|]. split.
    + eapply shrinks_trans; [exact Sh2|exact Sh1].
    + intros n [<-|Hn]; [|now apply E2].
      destruct (Sh2 a) as [Ho Hi]. rewrite O1 in Ho. rewrite I1 in Hi.
      split; now apply incl_l_nil.
Qed.

Lemma filter_all (A : Type) (f : A -> bool) (l : list A) :
  (forall x, In x l -> f x = true) -> filter f l = l.
Proof.
  induction l as [|x l IH]; intro H; simpl; [reflexivity|].
  rewrite (H x) by now left. rewrite IH; [reflexivity|].
  intros y Hy. apply H. now right.
Qed.

Lemma filter_none (A : Type) (f : A -> bool) (l : list A) :
  (forall x, f x = false) -> filter f l = [].
Proof.
  intro H. induction l as [|x l IH]; simpl; [reflexivity|]. now rewrite H.
Qed.

(** The memory of a graph about to be destroyed is sound. *)
Lemma memory_of_sound : sound g held [] (memory_of g held).
Proof.
  assert (Halive : forall e, In e (out_edges_of g (start e)) ->
                             alive (counts (memory_of g held)) e = true).
  { intros e He. unfold alive, memory_of. cbn [counts edge_uses].
    destruct (in_dec eq_dec e (out_edges_of g (start e))); [|contradiction].
    reflexivity. }
  constructor; cbn [memory_of live counts starved fault destroyed_nodes
                    destroyed_edges].
  - reflexivity.
  - reflexivity.
  - intro n. split; [apply out_nodup|apply incl_refl].
  - intro n. split; [apply in_nodup|apply incl_refl].
  - intros e [].
  - intro e. cbn [edge_uses count_occ]. lia.
  - intro n. cbn [node_uses].
    change {| node_uses := _; edge_uses := _; destroyed_nodes := _;
              destroyed_edges := _; fault := _ |}
      with (counts (memory_of g held)).
    rewrite !filter_all; [reflexivity| |].
    + intros e He. apply Halive. exact (in_out g_links _ _ He).
    + intros e He. apply Halive.
      now rewrite (wf_start g_wf _ _ He).
  - reflexivity.
  - constructor.
  - intro e. split; [intros []|]. intros [He H0]. exfalso. cbn [edge_uses] in H0.
    destruct (in_dec eq_dec e (out_edges_of g (start e))); [|contradiction].
    discriminate.
Qed.

Lemma absent_out (n : T) : ~ In n (node_names g) -> out_edges_of g n = [].
Proof.
  intro H. apply um_find_None in H. unfold out_edges_of. now rewrite H.
Qed.

Lemma absent_in (n : T) : ~ In n (node_names g) -> in_edges_of g n = [].
Proof.
  intro H. apply um_find_None in H. unfold in_edges_of. now rewrite H.
Qed.

(** When the loop is over no set holds an edge, and every edge is gone. *)
Lemma sound_swept (s : memory) :
  sound g held [] s ->
  (forall n, In n (node_names g) ->
     out_edges_of (live s) n = [] /\ in_edges_of (live s) n = []) ->
  swept g held [] s.
Proof.
  intros So Hempty.
  assert (Ho : forall n, out_edges_of (live s) n = []).
  { intro n. destruct (in_dec eq_dec n (node_names g)) as [Hn|Hn].
    - apply Hempty, Hn.
    - apply incl_l_nil. rewrite <- (absent_out n Hn). apply (so_out So). }
  assert (Hi : forall n, in_edges_of (live s) n = []).
  { intro n. destruct (in_dec eq_dec n (node_names g)) as [Hn|Hn].
    - apply Hempty, Hn.
    - apply incl_l_nil. rewrite <- (absent_in n Hn). apply (so_in So). }
  assert (He : forall e, edge_uses (counts s) e = 0).
  { intro e. rewrite (so_edges So e), Ho, Hi. reflexivity. }
  constructor.
  - exact (so_fault So).
  - exact (so_starved So).
  - exact Ho.
  - exact Hi.
  - exact He.
  - exact (so_once So).
  - intro e. rewrite (so_gone So e). split; [tauto|]. intro H. split; [exact H|apply He].
  - intro n. rewrite (so_nodes So n).
    rewrite !filter_none by (intro e; unfold alive; now rewrite He).
    simpl. lia.
  - rewrite (so_no_node So). constructor.
  - intro n. rewrite (so_no_node So). split; [intros []|intros [[] _]].
Qed.

Lemma release_node_eq (fuel : nat) (n : T) (s : memory) :
  release_node (S fuel) n s =
  match node_uses (counts s) n with
  | 0 =>
      with_counts s
        {| node_uses := node_uses (counts s); edge_uses := edge_uses (counts s);
           destroyed_nodes := destroyed_nodes (counts s);
           destroyed_edges := destroyed_edges (counts s); fault := true |}
  | 1 =>
      fold_left (fun s e => release_edge fuel e s)
        (in_edges_of (live s) n ++ out_edges_of (live s) n)
        {| live := clear_out n (clear_in n (live s));
           counts :=
             {| node_uses := fun x => if eq_dec x n then 0
                                      else node_uses (counts s) x;
                edge_uses := edge_uses (counts s);
                destroyed_nodes := n :: destroyed_nodes (counts s);
                destroyed_edges := destroyed_edges (counts s);
                fault := fault (counts s) |};
           starved := starved s |}
  | S c =>
      with_counts s
        {| node_uses := fun x => if eq_dec x n then c else node_uses (counts s) x;
           edge_uses := edge_uses (counts s);
           destroyed_nodes := destroyed_nodes (counts s);
           destroyed_edges := destroyed_edges (counts s);
           fault := fault (counts s) |}
  end.
Proof. reflexivity. Qed.

(** The map lets go of a node: the node goes unless a step holds it. *)
Lemma release_node_swept (fuel : nat) (n : T) (done : list T) (s : memory) :
  1 <= fuel -> swept g held done s ->
  In n (node_names g) -> ~ In n done ->
  swept g held (n :: done) (release_node fuel n s).
Proof.
  intros Hfuel Sw Hn Hnd. destruct fuel as [|fuel]; [lia|].
  rewrite release_node_eq.
  pose proof (sw_nodes Sw n) as Hc.
  destruct (in_dec eq_dec n done) as [|_]; [contradiction|].
  apply um_contains_In in Hn. rewrite Hn in Hc.
  assert (Hx : forall x, x <> n ->
    (if in_dec eq_dec x (n :: done) then 0
     else if um_contains (nodes g) x then 1 else 0) =
    (if in_dec eq_dec x done then 0
     else if um_contains (nodes g) x then 1 else 0)).
  { intros x Hx. destruct (in_dec eq_dec x (n :: done)) as [[E|I]|I];
      destruct (in_dec eq_dec x done) as [I'|I']; try reflexivity.
    - congruence.
    - contradiction.
    - exfalso. apply I. now right. }
  assert (Hself : (if in_dec eq_dec n (n :: done) then 0
                   else if um_contains (nodes g) n then 1 else 0) = 0).
  { destruct (in_dec eq_dec n (n :: done)) as [|I]; [reflexivity|].
    exfalso. apply I. now left. }
  destruct (node_uses (counts s) n) as [|[|c]] eqn:Hu.
  - lia.
  - rewrite (sw_in Sw), (sw_out Sw). cbn [app fold_left].
    constructor; cbn [live counts starved node_uses edge_uses destroyed_nodes
                      destroyed_edges fault].
    + exact (sw_fault Sw).
    + exact (sw_starved Sw).
    + intro x. rewrite out_clear_out, out_clear_in.
      destruct (eq_dec x n); [reflexivity|apply (sw_out Sw)].
    + intro x. rewrite in_clear_out, in_clear_in.
      destruct (eq_dec x n); [reflexivity|apply (sw_in Sw)].
    + exact (sw_edges Sw).
    + exact (sw_edges_once Sw).
    + exact (sw_edges_gone Sw).
    + intro x. destruct (eq_dec x n) as [->|E].
      * rewrite Hself. lia.
      * rewrite (Hx x E). apply (sw_nodes Sw).
    + constructor; [|exact (sw_once Sw)].
      intro H. apply (sw_gone Sw) in H. tauto.
    + intro x. split.
      * intros [<-|H]; [split; [now left|lia]|].
        apply (sw_gone Sw) in H. split; [now right|tauto].
      * intros [[<-|H] H0]; [now left|].
        right. apply (sw_gone Sw). tauto.
  - unfold with_counts.
    constructor; cbn [live counts starved node_uses edge_uses destroyed_nodes
                      destroyed_edges fault].
    + exact (sw_fault Sw).
    + exact (sw_starved Sw).
    + exact (sw_out Sw).
    + exact (sw_in Sw).
    + exact (sw_edges Sw).
    + exact (sw_edges_once Sw).
    + exact (sw_edges_gone Sw).
    + intro x. destruct (eq_dec x n) as [->|E].
      * rewrite Hself. lia.
      * rewrite (Hx x E). apply (sw_nodes Sw).
    + exact (sw_once Sw).
    + intro x. rewrite (sw_gone Sw x). split.
      * intros [H H0]. split; [now right|exact H0].
      * intros [[<-|H] H0]; [lia|tauto].
Qed.

Lemma release_nodes_swept (fuel : nat) (order' done : list T) (s : memory) :
  1 <= fuel -> NoDup order' ->
  (forall n, In n order' -> In n (node_names g) /\ ~ In n done) ->
  swept g held done s ->
  swept g held (rev order' ++ done)
    (fold_left (fun s n => release_node fuel n s) order' s).
Proof.
  intro Hfuel. revert done s.
  induction order' as [|a order' IH]; intros done s Hnd Hin Sw; simpl.
  - exact Sw.
  - inversion Hnd as [|? ? Ha Hnd']. subst.
    rewrite <- app_assoc. simpl. apply IH; [exact Hnd'| |].
    + intros n Hn. split; [apply Hin; now right|].
      intros [<-|Hd]; [contradiction|].
      destruct (Hin n) as [_ H]; [now right|contradiction].
    + apply release_node_swept; [exact Hfuel|exact Sw| |];
        apply Hin; now left.
Qed.

End HeaderTeardown.

Section HeaderDestructor.

Import GraphH.

Context {T : Type} {T_eq_dec : EqDec T}.

(** X14: the destructor of the header [Graph.h] takes a graph apart
    whatever the consumer still holds.  For a graph made by
    [createNode] and [createLink], the loop over the nodes running in
    any order [order] of the map and the map then letting go of its
    nodes in any order [order']: no count is taken below zero and the
    cascade of destructors is no deeper than two; afterwards no node,
    kept or not, has an edge left in its sets; every edge of the graph
    is destroyed, once; the nodes destroyed, once each, are those that
    no step of the consumer points to, and the count of a node is the
    number of pointers the consumer holds to it. *)
Theorem X14_header_destructor_severs_and_reclaims (g : graph T)
    (held : T -> nat) (order order' : list T) (fuel : nat) :
  wf_graph g -> wf_links g ->
  Permutation order (node_names g) -> Permutation order' (node_names g) ->
  2 <= fuel ->
  let s := destructor fuel order order' (memory_of g held) in
  fault (counts s) = false /\ starved s = false /\
  (forall n, out_edges_of (live s) n = [] /\ in_edges_of (live s) n = []) /\
  NoDup (destroyed_edges (counts s)) /\
  (forall e, In e (destroyed_edges (counts s)) <->
             In e (out_edges_of g (start e))) /\
  NoDup (destroyed_nodes (counts s)) /\
  (forall n, In n (destroyed_nodes (counts s)) <->
             In n (node_names g) /\ held n = 0) /\
  (forall n, node_uses (counts s) n = held n) /\
  (forall e, edge_uses (counts s) e = 0).
Proof.
  intros Hwf Hlinks Hperm Hperm' Hfuel. cbv zeta. unfold destructor.
  destruct (sever_all Hwf Hlinks order Hfuel (memory_of_sound held Hwf Hlinks))
    as (So & _ & Hempty).
  set (s1 := fold_left (sever fuel) order (memory_of g held)) in *.
  assert (Sw : swept g held [] s1).
  { apply sound_swept; [exact So|].
    intros n Hn. apply Hempty. eapply Permutation_in; [|exact Hn].
    now apply Permutation_sym. }
  assert (Sw' : swept g held (rev order' ++ [])
                  (fold_left (fun s n => release_node fuel n s) order' s1)).
  { apply release_nodes_swept; [lia| | |exact Sw].
    - eapply Permutation_NoDup; [apply Permutation_sym; exact Hperm'|].
      exact (wf_names Hwf).
    - intros n Hn. split; [|intros []].
      eapply Permutation_in; [exact Hperm'|exact Hn]. }
  rewrite app_nil_r in Sw'.
  set (s2 := fold_left _ order' s1) in *.
  assert (Hdone : forall n, In n (rev order') <-> In n (node_names g)).
  { intro n. rewrite <- in_rev. split; intro H.
    - eapply Permutation_in; [exact Hperm'|exact H].
    - eapply Permutation_in; [apply Permutation_sym; exact Hperm'|exact H]. }
  split; [exact (sw_fault Sw')|]. split; [exact (sw_starved Sw')|].
  split; [intro n; split; [apply (sw_out Sw')|apply (sw_in Sw')]|].
  split; [exact (sw_edges_once Sw')|]. split; [exact (sw_edges_gone Sw')|].
  split; [exact (sw_once Sw')|]. split; [|split].
  - intro n. rewrite (sw_gone Sw' n), Hdone. reflexivity.
  - intro n. rewrite (sw_nodes Sw' n).
    destruct (in_dec eq_dec n (rev order')) as [_|Hn]; [reflexivity|].
    destruct (um_contains (nodes g) n) eqn:Hc; [|reflexivity].
    exfalso. apply Hn, Hdone. now apply um_contains_In.
  - exact (sw_edges Sw').
Qed.

End HeaderDestructor.

Lemma X14_witness :
  let s := GraphH.destructor 2 [2; 0; 1; 7] [7; 1; 0; 2]
             (GraphH.memory_of ring_graph first_step_kept) in
  fault (GraphH.counts s) = false /\ GraphH.starved s = false /\
  (forall n, out_edges_of (GraphH.live s) n = [] /\
             in_edges_of (GraphH.live s) n = []) /\
  NoDup (destroyed_edges (GraphH.counts s)) /\
  (forall e, In e (destroyed_edges (GraphH.counts s)) <->
             In e (out_edges_of ring_graph (start e))) /\
  NoDup (destroyed_nodes (GraphH.counts s)) /\
  (forall n, In n (destroyed_nodes (GraphH.counts s)) <->
             In n (node_names ring_graph) /\ first_step_kept n = 0) /\
  (forall n, node_uses (GraphH.counts s) n = first_step_kept n) /\
  (forall e, edge_uses (GraphH.counts s) e = 0).
Proof.
  apply X14_header_destructor_severs_and_reclaims.
  - exact ring_graph_wf.
  - exact ring_graph_links.
  - apply Permutation_refl.
  - exact (Permutation_rev [7; 1; 0; 2]).
  - apply le_n.
Defined.

(** ** The test of the Kotlin graph *)

Section CallsAndEdges.

Lemma run_call_edges_only (c : graph_call nat) (g : graph nat) (p : nat)
    (e : graph_edge nat) :
  In e (out_edges_of (snd (run_call c g)) p) ->
  In e (out_edges_of g p) \/ c = CreateLink p (end_ e) (weight e).
Proof.
  destruct c as [n|s t w]; simpl; intro H.
  - left. now apply create_node_out_edges in H.
  - apply create_link_out_edges in H.
    destruct H as [H|[-> ->]]; [now left|now right].
Qed.

(** The edges of a graph come from the calls that built it. *)
Lemma build_edges_only (calls : list (graph_call nat)) :
  forall (g : graph nat) (p : nat) (e : graph_edge nat),
  In e (out_edges_of (build (map run_call calls) g) p) ->
  In e (out_edges_of g p) \/ In (CreateLink p (end_ e) (weight e)) calls.
Proof.
  induction calls as [|c calls IH]; intros g p e H; [now left|].
  unfold build in *. simpl in H. apply IH in H. destruct H as [H|H].
  - apply run_call_edges_only in H.
    destruct H as [H| ->]; [now left|right; now left].
  - right. now right.
Qed.

(** After a call for a link between two nodes of the graph, with a
    positive weight, there is an edge between them. *)
Lemma create_link_there (g : graph nat) (s e : nat) (w : Q) :
  In s (node_names g) -> In e (node_names g) -> (0 < w)%Q ->
  exists x, In x (out_edges_of (snd (create_link s e w g)) s) /\ end_ x = e.
Proof.
  intros Hs He Hw. rewrite create_link_eq.
  apply um_contains_In in Hs, He. rewrite Hs, He. simpl.
  assert (Hq : Qle_bool w 0 = false).
  { destruct (Qle_bool w 0) eqn:E; [|reflexivity].
    apply Qle_bool_iff in E. exfalso. eapply Qlt_not_le; eassumption. }
  rewrite Hq.
  destruct (edge_between g s e) eqn:Hb.
  - unfold edge_between in Hb. apply existsb_exists in Hb.
    destruct Hb as (x & Hx & Hend). apply keq_true in Hend. simpl. now exists x.
  - pose proof (create_link_added g s e w Hs He) as Hadd. cbv zeta in Hadd.
    simpl. exists {| weight := w; start := s; end_ := e |}.
    rewrite (added_out Hadd), in_app_iff. simpl.
    split; [right; now left|reflexivity].
Qed.

Lemma build_link_there (calls : list (graph_call nat)) :
  forall (g : graph nat) (s e : nat) (w : Q),
  In (CreateLink s e w) calls ->
  In s (node_names g) -> In e (node_names g) -> (0 < w)%Q ->
  exists x, In x (out_edges_of (build (map run_call calls) g) s) /\ end_ x = e.
Proof.
  induction calls as [|c calls IH]; intros g s e w Hin Hs He Hw; [contradiction|].
  unfold build in *. simpl. destruct Hin as [->|Hin].
  - destruct (@create_link_there g s e w Hs He Hw) as (x & Hx & Hend).
    exists x. split; [|exact Hend]. apply (build_keeps calls). exact Hx.
  - apply IH with (w := w); try assumption; now apply run_call_names.
Qed.

End CallsAndEdges.

Section LineGraph.

Variable n : nat.
Variable extra : list (graph_call nat).
Hypothesis n_pos : 1 <= n.
Hypothesis extra_heavy : forall c, In c extra ->
  exists x y w, c = CreateLink x y w /\ (Qnat n <= w)%Q.

Lemma line_split :
  build (map run_call (line_calls n ++ extra)) empty_graph =
  build (map run_call extra)
    (build (map run_call (map (fun x => CreateLink (x - 1) x 1%Q) (seq 1 (n - 1))))
       (build (map run_call (map CreateNode (seq 0 n))) empty_graph)).
Proof. unfold line_calls. now rewrite !map_app, !build_app. Qed.

Lemma line_names (x : nat) :
  In x (node_names (build (map run_call (line_calls n ++ extra)) empty_graph))
  <-> x < n.
Proof.
  split.
  - intro Hx. apply build_names_only in Hx. destruct Hx as [[]|Hx].
    apply in_app_or in Hx. destruct Hx as [Hx|Hx].
    + unfold line_calls in Hx. apply in_app_or in Hx. destruct Hx as [Hx|Hx].
      * apply in_map_iff in Hx. destruct Hx as (a & [= ->] & Ha).
        apply in_seq in Ha. lia.
      * apply in_map_iff in Hx. destruct Hx as (a & Heq & _). discriminate.
    + destruct (extra_heavy _ Hx) as (a & b & w & Heq & _). discriminate.
  - intro Hx. rewrite line_split. apply build_names. apply build_names.
    apply create_nodes_names. apply in_seq. lia.
Qed.

Lemma nodes_no_edges (array : list nat) (p : nat) (e : graph_edge nat) :
  ~ In e (out_edges_of (build (map run_call (map CreateNode array)) empty_graph) p).
Proof.
  intro H. apply build_edges_only in H. destruct H as [[]|H].
  apply in_map_iff in H. destruct H as (a & Heq & _). discriminate.
Qed.

(** The edges of the line before the calls [extra]. *)
Lemma line_only (p : nat) (e : graph_edge nat) :
  In e (out_edges_of (build (map run_call (line_calls n)) empty_graph) p) ->
  end_ e = S p /\ S p < n /\ weight e = 1%Q.
Proof.
  intro H. apply build_edges_only in H. destruct H as [[]|H].
  unfold line_calls in H. apply in_app_or in H. destruct H as [H|H].
  - apply in_map_iff in H. destruct H as (a & Heq & _). discriminate.
  - apply in_map_iff in H. destruct H as (x & [= Hp He Hw] & Hx).
    apply in_seq in Hx. rewrite <- He, <- Hw. split; [lia|]. split; [lia|reflexivity].
Qed.

Lemma line_light (i : nat) :
  S i < n ->
  exists e,
    In e (out_edges_of (build (map run_call (line_calls n ++ extra)) empty_graph) i) /\
    end_ e = S i /\ (weight e == 1)%Q.
Proof.
  intro Hi. rewrite line_split.
  set (links := map (fun x => CreateLink (x - 1) x 1%Q) (seq 1 (n - 1))).
  set (g0 := build (map run_call (map CreateNode (seq 0 n))) empty_graph).
  destruct (@build_link_there links g0 i (S i) 1%Q) as (x & Hx & Hend).
  - unfold links. apply in_map_iff.
    exists (S i). split; [f_equal; lia|]. apply in_seq. lia.
  - apply create_nodes_names. apply in_seq. lia.
  - apply create_nodes_names. apply in_seq. lia.
  - reflexivity.
  - exists x. split; [now apply build_keeps|]. split; [exact Hend|].
    apply build_edges_only in Hx. destruct Hx as [Hx|Hx].
    + now apply nodes_no_edges in Hx.
    + apply in_map_iff in Hx. destruct Hx as (y & [= _ _ Hw] & _).
      now rewrite <- Hw.
Qed.

(** Every edge is a link of the line or one of the heavy links. *)
Lemma line_chain :
  chain_edges n (build (map run_call (line_calls n ++ extra)) empty_graph).
Proof.
  intros p e He. apply build_edges_only in He. destruct He as [[]|He].
  apply in_app_or in He. destruct He as [He|He].
  - left. unfold line_calls in He. apply in_app_or in He. destruct He as [He|He].
    + apply in_map_iff in He. destruct He as (a & Heq & _). discriminate.
    + apply in_map_iff in He. destruct He as (x & [= Hp Hx Hw] & Hin).
      apply in_seq in Hin. rewrite <- Hw. split; [|reflexivity].
      rewrite Nat.mod_small; lia.
  - right. destruct (extra_heavy _ He) as (a & b & w & [= _ _ ->] & Hw).
    exact Hw.
Qed.

(** The sequence of the shortest paths from the node 0 is as the test
    asserts. *)
Lemma line_traversal :
  exists l,
    Kotlin.traversal
      (build (map runCall (line_calls n ++ extra)) {| Kotlin.nodes := [] |}) 0
      = Normal l /\
    List.length l = n /\
    forall i entry, nth_error l i = Some entry -> entry_as_asserted i entry.
Proof.
  set (k := build (map runCall (line_calls n ++ extra)) {| Kotlin.nodes := [] |}).
  set (g := build (map run_call (line_calls n ++ extra)) empty_graph).
  assert (Hk : toGraph k = g) by (unfold k, g; now rewrite build_toGraph).
  assert (Hwf : wf_graph g).
  { apply build_calls_wf. split; [apply wf_empty_graph|apply wf_links_empty]. }
  assert (Hs : In 0 (map fst (Kotlin.nodes k))).
  { rewrite <- names_toGraph, Hk. apply line_names. lia. }
  destruct (@shortestPath_shortest _ _ k 0) as (sq & acc & ws & st & Hsp & Hmap & Inv & Hhuge);
    [now rewrite Hk|exact Hs|].
  rewrite Hk in Inv.
  pose proof (ring_order n_pos Hwf line_names line_light line_chain Inv Hhuge)
    as Horder.
  exists (Kotlin.toList (S (List.length (Kotlin.nodes k))) sq).
  split; [unfold Kotlin.traversal; now rewrite Hsp|]. split.
  - rewrite <- (length_map toStep), Hmap, length_map, Horder. apply length_seq.
  - intros i entry Hi.
    assert (Hstep : nth_error (map st acc) i = Some (toStep entry)).
    { rewrite <- Hmap. now apply map_nth_error. }
    apply nth_error_map_inv in Hstep. destruct Hstep as (x & Hx & Heq).
    rewrite Horder, nth_error_seq in Hx.
    destruct (Nat.ltb_spec i n) as [Hlt|Hge]; [|discriminate].
    injection Hx as <-. simpl in Heq.
    unfold entry_as_asserted.
    change (Kotlin.node entry) with (current (toStep entry)).
    change (Kotlin.distance entry) with (distance (toStep entry)).
    change (Kotlin.priorNode entry) with (previous (toStep entry)).
    rewrite Heq. split; [apply (inv_current (sh_inv Inv))|]. split.
    + now destruct (ring_distance n_pos Hwf line_names line_light line_chain
                      Inv Hhuge Hlt).
    + exact (ring_previous n_pos Hwf line_names line_light line_chain
               Inv Hhuge Hlt).
Qed.

End LineGraph.

Section LineCounts.

Variable n : nat.
Hypothesis n_pos : 1 <= n.

Lemma no_extra (c : graph_call nat) :
  In c [] -> exists x y w, c = CreateLink x y w /\ (Qnat n <= w)%Q.
Proof. intros []. Qed.

Lemma line_names_nil (x : nat) :
  In x (node_names (build (map run_call (line_calls n)) empty_graph)) <-> x < n.
Proof.
  pose proof (@line_names n [] n_pos no_extra x) as H.
  rewrite app_nil_r in H. exact H.
Qed.

Lemma line_light_nil (i : nat) :
  S i < n ->
  exists e,
    In e (out_edges_of (build (map run_call (line_calls n)) empty_graph) i) /\
    end_ e = S i /\ (weight e == 1)%Q.
Proof.
  intro Hi. pose proof (@line_light n [] n_pos i Hi) as H.
  rewrite app_nil_r in H. exact H.
Qed.

Variable i : nat.
Hypothesis i_lt : i < n.

(** From a node of the line only the nodes after it can be reached. *)
Lemma line_reach (x : nat) :
  reachable (build (map run_call (line_calls n)) empty_graph) i x -> i <= x.
Proof.
  induction 1 as [_|p e Hp IH He]; [lia|].
  apply (@line_only n n_pos) in He. lia.
Qed.

Lemma line_path (d : nat) :
  i + d < n ->
  exists w, path (build (map run_call (line_calls n)) empty_graph) i (i + d) w.
Proof.
  induction d as [|d IH]; intro Hd.
  - rewrite Nat.add_0_r. exists 0%Q. apply path_source.
    now apply line_names_nil.
  - destruct IH as [w Hp]; [lia|].
    destruct (@line_light_nil (i + d)) as (e & He & Hend & _); [lia|].
    exists (w + weight e)%Q. replace (i + S d) with (S (i + d)) by lia.
    rewrite <- Hend. now apply path_edge with (p := i + d).
Qed.

(** The sequence from the node [i] has an entry for each of the nodes
    from [i] on. *)
Lemma line_count :
  exists l,
    Kotlin.traversal
      (build (map runCall (line_calls n)) {| Kotlin.nodes := [] |}) i = Normal l /\
    List.length l = n - i.
Proof.
  set (k := build (map runCall (line_calls n)) {| Kotlin.nodes := [] |}).
  set (g := build (map run_call (line_calls n)) empty_graph).
  assert (Hk : toGraph k = g) by (unfold k, g; now rewrite build_toGraph).
  assert (Hwf : wf_graph g).
  { apply build_calls_wf. split; [apply wf_empty_graph|apply wf_links_empty]. }
  assert (Hs : In i (map fst (Kotlin.nodes k))).
  { rewrite <- names_toGraph, Hk. now apply line_names_nil. }
  destruct (@shortestPath_shortest _ _ k i)
    as (sq & acc & ws & st & Hsp & Hmap & Inv & Hhuge);
    [now rewrite Hk|exact Hs|].
  rewrite Hk in Inv.
  exists (Kotlin.toList (S (List.length (Kotlin.nodes k))) sq).
  split; [unfold Kotlin.traversal; now rewrite Hsp|].
  rewrite <- (length_map toStep), Hmap, length_map.
  rewrite <- (length_seq (n - i) i). apply Permutation_length.
  apply NoDup_Permutation.
  - eapply NoDup_app_remove_r. exact (inv_nodup (sh_inv Inv)).
  - apply seq_NoDup.
  - intro x. rewrite in_seq. split.
    + intro Hx. split.
      * apply line_reach. apply (inv_reachable (sh_inv Inv)).
        now apply (inv_finite (sh_inv Inv)).
      * assert (x < n); [|lia]. apply line_names_nil.
        apply (inv_nodes (sh_inv Inv)). apply in_or_app. now left.
    + intros [Hle Hlt]. destruct (@line_path (x - i)) as [w Hp]; [lia|].
      replace (i + (x - i)) with x in Hp by lia.
      now destruct (final_least Hwf Inv Hhuge Hp).
Qed.

End LineCounts.

(** X15: the assertions of the Kotlin test on its graph of nodes in a
    line hold, for any number [n] of nodes.  With the nodes 0 to [n]-1
    inserted and an edge of weight 1 to each node from the node before,
    the sequence of shortest paths from the node 0 has [n] entries, the
    [i]-th one for the node [i], at the distance [i] and reached from
    the node [i]-1; and the sequence from any node [i] has [n]-[i]
    entries: no node before [i] is reached. *)
Theorem X15_GraphTest_line_assertions (n : nat) :
  1 <= n ->
  (exists l,
     Kotlin.traversal
       (build (map runCall (line_calls n)) {| Kotlin.nodes := [] |}) 0 = Normal l /\
     List.length l = n /\
     forall i entry, nth_error l i = Some entry -> entry_as_asserted i entry) /\
  (forall i, i < n ->
     exists l,
       Kotlin.traversal
         (build (map runCall (line_calls n)) {| Kotlin.nodes := [] |}) i
         = Normal l /\
       List.length l = n - i).
Proof.
  intro Hn. split.
  - pose proof (@line_traversal n [] Hn (@no_extra n)) as H.
    rewrite app_nil_r in H. exact H.
  - intros i Hi. now apply line_count.
Qed.

Lemma X15_witness :
  (exists l,
     Kotlin.traversal
       (build (map runCall (line_calls 10)) {| Kotlin.nodes := [] |}) 0 = Normal l /\
     List.length l = 10 /\
     forall i entry, nth_error l i = Some entry -> entry_as_asserted i entry) /\
  (forall i, i < 10 ->
     exists l,
       Kotlin.traversal
         (build (map runCall (line_calls 10)) {| Kotlin.nodes := [] |}) i
         = Normal l /\
       List.length l = 10 - i).
Proof.
  apply X15_GraphTest_line_assertions. lia.
Defined.

Section CrossCalls.

Variable n : nat.
Variable w : Q.
Hypothesis n_pos : 1 <= n.
Hypothesis w_heavy : (Qnat n <= w)%Q.

Lemma heavy_positive : (0 < w)%Q.
Proof.
  eapply Qlt_le_trans; [|exact w_heavy].
  apply Qlt_le_trans with (y := Qnat 1); [reflexivity|]. now apply Qnat_le.
Qed.

Lemma pairs_map (C : Type) (f : nat -> nat -> C) (l l' : list nat) :
  flat_map (fun x => map (fun y => f x y) l') l =
  map (fun p => f (fst p) (snd p)) (list_prod l l').
Proof.
  induction l as [|a l IH]; simpl; [reflexivity|].
  now rewrite map_app, map_map, IH.
Qed.

Lemma pairs_nodup (l l' : list nat) :
  NoDup l -> NoDup l' -> NoDup (list_prod l l').
Proof.
  intros Hl Hl'. induction Hl as [|a l Ha Hl IH]; simpl; [constructor|].
  apply NoDup_app.
  - apply Finite.Injective_map_NoDup_in; [|exact Hl'].
    intros x y _ _ [= ->]. reflexivity.
  - exact IH.
  - intros [x y] Hin Hin'. apply in_map_iff in Hin.
    destruct Hin as (y' & [= <- <-] & _). apply in_prod_iff in Hin'. tauto.
Qed.

Lemma insertEdge_outcome (k : Kotlin.Graph nat) (x y : nat) :
  um_contains (Kotlin.nodes k) x = true -> um_contains (Kotlin.nodes k) y = true ->
  Kotlin.insertEdge x y w k =
  if edgeBetween k x y
  then (Thrown (GraphEdgeError "An edge already exists"), k)
  else (Normal tt, edgeInserted k x y w).
Proof.
  intros Hx Hy. rewrite insertEdge_eq, Hx, Hy. simpl.
  destruct (edgeBetween k x y); [reflexivity|].
  assert (Hq : Qle_bool w 0 = false).
  { destruct (Qle_bool w 0) eqn:E; [|reflexivity].
    apply Qle_bool_iff in E. exfalso. eapply Qlt_not_le; [apply heavy_positive|exact E]. }
  rewrite Hq. reflexivity.
Qed.

(** Calls for pairwise different pairs of nodes: a call throws when
    the two are linked by an edge of the line and returns otherwise. *)
Lemma cross_outcomes_pairs (P : list (nat * nat)) : forall k : Kotlin.Graph nat,
  NoDup P ->
  (forall p, In p P ->
     um_contains (Kotlin.nodes k) (fst p) = true /\
     um_contains (Kotlin.nodes k) (snd p) = true /\
     edgeBetween k (fst p) (snd p) = (fst p + 1 =? snd p)) ->
  outcomes (map runCall (map (fun p => CreateLink (fst p) (snd p) w) P)) k =
  map (fun p => if fst p + 1 =? snd p
                then Thrown (GraphEdgeError "An edge already exists")
                else Normal tt) P.
Proof.
  induction P as [|[x y] P IH]; intros k Hnd H; [reflexivity|].
  inversion Hnd as [|? ? Hnotin Hnd']. subst.
  destruct (H (x, y) (or_introl eq_refl)) as (Hx & Hy & Hb).
  cbn [fst snd] in Hx, Hy, Hb.
  cbn [map outcomes runCall fst snd].
  rewrite (insertEdge_outcome k x y Hx Hy), Hb.
  destruct (x + 1 =? y) eqn:E; cbn [fst snd]; f_equal.
  - apply IH; [exact Hnd'|]. intros p Hp. apply H. now right.
  - apply IH; [exact Hnd'|]. intros [a b] Hp.
    destruct (H (a, b) (or_intror Hp)) as (Ha & Hb' & Hab).
    cbn [fst snd] in *.
    pose proof (edgeInserted_added k x y w Hx Hy) as Hadd.
    rewrite !(um_contains_names _ _ (sameNames Hadd)).
    split; [exact Ha|]. split; [exact Hb'|].
    rewrite (linkAdded_between Hadd), Hab.
    destruct (keq a x) eqn:Ka; [|now rewrite orb_false_r].
    destruct (keq b y) eqn:Kb; [|now rewrite orb_false_r].
    apply keq_true in Ka, Kb. subst. contradiction.
Qed.

Lemma cross_heavy (c : graph_call nat) :
  In c (cross_calls n w) ->
  exists x y w', c = CreateLink x y w' /\ (Qnat n <= w')%Q.
Proof.
  intro Hc. unfold cross_calls in Hc. apply in_flat_map in Hc.
  destruct Hc as (x & _ & Hc). apply in_map_iff in Hc.
  destruct Hc as (y & <- & _). now exists x, y, w.
Qed.

Lemma cross_call_made (x y : nat) :
  x < n -> y < n -> In (CreateLink x y w) (cross_calls n w).
Proof.
  intros Hx Hy. unfold cross_calls. apply in_flat_map.
  exists x. split; [apply in_seq; lia|]. apply in_map_iff.
  exists y. split; [reflexivity|apply in_seq; lia].
Qed.

(** The line before the loops: its nodes, and where its edges are. *)
Lemma line_contains (x : nat) :
  x < n ->
  um_contains
    (Kotlin.nodes (build (map runCall (line_calls n)) {| Kotlin.nodes := [] |})) x
  = true.
Proof.
  intro Hx. rewrite <- contains_toGraph, build_toGraph.
  apply um_contains_In. now apply line_names_nil.
Qed.

Lemma line_between (x y : nat) :
  x < n -> y < n ->
  edgeBetween (build (map runCall (line_calls n)) {| Kotlin.nodes := [] |}) x y
  = (x + 1 =? y).
Proof.
  intros Hx Hy. rewrite <- edgeBetween_toGraph, build_toGraph.
  change (toGraph {| Kotlin.nodes := [] |}) with (@empty_graph nat).
  unfold edge_between. destruct (Nat.eqb_spec (x + 1) y) as [E|E].
  - apply existsb_exists.
    destruct (@line_light_nil n n_pos x) as (e & He & Hend & _); [lia|].
    exists e. split; [exact He|]. apply keq_true. lia.
  - destruct (existsb _ _) eqn:Hex; [|reflexivity].
    apply existsb_exists in Hex. destruct Hex as (e & He & Hend).
    apply keq_true in Hend. apply (@line_only n n_pos) in He. lia.
Qed.

Lemma cross_outcomes_hold :
  outcomes (map runCall (cross_calls n w))
    (build (map runCall (line_calls n)) {| Kotlin.nodes := [] |}) =
  cross_outcomes n.
Proof.
  unfold cross_calls, cross_outcomes.
  rewrite (pairs_map (fun x y => CreateLink x y w)).
  rewrite (pairs_map (fun x y => if x + 1 =? y
                                 then Thrown (GraphEdgeError "An edge already exists")
                                 else Normal tt)).
  apply cross_outcomes_pairs.
  - apply pairs_nodup; apply seq_NoDup.
  - intros [x y] Hp. apply in_prod_iff in Hp. destruct Hp as [Hx Hy].
    apply in_seq in Hx, Hy. cbn [fst snd].
    split; [apply line_contains; lia|]. split; [apply line_contains; lia|].
    apply line_between; lia.
Qed.

(** After the loops every node has an edge to every node. *)
Lemma cross_degree (node : Kotlin.GraphNode nat) :
  In node (Kotlin.iterator
             (build (map runCall (line_calls n ++ cross_calls n w))
                    {| Kotlin.nodes := [] |})) ->
  List.length (Kotlin.outEdges node) = n.
Proof.
  set (k := build (map runCall (line_calls n ++ cross_calls n w))
                  {| Kotlin.nodes := [] |}).
  set (g := build (map run_call (line_calls n ++ cross_calls n w)) empty_graph).
  assert (Hk : toGraph k = g) by (unfold k, g; now rewrite build_toGraph).
  assert (Hwf : wf_graph g).
  { apply build_calls_wf. split; [apply wf_empty_graph|apply wf_links_empty]. }
  intro Hnode. unfold Kotlin.iterator in Hnode. apply in_map_iff in Hnode.
  destruct Hnode as ([x nd] & Hsnd & Hin). simpl in Hsnd. subst nd.
  assert (Hnames : NoDup (map fst (Kotlin.nodes k))).
  { rewrite <- names_toGraph, Hk. exact (wf_names Hwf). }
  assert (Hx : x < n).
  { apply (@line_names n (cross_calls n w) n_pos cross_heavy).
    fold g. rewrite <- Hk, names_toGraph.
    apply in_map_iff. now exists (x, node). }
  assert (Hout : Kotlin.outEdges node = Kotlin.outEdgesOf k x).
  { unfold Kotlin.outEdgesOf. now rewrite (um_find_unique _ _ _ Hnames Hin). }
  rewrite Hout, <- (length_map toEdge), <- out_edges_toGraph, Hk.
  rewrite <- (length_map (@end_ nat)), <- (length_seq n 0).
  apply Permutation_length. apply NoDup_Permutation.
  - exact (wf_single Hwf x).
  - apply seq_NoDup.
  - intro y. rewrite in_seq. split.
    + intro Hy. apply in_map_iff in Hy. destruct Hy as (e & <- & He).
      assert (end_ e < n); [|lia].
      apply (@line_names n (cross_calls n w) n_pos cross_heavy).
      exact (wf_end Hwf _ _ He).
    + intros [_ Hy]. simpl in Hy.
      destruct (@build_link_there (cross_calls n w)
                  (build (map run_call (line_calls n)) empty_graph) x y w)
        as (e & He & Hend).
      * now apply cross_call_made.
      * now apply line_names_nil.
      * now apply line_names_nil.
      * apply heavy_positive.
      * apply in_map_iff. exists e. split; [exact Hend|].
        unfold g. now rewrite map_app, build_app.
Qed.

End CrossCalls.

(** X16: the assertions of the Kotlin test on its two nested loops
    hold, for any number [n] of nodes and any weight [w] of [n] or
    more.  Run on the graph of the nodes in a line, the call for an
    edge from a node to the next one throws a [GraphEdgeError], as
    [assertThrows] requires, and every other call returns; afterwards
    every node the graph iterates has [n] out-edges; and the sequence
    of shortest paths from the node 0 is as before: [n] entries, the
    [i]-th one for the node [i], at the distance [i] and reached from
    the node [i]-1. *)
Theorem X16_GraphTest_cross_assertions (n : nat) (w : Q) :
  1 <= n -> (Qnat n <= w)%Q ->
  outcomes (map runCall (cross_calls n w))
    (build (map runCall (line_calls n)) {| Kotlin.nodes := [] |}) =
  cross_outcomes n /\
  (forall node,
     In node (Kotlin.iterator
                (build (map runCall (line_calls n ++ cross_calls n w))
                       {| Kotlin.nodes := [] |})) ->
     List.length (Kotlin.outEdges node) = n) /\
  (exists l,
     Kotlin.traversal
       (build (map runCall (line_calls n ++ cross_calls n w))
              {| Kotlin.nodes := [] |}) 0 = Normal l /\
     List.length l = n /\
     forall i entry, nth_error l i = Some entry -> entry_as_asserted i entry).
Proof.
  intros Hn Hw. split; [now apply cross_outcomes_hold|]. split.
  - intros node Hnode. now apply (@cross_degree n w).
  - apply line_traversal; [exact Hn|]. intros c Hc.
    now apply (@cross_heavy n w).
Qed.

Lemma X16_witness :
  outcomes (map runCall (cross_calls 10 11))
    (build (map runCall (line_calls 10)) {| Kotlin.nodes := [] |}) =
  cross_outcomes 10 /\
  (forall node,
     In node (Kotlin.iterator
                (build (map runCall (line_calls 10 ++ cross_calls 10 11))
                       {| Kotlin.nodes := [] |})) ->
     List.length (Kotlin.outEdges node) = 10) /\
  (exists l,
     Kotlin.traversal
       (build (map runCall (line_calls 10 ++ cross_calls 10 11))
              {| Kotlin.nodes := [] |}) 0 = Normal l /\
     List.length l = 10 /\
     forall i entry, nth_error l i = Some entry -> entry_as_asserted i entry).
Proof.
  apply X16_GraphTest_cross_assertions.
  - lia.
  - unfold Qnat, Qle. simpl. lia.
Defined.

(** ** The first graph of the test *)

Section StarGraph.

Context {T : Type} {T_eq_dec : EqDec T}.

Variable a : T.

Lemma for_each_insertNode_wf (items : list T) : forall k : Kotlin.Graph T,
  wf_graph (toGraph k) ->
  wf_graph (toGraph (snd (for_each Kotlin.insertNode items k))).
Proof.
  induction items as [|x items IH]; intros k Hwf; simpl; [exact Hwf|].
  unfold bind. pose proof (insertNode_wf x Hwf) as Hwf'.
  destruct (Kotlin.insertNode x k) as [[u|ex] k1]; simpl in *.
  - now apply IH.
  - exact Hwf'.
Qed.

(** The loop that links the node [a] to every node. *)
Lemma star_loop (names : list T) : forall (todo done : list T) (k : Kotlin.Graph T),
  star_inv a names done k -> NoDup (done ++ todo) ->
  In a names -> incl todo names ->
  exists k',
    for_each (fun item => Kotlin.insertEdge a (Kotlin.name item) 1%Q)
      (map (fun n => {| Kotlin.name := n; Kotlin.outEdges := [];
                        Kotlin.inEdges := [] |}) todo) k = (Normal tt, k') /\
    star_inv a names (done ++ todo) k'.
Proof.
  induction todo as [|x todo IH]; intros done k Inv Hnd Ha Hincl.
  - exists k. rewrite app_nil_r. now split.
  - assert (Hca : um_contains (Kotlin.nodes k) a = true).
    { apply um_contains_In. now rewrite (star_names Inv). }
    assert (Hcx : um_contains (Kotlin.nodes k) x = true).
    { apply um_contains_In. rewrite (star_names Inv). apply Hincl. now left. }
    assert (Hb : edgeBetween k a x = false).
    { destruct (edgeBetween k a x) eqn:E; [|reflexivity].
      unfold edgeBetween in E. rewrite (star_out Inv) in E.
      apply existsb_exists in E. destruct E as (e & He & Hend).
      apply in_map_iff in He. destruct He as (y & <- & Hy).
      apply keq_true in Hend. simpl in Hend. subst y.
      apply NoDup_remove_2 in Hnd. exfalso. apply Hnd.
      apply in_or_app. now left. }
    assert (Heq : Kotlin.insertEdge a x 1%Q k = (Normal tt, edgeInserted k a x 1%Q)).
    { rewrite insertEdge_eq, Hca, Hcx, Hb. reflexivity. }
    pose proof (edgeInserted_added k a x 1%Q Hca Hcx) as Hadd.
    destruct (IH (done ++ [x]) (edgeInserted k a x 1%Q)) as (k' & Hrun & Inv').
    + split.
      * rewrite (sameNames Hadd). exact (star_names Inv).
      * pose proof (insertEdge_wf a x 1%Q (star_wf Inv)) as Hwf.
        now rewrite Heq in Hwf.
      * rewrite (addedOut Hadd), (star_out Inv), map_app. reflexivity.
      * intros n Hn. rewrite (otherOut Hadd) by assumption.
        now apply (star_other Inv).
    + now rewrite <- app_assoc.
    + exact Ha.
    + intros y Hy. apply Hincl. now right.
    + exists k'. split.
      * cbn [map for_each Kotlin.name]. unfold bind. now rewrite Heq.
      * now rewrite <- app_assoc in Inv'.
Qed.

Lemma star_graph_built (items : list T) :
  NoDup items -> In a items ->
  exists graph, star_graph a items = Normal graph /\ star_inv a items items graph.
Proof.
  intros Hnd Ha.
  set (node := fun n : T => {| Kotlin.name := n; Kotlin.outEdges := [];
                               Kotlin.inEdges := [] |}).
  set (k0 := {| Kotlin.nodes := map (fun n => (n, node n)) items |}).
  assert (Hmake : for_each Kotlin.insertNode items {| Kotlin.nodes := [] |}
                  = (Normal tt, k0)).
  { now rewrite for_each_insertNode. }
  assert (Hout : forall n, Kotlin.outEdgesOf k0 n = []).
  { intro n. unfold Kotlin.outEdgesOf.
    destruct (um_find (Kotlin.nodes k0) n) as [nd|] eqn:E; [|reflexivity].
    apply um_find_In in E. apply in_map_iff in E.
    destruct E as (y & [= _ <-] & _). reflexivity. }
  assert (Inv0 : star_inv a items [] k0).
  { split.
    - unfold k0. simpl. rewrite map_map. simpl. apply map_id.
    - pose proof (@for_each_insertNode_wf items {| Kotlin.nodes := [] |}
                    (@wf_empty_graph T _)) as Hwf.
      now rewrite Hmake in Hwf.
    - apply Hout.
    - intros n _. apply Hout. }
  destruct (@star_loop items items [] k0 Inv0 Hnd Ha (incl_refl _))
    as (k' & Hrun & Inv').
  exists k'. split; [|exact Inv'].
  unfold star_graph, Kotlin.makeGraphNodes. rewrite Hmake.
  unfold Kotlin.iterator. change (Kotlin.nodes k0) with (map (fun n => (n, node n)) items).
  rewrite map_map. cbn [snd]. fold node in Hrun. unfold node in *.
  now rewrite Hrun.
Qed.

End StarGraph.

Section StarTraversal.

Context {T : Type} {T_eq_dec : EqDec T}.

Variable a : T.
Variable names done : list T.
Variable k : Kotlin.Graph T.
Hypothesis Inv : star_inv a names done k.
Hypothesis done_nodup : NoDup done.
Hypothesis a_done : In a done.
Hypothesis done_names : incl done names.

Lemma star_edge_of (p : T) (e : graph_edge T) :
  In e (out_edges_of (toGraph k) p) ->
  p = a /\ weight e = 1%Q /\ In (end_ e) done.
Proof.
  rewrite out_edges_toGraph. intro He.
  destruct (eq_dec p a) as [->|Hp].
  - rewrite (star_out Inv), map_map in He. apply in_map_iff in He.
    destruct He as (x & <- & Hx). simpl. auto.
  - rewrite (star_other Inv) in He by assumption. contradiction.
Qed.

Lemma star_source : In a (node_names (toGraph k)).
Proof. rewrite names_toGraph, (star_names Inv). now apply done_names. Qed.

Lemma star_bound (x : T) (d : Q) :
  path (toGraph k) a x d -> (0 <= d)%Q /\ (x <> a -> (1 <= d)%Q) /\ In x done.
Proof.
  induction 1 as [_|p e w Hp (Hw & _ & _) He].
  - split; [apply Qle_refl|]. split; [contradiction|exact a_done].
  - apply star_edge_of in He. destruct He as (_ & Hwe & Hend).
    rewrite Hwe. split; [|split; [intros _|exact Hend]].
    + apply Qle_trans with (y := w); [exact Hw|].
      rewrite <- (Qplus_0_r w) at 1. apply Qplus_le_compat; [apply Qle_refl|].
      discriminate.
    + rewrite <- (Qplus_0_l 1) at 1. apply Qplus_le_compat; [exact Hw|apply Qle_refl].
Qed.

Lemma star_reach (x : T) : In x done -> path (toGraph k) a x (0 + 1)%Q.
Proof.
  intro Hx.
  change x with (end_ {| weight := 1%Q; start := a; end_ := x |}).
  change 1%Q with (weight {| weight := 1%Q; start := a; end_ := x |}) at 2.
  apply path_edge with (p := a); [apply path_source, star_source|].
  rewrite out_edges_toGraph, (star_out Inv), map_map. apply in_map_iff.
  now exists x.
Qed.

(** The sequence from [a] has one entry for each node [a] is linked
    to, at the distance the test asserts. *)
Lemma star_traversal :
  exists l,
    Kotlin.traversal k a = Normal l /\
    List.length l = List.length done /\
    forall entry, In entry l -> In (Kotlin.node entry) done /\ star_entry a entry.
Proof.
  destruct (@shortestPath_shortest _ _ k a (star_wf Inv))
    as (sq & acc & ws & st & Hsp & Hmap & Sh & Hhuge).
  { rewrite <- names_toGraph. apply star_source. }
  assert (Hacc : forall x, In x acc <-> In x done).
  { intro x. split.
    - intro Hx. apply In_nth_error in Hx. destruct Hx as [i Hi].
      destruct (final_path star_source Sh i Hi) as (d & _ & Hp).
      now apply star_bound in Hp.
    - intro Hx. now destruct (final_least (star_wf Inv) Sh Hhuge (star_reach x Hx)). }
  exists (Kotlin.toList (S (List.length (Kotlin.nodes k))) sq).
  split; [unfold Kotlin.traversal; now rewrite Hsp|]. split.
  - rewrite <- (length_map toStep), Hmap, length_map.
    apply Permutation_length. apply NoDup_Permutation.
    + eapply NoDup_app_remove_r. exact (inv_nodup (sh_inv Sh)).
    + exact done_nodup.
    + exact Hacc.
  - intros entry Hentry.
    assert (Hstep : In (toStep entry) (map st acc)).
    { rewrite <- Hmap. now apply in_map. }
    apply in_map_iff in Hstep. destruct Hstep as (x & Heq & Hx).
    assert (Hnode : Kotlin.node entry = x).
    { change (Kotlin.node entry) with (current (toStep entry)).
      rewrite <- Heq. apply (inv_current (sh_inv Sh)). }
    split; [rewrite Hnode; now apply Hacc|].
    unfold star_entry. rewrite Hnode.
    change (Kotlin.distance entry) with (distance (toStep entry)).
    rewrite <- Heq.
    destruct (eq_dec x a) as [->|Hxa].
    + rewrite keq_refl. exists 0%Q. split; [|reflexivity].
      pose proof (inv_source (sh_inv Sh)) as Hsrc.
      destruct acc as [|a' acc']; [contradiction|].
      destruct Hsrc as [_ ->]. reflexivity.
    + assert (Hk : keq x a = false) by (now apply keq_false).
      rewrite Hk.
      pose proof Hx as Hx'. apply In_nth_error in Hx'. destruct Hx' as [i Hi].
      destruct (final_path star_source Sh i Hi) as (d & Hd & Hp).
      exists d. split; [exact Hd|].
      apply star_bound in Hp. destruct Hp as (_ & Hlow & Hdone).
      destruct (final_least (star_wf Inv) Sh Hhuge (star_reach x Hdone))
        as (_ & d' & Hd' & Hup).
      rewrite Hd in Hd'. injection Hd' as <-.
      apply Qle_antisym; [|now apply Hlow].
      now rewrite Qplus_0_l in Hup.
Qed.

End StarTraversal.

Section StarTest.

Context {T : Type} {T_eq_dec : EqDec T}.

(** A node inserted after the loop is a node without edges. *)
Lemma star_insertNode (a e : T) (items : list T) (graph : Kotlin.Graph T) :
  star_inv a items items graph -> In a items -> ~ In e items ->
  exists graph',
    Kotlin.insertNode e graph = (Normal tt, graph') /\
    star_inv a (items ++ [e]) items graph' /\
    List.length (Kotlin.iterator graph') = S (List.length items).
Proof.
  intros Inv Ha He.
  assert (Hfresh : ~ In e (map fst (Kotlin.nodes graph))).
  { now rewrite (star_names Inv). }
  assert (Hc : um_contains (Kotlin.nodes graph) e = false).
  { destruct (um_contains (Kotlin.nodes graph) e) eqn:E; [|reflexivity].
    apply um_contains_In in E. contradiction. }
  assert (Heq : Kotlin.insertNode e graph =
                (Normal tt,
                 {| Kotlin.nodes :=
                      Kotlin.nodes graph ++
                      [(e, {| Kotlin.name := e; Kotlin.outEdges := [];
                              Kotlin.inEdges := [] |})] |})).
  { rewrite insertNode_eq, Hc. now rewrite um_assign_keys_fresh. }
  eexists. split; [exact Heq|].
  assert (Hout : forall n,
    Kotlin.outEdgesOf
      {| Kotlin.nodes :=
           Kotlin.nodes graph ++
           [(e, {| Kotlin.name := e; Kotlin.outEdges := [];
                   Kotlin.inEdges := [] |})] |} n = Kotlin.outEdgesOf graph n).
  { intro n. unfold Kotlin.outEdgesOf. cbn [Kotlin.nodes]. rewrite um_find_app.
    destruct (um_find (Kotlin.nodes graph) n) as [nd|] eqn:E; [reflexivity|].
    simpl. destruct (eq_dec n e); reflexivity. }
  split; [split|].
  - cbn [Kotlin.nodes]. rewrite map_app, (star_names Inv). reflexivity.
  - pose proof (insertNode_wf e (star_wf Inv)) as Hwf. now rewrite Heq in Hwf.
  - rewrite Hout. exact (star_out Inv).
  - intros n Hn. rewrite Hout. now apply (star_other Inv).
  - unfold Kotlin.iterator. cbn [Kotlin.nodes].
    rewrite length_map, length_app, <- (length_map fst), (star_names Inv).
    simpl. lia.
Qed.

(** X17: the assertions of the Kotlin test on its first graph hold,
    for any names.  For pairwise different names [items], [a] one of
    them: [makeGraphNodes] and the loop that links [a] to every node
    return; the sequence of shortest paths from [a] has as many
    entries as there are names, the entry of [a] at the distance 0 and
    every other entry at the distance 1; and once a node [e] of a new
    name has been inserted the sequence has the same number of
    entries, none of them for [e], while the graph iterates one node
    more. *)
Theorem X17_GraphTest_star_assertions (a e : T) (items : list T) :
  NoDup items -> In a items -> ~ In e items ->
  exists graph graph',
    star_graph a items = Normal graph /\
    (exists l,
       Kotlin.traversal graph a = Normal l /\
       List.length l = List.length items /\
       forall entry, In entry l -> star_entry a entry) /\
    Kotlin.insertNode e graph = (Normal tt, graph') /\
    (exists l,
       Kotlin.traversal graph' a = Normal l /\
       List.length l = List.length items /\
       forall entry, In entry l -> Kotlin.node entry <> e) /\
    List.length (Kotlin.iterator graph') = S (List.length items).
Proof.
  intros Hnd Ha He.
  destruct (@star_graph_built _ _ a items Hnd Ha) as (graph & Hgraph & Inv).
  destruct (@star_insertNode a e items graph Inv Ha He) as (graph' & Hins & Inv' & Hlen).
  exists graph, graph'. split; [exact Hgraph|]. split; [|split; [exact Hins|split]].
  - destruct (@star_traversal _ _ a items items graph Inv Hnd Ha (incl_refl _))
      as (l & Hl & Hcount & Hall).
    exists l. split; [exact Hl|]. split; [exact Hcount|].
    intros entry Hentry. now apply Hall.
  - destruct (@star_traversal _ _ a (items ++ [e]) items graph' Inv' Hnd Ha)
      as (l & Hl & Hcount & Hall).
    { intros x Hx. apply in_or_app. now left. }
    exists l. split; [exact Hl|]. split; [exact Hcount|].
    intros entry Hentry Heq. destruct (Hall entry Hentry) as [Hin _].
    rewrite Heq in Hin. contradiction.
  - exact Hlen.
Qed.

End StarTest.

Lemma X17_witness :
  exists graph graph',
    star_graph "A"%string ["A"; "B"; "C"; "D"]%string = Normal graph /\
    (exists l,
       Kotlin.traversal graph "A"%string = Normal l /\
       List.length l = List.length ["A"; "B"; "C"; "D"]%string /\
       forall entry, In entry l -> star_entry "A"%string entry) /\
    Kotlin.insertNode "E"%string graph = (Normal tt, graph') /\
    (exists l,
       Kotlin.traversal graph' "A"%string = Normal l /\
       List.length l = List.length ["A"; "B"; "C"; "D"]%string /\
       forall entry, In entry l -> Kotlin.node entry <> "E"%string) /\
    List.length (Kotlin.iterator graph') =
    S (List.length ["A"; "B"; "C"; "D"]%string).
Proof.
  apply X17_GraphTest_star_assertions.
  - repeat constructor; simpl; intuition discriminate.
  - now left.
  - simpl. intuition discriminate.
Defined.

(** ** A graph with every link *)

Section Saturated.

Variable size : nat.
Variables array array' : list nat.
Variable w : Q.
Hypothesis size_pos : 1 <= size.
Hypothesis array_perm : Permutation array (seq 0 size).
Hypothesis array'_perm : Permutation array' (seq 0 size).
Hypothesis w_heavy : (Qnat size <= w)%Q.

Lemma saturated_split :
  build (map run_call (ring_calls size array array' ++ heavy_calls size w))
        empty_graph =
  build (map run_call (heavy_calls size w))
    (build (map run_call
              (map (fun a => CreateLink a ((a + 1) mod size) 1%Q) array'))
       (build (map run_call (map CreateNode array)) empty_graph)).
Proof. unfold ring_calls. now rewrite !map_app, !build_app. Qed.

Lemma saturated_nodes (x : nat) :
  x < size ->
  In x (node_names (build (map run_call (map CreateNode array)) empty_graph)).
Proof.
  intro Hx. apply create_nodes_names.
  apply (Permutation_in _ (Permutation_sym array_perm)). apply in_seq. lia.
Qed.

Lemma saturated_names (x : nat) :
  In x (node_names
          (build (map run_call (ring_calls size array array' ++ heavy_calls size w))
                 empty_graph)) ->
  x < size.
Proof.
  intro Hx. apply build_names_only in Hx. destruct Hx as [[]|Hx].
  apply in_app_or in Hx. destruct Hx as [Hx|Hx].
  - unfold ring_calls in Hx. apply in_app_or in Hx. destruct Hx as [Hx|Hx].
    + apply in_map_iff in Hx. destruct Hx as (a & [= ->] & Ha).
      apply (Permutation_in _ array_perm) in Ha. apply in_seq in Ha. lia.
    + apply in_map_iff in Hx. destruct Hx as (a & Heq & _). discriminate.
  - unfold heavy_calls in Hx. apply in_flat_map in Hx.
    destruct Hx as (i & _ & Hx). apply in_flat_map in Hx.
    destruct Hx as (j & _ & Hx).
    destruct ((i + 1) mod size =? j); [contradiction|].
    destruct Hx as [Hx|[]]. discriminate.
Qed.

(** Once the two nested loops are over there is an edge from every
    node to every node. *)
Lemma saturated_between (a b : nat) :
  a < size -> b < size ->
  edge_between
    (build (map run_call (ring_calls size array array' ++ heavy_calls size w))
           empty_graph) a b = true.
Proof.
  intros Ha Hb. rewrite saturated_split. unfold edge_between.
  apply existsb_exists.
  destruct (Nat.eq_dec ((a + 1) mod size) b) as [Heq|Hne].
  - destruct (@ring_links_there size array'
                (build (map run_call (map CreateNode array)) empty_graph) a)
      as (e & He & Hend & _).
    + intros p e He. now apply nodes_no_edges in He.
    + exact saturated_nodes.
    + exact size_pos.
    + apply (Permutation_in _ (Permutation_sym array'_perm)). apply in_seq. lia.
    + exact Ha.
    + exists e. split; [now apply build_keeps|]. apply keq_true. congruence.
  - destruct (@build_link_there (heavy_calls size w)
                (build (map run_call
                          (map (fun a => CreateLink a ((a + 1) mod size) 1%Q) array'))
                   (build (map run_call (map CreateNode array)) empty_graph))
                a b w) as (e & He & Hend).
    + unfold heavy_calls. apply in_flat_map. exists a.
      split; [apply in_seq; lia|]. apply in_flat_map. exists b.
      split; [apply in_seq; lia|].
      destruct (Nat.eqb_spec ((a + 1) mod size) b); [contradiction|now left].
    + apply build_names. now apply saturated_nodes.
    + apply build_names. now apply saturated_nodes.
    + now apply (@heavy_positive size w).
    + exists e. split; [exact He|]. now apply keq_true.
Qed.

(** X18: once the test has made its ring and the heavy links between
    all the other pairs of nodes, every further call of [create_link]
    throws a [domain_error] and leaves the graph as it is, whatever
    its nodes and its weight: a node is missing, the weight is not
    positive, or the two nodes are linked already.  So the calls under
    [EXPECT_THROW] that end the test throw. *)
Theorem X18_saturated_graph_rejects_links (a b : nat) (w' : Q) :
  exists what,
    create_link a b w'
      (build (map run_call (ring_calls size array array' ++ heavy_calls size w))
             empty_graph) =
    (Thrown (domain_error what),
     build (map run_call (ring_calls size array array' ++ heavy_calls size w))
           empty_graph).
Proof.
  set (g := build (map run_call (ring_calls size array array' ++ heavy_calls size w))
                  empty_graph).
  rewrite create_link_eq.
  destruct (um_contains (nodes g) a) eqn:Ha; [|eexists; reflexivity].
  destruct (um_contains (nodes g) b) eqn:Hb; [|eexists; reflexivity].
  simpl. destruct (Qle_bool w' 0); [eexists; reflexivity|].
  apply um_contains_In in Ha, Hb.
  unfold g. rewrite saturated_between; [eexists; reflexivity| |];
    now apply saturated_names.
Qed.

End Saturated.

Lemma X18_witness :
  exists what,
    create_link 2 3 4%Q
      (build (map run_call (ring_calls 10 (seq 0 10) (seq 0 10) ++ heavy_calls 10 11))
             empty_graph) =
    (Thrown (domain_error what),
     build (map run_call (ring_calls 10 (seq 0 10) (seq 0 10) ++ heavy_calls 10 11))
           empty_graph).
Proof.
  apply X18_saturated_graph_rejects_links.
  - lia.
  - apply Permutation_refl.
  - apply Permutation_refl.
  - unfold Qnat, Qle. simpl. lia.
Defined.

(** ** A ring with links missing *)

Section PartialRing.

(** A list of numbers without repetition, in ascending order, that
    holds with a number the numbers from [a] up to it, is the list of
    the numbers from [a] on, in a row. *)
Lemma closed_seq (l : list nat) : forall a : nat,
  NoDup l ->
  (forall x, In x l -> a <= x) ->
  (forall x j, In x l -> a <= j < x -> In j l) ->
  (forall i j x y, i <= j -> nth_error l i = Some x -> nth_error l j = Some y ->
                   x <= y) ->
  l = seq a (List.length l).
Proof.
  induction l as [|h t IH]; intros a Hnd Hlow Hclosed Hsort; [reflexivity|].
  simpl.
  assert (Hh : h = a).
  { assert (a <= h) by (apply Hlow; now left).
    destruct (Nat.eq_dec h a) as [E|E]; [exact E|].
    assert (Ha : In a (h :: t)) by (apply (Hclosed h a); [now left|lia]).
    apply In_nth_error in Ha. destruct Ha as [j Hj].
    assert (h <= a) by (apply (Hsort 0 j h a); [lia|reflexivity|exact Hj]).
    lia. }
  subst h. f_equal. inversion Hnd as [|? ? Hnotin Hnd']. subst.
  apply IH; [exact Hnd'| | |].
  - intros x Hx. assert (x <> a) by (intros ->; contradiction).
    assert (a <= x) by (apply Hlow; now right). lia.
  - intros x j Hx Hj.
    assert (Hj' : In j (a :: t)) by (apply (Hclosed x j); [now right|lia]).
    destruct Hj' as [->|Hj']; [lia|exact Hj'].
  - intros i j x y Hij Hx Hy. apply (Hsort (S i) (S j) x y); [lia|exact Hx|exact Hy].
Qed.

Variable size : nat.
Variable g : graph nat.
Hypothesis size_pos : 1 <= size.
Hypothesis g_wf : wf_graph g.
Hypothesis g_names : forall x, In x (node_names g) <-> x < size.
Hypothesis g_only : forall p e, In e (out_edges_of g p) ->
  end_ e = (p + 1) mod size /\ (weight e == 1)%Q.

Lemma partial_edges : chain_edges size g.
Proof. intros p e He. left. now apply g_only. Qed.

(** A path from the node 0 goes through all the nodes before its end. *)
Lemma partial_chain (x : nat) (w : Q) :
  path g 0 x w ->
  forall j, j < x ->
    exists e, In e (out_edges_of g j) /\ end_ e = S j /\ (weight e == 1)%Q.
Proof.
  induction 1 as [_|p e w Hp IH He]; intros j Hj; [lia|].
  destruct (g_only p e He) as [Hend Hw].
  assert (Hps : p < size).
  { apply g_names. apply (wf_start g_wf) in He as Hs.
    destruct (in_dec Nat.eq_dec p (node_names g)) as [Hin|Hnin]; [exact Hin|].
    apply um_find_None in Hnin. unfold out_edges_of in He.
    rewrite Hnin in He. contradiction. }
  destruct (Nat.eq_dec (p + 1) size) as [Heq|Hne].
  - rewrite Hend, Heq, Nat.Div0.mod_same in Hj. lia.
  - rewrite Hend, Nat.mod_small in Hj by lia.
    destruct (Nat.eq_dec j p) as [->|Hjp].
    + exists e. split; [exact He|]. split; [|exact Hw].
      rewrite Hend, Nat.mod_small; lia.
    + apply IH. lia.
Qed.

Lemma partial_path (x : nat) :
  (forall j, j < x ->
     exists e, In e (out_edges_of g j) /\ end_ e = S j /\ (weight e == 1)%Q) ->
  exists w, path g 0 x w /\ (w == Qnat x)%Q.
Proof.
  induction x as [|x IH]; intro Hx.
  - exists 0%Q. split; [apply path_source; apply g_names; lia|reflexivity].
  - destruct IH as (w & Hp & Hw); [intros j Hj; apply Hx; lia|].
    destruct (Hx x) as (e & He & Hend & Hwe); [lia|].
    exists (w + weight e)%Q. split.
    + rewrite <- Hend. now apply path_edge with (p := x).
    + rewrite Hw, Hwe. symmetry. apply Qnat_S.
Qed.

Variable ws : list nat.
Variable st : nat -> dijkstra_iteration_step nat.
Variable acc : list nat.
Hypothesis Inv : shortest_inv g 0 ws st acc.
Hypothesis Hhuge : forall n, In n ws -> is_huge (distance (st n)) = true.

Lemma partial_source : In 0 (node_names g).
Proof. apply g_names. lia. Qed.

Lemma partial_links (x : nat) :
  In x acc ->
  forall j, j < x ->
    exists e, In e (out_edges_of g j) /\ end_ e = S j /\ (weight e == 1)%Q.
Proof.
  intro Hx. apply In_nth_error in Hx. destruct Hx as [i Hi].
  destruct (final_path partial_source Inv i Hi) as (d & _ & Hp).
  exact (partial_chain Hp).
Qed.

Lemma partial_selected (x : nat) :
  In x acc <->
  forall j, j < x ->
    exists e, In e (out_edges_of g j) /\ end_ e = S j /\ (weight e == 1)%Q.
Proof.
  split; [apply partial_links|].
  intro Hx. destruct (partial_path Hx) as (w & Hp & _).
  now destruct (final_least g_wf Inv Hhuge Hp).
Qed.

Lemma partial_distance (x : nat) :
  In x acc -> exists d, distance (st x) = Finite d /\ (d == Qnat x)%Q.
Proof.
  intro Hx. destruct (partial_path (partial_links Hx)) as (w & Hp & Hw).
  destruct (final_least g_wf Inv Hhuge Hp) as (Hin & d & Hd & Hle).
  exists d. split; [exact Hd|].
  apply In_nth_error in Hin. destruct Hin as [i Hi].
  destruct (final_path partial_source Inv i Hi) as (d' & Hd' & Hp').
  rewrite Hd in Hd'. injection Hd' as <-.
  apply Qle_antisym.
  - now rewrite <- Hw.
  - exact (ring_potential size_pos g_wf g_names partial_edges Hp').
Qed.

Lemma partial_order : acc = seq 0 (List.length acc).
Proof.
  apply closed_seq.
  - eapply NoDup_app_remove_r. exact (inv_nodup (sh_inv Inv)).
  - intros x _. lia.
  - intros x j Hx Hj. apply partial_selected.
    intros j' Hj'. apply (partial_links Hx). lia.
  - intros i j x y Hij Hx Hy.
    pose proof (inv_sorted (sh_inv Inv) Hij Hx Hy) as Hle.
    destruct (@partial_distance x (nth_error_In _ _ Hx)) as (dx & Hdx & Hex).
    destruct (@partial_distance y (nth_error_In _ _ Hy)) as (dy & Hdy & Hey).
    rewrite Hdx, Hdy in Hle. simpl in Hle. apply Qle_bool_iff in Hle.
    apply Qnat_le. now rewrite <- Hex, <- Hey.
Qed.

Lemma partial_previous (i : nat) :
  In i acc -> previous (st i) = match i with 0 => None | S j => Some j end.
Proof.
  intro Hi.
  assert (Hn : nth_error acc i = Some i).
  { pose proof Hi as Hi'. rewrite partial_order in Hi'. apply in_seq in Hi'.
    rewrite partial_order, nth_error_seq.
    destruct (Nat.ltb_spec i (List.length acc)); [reflexivity|lia]. }
  destruct (@first_only nat _ st 0 ws acc g i i Inv Hn) as [Hnone _].
  destruct i as [|j]; [now apply Hnone|].
  destruct (previous (st (S j))) as [p|] eqn:Hp.
  - destruct (inv_previous (sh_inv Inv) _ Hp) as (Hpin & e & He & Hend & Hd).
    destruct (@partial_distance p Hpin) as (dp & Hdp & Hep).
    destruct (@partial_distance (S j) Hi) as (d & Hdi & Hei).
    rewrite Hdi, Hdp in Hd. simpl in Hd. injection Hd as Hd.
    assert (Hsum : (Qnat (S j) == Qnat p + weight e)%Q).
    { rewrite <- Hei, <- Hep, Hd. reflexivity. }
    destruct (g_only p e He) as [_ Hw].
    rewrite Hw, <- Qnat_S in Hsum. apply Qnat_eq in Hsum.
    now injection Hsum as ->.
  - assert (S j = 0) by (now apply Hnone). discriminate.
Qed.

End PartialRing.

(** X19: the loop of the test over the traversal asserts what holds
    whichever links of the ring were made, for every [size] up to
    2^24, below which [float(i)] is [i].  With the nodes 0 to
    [size]-1 created in any order and a link of weight 1 to the next
    node made from the nodes [links] only, the [i]-th step of the
    traversal from the node 0 is the step of the node [i], at a
    distance equal to [float(i)], with the node [i]-1 before it; and
    the traversal
    stops before the first node that the links from 0 on do not lead
    to: it has a step for the node [x] exactly when every node before
    [x] is in [links]. *)
Theorem X19_partial_ring_steps_in_order (size : nat) (array links : list nat) :
  1 <= size -> (Z.of_nat size <= 2 ^ 24)%Z -> Permutation array (seq 0 size) ->
  exists l,
    traverse (build (map run_call (ring_calls size array links)) empty_graph) 0
      = Normal l /\
    (forall i step, nth_error l i = Some step -> step_as_asserted i step) /\
    (forall x, x < List.length l <->
               x < size /\ forall j, j < x -> In j links).
Proof.
  intros Hsize Hfloat Harr.
  set (g := build (map run_call (ring_calls size array links)) empty_graph).
  set (g0 := build (map run_call (map CreateNode array)) empty_graph).
  set (calls := map (fun a => CreateLink a ((a + 1) mod size) 1%Q) links).
  assert (Hsplit : g = build (map run_call calls) g0).
  { unfold g, ring_calls. now rewrite map_app, build_app. }
  assert (Hwf : wf_graph g).
  { apply build_calls_wf. split; [apply wf_empty_graph|apply wf_links_empty]. }
  assert (Hnodes : forall x, x < size -> In x (node_names g0)).
  { intros x Hx. apply create_nodes_names.
    apply (Permutation_in _ (Permutation_sym Harr)). apply in_seq. lia. }
  assert (Hnames : forall x, In x (node_names g) <-> x < size).
  { intro x. split.
    - intro Hx. apply build_names_only in Hx. destruct Hx as [[]|Hx].
      unfold ring_calls in Hx. apply in_app_or in Hx. destruct Hx as [Hx|Hx].
      + apply in_map_iff in Hx. destruct Hx as (a & [= ->] & Ha).
        apply (Permutation_in _ Harr) in Ha. apply in_seq in Ha. lia.
      + apply in_map_iff in Hx. destruct Hx as (a & Heq & _). discriminate.
    - intro Hx. rewrite Hsplit. apply build_names. now apply Hnodes. }
  assert (Hcall : forall p e, In e (out_edges_of g p) ->
            In p links /\ end_ e = (p + 1) mod size /\ weight e = 1%Q).
  { intros p e He. apply build_edges_only in He. destruct He as [[]|He].
    unfold ring_calls in He. apply in_app_or in He. destruct He as [He|He].
    - apply in_map_iff in He. destruct He as (a & Heq & _). discriminate.
    - apply in_map_iff in He. destruct He as (a & [= -> Hend Hw] & Ha).
      split; [exact Ha|]. split; congruence. }
  assert (Honly : forall p e, In e (out_edges_of g p) ->
            end_ e = (p + 1) mod size /\ (weight e == 1)%Q).
  { intros p e He. destruct (Hcall p e He) as (_ & Hend & Hw).
    split; [exact Hend|now rewrite Hw]. }
  assert (Hs : In 0 (node_names g)) by (apply Hnames; lia).
  destruct (@traverse_shortest _ _ g 0 Hwf Hs) as (acc & ws & st & Hrun & Inv & Hhuge).
  pose proof (partial_order Hsize Hwf Hnames Honly Inv Hhuge) as Horder.
  exists (map st acc). split; [exact Hrun|]. split.
  - intros i step Hstep.
    apply nth_error_map_inv in Hstep. destruct Hstep as (n & Hn & ->).
    pose proof (nth_error_In _ _ Hn) as Hin.
    rewrite Horder, nth_error_seq in Hn.
    destruct (Nat.ltb_spec i (List.length acc)) as [Hi|Hi]; [|discriminate].
    injection Hn as <-. simpl in Hin.
    split; [apply (inv_current (sh_inv Inv))|]. split.
    + assert (Hd : exists d, distance (st i) = Finite d /\ (d == Qnat i)%Q).
      { eapply (@partial_distance size g); eassumption. }
      destruct Hd as (d & Hd & Hdi). exists d. split; [exact Hd|].
      apply float_distance with (size := size); [exact Hfloat| |exact Hdi].
      apply Hnames. apply (inv_nodes (sh_inv Inv)). apply in_or_app. now left.
    + eapply (@partial_previous size g); eassumption.
  - intro x. rewrite length_map. split.
    + intro Hx.
      assert (Hin : In x acc) by (rewrite Horder; apply in_seq; lia).
      split.
      * apply Hnames. apply (inv_nodes (sh_inv Inv)). apply in_or_app. now left.
      * intros j Hj.
        assert (Hlink : exists e, In e (out_edges_of g j) /\ end_ e = S j /\
                                  (weight e == 1)%Q).
        { eapply (@partial_links size g); eassumption. }
        destruct Hlink as (e & He & _).
        now destruct (Hcall j e He).
    + intros [Hx Hall].
      assert (Hin : In x acc).
      { eapply (@partial_selected size g); try eassumption.
        intros j Hj.
        destruct (@build_link_there calls g0 j ((j + 1) mod size) 1%Q)
          as (e & He & Hend).
        - unfold calls. apply in_map_iff. exists j. split; [reflexivity|].
          now apply Hall.
        - apply Hnodes. lia.
        - apply Hnodes. apply Nat.mod_upper_bound. lia.
        - reflexivity.
        - rewrite <- Hsplit in He. exists e. split; [exact He|].
          destruct (Honly j e He) as [_ Hw]. split; [|exact Hw].
          rewrite Hend. rewrite Nat.mod_small; lia. }
      rewrite Horder in Hin. apply in_seq in Hin. lia.
Qed.

Lemma X19_witness :
  exists l,
    traverse (build (map run_call (ring_calls 5 [4; 3; 2; 1; 0] [1; 0; 3]))
                    empty_graph) 0
      = Normal l /\
    (forall i step, nth_error l i = Some step -> step_as_asserted i step) /\
    (forall x, x < List.length l <->
               x < 5 /\ forall j, j < x -> In j [1; 0; 3]).
Proof.
  apply X19_partial_ring_steps_in_order.
  - lia.
  - simpl. lia.
  - apply Permutation_sym. exact (Permutation_rev (seq 0 5)).
Defined.
